(** * Catalog extensions: listing overlays and facet filter state

    A shallow embedding of the browser scripts of [catalog_extensions]:

    - [catalog_facets.js]: the facet sidebar, which keeps the selected filters in
      the [field_filters] URL parameter as JSON, and the price slider;
    - [product_offers.js], [consumer_discount.js] and the badge script: the three
      coordinators that harvest item codes from the listing, fetch one batch of
      annotations and inject one overlay per card;
    - the listing quantity controls layered over the Add to Cart button;
    - the smaller scripts of the page: the facet containers and the filter
      toggle of [catalog_facets.js], the button labels of [catalog_buttons.js]
      and the lens of the image zoom.

    The platform (strings, JSON, URLSearchParams, the DOM tree, timers) is
    modelled first, then each script function is transcribed over it, and the
    properties follow in the second half of the file. *)

From Stdlib Require Import String Ascii List ZArith NArith QArith Qround Bool Arith.
From Stdlib Require Import Decimal DecimalZ.
From Stdlib Require DecimalPos DecimalN DecimalFacts.
From Stdlib Require Import Sorted Lia Lqa.
Import ListNotations.

Set Implicit Arguments.
Set Warnings "-register-all".
Close Scope Q_scope.
Local Open Scope nat_scope.
Local Open Scope string_scope.
Local Open Scope list_scope.

(* ================================================================== *)
(** ** Platform: strings and numbers *)
(* ================================================================== *)

Module JS.

(** A JavaScript string is a sequence of code units; the model keeps the
    8-bit ones, which is what Rocq's [string] holds. *)
Definition chars := list ascii.

Definition dquote : ascii := "034"%char.
Definition backslash : ascii := "092"%char.

Definition digit_val (c : ascii) : option Z :=
  let n := nat_of_ascii c in
  if (48 <=? n)%nat && (n <=? 57)%nat then Some (Z.of_nat (n - 48)) else None.

Definition is_digit (c : ascii) : bool :=
  match digit_val c with Some _ => true | None => false end.

(** Whitespace as JSON.parse skips it: space, tab, line feed, carriage return. *)
Definition is_json_ws (c : ascii) : bool :=
  let n := nat_of_ascii c in
  (n =? 32)%nat || (n =? 9)%nat || (n =? 10)%nat || (n =? 13)%nat.

Fixpoint skip_ws (s : chars) : chars :=
  match s with
  | c :: r => if is_json_ws c then skip_ws r else s
  | [] => []
  end.

(** [String(n)] for an integral number: the decimal numeral, with a minus sign
    for a negative one (JavaScript writes all the digits of an integer up to
    10^21, far above any price or quantity). *)
Fixpoint uint_digits (d : Decimal.uint) : chars :=
  match d with
  | Nil => []
  | D0 d => "0"%char :: uint_digits d
  | D1 d => "1"%char :: uint_digits d
  | D2 d => "2"%char :: uint_digits d
  | D3 d => "3"%char :: uint_digits d
  | D4 d => "4"%char :: uint_digits d
  | D5 d => "5"%char :: uint_digits d
  | D6 d => "6"%char :: uint_digits d
  | D7 d => "7"%char :: uint_digits d
  | D8 d => "8"%char :: uint_digits d
  | D9 d => "9"%char :: uint_digits d
  end.

Definition Z_digits (z : Z) : chars :=
  match Z.to_int z with
  | Decimal.Pos d => uint_digits d
  | Decimal.Neg d => "-"%char :: uint_digits d
  end.

Definition String_of_Z (z : Z) : string := string_of_list_ascii (Z_digits z).

(** The longest prefix of decimal digits, read left to right. *)
Fixpoint read_digits (acc : Z) (s : chars) : Z * chars :=
  match s with
  | c :: r =>
      match digit_val c with
      | Some d => read_digits (10 * acc + d) r
      | None => (acc, s)
      end
  | [] => (acc, [])
  end.

(** [parseInt(s, 10)]: leading white space, an optional sign, then the longest
    run of digits; [None] stands for NaN. *)
Definition is_space (c : ascii) : bool :=
  let n := nat_of_ascii c in
  (n =? 32)%nat || ((9 <=? n)%nat && (n <=? 13)%nat) || (n =? 160)%nat.

Fixpoint trim_start (s : chars) : chars :=
  match s with
  | c :: r => if is_space c then trim_start r else s
  | [] => []
  end.

Definition parseInt (s : string) : option Z :=
  let body (neg : bool) (t : chars) :=
    match t with
    | c :: _ =>
        if is_digit c
        then let '(n, _) := read_digits 0 t in Some (if neg then (- n)%Z else n)
        else None
    | [] => None
    end in
  match trim_start (list_ascii_of_string s) with
  | c :: r =>
      if Ascii.eqb c "-"%char then body true r
      else if Ascii.eqb c "+"%char then body false r
      else body false (c :: r)
  | [] => None
  end.

(* ------------------------------------------------------------------ *)
(** *** JSON values, [JSON.stringify] and [JSON.parse] *)

(** Numbers are the integral ones (the sliders step by 1 from 0, so every number
    these scripts write is integral), kept exactly; an object keeps its own
    properties in insertion order. *)
Inductive json : Type :=
| JNull
| JBool (b : bool)
| JNum (n : Z)
| JStr (s : string)
| JArr (elems : list json)
| JObj (props : list (string * json)).

Definition object := list (string * json).

Fixpoint obj_get (o : object) (k : string) : option json :=
  match o with
  | [] => None
  | (k', v) :: r => if String.eqb k' k then Some v else obj_get r k
  end.

Definition obj_has (o : object) (k : string) : bool :=
  match obj_get o k with Some _ => true | None => false end.

(** [o[k] = v] on an own data property: an existing property keeps its place, a
    new one goes last. *)
Fixpoint obj_set (o : object) (k : string) (v : json) : object :=
  match o with
  | [] => [(k, v)]
  | (k', v') :: r =>
      if String.eqb k' k then (k', v) :: r else (k', v') :: obj_set r k v
  end.

Fixpoint obj_delete (o : object) (k : string) : object :=
  match o with
  | [] => []
  | (k', v') :: r =>
      if String.eqb k' k then obj_delete r k else (k', v') :: obj_delete r k
  end.

Definition obj_keys (o : object) : list string := map fst o.

(** Assignment through [o[k] = v] as the engine performs it on an object that
    JSON.parse built: the name [__proto__] reaches the inherited accessor unless
    the object has an own property of that name, and then no own property
    changes. *)
Definition obj_assign (o : object) (k : string) (v : json) : object :=
  if String.eqb k "__proto__" && negb (obj_has o k) then o else obj_set o k v.

Definition hex_digit (n : nat) : ascii :=
  match n with
  | 0 => "0" | 1 => "1" | 2 => "2" | 3 => "3" | 4 => "4" | 5 => "5" | 6 => "6"
  | 7 => "7" | 8 => "8" | 9 => "9" | 10 => "a" | 11 => "b" | 12 => "c"
  | 13 => "d" | 14 => "e" | _ => "f"
  end%char.

Definition hex_val (c : ascii) : option nat :=
  let n := nat_of_ascii c in
  if (48 <=? n)%nat && (n <=? 57)%nat then Some (n - 48)%nat
  else if (97 <=? n)%nat && (n <=? 102)%nat then Some (n - 87)%nat
  else if (65 <=? n)%nat && (n <=? 70)%nat then Some (n - 55)%nat
  else None.

(** One code unit inside a JSON string literal, as JSON.stringify writes it. *)
Definition escape_char (c : ascii) : chars :=
  let n := nat_of_ascii c in
  if (n =? 34)%nat then [backslash; dquote]
  else if (n =? 92)%nat then [backslash; backslash]
  else if (n =? 8)%nat then [backslash; "b"%char]
  else if (n =? 9)%nat then [backslash; "t"%char]
  else if (n =? 10)%nat then [backslash; "n"%char]
  else if (n =? 12)%nat then [backslash; "f"%char]
  else if (n =? 13)%nat then [backslash; "r"%char]
  else if (n <? 32)%nat
       then [backslash; "u"%char; "0"%char; "0"%char;
             hex_digit (n / 16); hex_digit (n mod 16)]
  else [c].

Definition quote (s : string) : chars :=
  dquote :: flat_map escape_char (list_ascii_of_string s) ++ [dquote].

Fixpoint join (sep : chars) (parts : list chars) : chars :=
  match parts with
  | [] => []
  | [p] => p
  | p :: r => p ++ sep ++ join sep r
  end.

Fixpoint stringify_chars (v : json) : chars :=
  match v with
  | JNull => list_ascii_of_string "null"
  | JBool true => list_ascii_of_string "true"
  | JBool false => list_ascii_of_string "false"
  | JNum n => Z_digits n
  | JStr s => quote s
  | JArr l => "["%char :: join [","%char] (map stringify_chars l) ++ ["]"%char]
  | JObj o =>
      "{"%char ::
      join [","%char]
        (map (fun kv => quote (fst kv) ++ ":"%char :: stringify_chars (snd kv)) o)
      ++ ["}"%char]
  end.

Definition JSON_stringify (v : json) : string :=
  string_of_list_ascii (stringify_chars v).

(** The body of a string literal after its opening quote. *)
Definition simple_escape (e : ascii) : option ascii :=
  let n := nat_of_ascii e in
  if (n =? 34)%nat then Some dquote
  else if (n =? 92)%nat then Some backslash
  else if (n =? 47)%nat then Some "/"%char
  else if (n =? 98)%nat then Some "008"%char
  else if (n =? 116)%nat then Some "009"%char
  else if (n =? 110)%nat then Some "010"%char
  else if (n =? 102)%nat then Some "012"%char
  else if (n =? 114)%nat then Some "013"%char
  else None.

Definition hex4 (a b c d : ascii) : option nat :=
  match hex_val a, hex_val b, hex_val c, hex_val d with
  | Some x, Some y, Some z, Some w => Some (((x * 16 + y) * 16 + z) * 16 + w)%nat
  | _, _, _, _ => None
  end.

Definition cons_fst {A B} (a : A) (r : option (list A * B)) : option (list A * B) :=
  match r with
  | Some (l, b) => Some (a :: l, b)
  | None => None
  end.

(** A [\uXXXX] escape above 255 names a code unit the model does not hold; such
    a text is read as malformed. *)
Fixpoint parse_chars (s : chars) : option (chars * chars) :=
  match s with
  | [] => None
  | c :: r =>
      if Ascii.eqb c dquote then Some ([], r)
      else if Ascii.eqb c backslash then
        match r with
        | [] => None
        | e :: r1 =>
            if Ascii.eqb e "u"%char then
              match r1 with
              | h1 :: h2 :: h3 :: h4 :: r2 =>
                  match hex4 h1 h2 h3 h4 with
                  | Some n =>
                      if (n <? 256)%nat
                      then cons_fst (ascii_of_nat n) (parse_chars r2)
                      else None
                  | None => None
                  end
              | _ => None
              end
            else
              match simple_escape e with
              | Some c' => cons_fst c' (parse_chars r1)
              | None => None
              end
        end
      else if (nat_of_ascii c <? 32)%nat then None
      else cons_fst c (parse_chars r)
  end.

(** A number token: an optional minus, then [0] or a numeral without leading
    zero.  A fraction or an exponent is outside the integral model and read as
    malformed. *)
Definition parse_number (s : chars) : option (Z * chars) :=
  let unsigned (t : chars) : option (Z * chars) :=
    match t with
    | c :: r =>
        if Ascii.eqb c "0"%char then Some (0%Z, r)
        else if is_digit c then Some (read_digits 0 t)
        else None
    | [] => None
    end in
  let checked (neg : bool) (t : chars) : option (Z * chars) :=
    match unsigned t with
    | Some (n, rest) =>
        match rest with
        | c :: _ =>
            if Ascii.eqb c "."%char || Ascii.eqb c "e"%char || Ascii.eqb c "E"%char
            then None
            else Some (if neg then (- n)%Z else n, rest)
        | [] => Some (if neg then (- n)%Z else n, rest)
        end
    | None => None
    end in
  match s with
  | c :: r => if Ascii.eqb c "-"%char then checked true r else checked false s
  | [] => None
  end.

(** The value grammar, by recursive descent.  [fuel] bounds the number of
    nested calls; [JSON_parse] supplies more than any text can use.  A repeated
    member name keeps its first place and its last value, as the engine does. *)
Fixpoint parse_value (fuel : nat) (s : chars) : option (json * chars) :=
  match fuel with
  | O => None
  | S f =>
      match skip_ws s with
      | "n"%char :: "u"%char :: "l"%char :: "l"%char :: r => Some (JNull, r)
      | "t"%char :: "r"%char :: "u"%char :: "e"%char :: r => Some (JBool true, r)
      | "f"%char :: "a"%char :: "l"%char :: "s"%char :: "e"%char :: r =>
          Some (JBool false, r)
      | "034"%char :: r =>
          match parse_chars r with
          | Some (cs, r') => Some (JStr (string_of_list_ascii cs), r')
          | None => None
          end
      | "["%char :: r =>
          match skip_ws r with
          | "]"%char :: r' => Some (JArr [], r')
          | _ =>
              match parse_elems f r with
              | Some (l, r') => Some (JArr l, r')
              | None => None
              end
          end
      | "{"%char :: r =>
          match skip_ws r with
          | "}"%char :: r' => Some (JObj [], r')
          | _ =>
              match parse_members f [] r with
              | Some (o, r') => Some (JObj o, r')
              | None => None
              end
          end
      | t =>
          match parse_number t with
          | Some (n, r) => Some (JNum n, r)
          | None => None
          end
      end
  end

with parse_elems (fuel : nat) (s : chars) : option (list json * chars) :=
  match fuel with
  | O => None
  | S f =>
      match parse_value f s with
      | Some (v, r) =>
          match skip_ws r with
          | ","%char :: r' => cons_fst v (parse_elems f r')
          | "]"%char :: r' => Some ([v], r')
          | _ => None
          end
      | None => None
      end
  end

with parse_members (fuel : nat) (acc : object) (s : chars)
  : option (object * chars) :=
  match fuel with
  | O => None
  | S f =>
      match skip_ws s with
      | "034"%char :: r =>
          match parse_chars r with
          | Some (k, r1) =>
              match skip_ws r1 with
              | ":"%char :: r2 =>
                  match parse_value f r2 with
                  | Some (v, r3) =>
                      let acc' := obj_set acc (string_of_list_ascii k) v in
                      match skip_ws r3 with
                      | ","%char :: r4 => parse_members f acc' r4
                      | "}"%char :: r4 => Some (acc', r4)
                      | _ => None
                      end
                  | None => None
                  end
              | _ => None
              end
          | None => None
          end
      | _ => None
      end
  end.

(** [JSON.parse]: [None] stands for the SyntaxError it throws. *)
Definition JSON_parse (s : string) : option json :=
  let cs := list_ascii_of_string s in
  match parse_value (2 * List.length cs + 2) cs with
  | Some (v, r) => match skip_ws r with [] => Some v | _ => None end
  | None => None
  end.

(** Truthiness of a JSON value and of a string. *)
Definition truthy (v : json) : bool :=
  match v with
  | JNull => false
  | JBool b => b
  | JNum n => negb (n =? 0)%Z
  | JStr s => negb (String.eqb s "")
  | JArr _ => true
  | JObj _ => true
  end.

(** [String(v)] on a parsed value; an array joins its elements with commas, null
    elements contributing nothing. *)
Fixpoint String_of (v : json) : chars :=
  match v with
  | JNull => list_ascii_of_string "null"
  | JBool true => list_ascii_of_string "true"
  | JBool false => list_ascii_of_string "false"
  | JNum n => Z_digits n
  | JStr s => list_ascii_of_string s
  | JArr l =>
      join [","%char]
        (map (fun e => match e with JNull => [] | _ => String_of e end) l)
  | JObj _ => list_ascii_of_string "[object Object]"
  end.

Definition js_String (v : json) : string := string_of_list_ascii (String_of v).

(* ------------------------------------------------------------------ *)
(** *** URLSearchParams *)

Definition URLSearchParams := list (string * string).

Fixpoint usp_get (p : URLSearchParams) (name : string) : option string :=
  match p with
  | [] => None
  | (n, v) :: r => if String.eqb n name then Some v else usp_get r name
  end.

Fixpoint usp_delete (p : URLSearchParams) (name : string) : URLSearchParams :=
  match p with
  | [] => []
  | (n, v) :: r =>
      if String.eqb n name then usp_delete r name else (n, v) :: usp_delete r name
  end.

(** [set] rewrites the first pair of that name and drops the others, or
    appends. *)
Fixpoint usp_set (p : URLSearchParams) (name value : string) : URLSearchParams :=
  match p with
  | [] => [(name, value)]
  | (n, v) :: r =>
      if String.eqb n name then (n, value) :: usp_delete r name
      else (n, v) :: usp_set r name value
  end.

End JS.

(* ================================================================== *)
(** ** catalog_facets.js: filter state in the URL *)
(* ================================================================== *)

Module Facets.
Import JS.

(** What a filter handler leaves behind: it assigns [window.location.href], a
    full navigation to the URL with the new search parameters.  The handlers
    below are transcribed for a [field_filters] document that is absent, empty,
    malformed, falsy or a JSON object; a truthy document of another shape (an
    array, a number, a string, [true]) sends property writes to a primitive or
    to array slots and is left out of the model as [NotModelled]. *)
Inductive navigation : Type :=
| Navigate (search : URLSearchParams)
| NotModelled.

(** The decode step shared by [applyFieldFilterChange] (both copies) and
    [applyPriceFilter]:
<<
    let fieldFilters = {};
    const rawFieldFilters = search.get("field_filters");
    if (rawFieldFilters) {
      try { fieldFilters = JSON.parse(rawFieldFilters) || {}; }
      catch (e) { fieldFilters = {}; }
    }
>> *)
Definition read_field_filters (search : URLSearchParams) : json :=
  match usp_get search "field_filters" with
  | Some rawFieldFilters =>
      if negb (String.eqb rawFieldFilters "") then
        match JSON_parse rawFieldFilters with
        | Some v => if truthy v then v else JObj []
        | None => JObj []
        end
      else JObj []
  | None => JObj []
  end.

(** The encode step shared by the same three handlers:
<<
    if (Object.keys(fieldFilters).length) {
      search.set("field_filters", JSON.stringify(fieldFilters));
    } else {
      search.delete("field_filters");
    }
    search.set("from_filters", "1");
    search.delete("start");
>> *)
Definition write_field_filters (fieldFilters : object) (search : URLSearchParams)
  : URLSearchParams :=
  let search1 :=
    if (0 <? List.length (obj_keys fieldFilters))%nat
    then usp_set search "field_filters" (JSON_stringify (JObj fieldFilters))
    else usp_delete search "field_filters" in
  let search2 := usp_set search1 "from_filters" "1" in
  usp_delete search2 "start".

Definition includes (l : list string) (v : string) : bool :=
  existsb (String.eqb v) l.

(** [applyFieldFilterChange(filterName, filterValue, checked)], the change
    handler of the Offers and of the Badges check boxes (the two copies are
    the same text).  [filterValue] is what [getAttribute] returned, [None] for
    null. *)
Definition applyFieldFilterChange
  (filterName : string) (filterValue : option string) (checked : bool)
  (search : URLSearchParams) : navigation :=
  match read_field_filters search with
  | JObj fieldFilters =>
      let existing :=
        match obj_get fieldFilters filterName with
        | Some (JArr l) => map js_String l
        | _ => []
        end in
      let valueStr := match filterValue with Some s => s | None => "" end in
      let next :=
        if checked
        then if includes existing valueStr then existing else existing ++ [valueStr]
        else filter (fun v => negb (String.eqb v valueStr)) existing in
      let fieldFilters' :=
        if (0 <? List.length next)%nat
        then obj_assign fieldFilters filterName (JArr (map JStr next))
        else obj_delete fieldFilters filterName in
      Navigate (write_field_filters fieldFilters' search)
  | _ => NotModelled
  end.

(** [applyPriceFilter(fromValue, toValue)]: the arguments are what [parseFloat]
    made of the two slider values, [None] for NaN. *)
Definition applyPriceFilter (fromValue toValue : option Z)
  (search : URLSearchParams) : navigation :=
  match read_field_filters search with
  | JObj fieldFilters =>
      let ff1 :=
        match fromValue with
        | Some v => obj_set fieldFilters "price_from" (JArr [JNum v])
        | None => obj_delete fieldFilters "price_from"
        end in
      let ff2 :=
        match toValue with
        | Some v => obj_set ff1 "price_to" (JArr [JNum v])
        | None => obj_delete ff1 "price_to"
        end in
      Navigate (write_field_filters ff2 search)
  | _ => NotModelled
  end.

(** The pre-check read of [renderOffersFilter] and [renderBadgesFilter]: the
    values of one filter in the current URL, as strings. *)
Definition active_values (key : string) (search : URLSearchParams) : list string :=
  match usp_get search "field_filters" with
  | Some raw =>
      if negb (String.eqb raw "") then
        match JSON_parse raw with
        | Some (JObj existing) =>
            match obj_get existing key with
            | Some (JArr l) => map js_String l
            | _ => []
            end
        | _ => []
        end
      else []
  | None => []
  end.

(* ------------------------------------------------------------------ *)
(** *** The facet selection state of the specification *)

(** A FacetSelectionState maps a filter name to its list of string values. *)
Definition FacetSelectionState := list (string * list string).

Definition state_json (st : FacetSelectionState) : object :=
  map (fun kv => (fst kv, JArr (map JStr (snd kv)))) st.

Definition state_wf (st : FacetSelectionState) : Prop := NoDup (map fst st).

Fixpoint state_get (st : FacetSelectionState) (k : string) : option (list string) :=
  match st with
  | [] => None
  | (k', v) :: r => if String.eqb k' k then Some v else state_get r k
  end.

(** The state a decoded object denotes, when it has the shape of one. *)
Definition strings_of (l : list json) : option (list string) :=
  fold_right
    (fun e acc =>
       match e, acc with
       | JStr s, Some r => Some (s :: r)
       | _, _ => None
       end) (Some []) l.

Fixpoint json_state (o : object) : option FacetSelectionState :=
  match o with
  | [] => Some []
  | (k, JArr l) :: r =>
      match strings_of l, json_state r with
      | Some vs, Some st => Some ((k, vs) :: st)
      | _, _ => None
      end
  | _ => None
  end.

(** [encode]: the URL a handler navigates to when it holds [st]; [decode]: the
    state a handler reads from a URL. *)
Definition encode (st : FacetSelectionState) (search : URLSearchParams)
  : URLSearchParams :=
  write_field_filters (state_json st) search.

Definition decode (search : URLSearchParams) : option FacetSelectionState :=
  match read_field_filters search with
  | JObj o => json_state o
  | _ => None
  end.

(** [toggleValue] of the specification is [applyFieldFilterChange] seen from
    one URL to the next. *)
Definition toggleValue (filterName value : string) (included : bool)
  (search : URLSearchParams) : navigation :=
  applyFieldFilterChange filterName (Some value) included search.

Definition bind_nav (n : navigation) (k : URLSearchParams -> navigation)
  : navigation :=
  match n with
  | Navigate s => k s
  | NotModelled => NotModelled
  end.

(** The state with [value] in the list of [filterName], added last when it is
    not there yet.  A first value for the name [__proto__] is lost: the
    assignment reaches the inherited accessor and no property of the object
    changes. *)
Fixpoint add_to (st : FacetSelectionState) (filterName value : string)
  : FacetSelectionState :=
  match st with
  | [] => [(filterName, [value])]
  | (k, vs) :: r =>
      if String.eqb k filterName
      then (k, if includes vs value then vs else vs ++ [value]) :: r
      else (k, vs) :: add_to r filterName value
  end.

Definition add_value (st : FacetSelectionState) (filterName value : string)
  : FacetSelectionState :=
  if String.eqb filterName "__proto__"
     && match state_get st filterName with Some _ => false | None => true end
  then st
  else add_to st filterName value.

(** Two states are the same mapping when every name has the same values. *)
Definition same_mapping (a b : FacetSelectionState) : Prop :=
  forall k, state_get a k = state_get b k.

(** The state with [value] taken out of the list of [filterName], the name
    itself going when nothing is left. *)
Fixpoint remove_value (st : FacetSelectionState) (filterName value : string)
  : FacetSelectionState :=
  match st with
  | [] => []
  | (k, vs) :: r =>
      if String.eqb k filterName then
        match filter (fun v => negb (String.eqb v value)) vs with
        | [] => remove_value r filterName value
        | vs' => (k, vs') :: remove_value r filterName value
        end
      else (k, vs) :: remove_value r filterName value
  end.

(* ------------------------------------------------------------------ *)
(** *** The price slider of [renderPriceRanges] *)

(** A configured price range; an amount is [None] when the record carries no
    number there (absent, null, NaN or another type). *)
Record PriceRange : Type := {
  label : string;
  from_amount : option Q;
  to_amount : option Q
}.

Definition Qmax (a b : Q) : Q := if Qle_bool a b then b else a.

(** [Math.max.apply(null, toValues)] on a non-empty list. *)
Definition Math_max (v : Q) (vs : list Q) : Q := fold_left Qmax vs v.

(** <<
    let maxPrice = 100000;
    if (Array.isArray(ranges) && ranges.length) {
      const toValues = ranges.map(r => r.to_amount)
        .filter(v => typeof v === "number" && !isNaN(v));
      if (toValues.length) {
        const rawMax = Math.max.apply(null, toValues);
        maxPrice = Math.ceil(rawMax / 1000) * 1000;
      }
    }
>> *)
Definition toValues (ranges : list PriceRange) : list Q :=
  flat_map (fun r => match to_amount r with Some v => [v] | None => [] end) ranges.

Definition maxPrice (ranges : list PriceRange) : Z :=
  match toValues ranges with
  | [] => 100000%Z
  | v :: vs => (Qceiling (Math_max v vs / 1000) * 1000)%Z
  end.

(** The value a range input with [min="0"], [max=mx] and [step="1"] keeps when
    it is assigned [v]: the nearest whole step, a tie going up, brought back
    into the range; with a maximum below the minimum it is the minimum. *)
Definition range_sanitize (mx : Z) (v : Q) : Z :=
  if (mx <? 0)%Z then 0%Z
  else Z.max 0 (Z.min mx (Qfloor (v + (1 # 2)))).

Inductive display_text : Type :=
| DisplayAll
| DisplayRange (minVal maxVal : Z).

(** The widgets the slider code holds: the two range inputs (their values are
    always numbers), the two number boxes ([None] when empty) and the text
    under the track. *)
Record slider_ui : Type := {
  minSlider : Z;
  maxSlider : Z;
  minInputBox : option Q;
  maxInputBox : option Q;
  display : display_text
}.

Definition updateDisplayContinuous (mx : Z) (ui : slider_ui) : slider_ui :=
  let minVal := minSlider ui in
  let maxVal := maxSlider ui in
  {| minSlider := minSlider ui; maxSlider := maxSlider ui;
     minInputBox := minInputBox ui; maxInputBox := maxInputBox ui;
     display := if (minVal =? 0)%Z && (maxVal =? mx)%Z
                then DisplayAll else DisplayRange minVal maxVal |}.

(** <<
    let minV = parseFloat(minSlider.value || "0");
    let maxV = parseFloat(maxSlider.value || "0");
    if (minV > maxV) {
      const tmp = minV; minV = maxV; maxV = tmp;
      minSlider.value = minV;
      maxSlider.value = maxV;
    }
    minInputBox.value = minSlider.value;
    maxInputBox.value = maxSlider.value;
    updateDisplayContinuous();
>> *)
Definition enforceOrderContinuous (mx : Z) (ui : slider_ui) : slider_ui :=
  let minV := minSlider ui in
  let maxV := maxSlider ui in
  let '(lo, hi) :=
    if (minV >? maxV)%Z
    then (range_sanitize mx (inject_Z maxV), range_sanitize mx (inject_Z minV))
    else (minV, maxV) in
  updateDisplayContinuous mx
    {| minSlider := lo; maxSlider := hi;
       minInputBox := Some (inject_Z lo); maxInputBox := Some (inject_Z hi);
       display := display ui |}.

(** The [change] listener of the Min box: the box already holds what the user
    typed ([None] when [parseFloat] gives NaN, and then the listener returns).
<<
    const v = parseFloat(minInputBox.value);
    if (isNaN(v)) return;
    minSlider.value = v;
    enforceOrderContinuous();
>> *)
Definition on_minInputBox_change (mx : Z) (ui : slider_ui) : slider_ui :=
  match minInputBox ui with
  | None => ui
  | Some v =>
      enforceOrderContinuous mx
        {| minSlider := range_sanitize mx v; maxSlider := maxSlider ui;
           minInputBox := minInputBox ui; maxInputBox := maxInputBox ui;
           display := display ui |}
  end.

Definition on_maxInputBox_change (mx : Z) (ui : slider_ui) : slider_ui :=
  match maxInputBox ui with
  | None => ui
  | Some v =>
      enforceOrderContinuous mx
        {| minSlider := minSlider ui; maxSlider := range_sanitize mx v;
           minInputBox := minInputBox ui; maxInputBox := maxInputBox ui;
           display := display ui |}
  end.

End Facets.

(* ================================================================== *)
(** ** Platform: the document tree *)
(* ================================================================== *)

Module Dom.

(** A node is a text node or an element.  [nid] is the identity of the element
    (what a script holds when it keeps a reference); the [id] attribute, the
    classes and the other attributes are data.  The [value] of an input is kept
    among the attributes. *)
Inductive node : Type :=
| Text (data : string)
| Elem (nid : nat) (tag : string) (classes : list string)
       (attrs : list (string * string)) (children : list node).

Definition node_id (n : node) : option nat :=
  match n with Elem i _ _ _ _ => Some i | Text _ => None end.

Definition has_id (i : nat) (n : node) : bool :=
  match n with Elem j _ _ _ _ => (j =? i)%nat | Text _ => false end.

Definition node_children (n : node) : list node :=
  match n with Elem _ _ _ _ ks => ks | Text _ => [] end.

Fixpoint assoc (l : list (string * string)) (a : string) : option string :=
  match l with
  | [] => None
  | (a', v) :: r => if String.eqb a' a then Some v else assoc r a
  end.

Definition getAttribute (a : string) (n : node) : option string :=
  match n with Elem _ _ _ at_ _ => assoc at_ a | Text _ => None end.

Definition has_class (c : string) (n : node) : bool :=
  match n with
  | Elem _ _ cs _ _ => existsb (String.eqb c) cs
  | Text _ => false
  end.

(** Selectors: a compound selector is a conjunction of simple tests on one
    element, a selector list a disjunction of compounds. *)
Inductive simple : Type :=
| Class (c : string)
| Attr (a : string)
| AttrIs (a v : string)
| Tag (t : string).

Definition matches_simple (s : simple) (n : node) : bool :=
  match s with
  | Class c => has_class c n
  | Attr a => match getAttribute a n with Some _ => true | None => false end
  | AttrIs a v =>
      match getAttribute a n with Some v' => String.eqb v' v | None => false end
  | Tag t => match n with Elem _ t' _ _ _ => String.eqb t' t | Text _ => false end
  end.

Definition selector := list (list simple).

Definition matches (sel : selector) (n : node) : bool :=
  match n with
  | Text _ => false
  | Elem _ _ _ _ _ =>
      existsb (fun compound => forallb (fun s => matches_simple s n) compound) sel
  end.

(** The elements of a subtree in document order, the root first. *)
Fixpoint elements (n : node) : list node :=
  match n with
  | Text _ => []
  | Elem _ _ _ _ ks => n :: flat_map elements ks
  end.

Definition descendants (n : node) : list node := flat_map elements (node_children n).

Definition querySelectorAll (sel : selector) (n : node) : list node :=
  filter (matches sel) (descendants n).

Definition querySelector (sel : selector) (n : node) : option node :=
  hd_error (querySelectorAll sel n).

Definition getElementById (i : string) (doc : node) : option node :=
  hd_error (filter (matches [[AttrIs "id" i]]) (elements doc)).

Fixpoint first_some {A} (l : list (option A)) : option A :=
  match l with
  | [] => None
  | Some a :: _ => Some a
  | None :: r => first_some r
  end.

(** The element a reference [target] denotes in the document, with its
    ancestors: nearest first, the element itself at the head. *)
Fixpoint ancestors (target : nat) (n : node) : option (list node) :=
  match n with
  | Text _ => None
  | Elem i _ _ _ ks =>
      if (i =? target)%nat then Some [n]
      else
        match first_some (map (ancestors target) ks) with
        | Some l => Some (l ++ [n])
        | None => None
        end
  end.

Definition deref (doc : node) (ref : nat) : option node :=
  match ancestors ref doc with
  | Some (n :: _) => Some n
  | _ => None
  end.

(** [el.closest(sel)]. *)
Definition closest (sel : selector) (doc : node) (el : nat) : option node :=
  match ancestors el doc with
  | Some l => find (matches sel) l
  | None => None
  end.

(** Where a new subtree goes: directly after an element among the children of
    its parent ([insertBefore(new, ref.nextSibling)], or [appendChild] on the
    parent when [ref] is the last child), as first child
    ([insertBefore(new, parent.firstChild)]) or as last child
    ([appendChild]). *)
Inductive placement : Type :=
| After (ref : nat)
| Prepend (parent : nat)
| Append (parent : nat).

Definition goes_after (pl : placement) (k : node) : bool :=
  match pl with After ref => has_id ref k | _ => false end.

Fixpoint place (pl : placement) (w : node) (n : node) : node :=
  match n with
  | Text _ => n
  | Elem i t c a ks =>
      let ks' :=
        flat_map (fun k => place pl w k :: (if goes_after pl k then [w] else []))
          ks in
      Elem i t c a
        match pl with
        | After _ => ks'
        | Prepend p => if (i =? p)%nat then w :: ks' else ks'
        | Append p => if (i =? p)%nat then ks' ++ [w] else ks'
        end
  end.

(** A change of the classes and attributes of one element. *)
Fixpoint update (ref : nat)
  (f : list string * list (string * string) -> list string * list (string * string))
  (n : node) : node :=
  match n with
  | Text _ => n
  | Elem i t c a ks =>
      let '(c', a') := if (i =? ref)%nat then f (c, a) else (c, a) in
      Elem i t c' a' (map (update ref f) ks)
  end.

Definition classList_add (cl : string)
  (ca : list string * list (string * string)) :=
  (if existsb (String.eqb cl) (fst ca) then fst ca else fst ca ++ [cl], snd ca).

Definition classList_remove (cl : string)
  (ca : list string * list (string * string)) :=
  (filter (fun c => negb (String.eqb c cl)) (fst ca), snd ca).

Fixpoint assoc_set (l : list (string * string)) (a v : string) :=
  match l with
  | [] => [(a, v)]
  | (a', v') :: r =>
      if String.eqb a' a then (a', v) :: r else (a', v') :: assoc_set r a v
  end.

Definition set_value (v : string) (ca : list string * list (string * string)) :=
  (fst ca, assoc_set (snd ca) "value" v).

(** Fresh identities for created elements: above every identity in the
    document. *)
Fixpoint max_id (n : node) : nat :=
  match n with
  | Text _ => 0
  | Elem i _ _ _ ks => fold_right (fun k m => Nat.max (max_id k) m) i ks
  end.

Definition fresh (doc : node) : nat := S (max_id doc).

(** [renumber base n] gives the elements of a newly built subtree the
    identities [base], [base + 1], ... in document order, and returns the next
    free one. *)
Fixpoint renumber (base : nat) (n : node) : node * nat :=
  match n with
  | Text _ => (n, base)
  | Elem _ t c a ks =>
      let '(ks', next) :=
        (fix go (l : list node) (b : nat) : list node * nat :=
           match l with
           | [] => ([], b)
           | k :: r =>
               let '(k', b1) := renumber b k in
               let '(r', b2) := go r b1 in
               (k' :: r', b2)
           end) ks (S base) in
      (Elem base t c a ks', next)
  end.

Definition create (doc : node) (n : node) : node := fst (renumber (fresh doc) n).

(** An element as [document.createElement] and [className = ...] leave it,
    before it gets its identity. *)
Definition el (tag : string) (classes : list string) (children : list node) : node :=
  Elem 0 tag classes [] children.

Definition ids (n : node) : list nat :=
  flat_map (fun e => match node_id e with Some i => [i] | None => [] end)
    (elements n).

(** Every element of a real document is one object: no identity twice. *)
Definition wf (doc : node) : Prop := NoDup (ids doc).

End Dom.

(* ================================================================== *)
(** ** The annotation coordinators *)
(* ================================================================== *)

Module Coordinator.
Import Dom.

Definition nid (n : node) : nat :=
  match n with Elem i _ _ _ _ => i | Text _ => 0 end.

(** The state a response callback works on: the document, the cards it has
    injected into so far (a trace kept for the proofs, the script has no such
    list) and whether an exception has ended it. *)
Record run : Type := {
  doc : node;
  injected : list nat;
  thrown : bool
}.

Definition start (d : node) : run :=
  {| doc := d; injected := []; thrown := false |}.

Definition throw (st : run) : run :=
  {| doc := doc st; injected := injected st; thrown := true |}.

(** Build the overlay [w], give it fresh identities and put it at [pl]; [card]
    is the element whose marker test let the injection through. *)
Definition inject (pl : placement) (w : node) (card : nat) (st : run) : run :=
  {| doc := place pl (create (doc st) w) (doc st);
     injected := injected st ++ [card];
     thrown := thrown st |}.

(** [forEach] over a list taken before the loop; an exception ends it. *)
Fixpoint for_each {A} (body : A -> run -> run) (l : list A) (st : run) : run :=
  match l with
  | [] => st
  | a :: r => if thrown st then st else for_each body r (body a st)
  end.

(** A [Set] keeps the first occurrence of each value, in insertion order. *)
Definition set_add (s : list string) (x : string) : list string :=
  if existsb (String.eqb x) s then s else s ++ [x].

(** The Item Identifier Harvester, the same text in the three scripts:
<<
    var itemCodeEls = listing.querySelectorAll('[data-item-code]');
    if (!itemCodeEls.length) return;
    var codesSet = new Set();
    itemCodeEls.forEach(function (el) {
      var code = el.getAttribute('data-item-code');
      if (code) codesSet.add(code);
    });
    var itemCodes = Array.from(codesSet);
    if (!itemCodes.length) return;
>> *)
Definition harvest (listing : node) : list string :=
  fold_left
    (fun codesSet e =>
       match getAttribute "data-item-code" e with
       | Some code => if String.eqb code "" then codesSet else set_add codesSet code
       | None => codesSet
       end)
    (querySelectorAll [[Attr "data-item-code"]] listing) [].

(** The request half of a coordinator: the listing it found and the item codes
    it sends in one batch, or [None] when it returns before calling the
    backend. *)
Definition request (d : node) : option (nat * list string) :=
  match getElementById "product-listing" d with
  | None => None
  | Some listing =>
      match harvest listing with
      | [] => None
      | itemCodes => Some (nid listing, itemCodes)
      end
  end.

(** [listing.querySelectorAll(sel)] on the listing the closure holds, as the
    references of the elements found. *)
Definition targets (listing : nat) (sel : selector) (d : node) : list nat :=
  match deref d listing with
  | Some l => map nid (querySelectorAll sel l)
  | None => []
  end.

Section Loop.
Variable P : Type.
(** The payload of a code, [None] when the response has none or an empty
    one. *)
Variable payload_of : string -> option P.
(** The selector for the elements of a code, [None] when building it throws. *)
Variable selector_of : string -> option selector.
Variable target_step : P -> nat -> run -> run.
Variable listing : nat.

Definition code_step (code : string) (st : run) : run :=
  match payload_of code with
  | None => st
  | Some p =>
      match selector_of code with
      | None => throw st
      | Some sel => for_each (target_step p) (targets listing sel (doc st)) st
      end
  end.

(** [itemCodes.forEach(function (code) { ... })] of the response callback. *)
Definition callback_loop (itemCodes : list string) (d : node) : run :=
  for_each code_step itemCodes (start d).
End Loop.

Fixpoint lookup {V} (m : list (string * V)) (k : string) : option V :=
  match m with
  | [] => None
  | (k', v) :: r => if String.eqb k' k then Some v else lookup r k
  end.

Definition nonempty {V} (o : option (list V)) : option (list V) :=
  match o with
  | Some (x :: r) => Some (x :: r)
  | _ => None
  end.

Definition card_selector : selector := [[Class "item-card"]; [Class "card"]].

Section Scripts.
(** The attribute value that the string literal in the hand-built selector
    ['[data-item-code="' + code + '"]'] denotes, [None] when the selector is a
    syntax error and [querySelectorAll] throws.  On a code without quote,
    backslash or line break it is the code. *)
Variable css_string : string -> option string.
(** [__()], the translation of a message. *)
Variable translate : string -> string.

Definition concat_selector (code : string) : option selector :=
  match css_string code with
  | Some v => Some [[AttrIs "data-item-code" v]]
  | None => None
  end.

(* ---------------------------------------------------------------- *)
(** *** product_offers.js *)

Record offer : Type := { offer_title : string; offer_subtitle : string }.

(** The response of [get_item_offers]: [message] maps item codes to offers;
    [None] is a falsy message.  An absent title or subtitle is the empty
    string.  Titles are text: they carry no markup of their own. *)
Definition offers_message := option (list (string * list offer)).

Definition offer_line (o : offer) : node :=
  el "div" ["mt-2"; "d-flex"]
    [ el "div" ["mr-2"]
        [ el "svg" [] [el "path" [] []; el "path" [] []; el "path" [] [];
                       el "path" [] []] ];
      el "p" ["mr-1"; "mb-1"]
        [ Text (translate (offer_title o) ++
                (if String.eqb (offer_subtitle o) "" then ""
                 else ": " ++ translate (offer_subtitle o))) ] ].

(** The subtree [wrapper] of [injectProductOffers]: the heading, the empty
    marker element [container] and the list of lines. *)
Definition offers_overlay (offers : list offer) : node :=
  el "div" ["mt-2"]
    [ el "div" ["offers-heading"; "mb-2"]
        [ el "span" ["mr-1"; "tag-icon"]
            [ el "svg" ["icon"; "icon-lg"] [el "use" [] []] ];
          el "b" [] [Text (translate "Available Offers")] ];
      el "div" ["offer-container"] [];
      el "div" [] (map offer_line offers) ].

(** <<
    var card = el.closest('.item-card, .card');
    if (!card) return;
    if (card.querySelector('.offer-container')) return;
    var priceEl = card.querySelector('.product-price');
    if (!priceEl) return;
    ... build wrapper ...
    if (priceEl.nextSibling) {
      priceEl.parentNode.insertBefore(wrapper, priceEl.nextSibling);
    } else {
      priceEl.parentNode.appendChild(wrapper);
    }
>> *)
Definition offers_target (offers : list offer) (e : nat) (st : run) : run :=
  match closest card_selector (doc st) e with
  | None => st
  | Some card =>
      match querySelector [[Class "offer-container"]] card with
      | Some _ => st
      | None =>
          match querySelector [[Class "product-price"]] card with
          | None => st
          | Some priceEl =>
              inject (After (nid priceEl)) (offers_overlay offers) (nid card) st
          end
      end
  end.

Definition injectProductOffers_callback
  (listing : nat) (itemCodes : list string) (message : offers_message)
  (d : node) : run :=
  match message with
  | None => start d
  | Some offersByCode =>
      callback_loop (fun code => nonempty (lookup offersByCode code))
        concat_selector offers_target listing itemCodes d
  end.

(** One pass of the offers coordinator on a document that does not change
    between the request and its response; [response] is [None] when the call
    fails and the callback never runs. *)
Definition injectProductOffers (response : option offers_message) (d : node)
  : run :=
  match request d, response with
  | Some (listing, itemCodes), Some message =>
      injectProductOffers_callback listing itemCodes message d
  | _, _ => start d
  end.

(* ---------------------------------------------------------------- *)
(** *** consumer_discount.js *)

(** The response of [get_consumer_discounts]: a number per item code. *)
Definition discounts_message := option (list (string * Z)).

Definition discount_overlay (discount : Z) : node :=
  el "div" ["customer-discount-info"]
    [ Text (translate "Consumer Offer" ++ ": " ++ JS.String_of_Z discount ++ "%") ].

Definition discount_payload (discounts : list (string * Z)) (code : string)
  : option Z :=
  match lookup discounts code with
  | Some discount => if (discount =? 0)%Z then None else Some discount
  | None => None
  end.

(** <<
    var card = btn.closest('.item-card, .card');
    if (!card) return;
    var priceEl = card.querySelector('.product-price');
    if (!priceEl) return;
    if (card.querySelector('.customer-discount-info')) return;
    ... build info ...
    if (priceEl.nextSibling) {
      priceEl.parentNode.insertBefore(info, priceEl.nextSibling);
    } else {
      priceEl.parentNode.appendChild(info);
    }
>> *)
Definition discount_target (discount : Z) (btn : nat) (st : run) : run :=
  match closest card_selector (doc st) btn with
  | None => st
  | Some card =>
      match querySelector [[Class "product-price"]] card with
      | None => st
      | Some priceEl =>
          match querySelector [[Class "customer-discount-info"]] card with
          | Some _ => st
          | None =>
              inject (After (nid priceEl)) (discount_overlay discount) (nid card) st
          end
      end
  end.

Definition injectConsumerDiscount_callback
  (listing : nat) (itemCodes : list string) (message : discounts_message)
  (d : node) : run :=
  match message with
  | None => start d
  | Some discounts =>
      callback_loop (discount_payload discounts) concat_selector
        discount_target listing itemCodes d
  end.

Definition injectConsumerDiscount (response : option discounts_message)
  (d : node) : run :=
  match request d, response with
  | Some (listing, itemCodes), Some message =>
      injectConsumerDiscount_callback listing itemCodes message d
  | _, _ => start d
  end.

(* ---------------------------------------------------------------- *)
(** *** The badge script *)

Record badge : Type := { badge_type : string }.

Definition badges_message := option (list (string * list badge)).

Definition lower (c : ascii) : ascii :=
  let n := nat_of_ascii c in
  if (65 <=? n)%nat && (n <=? 90)%nat then ascii_of_nat (n + 32) else c.

Definition slug_char (c : ascii) : bool :=
  let n := nat_of_ascii c in
  ((97 <=? n)%nat && (n <=? 122)%nat) || ((48 <=? n)%nat && (n <=? 57)%nat).

(** [type.toLowerCase().replace(/[^a-z0-9]+/g, "-")]. *)
Fixpoint slug_chars (in_run : bool) (s : list ascii) : list ascii :=
  match s with
  | [] => []
  | c :: r =>
      let c' := lower c in
      if slug_char c' then c' :: slug_chars false r
      else if in_run then slug_chars true r
      else "-"%char :: slug_chars true r
  end.

Definition slug (type : string) : string :=
  string_of_list_ascii (slug_chars false (list_ascii_of_string type)).

Definition badge_span (b : badge) : node :=
  el "span" ["ce-badge"; String.append "ce-badge-" (slug (badge_type b))]
    [Text (badge_type b)].

Definition badges_overlay (badges : list badge) : node :=
  el "div" ["ce-badges"] (map badge_span badges).

Definition or_else {A} (a b : option A) : option A :=
  match a with Some _ => a | None => b end.

(** <<
    const card = el.closest(".card") || el.closest(".item-card")
                 || el.closest(".list-row");
    const cardBody = card?.querySelector?.(".card-body") || card;
    if (!cardBody) return;
    if (cardBody.querySelector(".ce-badges")) return;
    ... build container ...
    const titleEl = cardBody.querySelector?.(".product-title")
                    || cardBody.querySelector?.("a, h4, h5");
    if (titleEl && titleEl.parentNode) {
      titleEl.parentNode.insertBefore(container, titleEl.nextSibling);
    } else {
      cardBody.insertBefore(container, cardBody.firstChild);
    }
>> *)
Definition badges_target (badges : list badge) (e : nat) (st : run) : run :=
  let card :=
    or_else (closest [[Class "card"]] (doc st) e)
      (or_else (closest [[Class "item-card"]] (doc st) e)
         (closest [[Class "list-row"]] (doc st) e)) in
  match card with
  | None => st
  | Some card =>
      let cardBody :=
        match querySelector [[Class "card-body"]] card with
        | Some b => b
        | None => card
        end in
      match querySelector [[Class "ce-badges"]] cardBody with
      | Some _ => st
      | None =>
          let titleEl :=
            or_else (querySelector [[Class "product-title"]] cardBody)
              (querySelector [[Tag "a"]; [Tag "h4"]; [Tag "h5"]] cardBody) in
          match titleEl with
          | Some t => inject (After (nid t)) (badges_overlay badges) (nid cardBody) st
          | None =>
              inject (Prepend (nid cardBody)) (badges_overlay badges)
                (nid cardBody) st
          end
      end
  end.

(** [CSS.escape] makes the selector denote the code itself. *)
Definition escaped_selector (code : string) : option selector :=
  Some [[AttrIs "data-item-code" code]].

Definition injectBadges_callback
  (root : nat) (itemCodes : list string) (message : badges_message)
  (d : node) : run :=
  let mapping := match message with Some m => m | None => [] end in
  callback_loop (fun code => nonempty (lookup mapping code))
    escaped_selector badges_target root itemCodes d.

Definition injectBadges (response : option badges_message) (d : node) : run :=
  match request d, response with
  | Some (root, itemCodes), Some message =>
      injectBadges_callback root itemCodes message d
  | _, _ => start d
  end.

End Scripts.

(** The hand-built selector on item codes that need no escaping. *)
Definition plain_char (c : ascii) : bool :=
  let n := nat_of_ascii c in
  negb ((n =? 34) || (n =? 92) || (n =? 10) || (n =? 12) || (n =? 13))%nat.

Definition css_string_plain (code : string) : option string :=
  if forallb plain_char (list_ascii_of_string code) then Some code else None.

End Coordinator.

(* ================================================================== *)
(** ** The listing quantity controls *)
(* ================================================================== *)

Module Qty.
Import Dom.
Import Coordinator.

Section Controls.
(** As in the coordinators: what the string literal of a hand-built
    [[data-item-code="..."]] selector denotes, [None] for a syntax error. *)
Variable css_string : string -> option string.

Definition wrapper_selector (v : string) : selector :=
  [[Class "listing-qty-wrapper"; AttrIs "data-item-code" v]].

Definition addBtn_selector (v : string) : selector :=
  [[Class "btn-add-to-cart-list"; AttrIs "data-item-code" v]].

(** The subtree that [renderQtyControls] builds: the wrapper
    [div.listing-qty-wrapper.mt-2] and what its [innerHTML] parses to. *)
Definition qty_wrapper (itemCode : string) (initialQty : option Z) : node :=
  Elem 0 "div" ["listing-qty-wrapper"; "mt-2"] [("data-item-code", itemCode)]
    [ Elem 0 "div" ["d-flex"; "align-items-center"; "listing-qty-inner"] []
        [ Elem 0 "div" ["input-group"; "number-spinner"] []
            [ Elem 0 "span" ["input-group-prepend"; "d-sm-inline-block"] []
                [ Elem 0 "button" ["btn"; "cart-btn"] [("data-dir", "dwn")]
                    [Text "-"] ];
              Elem 0 "input" ["form-control"; "text-center"; "cart-qty"]
                [("value",
                  JS.String_of_Z (match initialQty with Some q => q | None => 1%Z end));
                 ("data-item-code", itemCode);
                 ("style", "max-width: 70px;")] [];
              Elem 0 "span" ["input-group-append"; "d-sm-inline-block"] []
                [ Elem 0 "button" ["btn"; "cart-btn"] [("data-dir", "up")]
                    [Text "+"] ] ];
          Elem 0 "a" ["listing-go-to-cart"; "ml-2"]
            [("href", "/cart"); ("aria-label", "Go to cart")]
            [ Elem 0 "svg" ["icon"; "sm"] [] [Elem 0 "path" [] [] []] ] ] ].

(** [renderQtyControls(card, itemCode, initialQty)]; [None] when the selector
    built from [itemCode] throws (nothing has been written by then).  A
    [card] that is no longer in the document changes nothing visible. *)
Definition renderQtyControls (card : nat) (itemCode : string)
  (initialQty : option Z) (d : node) : option node :=
  if String.eqb itemCode "" then Some d
  else
    match css_string itemCode with
    | None => None
    | Some v =>
        match deref d card with
        | None => Some d
        | Some cardEl =>
            match querySelector (wrapper_selector v) cardEl with
            | Some existing =>
                let d1 := update (nid existing) (classList_remove "hidden") d in
                match querySelector [[Class "cart-qty"]] existing, initialQty with
                | Some inputExisting, Some q =>
                    Some (update (nid inputExisting)
                            (set_value (JS.String_of_Z q)) d1)
                | _, _ => Some d1
                end
            | None =>
                let wrapper := qty_wrapper itemCode initialQty in
                let cartActionContainer :=
                  or_else (querySelector [[Class "cart-action-container"]] cardEl)
                    (querySelector [[Class "card-body"]] cardEl) in
                let d1 :=
                  match cartActionContainer with
                  | Some c => place (Append (nid c)) (create d wrapper) d
                  | None => place (Append card) (create d wrapper) d
                  end in
                match deref d1 card with
                | Some cardEl1 =>
                    match querySelector (addBtn_selector v) cardEl1 with
                    | Some addBtn =>
                        Some (update (nid addBtn) (classList_add "hidden") d1)
                    | None => Some d1
                    end
                | None => Some d1
                end
            end
        end
    end.

(** The response of the cart-update call, as far as the callback looks at it:
    whether [exc] is set. *)
Record cart_response : Type := { exc : bool }.

(** The arguments [updateQty] sends: [item_code], [qty] (never below 0) and
    [with_items]. *)
Definition updateQty_args (itemCode : string) (newQty : Z) : string * Z * Z :=
  (itemCode, if (newQty <? 0)%Z then 0%Z else newQty, 1%Z).

(** The callback of [updateQty(card, itemCode, newQty)]; [r] is [None] when
    the callback is handed nothing. *)
Definition updateQty_callback (card : nat) (itemCode : string) (newQty : Z)
  (r : option cart_response) (d : node) : node :=
  let newQty := if (newQty <? 0)%Z then 0%Z else newQty in
  match r with
  | Some {| exc := true |} => d
  | _ =>
      match css_string itemCode, deref d card with
      | Some v, Some cardEl =>
          match querySelector (wrapper_selector v) cardEl with
          | None => d
          | Some wrapper =>
              let input := querySelector [[Class "cart-qty"]] wrapper in
              if (newQty =? 0)%Z then
                let d1 := update (nid wrapper) (classList_add "hidden") d in
                let d2 :=
                  match input with
                  | Some i => update (nid i) (set_value "0") d1
                  | None => d1
                  end in
                match deref d2 card with
                | Some cardEl2 =>
                    match querySelector (addBtn_selector v) cardEl2 with
                    | Some addBtn =>
                        update (nid addBtn) (classList_remove "hidden") d2
                    | None => d2
                    end
                | None => d2
                end
              else
                match input with
                | Some i => update (nid i) (set_value (JS.String_of_Z newQty)) d
                | None => d
                end
          end
      | _, _ => d
      end
  end.

(** A loop over a list of elements that an exception ends; the flag tells
    whether one did. *)
Fixpoint each (body : node -> node -> option node) (l : list node) (d : node)
  : node * bool :=
  match l with
  | [] => (d, false)
  | a :: r =>
      match body a d with
      | Some d' => each body r d'
      | None => (d, true)
      end
  end.

(** The body shared by the two loops of [syncExistingInCartCards]. *)
Definition reflect_in_cart (indicator : node) (d : node) : option node :=
  if has_class "hidden" indicator then Some d
  else
    match getAttribute "data-item-code" indicator with
    | None => Some d
    | Some itemCode =>
        if String.eqb itemCode "" then Some d
        else
          match closest card_selector d (nid indicator) with
          | None => Some d
          | Some card => renderQtyControls (nid card) itemCode (Some 1%Z) d
          end
    end.

(** [syncExistingInCartCards(root)] with [scope] the element it scans. *)
Definition syncExistingInCartCards (scope : nat) (d : node) : node :=
  match deref d scope with
  | None => d
  | Some s =>
      let '(d1, threw) :=
        each reflect_in_cart
          (querySelectorAll [[Class "cart-indicator"; Attr "data-item-code"]] s) d in
      if threw then d1
      else
        fst (each reflect_in_cart
               (querySelectorAll [[Class "go-to-cart-grid"; Attr "data-item-code"]] s)
               d1)
  end.

(** The click listener that turns an Add to Cart button into the controls:
    the document after the click and, when it sets the 200 ms timer, the card
    and item code the timer will call [renderQtyControls] with. *)
Definition on_add_to_cart_click (guest : bool) (target : nat) (d : node)
  : node * option (nat * string) :=
  match closest [[Class "btn-add-to-cart-list"; Attr "data-item-code"]] d target with
  | None => (d, None)
  | Some btn =>
      if has_class "go-to-cart-grid" btn then (d, None)
      else if guest then (d, None)
      else
        match getAttribute "data-item-code" btn with
        | None => (d, None)
        | Some itemCode =>
            if String.eqb itemCode "" then (d, None)
            else
              match closest card_selector d (nid btn) with
              | None => (d, None)
              | Some card =>
                  (update (nid btn) (classList_add "hidden") d,
                   Some (nid card, itemCode))
              end
        end
  end.

Definition on_timer (pending : nat * string) (d : node) : node :=
  match renderQtyControls (fst pending) (snd pending) (Some 1%Z) d with
  | Some d' => d'
  | None => d
  end.

(** [event.target.closest('.listing-qty-wrapper .cart-btn')]: the nearest
    [.cart-btn] that has a [.listing-qty-wrapper] above it. *)
Fixpoint closest_cart_btn (chain : list node) : option node :=
  match chain with
  | [] => None
  | n :: up =>
      if matches [[Class "cart-btn"]] n
         && existsb (matches [[Class "listing-qty-wrapper"]]) up
      then Some n
      else closest_cart_btn up
  end.

(** The click listener of the +/- buttons: the call it makes, as the
    arguments of [updateQty], or [None] when it returns without one. *)
Definition on_updown_click (target : nat) (d : node) : option (nat * string * Z) :=
  match ancestors target d with
  | None => None
  | Some chain =>
      match closest_cart_btn chain with
      | None => None
      | Some upDownBtn =>
          match closest [[Class "listing-qty-wrapper"]] d (nid upDownBtn) with
          | None => None
          | Some wrapper =>
              match getAttribute "data-item-code" wrapper with
              | None => None
              | Some itemCode =>
                  if String.eqb itemCode "" then None
                  else
                    match closest card_selector d (nid wrapper) with
                    | None => None
                    | Some card =>
                        let text :=
                          match querySelector [[Class "cart-qty"]] wrapper with
                          | Some input =>
                              match getAttribute "value" input with
                              | Some v => if String.eqb v "" then "1" else v
                              | None => "1"
                              end
                          | None => "1"
                          end in
                        let current :=
                          match JS.parseInt text with
                          | Some n => if (n <? 1)%Z then 1%Z else n
                          | None => 1%Z
                          end in
                        match getAttribute "data-dir" upDownBtn with
                        | Some dir =>
                            if String.eqb dir "up"
                            then Some (nid card, itemCode, (current + 1)%Z)
                            else if String.eqb dir "dwn"
                            then
                              let next := (current - 1)%Z in
                              Some (nid card, itemCode,
                                    if (next <? 0)%Z then 0%Z else next)
                            else None
                        | None => None
                        end
                    end
              end
          end
      end
  end.

(* ---------------------------------------------------------------- *)
(** *** What a card shows *)

Definition stepper (card : nat) (itemCode : string) (d : node) : option node :=
  match css_string itemCode, deref d card with
  | Some v, Some cardEl => querySelector (wrapper_selector v) cardEl
  | _, _ => None
  end.

Definition stepper_visible (card : nat) (itemCode : string) (d : node) : bool :=
  match stepper card itemCode d with
  | Some w => negb (has_class "hidden" w)
  | None => false
  end.

(** The text in the quantity box of the stepper. *)
Definition displayed (card : nat) (itemCode : string) (d : node)
  : option string :=
  match stepper card itemCode d with
  | Some w =>
      match querySelector [[Class "cart-qty"]] w with
      | Some input => getAttribute "value" input
      | None => None
      end
  | None => None
  end.

(** The overlay next to what the backend last confirmed for each item (the
    script keeps no such record; it is here to state properties). *)
Record overlay : Type := {
  page : node;
  confirmed : list (string * Z)
}.

Inductive transition : Type :=
| CartUpdateReturned (card : nat) (itemCode : string) (newQty : Z)
    (r : option cart_response)
| CartUpdateLost (card : nat) (itemCode : string) (newQty : Z)
| AddToCartTimer (card : nat) (itemCode : string)
| ListingMutated (addedNode : nat).

Definition succeeded (r : option cart_response) : bool :=
  match r with Some {| exc := true |} => false | _ => true end.

Definition step (t : transition) (o : overlay) : overlay :=
  match t with
  | CartUpdateReturned card itemCode newQty r =>
      {| page := updateQty_callback card itemCode newQty r (page o);
         confirmed :=
           if succeeded r
           then (itemCode, if (newQty <? 0)%Z then 0%Z else newQty) :: confirmed o
           else confirmed o |}
  | CartUpdateLost _ _ _ => o
  | AddToCartTimer card itemCode =>
      {| page := on_timer (card, itemCode) (page o); confirmed := confirmed o |}
  | ListingMutated addedNode =>
      {| page := syncExistingInCartCards addedNode (page o);
         confirmed := confirmed o |}
  end.

(** The card shows what the backend last confirmed for the item. *)
Definition shows_confirmed (card : nat) (itemCode : string) (o : overlay) : Prop :=
  match lookup (confirmed o) itemCode with
  | Some q => displayed card itemCode (page o) = Some (JS.String_of_Z q)
  | None => displayed card itemCode (page o) = None
  end.

End Controls.
End Qty.

(* ================================================================== *)
(** ** When the coordinators run *)
(* ================================================================== *)

Module Triggers.

Inductive kind : Type := Offers | Badges | Discounts.

(** The [setTimeout] calls each script makes when the page is ready, in
    milliseconds (times are binary numbers). *)
Definition timers (k : kind) : list N :=
  match k with
  | Offers => [600]
  | Discounts => [500]
  | Badges => [600; 1500; 3000]
  end%N.

(** The quiet period of the script's MutationObserver on the listing, [None]
    when the script installs none. *)
Definition observer_delay (k : kind) : option N :=
  match k with
  | Badges => Some 400%N
  | Offers | Discounts => None
  end.

(** The observer of the badge script,
<<
    let timer = null;
    const observer = new MutationObserver(() => {
      if (timer) window.clearTimeout(timer);
      timer = window.setTimeout(injectBadges, 400);
    });
>>
    run over the times at which mutations are reported (in increasing order):
    [pending] is the time at which the timer set last is due, and the result
    lists the times at which it fires.  A timer due when the next mutation is
    reported has fired. *)
Fixpoint debounce (delay : N) (pending : option N) (mutations : list N)
  : list N :=
  match mutations with
  | [] => match pending with Some due => [due] | None => [] end
  | t :: rest =>
      match pending with
      | Some due =>
          if (due <=? t)%N then due :: debounce delay (Some (t + delay)%N) rest
          else debounce delay (Some (t + delay)%N) rest
      | None => debounce delay (Some (t + delay)%N) rest
      end
  end.

(** The times at which a script runs its sync: its timers, and what its
    observer adds. *)
Definition timer_syncs (k : kind) : list N := timers k.

Definition observer_syncs (k : kind) (mutations : list N) : list N :=
  match observer_delay k with
  | Some delay => debounce delay None mutations
  | None => []
  end.

Definition syncs (k : kind) (mutations : list N) : list N :=
  timer_syncs k ++ observer_syncs k mutations.

(** No mutation is reported in the quiet period after [t]. *)
Definition quiet_after (delay t : N) (mutations : list N) : Prop :=
  forall m, In m mutations -> ~ (t < m < t + delay)%N.

End Triggers.

(* ================================================================== *)
(** ** The price slider when the page loads *)
(* ================================================================== *)

Module Prefill.
Import JS Facets.

(** What the pre-fill read of [renderPriceRanges] makes of one property of
    the decoded document, [price_from] or [price_to]:
<<
    if (existing.price_from && existing.price_from.length) {
      activeFrom = parseFloat(existing.price_from[0]);
    }
>>
    [v] is the value of the property, [None] when the document has none.  The
    result is [Some (Some n)] for the number [n], [Some None] for null or NaN
    (the initialisation below treats the two alike) and [None] where the
    model stops: [parseFloat] of a text of more than one character, and an
    object that has a truthy [length] of its own.  The first character of a
    string is a digit or gives NaN; [null], a boolean and an object print as
    a word and give NaN. *)
Definition active_bound (v : option json) : option (option Z) :=
  match v with
  | Some (JArr (JNum n :: _)) => Some (Some n)
  | Some (JArr ((JStr _ | JArr _) :: _)) => None
  | Some (JArr _) => Some None
  | Some (JStr (String c _)) => Some (digit_val c)
  | Some (JObj o) =>
      match obj_get o "length" with
      | Some l => if truthy l then None else Some None
      | None => Some None
      end
  | _ => Some None
  end.

(** <<
    let activeFrom = null;
    let activeTo = null;
    ...
    if (params.field_filters) {
      try {
        const existing = JSON.parse(params.field_filters);
        ... price_from ... price_to ...
      } catch (e) { }
    }
>>
    A text that is not JSON throws in [JSON.parse] and [null] throws at the
    first property read: both leave the two variables null.  A number, a
    string, a boolean and an array have no such properties. *)
Definition active_range (search : URLSearchParams)
  : option (option Z * option Z) :=
  match usp_get search "field_filters" with
  | Some raw =>
      if negb (String.eqb raw "") then
        match JSON_parse raw with
        | Some (JObj existing) =>
            match active_bound (obj_get existing "price_from"),
                  active_bound (obj_get existing "price_to") with
            | Some activeFrom, Some activeTo => Some (activeFrom, activeTo)
            | _, _ => None
            end
        | _ => Some (None, None)
        end
      else Some (None, None)
  | None => Some (None, None)
  end.

(** The widgets as [renderPriceRanges] leaves them:
<<
    const initialMin =
      activeFrom != null && !isNaN(activeFrom) && activeFrom >= 0
        ? activeFrom : 0;
    const initialMax =
      activeTo != null && !isNaN(activeTo) && activeTo > 0
        ? activeTo : maxPrice;
    minSlider.value = initialMin;
    maxSlider.value = initialMax;
    minInputBox.value = initialMin;
    maxInputBox.value = initialMax;
    ...
    updateDisplayContinuous();
>>
    The text under the track is "All" in the markup. *)
Definition initial_ui (mx : Z) (activeFrom activeTo : option Z) : slider_ui :=
  let initialMin :=
    match activeFrom with
    | Some v => if (0 <=? v)%Z then v else 0%Z
    | None => 0%Z
    end in
  let initialMax :=
    match activeTo with
    | Some v => if (0 <? v)%Z then v else mx
    | None => mx
    end in
  updateDisplayContinuous mx
    {| minSlider := range_sanitize mx (inject_Z initialMin);
       maxSlider := range_sanitize mx (inject_Z initialMax);
       minInputBox := Some (inject_Z initialMin);
       maxInputBox := Some (inject_Z initialMax);
       display := DisplayAll |}.

(** The slider of a page: the ranges of the response and the URL of the
    page; [None] where the model of the pre-fill read stops. *)
Definition renderPriceRanges (ranges : list PriceRange) (search : URLSearchParams)
  : option slider_ui :=
  match active_range search with
  | Some (activeFrom, activeTo) => Some (initial_ui (maxPrice ranges) activeFrom activeTo)
  | None => None
  end.

(** The Apply button:
<<
    const minVal = parseFloat(minSlider.value);
    const maxVal = parseFloat(maxSlider.value);
    applyPriceFilter(minVal, maxVal);
>>
    The value of a range input is always a number. *)
Definition on_apply_click (ui : slider_ui) (search : URLSearchParams) : navigation :=
  applyPriceFilter (Some (minSlider ui)) (Some (maxSlider ui)) search.

End Prefill.

(* ================================================================== *)
(** ** The facet containers of the sidebar *)
(* ================================================================== *)

Module Sidebar.
Import Dom Coordinator.

(** <<
    const ensureBlock = (id) => {
      if (document.getElementById(id)) return;
      const block = document.createElement("div");
      block.id = id;
      block.className = "mb-4 filter-block pb-5";
      sidebar.appendChild(block);
    };
>>
    [sidebar] is the element [initCatalogFacets] holds. *)
Definition ensureBlock (sidebar : nat) (id : string) (d : node) : node :=
  match getElementById id d with
  | Some _ => d
  | None =>
      place (Append sidebar)
        (create d (Elem 0 "div" ["mb-4"; "filter-block"; "pb-5"] [("id", id)] []))
        d
  end.

Definition ensureFacetContainers (sidebar : nat) (d : node) : node :=
  ensureBlock sidebar "facet-badges"
    (ensureBlock sidebar "facet-offers"
       (ensureBlock sidebar "facet-price-ranges" d)).

(** [initCatalogFacets] up to its backend call:
<<
    const sidebar = document.getElementById("product-filters");
    if (!sidebar) { return; }
    ...
    ensureFacetContainers();
>> *)
Definition initCatalogFacets (d : node) : node :=
  match getElementById "product-filters" d with
  | None => d
  | Some sidebar => ensureFacetContainers (nid sidebar) d
  end.

End Sidebar.

(* ================================================================== *)
(** ** The image zoom lens *)
(* ================================================================== *)

Module Zoom.

(** The bounding rectangle of the zoom container. *)
Record DOMRect : Type := {
  left : Q;
  top : Q;
  width : Q;
  height : Q
}.

(** The position of the lens on one axis, for the pointer at [client]:
<<
    let x = e.clientX - rect.left;
    const lensWidth = zoomLens.offsetWidth;
    x = x - lensWidth / 2;
    if (x > rect.width - lensWidth) x = rect.width - lensWidth;
    if (x < 0) x = 0;
>>
    (Lengths are rationals here; the script computes with doubles.) *)
Definition lens_offset (client origin extent lens : Q) : Q :=
  let x := (client - origin - lens / 2)%Q in
  let x := if Qle_bool x (extent - lens)%Q then x else (extent - lens)%Q in
  if Qle_bool 0%Q x then x else 0%Q.

(** [zoomLens.style.left] and [zoomLens.style.top] after a [mousemove] at
    [(clientX, clientY)]; the [touchmove] listener does the same with the
    first touch. *)
Definition on_mousemove (clientX clientY : Q) (rect : DOMRect)
  (lensWidth lensHeight : Q) : Q * Q :=
  (lens_offset clientX (left rect) (width rect) lensWidth,
   lens_offset clientY (top rect) (height rect) lensHeight).

Definition on_touchmove (touchX touchY : Q) (rect : DOMRect)
  (lensWidth lensHeight : Q) : Q * Q :=
  (lens_offset touchX (left rect) (width rect) lensWidth,
   lens_offset touchY (top rect) (height rect) lensHeight).

End Zoom.

(* ================================================================== *)
(** ** The labels of the cart buttons *)
(* ================================================================== *)

Module Buttons.
Import Dom Coordinator.

(** [String.prototype.trim]: white space and line ends go from both ends (on
    the 8-bit characters of the model). *)
Definition trim (s : string) : string :=
  string_of_list_ascii
    (List.rev (JS.trim_start (List.rev (JS.trim_start (list_ascii_of_string s))))).

(** The children of the button after the loop
<<
    childNodes.forEach(node => {
      if (node.nodeType === 3) {
        const text = node.textContent || '';
        if (text.trim().length) {
          const span = document.createElement('span');
          span.className = 'cart-label';
          span.textContent = text.trim();
          btn.replaceChild(span, node);
        }
      }
    });
>>
    over the children it had; [base] is the identity of the next element
    created. *)
Fixpoint wrap_children (base : nat) (childNodes : list node) : list node :=
  match childNodes with
  | [] => []
  | Text text :: r =>
      if (0 <? String.length (trim text))%nat
      then Elem base "span" ["cart-label"] [] [Text (trim text)]
           :: wrap_children (S base) r
      else Text text :: wrap_children base r
  | k :: r => k :: wrap_children base r
  end.

(** The document with new children for the element [ref]. *)
Fixpoint set_children (ref : nat) (f : list node -> list node) (n : node) : node :=
  match n with
  | Text _ => n
  | Elem i t c a ks =>
      if (i =? ref)%nat then Elem i t c a (f ks)
      else Elem i t c a (map (set_children ref f) ks)
  end.

(** <<
    function wrapButtonLabel(btn) {
      if (!btn) return;
      if (btn.querySelector('.cart-label')) return;
      const childNodes = Array.from(btn.childNodes);
      childNodes.forEach(...);
    }
>> *)
Definition wrapButtonLabel (btn : nat) (d : node) : node :=
  match deref d btn with
  | None => d
  | Some b =>
      match querySelector [[Class "cart-label"]] b with
      | Some _ => d
      | None => set_children btn (wrap_children (fresh d)) d
      end
  end.

(** [root.querySelectorAll('.btn-add-to-cart, .btn-view-in-cart')
    .forEach(wrapButtonLabel)]: the buttons found before the first is
    wrapped. *)
Definition wrap_all (root : node) (d : node) : node :=
  fold_left (fun d' b => wrapButtonLabel (nid b) d')
    (querySelectorAll [[Class "btn-add-to-cart"]; [Class "btn-view-in-cart"]] root) d.

End Buttons.

(* ================================================================== *)
(** ** The filter toggle of narrow screens *)
(* ================================================================== *)

Module MobileFilters.
Import Dom Coordinator.

Section Toggle.
(** [__()], the translation of a message (the message itself when the page
    has no [__]). *)
Variable translate : string -> string.
(** The identity of [document.body]. *)
Variable body : nat.

(** The [div] with the toggle button; the white space between the tags of
    its [innerHTML] is left out. *)
Definition toggleBtn : node :=
  Elem 0 "div" ["d-flex"; "justify-content-end"; "mb-3"; "d-md-none"] []
    [ Elem 0 "button" ["btn"; "btn-outline-secondary"; "btn-sm"]
        [("type", "button"); ("id", "toggle-filters")]
        [Text (translate "Filters")] ].

Definition backdrop : node :=
  Elem 0 "div" ["filters-backdrop"; "d-md-none"] [("id", "filters-backdrop")] [].

(** <<
    sidebar.classList.add("offcanvas-filters");
    sidebar.classList.remove("collapse");
    sidebar.classList.remove("show");
>> *)
Definition offcanvas (ca : list string * list (string * string)) :=
  classList_remove "show"
    (classList_remove "collapse" (classList_add "offcanvas-filters" ca)).

(** [initMobileFilterToggle()] up to the listeners it binds. *)
Definition initMobileFilterToggle (d : node) : node :=
  match getElementById "product-filters" d with
  | None => d
  | Some sidebar =>
      if has_class "offcanvas-filters" sidebar then d
      else
        match getElementById "product-listing" d with
        | None => d
        | Some productListing =>
            match closest [[Class "col-md-9"]; [Class "col-12"]] d
                    (nid productListing) with
            | None => d
            | Some _ =>
                match getElementById "toggle-filters" d with
                | Some _ => d
                | None =>
                    let d1 := update (nid sidebar) offcanvas d in
                    let d2 :=
                      place (Prepend (nid productListing)) (create d1 toggleBtn) d1 in
                    match getElementById "filters-backdrop" d2 with
                    | Some _ => d2
                    | None => place (Append body) (create d2 backdrop) d2
                    end
                end
            end
        end
  end.

(** The click listener of the toggle button:
<<
    if (body.classList.contains("filters-open")) { closeFilters(); }
    else { openFilters(); }
>> *)
Definition on_toggle_click (d : node) : node :=
  match deref d body with
  | Some b =>
      if has_class "filters-open" b
      then update body (classList_remove "filters-open") d
      else update body (classList_add "filters-open") d
  | None => d
  end.

(** The click listener of the backdrop: [closeFilters()]. *)
Definition on_backdrop_click (d : node) : node :=
  update body (classList_remove "filters-open") d.

End Toggle.
End MobileFilters.

(* ================================================================== *)
(** * The vocabulary of the statements

    What the properties below are stated with: well-formed JSON values, the
    states a navigation leaves, the common shape of the three coordinators,
    what a placement leaves untouched, and the sample pages. *)
(* ================================================================== *)

(* ------------------------------------------------------------------ *)
(** ** JSON values that print and parse back *)
(* ------------------------------------------------------------------ *)

Module JsonDefs.
Import JS.

(** The text that follows a numeral does not go on with a digit. *)
Definition no_digit_head (rest : chars) : Prop :=
  match rest with c :: _ => is_digit c = false | [] => True end.

(** The numeral of a positive number starts with a digit that is not 0. *)
Definition lead (d : uint) : Prop :=
  match d with Nil | D0 _ => False | _ => True end.

(** What may follow a value inside a text: nothing, or a separator. *)
Definition delim (rest : chars) : Prop :=
  match rest with
  | [] => True
  | c :: _ => c = ","%char \/ c = "]"%char \/ c = "}"%char
  end.

(** The first character of a numeral. *)
Definition num_heads : chars :=
  ["-"; "0"; "1"; "2"; "3"; "4"; "5"; "6"; "7"; "8"; "9"]%char.

(** The size of a value: a bound on the depth the parser needs. *)
Fixpoint jsize (v : json) : nat :=
  match v with
  | JArr l => S (fold_right (fun e n => S (jsize e + n)) 0 l)
  | JObj o => S (fold_right (fun kv n => S (jsize (snd kv) + n)) 0 o)
  | _ => 1
  end.

(** The values [JSON.parse] can return: no object, at any depth, names a
    property twice. *)
Fixpoint json_wf (v : json) : Prop :=
  match v with
  | JArr l => fold_right (fun e P => json_wf e /\ P) True l
  | JObj o =>
      NoDup (map fst o) /\ fold_right (fun kv P => json_wf (snd kv) /\ P) True o
  | _ => True
  end.

(** The text of one property of an object. *)
Definition member (kv : string * json) : chars :=
  quote (fst kv) ++ ":"%char :: stringify_chars (snd kv).

(** The characters a JSON text can start with. *)
Definition heads : chars :=
  ["n"%char; "t"%char; "f"%char; dquote; "["%char; "{"%char] ++ num_heads.

(** The text [s] starts with one of the characters [hs]. *)
Definition head_in (hs : chars) (s : chars) : Prop :=
  match s with c :: _ => In c hs | [] => False end.

(** [jsize] and [json_wf] over the elements of an array and the properties
    of an object. *)
Definition elems_size (l : list json) : nat :=
  fold_right (fun e n => S (jsize e + n)) 0 l.

Definition members_size (o : object) : nat :=
  fold_right (fun kv n => S (jsize (snd kv) + n)) 0 o.

Definition all_wf (l : list json) : Prop :=
  fold_right (fun e P => json_wf e /\ P) True l.

Definition members_wf (o : object) : Prop :=
  fold_right (fun kv P => json_wf (snd kv) /\ P) True o.

(** Induction on a value that reaches the values inside arrays and objects. *)
Section JsonInduction.
Variable P : json -> Prop.
Hypothesis HNull : P JNull.
Hypothesis HBool : forall b, P (JBool b).
Hypothesis HNum : forall n, P (JNum n).
Hypothesis HStr : forall s, P (JStr s).
Hypothesis HArr : forall l, Forall P l -> P (JArr l).
Hypothesis HObj : forall o, Forall (fun kv => P (snd kv)) o -> P (JObj o).

Fixpoint json_induction (v : json) : P v :=
  match v with
  | JNull => HNull
  | JBool b => HBool b
  | JNum n => HNum n
  | JStr s => HStr s
  | JArr l =>
      HArr ((fix go (l : list json) : Forall P l :=
               match l with
               | [] => Forall_nil _
               | e :: r => Forall_cons e (json_induction e) (go r)
               end) l)
  | JObj o =>
      HObj ((fix go (o : list (string * json))
               : Forall (fun kv => P (snd kv)) o :=
               match o with
               | [] => Forall_nil _
               | kv :: r => Forall_cons kv (json_induction (snd kv)) (go r)
               end) o)
  end.
End JsonInduction.

End JsonDefs.

(* ------------------------------------------------------------------ *)
(** ** Facet states across a navigation *)
(* ------------------------------------------------------------------ *)

Module CodecDefs.
Import JS Facets.

(** The values of a filter, none when the state has no such name. *)
Definition values_of (st : FacetSelectionState) (k : string) : list string :=
  match state_get st k with Some vs => vs | None => [] end.

(** The state a navigation leaves in the URL. *)
Definition decode_nav (n : navigation) : option FacetSelectionState :=
  match n with
  | Navigate s => decode s
  | NotModelled => None
  end.

(** A value toggled on and then off again. *)
Definition on_then_off (filterName value : string) (search : URLSearchParams)
  : navigation :=
  bind_nav (toggleValue filterName value true search)
    (toggleValue filterName value false).

(** The state without the name [filterName] when its list is empty. *)
Definition modulo_empty_key (st : FacetSelectionState) (filterName : string)
  : FacetSelectionState :=
  filter (fun kv => negb (String.eqb (fst kv) filterName
                          && match snd kv with [] => true | _ => false end)) st.

(** The [field_filters] parameter that holds the document [ff]. *)
Definition field_filters_of (ff : object) : option string :=
  match ff with
  | [] => None
  | _ => Some (JSON_stringify (JObj ff))
  end.

(** The values of a filter in a decoded document, as the handler compares
    them. *)
Definition existing_values (ff : object) (filterName : string) : list string :=
  match obj_get ff filterName with
  | Some (JArr l) => map js_String l
  | _ => []
  end.

(** The document a navigation leaves in the URL, as the next handler reads
    it. *)
Definition document_nav (n : navigation) : option json :=
  match n with
  | Navigate s => Some (read_field_filters s)
  | NotModelled => None
  end.

(** The list a check box leaves for its filter. *)
Definition toggled (existing : list string) (value : string) (checked : bool)
  : list string :=
  if checked
  then if includes existing value then existing else existing ++ [value]
  else filter (fun s => negb (String.eqb s value)) existing.

(** The badges NEW and SALE selected. *)
Definition badges_new_sale : FacetSelectionState := [("badges", ["NEW"; "SALE"])].
End CodecDefs.

(* ------------------------------------------------------------------ *)
(** ** The price slider after enforcement *)
(* ------------------------------------------------------------------ *)

Module SliderDefs.
Import Facets.

(** After enforcement: the handles in order, the boxes showing them. *)
Definition ordered_and_mirrored (ui : slider_ui) : Prop :=
  (minSlider ui <= maxSlider ui)%Z
  /\ minInputBox ui = Some (inject_Z (minSlider ui))
  /\ maxInputBox ui = Some (inject_Z (maxSlider ui)).

End SliderDefs.

(* ------------------------------------------------------------------ *)
(** ** Subtrees and the selectors they answer *)
(* ------------------------------------------------------------------ *)

Module DomDefs.
Import Dom Coordinator.

(** Induction on a node that reaches the children of an element. *)
Section NodeInduction.
Variable P : node -> Prop.
Hypothesis HText : forall s, P (Text s).
Hypothesis HElem : forall i t c a ks, Forall P ks -> P (Elem i t c a ks).

Fixpoint node_induction (n : node) : P n :=
  match n with
  | Text s => HText s
  | Elem i t c a ks =>
      HElem i t c a
        ((fix go (l : list node) : Forall P l :=
            match l with
            | [] => Forall_nil _
            | k :: r => Forall_cons k (node_induction k) (go r)
            end) ks)
  end.
End NodeInduction.

(** An overlay is inert for a selector when none of its elements matches. *)
Definition inert (sel : selector) (w : node) : Prop :=
  filter (matches sel) (elements w) = [].

(** A reference that denotes no element of a subtree. *)
Definition absent (target : nat) (w : node) : Prop :=
  Forall (fun e => nid e <> target) (elements w).

(** Whether the anchor of a placement lies in a subtree, so that the new
    subtree lands inside it. *)
Definition anchored (pl : placement) (n : node) : Prop :=
  match pl with
  | After p => In p (map nid (descendants n))
  | Prepend p | Append p => In p (map nid (elements n))
  end.

(** Whether [querySelector] finds an element. *)
Definition found (sel : selector) (n : node) : bool :=
  match querySelector sel n with Some _ => true | None => false end.

(** [renumber] along a list of children. *)
Fixpoint renumber_list (l : list node) (b : nat) : list node * nat :=
  match l with
  | [] => ([], b)
  | k :: r =>
      let '(k', b1) := renumber b k in
      let '(r', b2) := renumber_list r b1 in
      (k' :: r', b2)
  end.

End DomDefs.

(* ------------------------------------------------------------------ *)
(** ** The document around an overlay *)
(* ------------------------------------------------------------------ *)

Module PlaceDefs.
Import Dom Coordinator.

(** The document without the subtrees whose root was created at or after
    identity [b]. *)
Fixpoint without_created (b : nat) (n : node) : node :=
  match n with
  | Text _ => n
  | Elem i t c a ks =>
      Elem i t c a
        (flat_map
           (fun k =>
              match k with
              | Text _ => [k]
              | Elem j _ _ _ _ => if (b <=? j)%nat then [] else [without_created b k]
              end) ks)
  end.

(** The siblings that follow the element [ref], in the order they have. *)
Fixpoint after (ref : nat) (ks : list node) : option (list node) :=
  match ks with
  | [] => None
  | k :: r => if has_id ref k then Some r else after ref r
  end.

(** The siblings that follow the first element of identity [ref] in a
    subtree. *)
Fixpoint following (ref : nat) (n : node) : option (list node) :=
  match n with
  | Text _ => None
  | Elem _ _ _ _ ks =>
      match after ref ks with
      | Some r => Some r
      | None => first_some (map (following ref) ks)
      end
  end.

End PlaceDefs.

(* ------------------------------------------------------------------ *)
(** ** Writes that keep selector matches *)
(* ------------------------------------------------------------------ *)

Module UpdateDefs.
Import Dom.

(** An update keeps a selector when it changes the match of no element. *)
Definition keeps (sel : selector)
  (f : list string * list (string * string) -> list string * list (string * string))
  : Prop :=
  forall i t c a ks,
    matches sel (Elem i t (fst (f (c, a))) (snd (f (c, a))) ks)
    = matches sel (Elem i t c a ks).

(** An update leaves a simple test alone when it changes its outcome on no
    element. *)
Definition untouched_by
  (f : list string * list (string * string) -> list string * list (string * string))
  (s : simple) : Prop :=
  match s with
  | Class c =>
      forall cs a, existsb (String.eqb c) (fst (f (cs, a))) = existsb (String.eqb c) cs
  | Attr k | AttrIs k _ => forall cs a, assoc (snd (f (cs, a))) k = assoc a k
  | Tag _ => True
  end.

(** Tests that look neither at the class [hidden] nor at the [value]. *)
Definition hidden_free (s : simple) : Prop :=
  match s with
  | Class c => c <> "hidden"
  | Attr k | AttrIs k _ => k <> "value"
  | Tag _ => True
  end.

(** The writes of the quantity controls: they touch the class [hidden] and
    the [value] only. *)
Definition gentle
  (f : list string * list (string * string) -> list string * list (string * string))
  : Prop :=
  forall s, hidden_free s -> untouched_by f s.

End UpdateDefs.

(* ------------------------------------------------------------------ *)
(** ** The common shape of the coordinators *)
(* ------------------------------------------------------------------ *)

Module EngineDefs.
Import Dom Coordinator DomDefs.

Section Shape.
Variable P : Type.
Variable overlay : P -> node.
Variable marker : selector.
Variable scope : node -> nat -> option node.
Variable anchor : node -> option placement.

(** The common shape of the three target steps. *)
Definition gstep (p : P) (e : nat) (st : run) : run :=
  match scope (doc st) e with
  | None => st
  | Some c =>
      if found marker c then st
      else
        match anchor c with
        | None => st
        | Some pl => inject pl (overlay p) (nid c) st
        end
  end.

(** A target at which the step injects nothing. *)
Definition Blocked (d : node) (e : nat) : Prop :=
  match scope d e with
  | None => True
  | Some c => found marker c = true \/ anchor c = None
  end.

(** A document that comes from another by injections of overlays. *)
Inductive Ext : node -> node -> Prop :=
| Ext_refl d : Ext d d
| Ext_step d d' pl p :
    Ext d d' -> Ext d (place pl (create d' (overlay p)) d').

(** The card [c] carries the marker: every element of that identity that
    the card selector [S] matches has the marker below it. *)
Definition Marked (S : selector) (d : node) (c : nat) : Prop :=
  forall n, In n (elements d) -> matches S n = true -> nid n = c ->
            found marker n = true.

(** The cards of a document have one identity each. *)
Definition wfS (S : selector) (d : node) : Prop :=
  NoDup (map nid (filter (matches S) (elements d))).

(** The selectors the scripts build for an item code. *)
Definition item_selector (sel : selector) : Prop :=
  exists v, sel = [[AttrIs "data-item-code" v]].

(** What the proofs keep about a run: no card injected twice, the cards
    injected so far carry the marker, and the cards have one identity each. *)
Definition Inv (S : selector) (L : list nat) (st : run) : Prop :=
  NoDup (L ++ injected st) /\
  (forall c, In c (L ++ injected st) -> Marked S (doc st) c) /\
  wfS S (doc st).

(** One pass of a coordinator in the common shape: the request, and the
    callback on its response; [params] is [None] when no response is worked
    on. *)
Definition sync_with (params : option (string -> option P))
  (selector_of : string -> option selector) (d : node) : run :=
  match request d, params with
  | Some (listing, codes), Some payload_of =>
      callback_loop payload_of selector_of gstep listing codes d
  | _, _ => start d
  end.

Variable payload_of : string -> option P.
Variable selector_of : string -> option selector.
Variable listing : nat.

(** A document in which the callback has nothing left to inject. *)
Fixpoint Done (d : node) (codes : list string) : Prop :=
  match codes with
  | [] => True
  | code :: rest =>
      match payload_of code with
      | None => Done d rest
      | Some p =>
          match selector_of code with
          | None => True
          | Some sel =>
              (forall e, In e (targets listing sel d) -> Blocked d e) /\ Done d rest
          end
      end
  end.

End Shape.
End EngineDefs.

(* ------------------------------------------------------------------ *)
(** ** The three coordinators in the common shape *)
(* ------------------------------------------------------------------ *)

Module KindDefs.
Import Dom Coordinator.

(** Offers and discounts go after the price element of the card. *)
Definition price_anchor (c : node) : option placement :=
  option_map (fun p => After (nid p)) (querySelector [[Class "product-price"]] c).

(** What the badge script checks for its marker: the card body, or the card
    itself. *)
Definition body_selector : selector :=
  [[Class "card"]; [Class "item-card"]; [Class "list-row"]; [Class "card-body"]].

(** The card body, or card, the badge script looks at for a target. *)
Definition badges_scope (d : node) (e : nat) : option node :=
  match or_else (closest [[Class "card"]] d e)
          (or_else (closest [[Class "item-card"]] d e)
             (closest [[Class "list-row"]] d e)) with
  | None => None
  | Some card =>
      Some match querySelector [[Class "card-body"]] card with
           | Some b => b
           | None => card
           end
  end.

(** Badges go after the title, or in front of the children of the card
    body. *)
Definition title_anchor (cardBody : node) : option placement :=
  Some match or_else (querySelector [[Class "product-title"]] cardBody)
               (querySelector [[Tag "a"]; [Tag "h4"]; [Tag "h5"]] cardBody) with
       | Some t => After (nid t)
       | None => Prepend (nid cardBody)
       end.

(** The payload of each code in the response of each script, [None] when the
    callback does not get to its loop. *)
Definition offers_params (response : option offers_message)
  : option (string -> option (list offer)) :=
  match response with
  | Some (Some offersByCode) => Some (fun code => nonempty (lookup offersByCode code))
  | _ => None
  end.

Definition discount_params (response : option discounts_message)
  : option (string -> option Z) :=
  match response with
  | Some (Some discounts) => Some (discount_payload discounts)
  | _ => None
  end.

Definition badges_params (response : option badges_message)
  : option (string -> option (list badge)) :=
  match response with
  | Some message =>
      Some (fun code =>
              nonempty (lookup match message with Some m => m | None => [] end code))
  | None => None
  end.

End KindDefs.

(* ------------------------------------------------------------------ *)
(** ** A sample listing *)
(* ------------------------------------------------------------------ *)

Module PlacementDefs.
Import Dom Coordinator.

(** The title a badge container goes under. *)
Definition titleEl (cardBody : node) : option node :=
  or_else (querySelector [[Class "product-title"]] cardBody)
    (querySelector [[Tag "a"]; [Tag "h4"]; [Tag "h5"]] cardBody).

(** A listing with two cards of item ITEM-1, the second without a price and
    without a title, and a card of ITEM-2. *)
Definition sample_card (i : nat) (code : string) (priced : bool) : node :=
  Elem i "div" ["card"] []
    ((if priced
      then [ Elem (i + 1) "a" ["product-title"] [] [Text "Item"];
             Elem (i + 2) "div" ["product-price"] [] [Text "10"] ]
      else [ Elem (i + 1) "img" [] [] [] ])
     ++ [ Elem (i + 3) "div" ["btn"; "btn-add-to-cart-list"]
            [("data-item-code", code)] [] ]).

(** The listing of the three cards. *)
Definition sample_page : node :=
  Elem 1 "body" [] []
    [ Elem 2 "div" [] [("id", "product-listing")]
        [ sample_card 3 "ITEM-1" true; sample_card 7 "ITEM-1" false;
          sample_card 11 "ITEM-2" true ] ].

(** Responses that name ITEM-1 only. *)
Definition sample_offers : option (option (list (string * list offer))) :=
  Some (Some [("ITEM-1", [ {| offer_title := "Ten off"; offer_subtitle := "" |} ])]).

Definition sample_badges : option (option (list (string * list badge))) :=
  Some (Some [("ITEM-1", [ {| badge_type := "New Arrival" |} ])]).

Definition sample_discounts : option (option (list (string * Z))) :=
  Some (Some [("ITEM-1", 15%Z)]).

End PlacementDefs.

(* ------------------------------------------------------------------ *)
(** ** The quantity box *)
(* ------------------------------------------------------------------ *)

Module QtyDefs.
Import Dom Coordinator Qty.

(** The quantity box of the stepper of a card. *)
Definition box (css_string : string -> option string) (card : nat)
  (itemCode : string) (d : node) : option node :=
  match stepper css_string card itemCode d with
  | Some w => querySelector [[Class "cart-qty"]] w
  | None => None
  end.

(** A card on which [renderQtyControls] has a quantity to show: the card has a
    stepper for the item with a quantity box, or it is in the page without a
    stepper for the item (and the hand-built selector denotes the item code
    as it is). *)
Definition shows_quantity (css_string : string -> option string) (card : nat)
  (itemCode : string) (d : node) : Prop :=
  displayed css_string card itemCode d <> None
  \/ (deref d card <> None
      /\ stepper css_string card itemCode d = None
      /\ css_string itemCode = Some itemCode).

(** An update that writes classes only. *)
Definition class_only
  (f : list string * list (string * string) -> list string * list (string * string))
  : Prop :=
  forall ca, snd (f ca) = snd ca.

End QtyDefs.

(* ------------------------------------------------------------------ *)
(** ** A card in the cart *)
(* ------------------------------------------------------------------ *)

Module QtyExamples.
Import Dom Coordinator Qty.

(** A listing with one card of item ITEM-1.  The catalog shows its in-cart
    indicator in the image area of the card; the Add to Cart button sits in
    the card body and is hidden. *)
Definition listing_page : node :=
  Elem 1 "div" [] [("id", "product-listing")]
    [ Elem 2 "div" ["card"] []
        [ Elem 3 "div" ["card-img-container"] []
            [ Elem 4 "span" ["cart-indicator"] [("data-item-code", "ITEM-1")] [] ];
          Elem 5 "div" ["card-body"] []
            [ Elem 6 "div" ["btn"; "btn-add-to-cart-list"; "hidden"]
                [("data-item-code", "ITEM-1")] [] ] ] ].

(** The item was put into the cart on another page, five of it: the card has
    no stepper yet. *)
Definition in_cart_elsewhere : overlay :=
  {| page := listing_page; confirmed := [("ITEM-1", 5%Z)] |}.

(** The item was added on this page: the add-to-cart timer has shown the
    stepper, and a click on + has been confirmed twice by the backend, so the
    cart holds 3. *)
Definition confirmed_three : overlay :=
  step css_string_plain
    (CartUpdateReturned 2 "ITEM-1" 3 (Some {| exc := false |}))
    (step css_string_plain
       (CartUpdateReturned 2 "ITEM-1" 2 (Some {| exc := false |}))
       (step css_string_plain (AddToCartTimer 2 "ITEM-1")
          {| page := listing_page; confirmed := [("ITEM-1", 1%Z)] |})).

End QtyExamples.

(* ------------------------------------------------------------------ *)
(** ** Quiet periods *)
(* ------------------------------------------------------------------ *)

Module TriggerDefs.

(** Consecutive reports closer than the quiet period: one burst. *)
Fixpoint burst (delay t : N) (rest : list N) : Prop :=
  match rest with
  | [] => True
  | m :: rest' => (t <= m < t + delay)%N /\ burst delay m rest'
  end.

(** The trigger policy in full: a first timer, later ones, and an observer
    on the listing. *)
Definition full_policy (k : Triggers.kind) : Prop :=
  (exists first later, Triggers.timers k = first :: later /\ later <> [])
  /\ Triggers.observer_delay k <> None.

(** The reports after which the listing stays quiet for [delay]: the next
    report, if any, comes no earlier than [delay] later. *)
Fixpoint settled (delay : N) (mutations : list N) : list N :=
  match mutations with
  | [] => []
  | t :: rest =>
      match rest with
      | [] => [t]
      | m :: _ =>
          if (t + delay <=? m)%N then t :: settled delay rest else settled delay rest
      end
  end.
End TriggerDefs.

(* ------------------------------------------------------------------ *)
(** ** Documents grown by overlays *)
(* ------------------------------------------------------------------ *)

Module IndependenceDefs.
Import Dom Coordinator DomDefs EngineDefs.

(** The element a placement refers to. *)
Definition pl_ref (pl : placement) : nat :=
  match pl with After p | Prepend p | Append p => p end.

Section Families.
Variables P Q : Type.
Variable overlay : P -> node.
Variable foreign : Q -> node.
Variable marker : selector.
Variable scope : node -> nat -> option node.

(** The overlays of the coordinator at hand and those of the others. *)
Definition both (u : P + Q) : node :=
  match u with inl p => overlay p | inr q => foreign q end.

(** A subtree of the page with overlays placed in it, each created on a
    document whose identities reach [b]. *)
Inductive Grown (b : nat) (c : node) : node -> Prop :=
| Grown_refl : Grown b c c
| Grown_step c' dd pl u :
    Grown b c c' -> b <= max_id dd ->
    Grown b c (place pl (create dd (both u)) c').

(** Two runs of the coordinator at hand on two documents grown from [d] that
    have injected into the same cards so far and see the marker at the same
    targets. *)
Definition Sim (d : node) (st1 st2 : run) : Prop :=
  injected st1 = injected st2
  /\ thrown st1 = thrown st2
  /\ Ext both d (doc st1)
  /\ Ext both d (doc st2)
  /\ forall e c1 c2,
       e <= max_id d ->
       scope (doc st1) e = Some c1 -> scope (doc st2) e = Some c2 ->
       found marker c1 = found marker c2.

Variable anchor : node -> option placement.
Variable payload_of : string -> option P.
Variable selector_of : string -> option selector.
Variable listing : nat.

(** A card that is due an overlay on the document [d]: it is the scope of an
    element of a code with a payload, has no marker and has an anchor. *)
Definition Due (d : node) (codes : list string) (c : nat) : Prop :=
  exists code p sel e c0,
    In code codes /\ payload_of code = Some p /\ selector_of code = Some sel
    /\ In e (targets listing sel d) /\ scope d e = Some c0 /\ nid c0 = c
    /\ found marker c0 = false /\ anchor c0 <> None.

End Families.
End IndependenceDefs.

(* ------------------------------------------------------------------ *)
(** ** Passes of the three coordinators *)
(* ------------------------------------------------------------------ *)

Module PassDefs.
Import Dom Coordinator Triggers.

(** Every selector the three scripts look up in a card: the scopes and the
    anchors. *)
Definition lookups : selector :=
  [[Class "item-card"]; [Class "card"]; [Class "list-row"]; [Class "card-body"];
   [Class "product-price"]; [Class "product-title"];
   [Tag "a"]; [Tag "h4"]; [Tag "h5"]].

Section Passes.
Variable css_string : string -> option string.
Variable translate : string -> string.

(** One pass of one of the coordinators, with the response it gets. *)
Inductive pass : Type :=
| OffersPass (response : option offers_message)
| DiscountPass (response : option discounts_message)
| BadgesPass (response : option badges_message).

Definition kind_of (p : pass) : kind :=
  match p with
  | OffersPass _ => Offers
  | DiscountPass _ => Discounts
  | BadgesPass _ => Badges
  end.

Definition run_pass (p : pass) (d : node) : run :=
  match p with
  | OffersPass r => injectProductOffers css_string translate r d
  | DiscountPass r => injectConsumerDiscount css_string translate r d
  | BadgesPass r => injectBadges r d
  end.

(** The document a sequence of passes leaves. *)
Definition after (ps : list pass) (d : node) : node :=
  fold_left (fun d' q => doc (run_pass q d')) ps d.

(** The overlays of the coordinators other than the one named. *)
Definition not_offers (q : Z + list badge) : node :=
  match q with
  | inl discount => discount_overlay translate discount
  | inr badges => badges_overlay badges
  end.

Definition not_discounts (q : list offer + list badge) : node :=
  match q with
  | inl offers => offers_overlay translate offers
  | inr badges => badges_overlay badges
  end.

Definition not_badges (q : list offer + Z) : node :=
  match q with
  | inl offers => offers_overlay translate offers
  | inr discount => discount_overlay translate discount
  end.

End Passes.
End PassDefs.

(* ------------------------------------------------------------------ *)
(** ** The document a check box writes *)
(* ------------------------------------------------------------------ *)

Module NavigationDefs.
Import JS Facets CodecDefs.

(** The handler, as a step from the document it reads to the document it
    writes. *)
Definition toggle_document (ff : object) (f : string) (v : option string)
  (checked : bool) : object :=
  let next :=
    toggled (existing_values ff f) match v with Some s => s | None => "" end
      checked in
  if (0 <? List.length next)%nat
  then obj_assign ff f (JArr (map JStr next))
  else obj_delete ff f.

End NavigationDefs.

(* ------------------------------------------------------------------ *)
(** ** The slider range and the price document *)
(* ------------------------------------------------------------------ *)

Module PrefillDefs.
Import JS Facets.

(** The document [applyPriceFilter] writes for two numbers. *)
Definition price_document (ff : object) (a b : Z) : object :=
  obj_set (obj_set ff "price_from" (JArr [JNum a])) "price_to" (JArr [JNum b]).

(** The two handles inside the range of the slider. *)
Definition in_range (mx : Z) (ui : slider_ui) : Prop :=
  (0 <= minSlider ui <= mx)%Z /\ (0 <= maxSlider ui <= mx)%Z.

End PrefillDefs.

(* ------------------------------------------------------------------ *)
(** ** The facet containers *)
(* ------------------------------------------------------------------ *)

Module SidebarDefs.
Import Dom.

(** The element [ensureBlock] creates for an id. *)
Definition block (id : string) : node :=
  Elem 0 "div" ["mb-4"; "filter-block"; "pb-5"] [("id", id)] [].

(** The ids of the three containers. *)
Definition facet_ids : list string :=
  ["facet-price-ranges"; "facet-offers"; "facet-badges"].

End SidebarDefs.

(* ------------------------------------------------------------------ *)
(** ** Dashes in a slug *)
(* ------------------------------------------------------------------ *)

Module SlugDefs.

(** No dash directly after a dash. *)
Fixpoint dashes_apart (l : list ascii) : bool :=
  match l with
  | a :: r =>
      match r with
      | b :: _ =>
          negb (Ascii.eqb a "-"%char && Ascii.eqb b "-"%char) && dashes_apart r
      | [] => true
      end
  | [] => true
  end.

End SlugDefs.

(* ================================================================== *)
(** * Properties *)
(* ================================================================== *)

(* ------------------------------------------------------------------ *)
(** ** JSON.parse reads back what JSON.stringify writes *)
(* ------------------------------------------------------------------ *)

Module JSFacts.
Import DecimalPos DecimalN DecimalFacts.
Import JS JsonDefs.

Lemma read_digits_stop acc rest :
  no_digit_head rest -> read_digits acc rest = (acc, rest).
Proof.
  destruct rest as [|c r]; simpl; [reflexivity|].
  unfold is_digit. destruct (digit_val c); [discriminate|reflexivity].
Qed.

Lemma read_digits_cons c k acc r :
  digit_val c = Some k -> read_digits acc (c :: r) = read_digits (10 * acc + k) r.
Proof. intros H. simpl. rewrite H. reflexivity. Qed.

Ltac norm_digit :=
  repeat match goal with
  | |- context [Z.of_nat ?n] =>
      let v := eval vm_compute in (Z.of_nat n) in change (Z.of_nat n) with v
  end.

Lemma read_digits_acc d : forall acc rest,
  no_digit_head rest ->
  read_digits (Z.pos acc) (uint_digits d ++ rest)
  = (Z.pos (Pos.of_uint_acc d acc), rest).
Proof.
  induction d; intros acc rest H;
    [ apply read_digits_stop; assumption | .. ];
    cbn [uint_digits Datatypes.app Pos.of_uint_acc];
    erewrite read_digits_cons by reflexivity;
    rewrite <- IHd by assumption; f_equal; norm_digit; lia.
Qed.

Lemma read_digits_uint d : forall rest,
  no_digit_head rest ->
  read_digits 0 (uint_digits d ++ rest) = (Z.of_N (Pos.of_uint d), rest).
Proof.
  induction d; intros rest H;
    [ apply read_digits_stop; assumption | .. ];
    cbn [uint_digits Datatypes.app Pos.of_uint];
    erewrite read_digits_cons by reflexivity; norm_digit;
    [ apply IHd; assumption | .. ];
    cbn [Z.of_N]; rewrite <- read_digits_acc by assumption; reflexivity.
Qed.

Lemma nzhead_lead d : nzhead d = Nil \/ lead (nzhead d).
Proof. induction d; simpl; auto. Qed.

Lemma to_uint_lead p : lead (Pos.to_uint p).
Proof.
  pose proof (DecimalPos.Unsigned.to_of (Pos.to_uint p)) as H.
  rewrite DecimalPos.Unsigned.of_to in H. simpl in H.
  pose proof (DecimalPos.Unsigned.to_uint_nonzero p) as Hz.
  rewrite H in *. unfold unorm in *.
  destruct (nzhead_lead (Pos.to_uint p)) as [E|L].
  - rewrite E in Hz. exfalso. apply Hz. reflexivity.
  - destruct (nzhead (Pos.to_uint p)); simpl in L; auto; contradiction.
Qed.

Lemma delim_no_digit rest : delim rest -> no_digit_head rest.
Proof.
  destruct rest as [|c r]; simpl; auto.
  intros [->|[->| ->]]; reflexivity.
Qed.

Lemma parse_number_lead d rest :
  lead d -> delim rest ->
  parse_number (uint_digits d ++ rest) = Some (Z.of_N (Pos.of_uint d), rest).
Proof.
  intros L D. pose proof (@read_digits_uint d rest (delim_no_digit rest D)) as R.
  destruct d; simpl in L; try contradiction;
    cbn [uint_digits Datatypes.app] in *; unfold parse_number;
    cbn [Ascii.eqb Bool.eqb is_digit digit_val]; simpl Ascii.eqb;
    cbv beta iota; simpl (is_digit _); cbv beta iota; rewrite R;
    destruct rest as [|c r]; auto;
    destruct D as [->|[->| ->]]; reflexivity.
Qed.

Lemma parse_number_neg c r n rest :
  Ascii.eqb c "-"%char = false ->
  parse_number (c :: r) = Some (n, rest) ->
  parse_number ("-"%char :: c :: r) = Some ((- n)%Z, rest).
Proof.
  intros Hc. unfold parse_number. rewrite Hc.
  change (Ascii.eqb "-" "-") with true. cbv beta iota.
  destruct (Ascii.eqb c "0").
  - destruct r as [|c' r']; [intros [= <- <-]; reflexivity|].
    destruct (_ || _); [discriminate|]. intros [= <- <-]. reflexivity.
  - destruct (is_digit c); [|discriminate].
    destruct (read_digits 0 (c :: r)) as [m rest'].
    destruct rest' as [|c' r']; [intros [= <- <-]; reflexivity|].
    destruct (_ || _); [discriminate|]. intros [= <- <-]. reflexivity.
Qed.

Lemma uint_digits_lead d :
  lead d -> exists c r, uint_digits d = c :: r /\ Ascii.eqb c "-"%char = false.
Proof.
  destruct d; simpl; try contradiction; intros _; eexists _, _; split; reflexivity.
Qed.

Lemma parse_number_Z z rest :
  delim rest -> parse_number (Z_digits z ++ rest) = Some (z, rest).
Proof.
  intros D. unfold Z_digits. destruct z as [|p|p]; cbn [Z.to_int].
  - unfold parse_number. simpl.
    destruct rest as [|c r]; auto. destruct D as [->|[->| ->]]; reflexivity.
  - rewrite (@parse_number_lead _ rest (to_uint_lead p) D).
    rewrite DecimalPos.Unsigned.of_to. reflexivity.
  - destruct (@uint_digits_lead _ (to_uint_lead p)) as (c & r & E & Hc).
    pose proof (@parse_number_lead _ rest (to_uint_lead p) D) as H.
    rewrite DecimalPos.Unsigned.of_to in H.
    rewrite E in *. cbn [Datatypes.app] in *.
    apply (@parse_number_neg _ _ _ _ Hc H).
Qed.

Lemma uint_digits_head d :
  d <> Nil -> exists c r, uint_digits d = c :: r /\ In c num_heads.
Proof.
  destruct d; [congruence|..]; intros _; eexists _, _;
    (split; [reflexivity|]); unfold num_heads; simpl; tauto.
Qed.

Lemma Z_digits_head z : exists c r, Z_digits z = c :: r /\ In c num_heads.
Proof.
  unfold Z_digits. destruct z as [|p|p]; cbn [Z.to_int].
  - eexists _, _. split; [reflexivity|]. simpl; tauto.
  - apply uint_digits_head, DecimalPos.Unsigned.to_uint_nonnil.
  - eexists _, _. split; [reflexivity|]. simpl; tauto.
Qed.

(* ------------------------------------------------------------------ *)
(** String literals *)

Lemma parse_chars_escape (c : ascii) (cs : chars) :
  parse_chars (escape_char c ++ cs)
  = cons_fst c (parse_chars cs).
Proof.
  destruct c as [[] [] [] [] [] [] [] []]; reflexivity.
Qed.

Lemma parse_chars_quote cs : forall rest,
  parse_chars (flat_map escape_char cs ++ dquote :: rest) = Some (cs, rest).
Proof.
  induction cs as [|c cs IH]; intros rest.
  - reflexivity.
  - cbn [flat_map]. rewrite <- app_assoc, parse_chars_escape, IH. reflexivity.
Qed.

Lemma head_in_app hs a b : head_in hs a -> head_in hs (a ++ b).
Proof. destruct a; simpl; tauto. Qed.

Lemma stringify_head v : head_in heads (stringify_chars v).
Proof.
  destruct v as [|[]|n|s|l|o]; try (simpl; tauto).
  - destruct (Z_digits_head n) as (c & r & E & H). simpl. rewrite E.
    simpl. right; right; right; right; right; right. exact H.
Qed.

Lemma join_head hs sep (p : chars) ps :
  head_in hs p -> head_in hs (join sep (p :: ps)).
Proof.
  intros H. destruct ps; simpl; [exact H|]. apply head_in_app. exact H.
Qed.

Ltac split_in H :=
  repeat (destruct H as [<-|H]); try contradiction.

Lemma array_dispatch f r :
  head_in heads r ->
  parse_value (S f) ("["%char :: r)
  = match parse_elems f r with
    | Some (l, r') => Some (JArr l, r')
    | None => None
    end.
Proof.
  destruct r as [|c r0]; simpl head_in; [contradiction|].
  intros H. unfold heads, num_heads in H. simpl in H. split_in H; reflexivity.
Qed.

Lemma object_dispatch f r :
  parse_value (S f) ("{"%char :: dquote :: r)
  = match parse_members f [] (dquote :: r) with
    | Some (o, r') => Some (JObj o, r')
    | None => None
    end.
Proof. reflexivity. Qed.

Lemma number_dispatch f c r :
  In c num_heads ->
  parse_value (S f) (c :: r)
  = match parse_number (c :: r) with
    | Some (n, r') => Some (JNum n, r')
    | None => None
    end.
Proof.
  intros H. unfold num_heads in H. simpl in H. split_in H; reflexivity.
Qed.

Lemma string_dispatch f r :
  parse_value (S f) (dquote :: r)
  = match parse_chars r with
    | Some (cs, r') => Some (JStr (string_of_list_ascii cs), r')
    | None => None
    end.
Proof. reflexivity. Qed.

Lemma skip_ws_delim rest c r : rest = c :: r -> delim rest -> skip_ws rest = rest.
Proof. intros -> [->|[->| ->]]; reflexivity. Qed.

Lemma members_dispatch f acc r :
  parse_members (S f) acc (dquote :: r)
  = match parse_chars r with
    | Some (k, r1) =>
        match skip_ws r1 with
        | ":"%char :: r2 =>
            match parse_value f r2 with
            | Some (v, r3) =>
                let acc' := obj_set acc (string_of_list_ascii k) v in
                match skip_ws r3 with
                | ","%char :: r4 => parse_members f acc' r4
                | "}"%char :: r4 => Some (acc', r4)
                | _ => None
                end
            | None => None
            end
        | _ => None
        end
    | None => None
    end.
Proof. reflexivity. Qed.

Lemma elems_unfold f s :
  parse_elems (S f) s
  = match parse_value f s with
    | Some (v, r) =>
        match skip_ws r with
        | ","%char :: r' => cons_fst v (parse_elems f r')
        | "]"%char :: r' => Some ([v], r')
        | _ => None
        end
    | None => None
    end.
Proof. reflexivity. Qed.

Lemma obj_set_fresh (acc : object) k v :
  ~ In k (map fst acc) -> obj_set acc k v = acc ++ [(k, v)].
Proof.
  induction acc as [|[k' v'] acc IH]; simpl; intros H; [reflexivity|].
  destruct (String.eqb_spec k' k) as [->|_]; [tauto|].
  rewrite IH by tauto. reflexivity.
Qed.

Lemma member_text kv (tail : chars) :
  member kv ++ tail
  = dquote :: flat_map escape_char (list_ascii_of_string (fst kv))
      ++ dquote :: ":"%char :: stringify_chars (snd kv) ++ tail.
Proof.
  unfold member, quote. cbn [Datatypes.app].
  rewrite <- !app_assoc. reflexivity.
Qed.

Lemma join_one sep (p : chars) : join sep [p] = p.
Proof. reflexivity. Qed.

Lemma join_more sep (p q : chars) ps :
  join sep (p :: q :: ps) = p ++ sep ++ join sep (q :: ps).
Proof. reflexivity. Qed.

Lemma skip_ws_sep c r :
  In c [","%char; "]"%char; "}"%char; ":"%char] -> skip_ws (c :: r) = c :: r.
Proof. intros H. simpl in H. split_in H; reflexivity. Qed.

Lemma parse_roundtrip f :
  (forall v rest, jsize v <= f -> json_wf v -> delim rest ->
     parse_value f (stringify_chars v ++ rest) = Some (v, rest)) /\
  (forall e l rest, elems_size (e :: l) <= f -> all_wf (e :: l) ->
     parse_elems f (join [","%char] (map stringify_chars (e :: l)) ++ "]"%char :: rest)
     = Some (e :: l, rest)) /\
  (forall kv o acc rest, members_size (kv :: o) <= f -> members_wf (kv :: o) ->
     NoDup (map fst (acc ++ kv :: o)) ->
     parse_members f acc (join [","%char] (map member (kv :: o)) ++ "}"%char :: rest)
     = Some (acc ++ kv :: o, rest)).
Proof.
  induction f as [|f (IHV & IHE & IHM)].
  - repeat split.
    + intros v rest H. destruct v; simpl in H; lia.
    + intros e l rest H. simpl in H. lia.
    + intros kv o acc rest H. simpl in H. lia.
  - repeat split.
    + intros v rest Hs Hwf Hd.
      destruct v as [|[]|n|s|l|o]; try reflexivity.
      * destruct (Z_digits_head n) as (c & r & E & Hc).
        cbn [stringify_chars]. pose proof (parse_number_Z n rest Hd) as Hn.
        rewrite E in *. cbn [Datatypes.app] in *.
        rewrite (number_dispatch f _ Hc), Hn. reflexivity.
      * cbn [stringify_chars]. unfold quote. cbn [Datatypes.app].
        rewrite string_dispatch, <- app_assoc. cbn [Datatypes.app].
        rewrite parse_chars_quote, string_of_list_ascii_of_string. reflexivity.
      * destruct l as [|e l]; [reflexivity|].
        cbn [stringify_chars]. cbn [Datatypes.app]. rewrite <- app_assoc.
        cbn [Datatypes.app].
        rewrite array_dispatch.
        2:{ apply head_in_app. cbn [map]. apply join_head, stringify_head. }
        rewrite IHE; [reflexivity| |exact Hwf].
        cbn [jsize] in Hs. fold (elems_size (e :: l)) in Hs. lia.
      * destruct o as [|kv o]; [reflexivity|].
        cbn [stringify_chars]. cbn [Datatypes.app]. rewrite <- app_assoc.
        cbn [Datatypes.app].
        change (map _ (kv :: o)) with (map member (kv :: o)).
        assert (exists r, join [","%char] (map member (kv :: o)) ++ "}"%char :: rest
                          = dquote :: r) as [r Hr].
        { cbn [map]. destruct (map member o);
            [rewrite join_one|rewrite join_more, <- app_assoc];
            rewrite member_text; eexists; reflexivity. }
        rewrite Hr, object_dispatch, <- Hr.
        destruct Hwf as [Hnd Hm].
        rewrite (IHM kv o [] rest); [reflexivity| |exact Hm|exact Hnd].
        cbn [jsize] in Hs. fold (members_size (kv :: o)) in Hs. lia.
    + intros e l rest Hs [He Hl].
      rewrite elems_unfold. cbn [elems_size fold_right] in Hs.
      fold (elems_size l) in Hs.
      destruct l as [|e' l'].
      * cbn [map]. rewrite join_one.
        rewrite IHV; [| lia | exact He | simpl; tauto].
        rewrite skip_ws_sep by (simpl; tauto). reflexivity.
      * change (map stringify_chars (e :: e' :: l'))
          with (stringify_chars e :: stringify_chars e' :: map stringify_chars l').
        rewrite join_more, <- !app_assoc. cbn [Datatypes.app].
        rewrite IHV; [| lia | exact He | simpl; tauto].
        rewrite skip_ws_sep by (simpl; tauto).
        pose proof (IHE e' l' rest) as H. cbn [map] in H.
        rewrite H; [reflexivity| lia | exact Hl].
    + intros [k v] o acc rest Hs [Hv Ho] Hnd.
      cbn [members_size fold_right snd] in Hs. fold (members_size o) in Hs.
      assert (Hfresh : ~ In k (map fst acc)).
      { rewrite map_app in Hnd. cbn [map fst] in Hnd.
        apply NoDup_remove_2 in Hnd. rewrite in_app_iff in Hnd. tauto. }
      destruct o as [|kv' o'].
      * cbn [map]. rewrite join_one, member_text. cbn [fst snd].
        rewrite members_dispatch, parse_chars_quote.
        rewrite skip_ws_sep by (simpl; tauto).
        rewrite IHV; [| lia | exact Hv | simpl; tauto].
        cbv zeta. rewrite skip_ws_sep by (simpl; tauto).
        rewrite string_of_list_ascii_of_string, obj_set_fresh by exact Hfresh.
        reflexivity.
      * change (map member ((k, v) :: kv' :: o'))
          with (member (k, v) :: member kv' :: map member o').
        rewrite join_more, <- !app_assoc. rewrite member_text. cbn [fst snd].
        rewrite members_dispatch, parse_chars_quote.
        rewrite skip_ws_sep by (simpl; tauto).
        cbn [Datatypes.app].
        rewrite IHV; [| lia | exact Hv | simpl; tauto].
        cbv zeta. rewrite skip_ws_sep by (simpl; tauto).
        rewrite string_of_list_ascii_of_string, obj_set_fresh by exact Hfresh.
        pose proof (IHM kv' o' (acc ++ [(k, v)]) rest) as H. cbn [map] in H.
        rewrite H; [rewrite <- app_assoc; reflexivity| lia | exact Ho |].
        rewrite <- app_assoc. exact Hnd.
Qed.

Lemma length_join_ge (parts : list chars) (c : ascii) :
  fold_right (fun p n => S (List.length p + n)) 0 parts
  <= S (List.length (join [c] parts)).
Proof.
  induction parts as [|p ps IH]; [simpl; lia|].
  destruct ps as [|q ps].
  - simpl. lia.
  - rewrite join_more. cbn [fold_right] in *. rewrite !length_app.
    cbn [List.length] in *.
    assert (A : forall a x y, S x <= S y -> S (a + S x) <= S (a + (1 + y)))
      by (intros; lia).
    apply A. exact IH.
Qed.

Lemma jsize_le_length v : jsize v <= List.length (stringify_chars v).
Proof.
  induction v as [| [] | n | s | l IH | o IH ] using json_induction;
    try (simpl; lia).
  - destruct (Z_digits_head n) as (c & r & E & _). simpl. rewrite E. simpl. lia.
  - cbn [jsize stringify_chars List.length]. rewrite length_app. cbn [List.length].
    pose proof (length_join_ge (map stringify_chars l) ","%char) as H.
    assert (fold_right (fun e n => S (jsize e + n)) 0 l
            <= fold_right (fun p n => S (List.length p + n)) 0 (map stringify_chars l)).
    { clear H. induction IH; simpl; lia. }
    lia.
  - cbn [jsize stringify_chars List.length]. rewrite length_app. cbn [List.length].
    change (map _ o) with (map member o).
    pose proof (length_join_ge (map member o) ","%char) as H.
    assert (fold_right (fun kv n => S (jsize (snd kv) + n)) 0 o
            <= fold_right (fun p n => S (List.length p + n)) 0 (map member o)).
    { clear H. induction IH as [|kv o Hkv _ IHo]; [simpl; lia|].
      cbn [fold_right map].
      assert (jsize (snd kv) <= List.length (member kv))
        by (unfold member; rewrite length_app; cbn [List.length]; lia).
      lia. }
    lia.
Qed.

Lemma stringify_nonempty v : JSON_stringify v <> "".
Proof.
  unfold JSON_stringify. pose proof (stringify_head v) as H.
  destruct (stringify_chars v); simpl in *; [contradiction|discriminate].
Qed.

(** [JSON.parse] reads back what [JSON.stringify] wrote. *)
Lemma JSON_roundtrip v : json_wf v -> JSON_parse (JSON_stringify v) = Some v.
Proof.
  intros Hwf. unfold JSON_parse, JSON_stringify.
  rewrite list_ascii_of_string_of_list_ascii.
  destruct (parse_roundtrip (2 * List.length (stringify_chars v) + 2)) as (HV & _).
  specialize (HV v [] ). rewrite List.app_nil_r in HV.
  rewrite HV; [reflexivity| | exact Hwf | exact I].
  pose proof (jsize_le_length v). lia.
Qed.

End JSFacts.

(* ------------------------------------------------------------------ *)
(** ** The handlers as steps on facet states *)
(* ------------------------------------------------------------------ *)

Module FacetsFacts.
Import JS JsonDefs JSFacts Facets CodecDefs.

Lemma usp_get_delete_same p n : usp_get (usp_delete p n) n = None.
Proof.
  induction p as [|[k v] p IH]; simpl; [reflexivity|].
  destruct (String.eqb_spec k n) as [->|Hk]; [exact IH|].
  simpl. destruct (String.eqb_spec k n); [contradiction|exact IH].
Qed.

Lemma usp_get_delete_other p n k : k <> n -> usp_get (usp_delete p n) k = usp_get p k.
Proof.
  intros Hk. induction p as [|[k' v] p IH]; simpl; [reflexivity|].
  destruct (String.eqb_spec k' n) as [->|Hn].
  - destruct (String.eqb_spec n k); [congruence|exact IH].
  - simpl. rewrite IH. reflexivity.
Qed.

Lemma usp_get_set_same p n v : usp_get (usp_set p n v) n = Some v.
Proof.
  induction p as [|[k v'] p IH]; simpl.
  - rewrite String.eqb_refl. reflexivity.
  - destruct (String.eqb_spec k n) as [->|Hk]; simpl.
    + rewrite String.eqb_refl. reflexivity.
    + destruct (String.eqb_spec k n); [contradiction|exact IH].
Qed.

Lemma usp_get_set_other p n v k : k <> n -> usp_get (usp_set p n v) k = usp_get p k.
Proof.
  intros Hk. induction p as [|[k' v'] p IH]; simpl.
  - destruct (String.eqb_spec n k); [congruence|reflexivity].
  - destruct (String.eqb_spec k' n) as [->|Hn]; simpl.
    + destruct (String.eqb_spec n k); [congruence|].
      apply usp_get_delete_other. exact Hk.
    + rewrite IH. reflexivity.
Qed.

(** What a handler reads back from the URL it has just written. *)
Lemma get_written ff search :
  usp_get (write_field_filters ff search) "field_filters"
  = match ff with
    | [] => None
    | _ => Some (JSON_stringify (JObj ff))
    end.
Proof.
  unfold write_field_filters.
  rewrite usp_get_delete_other by discriminate.
  rewrite usp_get_set_other by discriminate.
  destruct ff; simpl.
  - apply usp_get_delete_same.
  - apply usp_get_set_same.
Qed.

Lemma read_written ff search :
  json_wf (JObj ff) -> read_field_filters (write_field_filters ff search) = JObj ff.
Proof.
  intros Hwf. unfold read_field_filters. rewrite get_written.
  destruct ff as [|kv ff]; [reflexivity|].
  destruct (String.eqb_spec (JSON_stringify (JObj (kv :: ff))) "") as [E|_].
  - exfalso. exact (stringify_nonempty _ E).
  - simpl negb. cbv iota. rewrite JSON_roundtrip by exact Hwf. reflexivity.
Qed.

Lemma state_json_keys st : map fst (state_json st) = map fst st.
Proof. unfold state_json. rewrite map_map. reflexivity. Qed.

Lemma state_json_wf st : state_wf st -> json_wf (JObj (state_json st)).
Proof.
  intros H. split; [rewrite state_json_keys; exact H|].
  clear H. induction st as [|[k vs] st IH]; simpl; [exact I|].
  split; [|exact IH]. clear. induction vs; simpl; auto.
Qed.

Lemma strings_of_JStr vs : strings_of (map JStr vs) = Some vs.
Proof.
  induction vs as [|v vs IH]; [reflexivity|].
  unfold strings_of in *. cbn [map fold_right]. rewrite IH. reflexivity.
Qed.

Lemma json_state_json st : json_state (state_json st) = Some st.
Proof.
  induction st as [|[k vs] st IH]; [reflexivity|].
  cbn [state_json map json_state fst snd].
  rewrite strings_of_JStr. fold (state_json st). rewrite IH. reflexivity.
Qed.

Lemma decode_encode st search : state_wf st -> decode (encode st search) = Some st.
Proof.
  intros H. unfold decode, encode.
  rewrite read_written by (apply state_json_wf; exact H).
  apply json_state_json.
Qed.

Lemma js_String_JStr vs : map js_String (map JStr vs) = vs.
Proof.
  induction vs as [|v vs IH]; [reflexivity|]. cbn [map]. rewrite IH.
  unfold js_String. cbn [String_of]. rewrite string_of_list_ascii_of_string.
  reflexivity.
Qed.

Lemma obj_get_state_json st k :
  obj_get (state_json st) k
  = match state_get st k with
    | Some vs => Some (JArr (map JStr vs))
    | None => None
    end.
Proof.
  induction st as [|[k' vs] st IH]; [reflexivity|].
  cbn [state_json map obj_get state_get fst snd]. fold (state_json st).
  destruct (String.eqb k' k); [reflexivity|exact IH].
Qed.

Lemma existing_state_json st k :
  match obj_get (state_json st) k with
  | Some (JArr l) => map js_String l
  | _ => []
  end = values_of st k.
Proof.
  rewrite obj_get_state_json. unfold values_of.
  destruct (state_get st k); [apply js_String_JStr|reflexivity].
Qed.

Lemma state_get_None st k : state_get st k = None <-> ~ In k (map fst st).
Proof.
  induction st as [|[k' vs] st IH]; simpl; [tauto|].
  destruct (String.eqb_spec k' k) as [->|Hk].
  - split; [discriminate|tauto].
  - rewrite IH. tauto.
Qed.

Lemma obj_set_add_to st f v :
  obj_set (state_json st) f
    (JArr (map JStr (if includes (values_of st f) v
                     then values_of st f else values_of st f ++ [v])))
  = state_json (add_to st f v).
Proof.
  induction st as [|[k vs] st IH]; [reflexivity|].
  unfold values_of in *.
  cbn [state_json map obj_set state_get add_to fst snd]. fold (state_json st).
  destruct (String.eqb k f).
  - reflexivity.
  - rewrite IH. reflexivity.
Qed.

Lemma assign_add_value st f v :
  obj_assign (state_json st) f
    (JArr (map JStr (if includes (values_of st f) v
                     then values_of st f else values_of st f ++ [v])))
  = state_json (add_value st f v).
Proof.
  unfold obj_assign, add_value, obj_has. rewrite obj_get_state_json.
  destruct (String.eqb f "__proto__"); cbn [andb].
  - destruct (state_get st f) eqn:E; cbn [negb].
    + rewrite <- obj_set_add_to. reflexivity.
    + reflexivity.
  - apply obj_set_add_to.
Qed.

Lemma remove_value_absent st f v : ~ In f (map fst st) -> remove_value st f v = st.
Proof.
  induction st as [|[k vs] st IH]; simpl; [reflexivity|].
  intros H. destruct (String.eqb_spec k f) as [->|_]; [tauto|].
  rewrite IH by tauto. reflexivity.
Qed.

Lemma obj_delete_absent (o : object) f : ~ In f (map fst o) -> obj_delete o f = o.
Proof.
  induction o as [|[k x] o IH]; simpl; [reflexivity|].
  intros H. destruct (String.eqb_spec k f) as [->|_]; [tauto|].
  rewrite IH by tauto. reflexivity.
Qed.

Lemma write_remove_value st f v :
  state_wf st ->
  (let next := filter (fun x => negb (String.eqb x v)) (values_of st f) in
   if (0 <? List.length next)%nat
   then obj_assign (state_json st) f (JArr (map JStr next))
   else obj_delete (state_json st) f)
  = state_json (remove_value st f v).
Proof.
  unfold state_wf, values_of. cbv zeta.
  induction st as [|[k vs] st IH]; intros Hnd; [reflexivity|].
  cbn [map fst] in Hnd. apply NoDup_cons_iff in Hnd as [Hk Hnd].
  cbn [state_get remove_value].
  destruct (String.eqb_spec k f) as [->|Hkf].
  - rewrite remove_value_absent by exact Hk.
    destruct (filter _ vs) as [|x xs] eqn:E.
    + cbn [List.length Nat.ltb Nat.leb]. cbn [state_json map obj_delete fst snd].
      rewrite String.eqb_refl. fold (state_json st).
      apply obj_delete_absent. rewrite state_json_keys. exact Hk.
    + cbn [List.length Nat.ltb Nat.leb]. unfold obj_assign, obj_has.
      cbn [state_json map obj_get obj_set fst snd]. rewrite String.eqb_refl.
      cbn [negb]. rewrite andb_false_r. reflexivity.
  - specialize (IH Hnd).
    destruct (0 <? List.length (filter _ _))%nat eqn:E.
    + unfold obj_assign, obj_has in *.
      cbn [state_json map obj_get obj_set fst snd]. fold (state_json st).
      destruct (String.eqb_spec k f) as [|_]; [contradiction|].
      change (map _ (remove_value st f v)) with (state_json (remove_value st f v)).
      destruct (String.eqb f "__proto__" && _) eqn:P.
      * rewrite <- IH. reflexivity.
      * rewrite <- IH. reflexivity.
    + cbn [state_json map obj_delete fst snd]. fold (state_json st).
      destruct (String.eqb_spec k f) as [|_]; [contradiction|].
      change (map _ (remove_value st f v)) with (state_json (remove_value st f v)).
      rewrite <- IH. reflexivity.
Qed.

Lemma add_to_keys st f v :
  map fst (add_to st f v)
  = if existsb (String.eqb f) (map fst st) then map fst st else map fst st ++ [f].
Proof.
  induction st as [|[k vs] st IH]; [reflexivity|].
  cbn [add_to map fst existsb].
  destruct (String.eqb_spec k f) as [->|Hk].
  - rewrite String.eqb_refl. reflexivity.
  - destruct (String.eqb_spec f k) as [->|_]; [contradiction|].
    cbn [orb map fst]. rewrite IH. destruct (existsb _ _); reflexivity.
Qed.

Lemma add_value_wf st f v : state_wf st -> state_wf (add_value st f v).
Proof.
  unfold state_wf, add_value. intros H.
  destruct (_ && _); [exact H|]. rewrite add_to_keys.
  destruct (existsb _ _) eqn:E; [exact H|].
  apply NoDup_app; [exact H|repeat constructor; simpl; tauto|].
  intros x Hx [Ex|[]]. subst x.
  assert (existsb (String.eqb f) (map fst st) = true); [|congruence].
  apply existsb_exists. exists f. split; [exact Hx|apply String.eqb_refl].
Qed.

Lemma remove_value_keys st f v x :
  In x (map fst (remove_value st f v)) -> In x (map fst st).
Proof.
  induction st as [|[k vs] st IH]; simpl; [tauto|].
  destruct (String.eqb k f).
  - destruct (filter _ vs); simpl; tauto.
  - simpl. tauto.
Qed.

Lemma remove_value_wf st f v : state_wf st -> state_wf (remove_value st f v).
Proof.
  unfold state_wf. induction st as [|[k vs] st IH]; simpl; [auto|].
  intros H. apply NoDup_cons_iff in H as [Hk H].
  destruct (String.eqb k f).
  - destruct (filter _ vs); [auto|].
    simpl. constructor; [|auto]. intros Hx. apply Hk. eapply remove_value_keys, Hx.
  - simpl. constructor; [|auto]. intros Hx. apply Hk. eapply remove_value_keys, Hx.
Qed.

(** A toggle seen as a step on states. *)
Lemma toggle_encode st f v included search :
  state_wf st ->
  toggleValue f v included (encode st search)
  = Navigate (encode (if included then add_value st f v else remove_value st f v)
                (encode st search)).
Proof.
  intros Hwf. unfold toggleValue, applyFieldFilterChange.
  unfold encode at 1. rewrite read_written by (apply state_json_wf; exact Hwf).
  fold (encode st search). rewrite existing_state_json.
  f_equal. unfold encode at 2. f_equal.
  destruct included.
  - rewrite <- assign_add_value.
    destruct (includes (values_of st f) v) eqn:E.
    + destruct (values_of st f); [discriminate|reflexivity].
    + rewrite length_app. cbn [List.length].
      replace (0 <? _ + 1)%nat with true; [reflexivity|].
      symmetry. apply Nat.ltb_lt. lia.
  - apply write_remove_value. exact Hwf.
Qed.

Lemma filter_out_last vs v :
  filter (fun x => negb (String.eqb x v)) (vs ++ [v])
  = filter (fun x => negb (String.eqb x v)) vs.
Proof.
  rewrite filter_app. cbn [filter]. rewrite String.eqb_refl. apply List.app_nil_r.
Qed.

Lemma remove_add_to st f v :
  remove_value (add_to st f v) f v = remove_value st f v.
Proof.
  induction st as [|[k vs] st IH].
  - cbn [add_to remove_value filter]. rewrite !String.eqb_refl. reflexivity.
  - cbn [add_to remove_value]. destruct (String.eqb k f) eqn:E.
    + cbn [remove_value]. rewrite E.
      destruct (includes vs v); [reflexivity|]. rewrite filter_out_last. reflexivity.
    + cbn [remove_value]. rewrite E, IH. reflexivity.
Qed.

Lemma remove_add_value st f v :
  remove_value (add_value st f v) f v = remove_value st f v.
Proof.
  unfold add_value. destruct (_ && _); [reflexivity|apply remove_add_to].
Qed.

End FacetsFacts.

(* ------------------------------------------------------------------ *)
(** ** Objects and states *)
(* ------------------------------------------------------------------ *)

Module CodecFacts.
Import JS Facets JsonDefs JSFacts FacetsFacts CodecDefs.

Lemma obj_get_set_same o k v : obj_get (obj_set o k v) k = Some v.
Proof.
  induction o as [|[k' v'] o IH]; cbn [obj_set obj_get].
  - rewrite String.eqb_refl. reflexivity.
  - destruct (String.eqb k' k) eqn:E; cbn [obj_get]; rewrite E; [reflexivity|exact IH].
Qed.

Lemma obj_get_set_other o k v x : x <> k -> obj_get (obj_set o k v) x = obj_get o x.
Proof.
  intros H. induction o as [|[k' v'] o IH]; cbn [obj_set obj_get].
  - destruct (String.eqb_spec k x); [congruence|reflexivity].
  - destruct (String.eqb_spec k' k) as [->|N]; cbn [obj_get].
    + destruct (String.eqb_spec k x); [congruence|reflexivity].
    + rewrite IH. reflexivity.
Qed.

Lemma obj_get_delete_same o k : obj_get (obj_delete o k) k = None.
Proof.
  induction o as [|[k' v'] o IH]; cbn [obj_delete obj_get]; [reflexivity|].
  destruct (String.eqb k' k) eqn:E; [exact IH|]. cbn [obj_get]. rewrite E. exact IH.
Qed.

Lemma obj_get_delete_other o k x : x <> k -> obj_get (obj_delete o k) x = obj_get o x.
Proof.
  intros H. induction o as [|[k' v'] o IH]; cbn [obj_delete obj_get]; [reflexivity|].
  destruct (String.eqb_spec k' k) as [->|N].
  - destruct (String.eqb_spec k x); [congruence|exact IH].
  - cbn [obj_get]. rewrite IH. reflexivity.
Qed.

Lemma obj_get_assign_other o k v x : x <> k -> obj_get (obj_assign o k v) x = obj_get o x.
Proof.
  intros H. unfold obj_assign. destruct (_ && _); [reflexivity|].
  apply obj_get_set_other, H.
Qed.

Lemma obj_get_assign_same o k v x :
  obj_get (obj_assign o k v) k = Some x -> x = v.
Proof.
  unfold obj_assign, obj_has.
  destruct (String.eqb_spec k "__proto__") as [E|N]; cbn [andb].
  - destruct (obj_get o k) eqn:G; cbn [negb].
    + rewrite obj_get_set_same. intros [= <-]. reflexivity.
    + rewrite G. discriminate.
  - rewrite obj_get_set_same. intros [= <-]. reflexivity.
Qed.

Lemma state_get_modulo_other st f k :
  k <> f -> state_get (modulo_empty_key st f) k = state_get st k.
Proof.
  intros H. induction st as [|[k' vs] st IH]; [reflexivity|].
  cbn [modulo_empty_key filter fst snd state_get].
  destruct (String.eqb_spec k' f) as [->|N]; cbn [andb].
  - destruct (String.eqb_spec f k); [congruence|].
    destruct vs; cbn [negb]; [exact IH|].
    cbn [state_get]. destruct (String.eqb_spec f k); [congruence|exact IH].
  - cbn [negb state_get]. fold (modulo_empty_key st f). rewrite IH. reflexivity.
Qed.

Lemma in_values_of st f v vs : state_get st f = Some vs -> In v vs -> In v (values_of st f).
Proof. unfold values_of. intros ->. auto. Qed.

(** Taking out a value that is not there leaves the state, but for a name
    with no value. *)
Lemma remove_value_unlisted st f v :
  state_wf st -> ~ In v (values_of st f) ->
  remove_value st f v = modulo_empty_key st f.
Proof.
  unfold state_wf, values_of, modulo_empty_key.
  induction st as [|[k vs] st IH]; intros Hnd Hv; [reflexivity|].
  cbn [map fst] in Hnd. apply NoDup_cons_iff in Hnd as [Hk Hnd].
  cbn [state_get] in Hv. cbn [remove_value filter fst snd].
  destruct (String.eqb_spec k f) as [->|Hkf]; cbn [andb].
  - rewrite remove_value_absent by exact Hk.
    assert (Ef : filter (fun x => negb (String.eqb x v)) vs = vs).
    { clear -Hv. induction vs as [|x vs IH]; [reflexivity|].
      cbn [filter]. destruct (String.eqb_spec x v) as [->|_].
      - exfalso. apply Hv. left. reflexivity.
      - cbn [negb]. rewrite IH; [reflexivity|]. intros H. apply Hv. right. exact H. }
    rewrite Ef.
    assert (Er : filter (fun kv : string * list string =>
                   negb (String.eqb (fst kv) f
                         && match snd kv with [] => true | _ => false end)) st = st).
    { clear -Hk. induction st as [|[k' vs'] st IH]; [reflexivity|].
      cbn [filter fst snd]. cbn [map fst] in Hk.
      destruct (String.eqb_spec k' f) as [->|_]; [exfalso; apply Hk; left; reflexivity|].
      cbn [andb negb]. rewrite IH; [reflexivity|]. intros H. apply Hk. right. exact H. }
    rewrite Er. destruct vs; reflexivity.
  - cbn [negb]. rewrite IH; [reflexivity|exact Hnd|exact Hv].
Qed.

End CodecFacts.

(* ------------------------------------------------------------------ *)
(** ** The facet state codec *)
(* ------------------------------------------------------------------ *)

Module CodecTheorems.
Import JS Facets JsonDefs JSFacts FacetsFacts CodecDefs CodecFacts.

(** C2.  Codec round trip: for a facet selection state with one entry per
    filter name, decoding the URL that [encode] produces gives the state back,
    the very list and so the same mapping; the empty state is encoded by the
    absence of the [field_filters] parameter and decodes to the empty state.
    (The URL is the parameter list; its percent-encoding is the browser's.) *)
Theorem codec_round_trip (st : FacetSelectionState) (search : URLSearchParams) :
  state_wf st ->
  (exists st', decode (encode st search) = Some st' /\ same_mapping st' st)
  /\ usp_get (encode [] search) "field_filters" = None
  /\ decode (encode [] search) = Some [].
Proof.
  intros Hwf. split; [|split].
  - exists st. split; [apply decode_encode, Hwf|]. intros k. reflexivity.
  - unfold encode. rewrite get_written. reflexivity.
  - apply decode_encode. constructor.
Qed.

(** The state badges = NEW, SALE, encoded into a URL that carries a page
    offset, comes back. *)
Lemma codec_round_trip_witness :
  state_wf badges_new_sale
  /\ (exists st', decode (encode badges_new_sale [("start", "20")]) = Some st'
                  /\ same_mapping st' badges_new_sale).
Proof.
  assert (H : state_wf badges_new_sale).
  { unfold state_wf. cbn. repeat constructor. simpl. tauto. }
  split; [exact H|]. apply (@codec_round_trip badges_new_sale [("start", "20")] H).
Defined.







End CodecTheorems.

(* ------------------------------------------------------------------ *)
(** ** Range inputs and the slider ceiling *)
(* ------------------------------------------------------------------ *)

Module SliderFacts.
Import Facets SliderDefs.

Lemma range_sanitize_mono mx a b :
  (a <= b)%Q -> (range_sanitize mx a <= range_sanitize mx b)%Z.
Proof.
  intros H. unfold range_sanitize. destruct (mx <? 0)%Z; [lia|].
  assert (Qfloor (a + (1 # 2)) <= Qfloor (b + (1 # 2)))%Z.
  { apply Qfloor_resp_le. lra. }
  lia.
Qed.

Lemma range_sanitize_Z mx z :
  (0 <= z <= mx)%Z -> range_sanitize mx (inject_Z z) = z.
Proof.
  intros H. unfold range_sanitize.
  destruct (Z.ltb_spec mx 0); [lia|].
  assert (E : Qfloor (inject_Z z + (1 # 2)) = z).
  { unfold Qfloor, Qplus, inject_Z. cbn [Qnum Qden].
    change (Z.pos (1 * 2)) with 2%Z. rewrite Z.mul_1_l.
    rewrite Z.div_add_l by lia. change (1 / 2)%Z with 0%Z. lia. }
  rewrite E. lia.
Qed.

Lemma enforce_ordered mx ui : ordered_and_mirrored (enforceOrderContinuous mx ui).
Proof.
  unfold enforceOrderContinuous, ordered_and_mirrored.
  destruct (Z.gtb_spec (minSlider ui) (maxSlider ui)) as [G|G];
    cbn [updateDisplayContinuous minSlider maxSlider minInputBox maxInputBox];
    repeat split; try lia.
  apply range_sanitize_mono. rewrite <- Zle_Qle. lia.
Qed.

Lemma Qmax_cases a b : (Qmax a b = a /\ (b <= a)%Q) \/ (Qmax a b = b /\ (a <= b)%Q).
Proof.
  unfold Qmax. destruct (Qle_bool a b) eqn:E.
  - right. split; [reflexivity|]. apply Qle_bool_iff, E.
  - left. split; [reflexivity|].
    destruct (Qlt_le_dec a b) as [L|L]; [|exact L].
    apply Qlt_le_weak, Qle_bool_iff in L. congruence.
Qed.

Lemma Math_max_spec vs : forall v,
  In (Math_max v vs) (v :: vs)
  /\ forall x, In x (v :: vs) -> (x <= Math_max v vs)%Q.
Proof.
  induction vs as [|a vs IH]; intros v.
  - cbn. split; [auto|]. intros x [<-|[]]. apply Qle_refl.
  - unfold Math_max. cbn [fold_left]. fold (Math_max (Qmax v a) vs).
    destruct (IH (Qmax v a)) as [Hin Hle]. split.
    + destruct Hin as [E|Hin]; [|right; right; exact Hin].
      rewrite <- E. destruct (Qmax_cases v a) as [[-> _]|[-> _]]; cbn; auto.
    + assert (Hm : (Qmax v a <= Math_max (Qmax v a) vs)%Q) by (apply Hle; left; reflexivity).
      assert (Hv : (v <= Qmax v a)%Q /\ (a <= Qmax v a)%Q).
      { destruct (Qmax_cases v a) as [[E L]|[E L]]; rewrite E;
          split; assumption || apply Qle_refl. }
      intros x [E|[E|Hx]]; [subst x|subst x|].
      * eapply Qle_trans; [apply Hv|exact Hm].
      * eapply Qle_trans; [apply Hv|exact Hm].
      * apply Hle. right. exact Hx.
Qed.

Lemma ceil_thousand m :
  let p := (Qceiling (m / 1000) * 1000)%Z in
  (p mod 1000 = 0)%Z /\ (m <= inject_Z p)%Q /\ (inject_Z p - 1000 < m)%Q.
Proof.
  cbv zeta. set (c := Qceiling (m / 1000)).
  split; [apply Z.mod_mul; lia|].
  assert (Em : (m == m / 1000 * 1000)%Q) by field.
  pose proof (Qle_ceiling (m / 1000)) as Hu.
  pose proof (Qceiling_lt (m / 1000)) as Hl.
  fold c in Hu, Hl.
  rewrite inject_Z_mult. change (inject_Z 1000) with 1000%Q.
  unfold Z.sub in Hl. rewrite inject_Z_plus in Hl. change (inject_Z (- (1))) with (-1 # 1)%Q in Hl.
  clearbody c. set (x := (m / 1000)%Q) in *. clearbody x.
  set (ci := inject_Z c) in *. clearbody ci.
  split; lra.
Qed.

End SliderFacts.

(* ------------------------------------------------------------------ *)
(** ** The price slider *)
(* ------------------------------------------------------------------ *)

Module SliderTheorems.
Import Facets SliderDefs SliderFacts.

(** C9.  After [enforceOrderContinuous] the value of the min handle is at
    most the value of the max handle and each number box shows the value of
    its handle; this holds when a handle is moved and when a number typed in
    a box has been put on its handle (a box without a number leaves the
    widgets alone, and no enforcement runs).  Two values of the slider range
    in the wrong order are swapped. *)
Theorem slider_order_enforced (mx : Z) (ui : slider_ui) :
  ordered_and_mirrored (enforceOrderContinuous mx ui)
  /\ match minInputBox ui with
     | Some _ => ordered_and_mirrored (on_minInputBox_change mx ui)
     | None => on_minInputBox_change mx ui = ui
     end
  /\ match maxInputBox ui with
     | Some _ => ordered_and_mirrored (on_maxInputBox_change mx ui)
     | None => on_maxInputBox_change mx ui = ui
     end
  /\ ((0 <= maxSlider ui < minSlider ui)%Z -> (minSlider ui <= mx)%Z ->
      minSlider (enforceOrderContinuous mx ui) = maxSlider ui
      /\ maxSlider (enforceOrderContinuous mx ui) = minSlider ui).
Proof.
  split; [apply enforce_ordered|]. split; [|split].
  - unfold on_minInputBox_change. destruct (minInputBox ui); [apply enforce_ordered|reflexivity].
  - unfold on_maxInputBox_change. destruct (maxInputBox ui); [apply enforce_ordered|reflexivity].
  - intros H1 H2. unfold enforceOrderContinuous.
    destruct (Z.gtb_spec (minSlider ui) (maxSlider ui)); [|lia].
    cbn [updateDisplayContinuous minSlider maxSlider].
    rewrite !range_sanitize_Z by lia. auto.
Qed.


(** No ranges, ranges up to 2500, and a range without upper bound. *)
Lemma maxPrice_examples :
  maxPrice [] = 100000%Z
  /\ maxPrice [ {| label := "Up to 500"; from_amount := None; to_amount := Some (500 # 1)%Q |};
               {| label := "500 - 2500"; from_amount := Some (500 # 1)%Q;
                  to_amount := Some (2500 # 1)%Q |};
               {| label := "Above"; from_amount := Some (2500 # 1)%Q; to_amount := None |} ]
     = 3000%Z
  /\ maxPrice [ {| label := "All"; from_amount := None; to_amount := None |} ] = 100000%Z.
Proof. repeat split. Qed.

End SliderTheorems.

(* ------------------------------------------------------------------ *)
(** ** Placements and queries *)
(* ------------------------------------------------------------------ *)

Module DomFacts.
Import Dom Coordinator DomDefs.

(** *** Lists *)

Lemma filter_flat_map {A B} (p : B -> bool) (f : A -> list B) l :
  filter p (flat_map f l) = flat_map (fun a => filter p (f a)) l.
Proof.
  induction l as [|a l IH]; simpl; [reflexivity|].
  rewrite filter_app, IH. reflexivity.
Qed.

Lemma map_flat_map {A B C} (g : B -> C) (f : A -> list B) l :
  map g (flat_map f l) = flat_map (fun a => map g (f a)) l.
Proof.
  induction l as [|a l IH]; simpl; [reflexivity|].
  rewrite map_app, IH. reflexivity.
Qed.

Lemma flat_map_flat_map {A B C} (g : B -> list C) (f : A -> list B) l :
  flat_map g (flat_map f l) = flat_map (fun a => flat_map g (f a)) l.
Proof.
  induction l as [|a l IH]; simpl; [reflexivity|].
  rewrite flat_map_app, IH. reflexivity.
Qed.

Lemma flat_map_ext_Forall {A B} (f g : A -> list B) l :
  Forall (fun a => f a = g a) l -> flat_map f l = flat_map g l.
Proof. induction 1; simpl; congruence. Qed.

Lemma hd_error_map {A B} (f : A -> B) l :
  hd_error (map f l) = option_map f (hd_error l).
Proof. destruct l; reflexivity. Qed.

Lemma find_map {A B} (p : B -> bool) (f : A -> B) l :
  find p (map f l) = option_map f (find (fun a => p (f a)) l).
Proof.
  induction l as [|a l IH]; simpl; [reflexivity|].
  destruct (p (f a)); [reflexivity|exact IH].
Qed.

Lemma first_some_map_None {A B} (f : A -> option B) l :
  Forall (fun a => f a = None) l -> first_some (map f l) = None.
Proof. induction 1 as [|a l Ha _ IH]; simpl; [reflexivity|]. rewrite Ha. exact IH. Qed.

(** *** What a placement leaves as it is *)

Lemma matches_own sel i t c a ks ks' :
  matches sel (Elem i t c a ks) = matches sel (Elem i t c a ks').
Proof.
  unfold matches.
  induction sel as [|compound sel IH]; [reflexivity|].
  cbn [existsb]. rewrite IH. reflexivity.
Qed.

Lemma place_Elem pl w i t c a ks :
  exists ks', place pl w (Elem i t c a ks) = Elem i t c a ks'.
Proof. simpl. eexists. reflexivity. Qed.

Lemma matches_place sel pl w n : matches sel (place pl w n) = matches sel n.
Proof.
  destruct n as [s|i t c a ks]; [reflexivity|].
  destruct (place_Elem pl w i t c a ks) as [ks' ->]. apply matches_own.
Qed.

Lemma nid_place pl w n : nid (place pl w n) = nid n.
Proof. destruct n; reflexivity. Qed.

Lemma elements_place pl w i t c a ks :
  elements (place pl w (Elem i t c a ks))
  = place pl w (Elem i t c a ks)
    :: (match pl with
        | Prepend p => if (i =? p)%nat then elements w else []
        | _ => []
        end)
    ++ flat_map (fun k => elements (place pl w k)
                          ++ (if goes_after pl k then elements w else [])) ks
    ++ (match pl with
        | Append p => if (i =? p)%nat then elements w else []
        | _ => []
        end).
Proof.
  cbn [place elements]. f_equal.
  assert (E : flat_map elements
                (flat_map (fun k => place pl w k :: (if goes_after pl k then [w] else [])) ks)
              = flat_map (fun k => elements (place pl w k)
                                   ++ (if goes_after pl k then elements w else [])) ks).
  { rewrite flat_map_flat_map. apply flat_map_ext. intros k.
    cbn [flat_map]. destruct (goes_after pl k); cbn [flat_map];
      rewrite ?List.app_nil_r; reflexivity. }
  destruct pl as [r|p|p]; cbn [Datatypes.app].
  - rewrite E, List.app_nil_r. reflexivity.
  - destruct (i =? p)%nat; cbn [flat_map Datatypes.app];
      rewrite E, List.app_nil_r; reflexivity.
  - destruct (i =? p)%nat.
    + rewrite flat_map_app, E. cbn [flat_map]. rewrite List.app_nil_r. reflexivity.
    + rewrite E, List.app_nil_r. reflexivity.
Qed.

Lemma filter_elements_place sel pl w n :
  inert sel w ->
  filter (matches sel) (elements (place pl w n))
  = map (place pl w) (filter (matches sel) (elements n)).
Proof.
  intros Hw. induction n as [s|i t c a ks IH] using node_induction; [reflexivity|].
  rewrite elements_place. cbn [filter].
  rewrite matches_place. cbn [elements filter].
  assert (T : filter (matches sel)
                ((match pl with
                  | Prepend p => if (i =? p)%nat then elements w else []
                  | _ => []
                  end)
                 ++ flat_map (fun k => elements (place pl w k)
                                ++ (if goes_after pl k then elements w else [])) ks
                 ++ (match pl with
                     | Append p => if (i =? p)%nat then elements w else []
                     | _ => []
                     end))
              = map (place pl w) (filter (matches sel) (flat_map elements ks))).
  { rewrite !filter_app.
    replace (filter (matches sel) match pl with
                                  | Prepend p => if (i =? p)%nat then elements w else []
                                  | _ => []
                                  end) with (@nil node)
      by (destruct pl; try reflexivity; destruct (_ =? _)%nat; [symmetry; exact Hw|reflexivity]).
    replace (filter (matches sel) match pl with
                                  | Append p => if (i =? p)%nat then elements w else []
                                  | _ => []
                                  end) with (@nil node)
      by (destruct pl; try reflexivity; destruct (_ =? _)%nat; [symmetry; exact Hw|reflexivity]).
    cbn [Datatypes.app]. rewrite List.app_nil_r.
    rewrite !filter_flat_map, map_flat_map.
    apply flat_map_ext_Forall.
    eapply Forall_impl; [|exact IH]. intros k Hk. cbv beta.
    rewrite filter_app, Hk.
    destruct (goes_after pl k); [rewrite Hw|]; cbn [filter]; apply List.app_nil_r. }
  destruct (matches sel (Elem i t c a ks)); cbn [map]; rewrite T; reflexivity.
Qed.

Lemma elements_cons n :
  elements n = match n with Text _ => [] | Elem _ _ _ _ _ => n :: descendants n end.
Proof. destruct n; reflexivity. Qed.

Lemma filter_descendants_place sel pl w n :
  inert sel w ->
  filter (matches sel) (descendants (place pl w n))
  = map (place pl w) (filter (matches sel) (descendants n)).
Proof.
  intros Hw. pose proof (filter_elements_place pl n Hw) as H.
  destruct n as [s|i t c a ks]; [reflexivity|].
  rewrite (elements_cons (place _ _ _)), (elements_cons (Elem _ _ _ _ _)) in H.
  destruct (place_Elem pl w i t c a ks) as [ks' E]. rewrite E in *.
  cbn [filter] in H. rewrite (matches_own sel i t c a ks' ks) in H.
  destruct (matches sel (Elem i t c a ks)); cbn [map] in H.
  - rewrite E in H. injection H as H. exact H.
  - exact H.
Qed.

Lemma querySelectorAll_place sel pl w n :
  inert sel w ->
  querySelectorAll sel (place pl w n) = map (place pl w) (querySelectorAll sel n).
Proof. apply filter_descendants_place. Qed.

Lemma querySelector_place sel pl w n :
  inert sel w ->
  querySelector sel (place pl w n) = option_map (place pl w) (querySelector sel n).
Proof.
  intros Hw. unfold querySelector.
  rewrite querySelectorAll_place by exact Hw. apply hd_error_map.
Qed.

(** *** References *)

Lemma absent_children target i t c a ks :
  absent target (Elem i t c a ks) -> Forall (absent target) ks.
Proof.
  unfold absent. cbn [elements]. intros H. apply Forall_inv_tail in H.
  induction ks as [|k ks IH]; [constructor|].
  cbn [flat_map] in H. apply Forall_app in H as [H1 H2].
  constructor; [exact H1|apply IH; exact H2].
Qed.

Lemma ancestors_absent target w : absent target w -> ancestors target w = None.
Proof.
  induction w as [s|i t c a ks IH] using node_induction; [reflexivity|].
  intros H. pose proof (absent_children H) as Hk.
  unfold absent in H. cbn [elements] in H. apply Forall_inv in H. cbn [nid] in H.
  cbn [ancestors]. destruct (Nat.eqb_spec i target) as [|_]; [contradiction|].
  rewrite first_some_map_None; [reflexivity|].
  apply Forall_forall. intros k Hin.
  rewrite Forall_forall in IH, Hk. apply IH; [exact Hin|apply Hk; exact Hin].
Qed.

Lemma first_some_cons {A} (a : option A) l :
  first_some (a :: l) = match a with Some x => Some x | None => first_some l end.
Proof. destruct a; reflexivity. Qed.

Lemma first_some_app {A} (l1 l2 : list (option A)) :
  first_some (l1 ++ l2)
  = match first_some l1 with Some a => Some a | None => first_some l2 end.
Proof.
  induction l1 as [|[a|] l1 IH]; simpl; [reflexivity|reflexivity|exact IH].
Qed.

Lemma ancestors_place target pl w n :
  absent target w ->
  ancestors target (place pl w n)
  = option_map (map (place pl w)) (ancestors target n).
Proof.
  intros Hw. pose proof (ancestors_absent Hw) as Hnone.
  induction n as [s|i t c a ks IH] using node_induction; [reflexivity|].
  destruct (place_Elem pl w i t c a ks) as [ks' E].
  cbn [place] in E. injection E as E.
  cbn [ancestors place]. rewrite E.
  destruct (i =? target)%nat.
  - cbn [option_map map place]. rewrite E. reflexivity.
  - assert (F : first_some (map (ancestors target) ks')
                = option_map (map (place pl w))
                    (first_some (map (ancestors target) ks))).
    { rewrite <- E. clear E ks'.
      assert (G : first_some
                    (map (ancestors target)
                       (flat_map (fun k => place pl w k
                                   :: (if goes_after pl k then [w] else [])) ks))
                  = option_map (map (place pl w))
                      (first_some (map (ancestors target) ks))).
      { induction IH as [|k ks Hk _ IHks]; [reflexivity|].
        cbn [flat_map]. rewrite map_app, first_some_app.
        change (map (ancestors target) (k :: ks))
          with (ancestors target k :: map (ancestors target) ks).
        rewrite map_cons, !first_some_cons, Hk.
        destruct (ancestors target k) as [l|]; cbn [option_map]; [reflexivity|].
        destruct (goes_after pl k); cbn [map];
          rewrite ?first_some_cons, ?Hnone; exact IHks. }
      destruct pl as [r|p|p]; [exact G| |].
      - destruct (i =? p)%nat; [|exact G].
        cbn [map first_some]. rewrite Hnone. exact G.
      - destruct (i =? p)%nat; [|exact G].
        rewrite map_app, first_some_app, G.
        destruct (first_some (map (ancestors target) ks)); cbn [option_map];
          [reflexivity|]. cbn [map first_some]. rewrite Hnone. reflexivity. }
    rewrite F.
    destruct (first_some (map (ancestors target) ks)) as [l|]; cbn [option_map];
      [|reflexivity].
    rewrite map_app. cbn [map place]. rewrite E. reflexivity.
Qed.

Lemma closest_place sel target pl w d :
  absent target w ->
  closest sel (place pl w d) target
  = option_map (place pl w) (closest sel d target).
Proof.
  intros Hw. unfold closest. rewrite ancestors_place by exact Hw.
  destruct (ancestors target d) as [l|]; cbn [option_map]; [|reflexivity].
  rewrite find_map. f_equal.
  induction l as [|x l IH]; [reflexivity|].
  cbn [find]. rewrite matches_place, IH. reflexivity.
Qed.

Lemma deref_place target pl w d :
  absent target w ->
  deref (place pl w d) target = option_map (place pl w) (deref d target).
Proof.
  intros Hw. unfold deref. rewrite ancestors_place by exact Hw.
  destruct (ancestors target d) as [[|n l]|]; reflexivity.
Qed.

(** *** Membership *)

Lemma In_elements_place pl w n e :
  In e (elements n) -> In (place pl w e) (elements (place pl w n)).
Proof.
  induction n as [s|i t c a ks IH] using node_induction; [intros []|].
  intros H. rewrite elements_place. cbn [elements] in H.
  destruct H as [<-|H]; [left; reflexivity|]. right.
  rewrite !in_app_iff. right. left.
  apply in_flat_map in H as (k & Hk & He).
  apply in_flat_map. exists k. split; [exact Hk|].
  rewrite in_app_iff. left. rewrite Forall_forall in IH. apply IH; assumption.
Qed.

Lemma In_descendants_place pl w n e :
  In e (descendants n) -> In (place pl w e) (descendants (place pl w n)).
Proof.
  destruct n as [s|i t c a ks]; [intros []|].
  intros H. pose proof (elements_place pl w i t c a ks) as E.
  destruct (place_Elem pl w i t c a ks) as [ks' P]. rewrite P in E at 1.
  rewrite P. cbn [elements] in E. injection E as _ E.
  change (descendants (Elem i t c a ks')) with (flat_map elements ks').
  rewrite E. rewrite !in_app_iff. right. left.
  unfold descendants in H. cbn [node_children] in H.
  apply in_flat_map in H as (k & Hk & He).
  apply in_flat_map. exists k. split; [exact Hk|].
  rewrite in_app_iff. left. apply In_elements_place. exact He.
Qed.

Lemma elements_trans n e x :
  In e (elements n) -> In x (elements e) -> In x (elements n).
Proof.
  induction n as [s|i t c a ks IH] using node_induction; [intros []|].
  cbn [elements]. intros [<-|H] Hx; [exact Hx|]. right.
  apply in_flat_map in H as (k & Hk & He).
  apply in_flat_map. exists k. split; [exact Hk|].
  rewrite Forall_forall in IH. apply IH; assumption.
Qed.

Lemma descendants_elements n x : In x (descendants n) -> In x (elements n).
Proof. destruct n; [intros []|]. intros H. right. exact H. Qed.

Lemma descendants_trans n e x :
  In e (elements n) -> In x (descendants e) -> In x (descendants n).
Proof.
  destruct n as [s|i t c a ks]; [intros []|].
  cbn [elements]. intros [<-|H] Hx; [exact Hx|].
  unfold descendants in *. cbn [node_children] in *.
  apply in_flat_map in H as (k & Hk & He).
  apply in_flat_map. exists k. split; [exact Hk|].
  eapply elements_trans; [exact He|]. apply descendants_elements. exact Hx.
Qed.

Lemma has_id_nid p k : In k (elements k) -> has_id p k = (nid k =? p)%nat.
Proof. destruct k; [intros []|reflexivity]. Qed.

Lemma elements_self e n : In e (elements n) -> In e (elements e).
Proof.
  induction n as [s|i t c a ks IH] using node_induction; [intros []|].
  cbn [elements]. intros [<-|H]; [left; reflexivity|].
  apply in_flat_map in H as (k & Hk & He).
  rewrite Forall_forall in IH. eapply IH; eassumption.
Qed.

Lemma placed_in pl w n :
  anchored pl n -> forall e, In e (elements w) -> In e (descendants (place pl w n)).
Proof.
  induction n as [s|i t c a ks IH] using node_induction.
  - destruct pl; intros [].
  - intros Ha e He.
    pose proof (elements_place pl w i t c a ks) as E.
    destruct (place_Elem pl w i t c a ks) as [ks' P]. rewrite P in E at 1.
    rewrite P. cbn [elements] in E. injection E as _ E.
    change (descendants (Elem i t c a ks')) with (flat_map elements ks').
    rewrite E. clear E P ks'. rewrite !in_app_iff.
    rewrite Forall_forall in IH.
    assert (Deep : forall k, In k ks -> anchored pl k ->
                     In e (flat_map (fun k => elements (place pl w k)
                            ++ (if goes_after pl k then elements w else [])) ks)).
    { intros k Hk Hak. apply in_flat_map. exists k. split; [exact Hk|].
      rewrite in_app_iff. left. apply descendants_elements. apply IH; assumption. }
    destruct pl as [p|p|p]; cbn [anchored] in Ha.
    + unfold descendants in Ha. cbn [node_children] in Ha.
      apply in_map_iff in Ha as (x & Hx & Hin).
      apply in_flat_map in Hin as (k & Hk & Hxk).
      right. left.
      destruct k as [s|j t' c' a' ks'']; [destruct Hxk|].
      cbn [elements] in Hxk. destruct Hxk as [<-|Hxk].
      * apply in_flat_map. exists (Elem j t' c' a' ks''). split; [exact Hk|].
        rewrite in_app_iff. right. cbn [goes_after has_id nid] in *.
        subst p. rewrite Nat.eqb_refl. exact He.
      * apply (Deep _ Hk). cbn [anchored]. apply in_map_iff. exists x.
        split; [exact Hx|exact Hxk].
    + cbn [elements map] in Ha. destruct Ha as [Ha|Ha].
      * left. cbn [nid] in Ha. subst p. rewrite Nat.eqb_refl. exact He.
      * right. left. apply in_map_iff in Ha as (x & Hx & Hin).
        apply in_flat_map in Hin as (k & Hk & Hxk).
        apply (Deep _ Hk). cbn [anchored]. apply in_map_iff. exists x.
        split; [exact Hx|exact Hxk].
    + cbn [elements map] in Ha. destruct Ha as [Ha|Ha].
      * right. right. cbn [nid] in Ha. subst p. rewrite Nat.eqb_refl. exact He.
      * right. left. apply in_map_iff in Ha as (x & Hx & Hin).
        apply in_flat_map in Hin as (k & Hk & Hxk).
        apply (Deep _ Hk). cbn [anchored]. apply in_map_iff. exists x.
        split; [exact Hx|exact Hxk].
Qed.

(** *** Queries *)

Lemma querySelector_Some sel n e :
  querySelector sel n = Some e -> In e (descendants n) /\ matches sel e = true.
Proof.
  unfold querySelector, querySelectorAll. intros H.
  assert (In e (filter (matches sel) (descendants n))) as Hin.
  { destruct (filter _ _); [discriminate|]. injection H as ->. left. reflexivity. }
  apply filter_In in Hin. exact Hin.
Qed.

Lemma found_iff sel n :
  found sel n = true <-> exists e, In e (descendants n) /\ matches sel e = true.
Proof.
  unfold found. split.
  - destruct (querySelector sel n) as [e|] eqn:E; [|discriminate].
    intros _. exists e. apply querySelector_Some. exact E.
  - intros (e & Hin & Hm). unfold querySelector, querySelectorAll.
    assert (In e (filter (matches sel) (descendants n))) as H
      by (apply filter_In; split; assumption).
    destruct (filter _ _); [destruct H|reflexivity].
Qed.

Lemma found_place sel pl w n : found sel n = true -> found sel (place pl w n) = true.
Proof.
  rewrite !found_iff. intros (e & Hin & Hm). exists (place pl w e). split.
  - apply In_descendants_place. exact Hin.
  - rewrite matches_place. exact Hm.
Qed.

Lemma found_placed sel pl w n :
  anchored pl n -> filter (matches sel) (elements w) <> [] ->
  found sel (place pl w n) = true.
Proof.
  intros Ha Hw. apply found_iff.
  destruct (filter (matches sel) (elements w)) as [|e l] eqn:E; [congruence|].
  assert (In e (filter (matches sel) (elements w))) as H by (rewrite E; left; reflexivity).
  apply filter_In in H as [Hin Hm]. exists e. split; [|exact Hm].
  apply placed_in; assumption.
Qed.

Lemma found_place_inert sel pl w n :
  inert sel w -> found sel (place pl w n) = found sel n.
Proof.
  intros Hw. unfold found. rewrite querySelector_place by exact Hw.
  destruct (querySelector sel n); reflexivity.
Qed.

(** *** Ancestors *)

Lemma first_some_In {A} (l : list (option A)) a :
  first_some l = Some a -> In (Some a) l.
Proof.
  induction l as [|[x|] l IH]; simpl; [discriminate| |].
  - intros [= ->]. left. reflexivity.
  - intros H. right. apply IH. exact H.
Qed.

Lemma ancestors_In target d l :
  ancestors target d = Some l -> forall x, In x l -> In x (elements d).
Proof.
  revert l. induction d as [s|i t c a ks IH] using node_induction; [discriminate|].
  intros l. cbn [ancestors]. destruct (i =? target)%nat.
  - intros [= <-] x [<-|[]]. left. reflexivity.
  - destruct (first_some (map (ancestors target) ks)) as [l'|] eqn:E; [|discriminate].
    intros [= <-] x Hx. apply in_app_iff in Hx as [Hx|[<-|[]]]; [|left; reflexivity].
    right. apply first_some_In in E. apply in_map_iff in E as (k & Hk & Hin).
    apply in_flat_map. exists k. split; [exact Hin|].
    rewrite Forall_forall in IH. eapply IH; eassumption.
Qed.

Lemma closest_Some sel d e c :
  closest sel d e = Some c -> In c (elements d) /\ matches sel c = true.
Proof.
  unfold closest. destruct (ancestors e d) as [l|] eqn:E; [|discriminate].
  intros H. apply find_some in H as [Hin Hm]. split; [|exact Hm].
  eapply ancestors_In; eassumption.
Qed.

Lemma deref_Some d r n : deref d r = Some n -> In n (elements d).
Proof.
  unfold deref. destruct (ancestors r d) as [[|x l]|] eqn:E; try discriminate.
  intros [= <-]. eapply ancestors_In; [exact E|left; reflexivity].
Qed.

(** *** Identities *)

Lemma max_id_ge_children i ks k :
  In k ks -> max_id k <= fold_right (fun k m => Nat.max (max_id k) m) i ks.
Proof.
  induction ks as [|k' ks IH]; [intros []|].
  cbn [fold_right]. intros [->|H]; [lia|]. specialize (IH H). lia.
Qed.

Lemma max_id_ge_self i ks :
  i <= fold_right (fun k m => Nat.max (max_id k) m) i ks.
Proof. induction ks as [|k' ks IH]; cbn [fold_right]; lia. Qed.

Lemma nid_le_max_id n e : In e (elements n) -> nid e <= max_id n.
Proof.
  induction n as [s|i t c a ks IH] using node_induction; [intros []|].
  cbn [elements max_id]. intros [<-|H].
  - cbn [nid]. apply max_id_ge_self.
  - apply in_flat_map in H as (k & Hk & He).
    rewrite Forall_forall in IH. specialize (IH k Hk He).
    pose proof (max_id_ge_children i ks k Hk). lia.
Qed.

Lemma absent_above target w :
  (forall e, In e (elements w) -> target < nid e) -> absent target w.
Proof.
  intros H. apply Forall_forall. intros e He. specialize (H e He). lia.
Qed.

Lemma renumber_Elem b i t c a ks :
  renumber b (Elem i t c a ks)
  = (Elem b t c a (fst (renumber_list ks (S b))), snd (renumber_list ks (S b))).
Proof.
  cbn [renumber]. fold renumber_list.
  destruct (renumber_list ks (S b)). reflexivity.
Qed.

Lemma renumber_spec n : forall b,
  b <= snd (renumber b n) /\
  (forall e, In e (elements (fst (renumber b n))) -> b <= nid e) /\
  (forall sel, map (matches sel) (elements (fst (renumber b n)))
               = map (matches sel) (elements n)).
Proof.
  induction n as [s|i t c a ks IH] using node_induction; intros b.
  - cbn. repeat split; auto. intros e [].
  - rewrite renumber_Elem. cbn [fst snd].
    assert (L : forall b0,
              b0 <= snd (renumber_list ks b0) /\
              (forall e, In e (flat_map elements (fst (renumber_list ks b0))) -> b0 <= nid e) /\
              (forall sel, map (matches sel) (flat_map elements (fst (renumber_list ks b0)))
                           = map (matches sel) (flat_map elements ks))).
    { induction IH as [|k ks Hk _ IHks]; intros b0.
      - cbn. repeat split; auto. intros e [].
      - cbn [renumber_list].
        destruct (renumber b0 k) as [k' b1] eqn:Ek.
        destruct (renumber_list ks b1) as [r' b2] eqn:Er.
        destruct (Hk b0) as (K1 & K2 & K3). rewrite Ek in K1, K2, K3.
        destruct (IHks b1) as (R1 & R2 & R3). rewrite Er in R1, R2, R3.
        cbn [fst snd] in *. repeat split.
        + lia.
        + intros e He. cbn [flat_map] in He. apply in_app_iff in He as [He|He].
          * apply K2. exact He.
          * specialize (R2 e He). lia.
        + intros sel. cbn [flat_map]. rewrite !map_app, K3, R3. reflexivity. }
    destruct (L (S b)) as (L1 & L2 & L3). repeat split.
    + lia.
    + intros e. cbn [elements]. intros [<-|He]; [cbn; lia|].
      specialize (L2 e He). lia.
    + intros sel. cbn [elements map]. rewrite L3. f_equal.
Qed.

Lemma filter_nil_map {A} (p : A -> bool) l :
  filter p l = [] <-> Forall (fun b => b = false) (map p l).
Proof.
  induction l as [|a l IH]; simpl; [split; auto|].
  destruct (p a) eqn:E.
  - split; [discriminate|]. intros H. apply Forall_inv in H. discriminate.
  - rewrite IH. split; [intros H; constructor; auto|].
    intros H. apply Forall_inv_tail in H. exact H.
Qed.

Lemma create_inert sel d w : inert sel w -> inert sel (create d w).
Proof.
  unfold inert, create. rewrite !filter_nil_map.
  destruct (renumber_spec w (fresh d)) as (_ & _ & H). rewrite H. auto.
Qed.

Lemma create_marks sel d w :
  filter (matches sel) (elements w) <> [] ->
  filter (matches sel) (elements (create d w)) <> [].
Proof.
  unfold create. rewrite !filter_nil_map.
  destruct (renumber_spec w (fresh d)) as (_ & _ & H). rewrite H. auto.
Qed.

Lemma create_absent d w target : target <= max_id d -> absent target (create d w).
Proof.
  intros H. apply absent_above. intros e He.
  destruct (renumber_spec w (fresh d)) as (_ & K & _).
  specialize (K e He). unfold fresh in K. lia.
Qed.

Lemma fold_max_mono (l : list node) i j :
  i <= j ->
  fold_right (fun k m => Nat.max (max_id k) m) i l
  <= fold_right (fun k m => Nat.max (max_id k) m) j l.
Proof. intros H. induction l as [|x l IH]; cbn [fold_right]; lia. Qed.

Lemma max_id_place pl w n : max_id n <= max_id (place pl w n).
Proof.
  induction n as [s|i t c a ks IH] using node_induction; [apply le_n|].
  cbn [place max_id].
  set (F := fold_right (fun k m => Nat.max (max_id k) m) i).
  assert (A : F ks <= F (flat_map (fun k => place pl w k
                                     :: (if goes_after pl k then [w] else [])) ks)).
  { subst F. induction IH as [|k ks Hk _ IHks]; [apply le_n|].
    cbn [flat_map fold_right Datatypes.app].
    destruct (goes_after pl k); cbn [fold_right Datatypes.app]; lia. }
  destruct pl as [p|p|p]; [exact A| |].
  - destruct (i =? p)%nat; [|exact A]. subst F. cbn [fold_right]. lia.
  - destruct (i =? p)%nat; [|exact A]. subst F.
    rewrite fold_right_app. cbn [fold_right].
    etransitivity; [exact A|]. apply fold_max_mono. lia.
Qed.

End DomFacts.

(* ------------------------------------------------------------------ *)
(** ** One injection per card *)
(* ------------------------------------------------------------------ *)

Module Engine.
Import Dom Coordinator DomDefs DomFacts EngineDefs.

Section Steps.
Variable P : Type.
Variable overlay : P -> node.
Variable marker : selector.
Variable S : selector.
Variable scope : node -> nat -> option node.
Variable anchor : node -> option placement.

(** What the overlays and the two lookups of a script have to satisfy. *)
Hypothesis overlay_no_code :
  forall p e, In e (elements (overlay p)) ->
              getAttribute "data-item-code" e = None /\ getAttribute "id" e = None.
Hypothesis overlay_marks :
  forall p, filter (matches marker) (elements (overlay p)) <> [].
Hypothesis overlay_no_card : forall p, inert S (overlay p).
Hypothesis scope_place :
  forall d e pl p, e <= max_id d ->
    scope (place pl (create d (overlay p)) d) e
    = option_map (place pl (create d (overlay p))) (scope d e).
Hypothesis scope_card :
  forall d e c, scope d e = Some c -> In c (elements d) /\ matches S c = true.
Hypothesis anchor_place :
  forall d c pl p, anchor (place pl (create d (overlay p)) c) = anchor c.
Hypothesis anchor_inside :
  forall c pl, In c (elements c) -> anchor c = Some pl -> anchored pl c.

Local Abbreviation step := (gstep overlay marker scope anchor).
Local Abbreviation blocked := (Blocked marker scope anchor).
Local Abbreviation ext := (Ext overlay).
Local Abbreviation inv := (Inv marker S).
Local Abbreviation sync := (sync_with overlay marker scope anchor).

Lemma blocked_noop p e st : blocked (doc st) e -> step p e st = st.
Proof.
  unfold Blocked, gstep. destruct (scope (doc st) e) as [c|]; [|reflexivity].
  intros [H|H]; rewrite H; [reflexivity|]. destruct (found marker c); reflexivity.
Qed.

Lemma blocked_place d e pl p :
  e <= max_id d -> blocked d e -> blocked (place pl (create d (overlay p)) d) e.
Proof.
  intros He. unfold Blocked. rewrite scope_place by exact He.
  destruct (scope d e) as [c|]; cbn [option_map]; [|auto].
  intros [H|H].
  - left. apply found_place. exact H.
  - right. rewrite anchor_place. exact H.
Qed.

Lemma ext_max_id d d' : ext d d' -> max_id d <= max_id d'.
Proof.
  induction 1 as [|d d' pl p _ IH]; [apply le_n|].
  etransitivity; [exact IH|apply max_id_place].
Qed.

Lemma ext_trans d d' d'' : ext d d' -> ext d' d'' -> ext d d''.
Proof.
  intros H1 H2. induction H2; [exact H1|]. constructor. apply IHExt. exact H1.
Qed.

Lemma blocked_ext d d' e : ext d d' -> e <= max_id d -> blocked d e -> blocked d' e.
Proof.
  induction 1 as [|d d' pl p H IH]; [auto|].
  intros He Hb. apply blocked_place.
  - pose proof (ext_max_id H). lia.
  - apply IH; assumption.
Qed.

Lemma step_cases p e st :
  step p e st = st \/
  exists c pl,
    scope (doc st) e = Some c /\ found marker c = false /\ anchor c = Some pl /\
    step p e st = inject pl (overlay p) (nid c) st.
Proof.
  unfold gstep. destruct (scope (doc st) e) as [c|]; [|left; reflexivity].
  destruct (found marker c) eqn:F; [left; reflexivity|].
  destruct (anchor c) as [pl|] eqn:A; [|left; reflexivity].
  right. exists c, pl. auto.
Qed.

Lemma In_self c d : In c (elements d) -> In c (elements c).
Proof. apply elements_self. Qed.

Lemma step_blocks p e st : e <= max_id (doc st) -> blocked (doc (step p e st)) e.
Proof.
  intros He. destruct (step_cases p e st) as [E|(c & pl & Hs & Hf & Ha & E)].
  - rewrite E. unfold Blocked, gstep in *.
    destruct (scope (doc st) e) as [c|]; [|exact I].
    destruct (found marker c); [left; reflexivity|].
    destruct (anchor c) as [pl|]; [|right; reflexivity].
    exfalso. unfold inject in E. destruct st as [d i t]. cbn in E.
    injection E as E1 E2. apply (f_equal (@List.length nat)) in E2.
    rewrite length_app in E2. cbn in E2. lia.
  - rewrite E. unfold inject. cbn [doc]. unfold Blocked.
    rewrite scope_place by exact He. rewrite Hs. cbn [option_map]. left.
    apply found_placed.
    + apply anchor_inside; [|exact Ha].
      destruct (scope_card Hs) as [Hin _]. eapply In_self. exact Hin.
    + apply create_marks. apply overlay_marks.
Qed.

Lemma step_ext p e st : ext (doc st) (doc (step p e st)).
Proof.
  destruct (step_cases p e st) as [E|(c & pl & _ & _ & _ & E)]; rewrite E.
  - constructor.
  - unfold inject. cbn [doc]. constructor. constructor.
Qed.

Lemma step_thrown p e st : thrown (step p e st) = thrown st.
Proof.
  destruct (step_cases p e st) as [E|(c & pl & _ & _ & _ & E)]; rewrite E; reflexivity.
Qed.

(** The inner loop: every target it has processed is blocked afterwards. *)
Lemma inner_loop p els : forall st,
  thrown st = false ->
  (forall e, In e els -> e <= max_id (doc st)) ->
  let st' := for_each (step p) els st in
  ext (doc st) (doc st') /\ thrown st' = false /\
  (forall e, In e els -> blocked (doc st') e).
Proof.
  induction els as [|e els IH]; intros st Ht Hb; cbn [for_each].
  - repeat split; [constructor|exact Ht|intros e []].
  - rewrite Ht.
    pose proof (step_ext p e st) as E1.
    pose proof (ext_max_id E1) as M1.
    destruct (IH (step p e st)) as (E2 & T2 & B2).
    + rewrite step_thrown. exact Ht.
    + intros x Hx. specialize (Hb x (or_intror Hx)). lia.
    + repeat split.
      * eapply ext_trans; eassumption.
      * exact T2.
      * intros x [<-|Hx]; [|apply B2; exact Hx].
        eapply blocked_ext; [exact E2| |].
        -- specialize (Hb e (or_introl eq_refl)). lia.
        -- apply step_blocks. apply Hb. left. reflexivity.
Qed.

Lemma inner_loop_blocked p els : forall st,
  (forall e, In e els -> blocked (doc st) e) -> for_each (step p) els st = st.
Proof.
  induction els as [|e els IH]; intros st Hb; cbn [for_each]; [reflexivity|].
  destruct (thrown st); [reflexivity|].
  rewrite blocked_noop by (apply Hb; left; reflexivity).
  apply IH. intros x Hx. apply Hb. right. exact Hx.
Qed.

Lemma getAttribute_place a pl w n : getAttribute a (place pl w n) = getAttribute a n.
Proof. destruct n; reflexivity. Qed.

Lemma inert_no_attr a (sel : selector) w :
  (forall e, In e (elements w) -> getAttribute a e = None) ->
  sel = [[Attr a]] \/ (exists v, sel = [[AttrIs a v]]) ->
  inert sel w.
Proof.
  intros H Hsel. unfold inert. apply filter_nil_map. apply Forall_forall.
  intros b Hb. apply in_map_iff in Hb as (e & <- & He).
  specialize (H e He). destruct e as [s|i t c at_ ks]; [reflexivity|].
  destruct Hsel as [->|[v ->]]; cbn in *; rewrite H; reflexivity.
Qed.

Lemma overlay_inert_code p d sel :
  sel = [[Attr "data-item-code"]] \/ (exists v, sel = [[AttrIs "data-item-code" v]]) ->
  inert sel (create d (overlay p)).
Proof.
  intros H. apply create_inert. eapply inert_no_attr; [|exact H].
  intros e He. apply (overlay_no_code p e He).
Qed.

Lemma overlay_inert_id p d i : inert [[AttrIs "id" i]] (create d (overlay p)).
Proof.
  apply create_inert. eapply inert_no_attr; [|right; eexists; reflexivity].
  intros e He. apply (overlay_no_code p e He).
Qed.

Lemma targets_place listing sel d pl p :
  item_selector sel -> listing <= max_id d ->
  targets listing sel (place pl (create d (overlay p)) d) = targets listing sel d.
Proof.
  intros Hsel Hl. unfold targets.
  rewrite deref_place by (apply create_absent; exact Hl).
  destruct (deref d listing) as [l|]; cbn [option_map]; [|reflexivity].
  rewrite querySelectorAll_place by (apply overlay_inert_code; right; exact Hsel).
  rewrite map_map. apply map_ext. intros x. apply nid_place.
Qed.

Lemma targets_ext listing sel d d' :
  item_selector sel -> listing <= max_id d -> ext d d' ->
  targets listing sel d' = targets listing sel d.
Proof.
  intros Hsel Hl H. induction H as [|d d' pl p H IH]; [reflexivity|].
  rewrite targets_place; [exact (IH Hl)|exact Hsel|].
  pose proof (ext_max_id H). lia.
Qed.

Lemma targets_bound listing sel d e :
  In e (targets listing sel d) -> e <= max_id d.
Proof.
  unfold targets. destruct (deref d listing) as [l|] eqn:E; [|intros []].
  intros H. apply in_map_iff in H as (x & <- & Hx).
  apply nid_le_max_id. apply filter_In in Hx as [Hx _].
  eapply elements_trans; [eapply deref_Some; exact E|].
  apply descendants_elements. exact Hx.
Qed.

Section Loop.
Variable payload_of : string -> option P.
Variable selector_of : string -> option selector.
Variable listing : nat.
Hypothesis selector_item :
  forall code sel, selector_of code = Some sel -> item_selector sel.

Local Abbreviation body := (code_step payload_of selector_of step listing).
Local Abbreviation done := (Done marker scope anchor payload_of selector_of listing).

Lemma code_step_eq code st :
  body code st
  = match payload_of code with
    | None => st
    | Some p =>
        match selector_of code with
        | None => throw st
        | Some sel => for_each (step p) (targets listing sel (doc st)) st
        end
    end.
Proof. reflexivity. Qed.

Lemma done_ext d d' codes :
  listing <= max_id d -> ext d d' -> done d codes -> done d' codes.
Proof.
  intros Hl He. induction codes as [|code codes IH]; cbn [Done]; [auto|].
  destruct (payload_of code) as [p|]; [|exact IH].
  destruct (selector_of code) as [sel|] eqn:Es; [|auto].
  intros [Hb Hd]. split; [|apply IH; exact Hd].
  intros e. rewrite (targets_ext (selector_item Es) Hl He). intros Hin.
  eapply blocked_ext; [exact He| |apply Hb; exact Hin].
  eapply targets_bound. exact Hin.
Qed.

Lemma for_each_thrown {A} (f : A -> run -> run) l st :
  thrown st = true -> for_each f l st = st.
Proof. intros H. destruct l; cbn [for_each]; [reflexivity|]. rewrite H. reflexivity. Qed.

(** After one pass every target of every code it got to is blocked. *)
Lemma outer_loop codes : forall st,
  listing <= max_id (doc st) ->
  thrown st = false ->
  let st' := for_each body codes st in
  ext (doc st) (doc st') /\ done (doc st') codes.
Proof.
  induction codes as [|code codes IH]; intros st Hl Ht; cbn [for_each Done].
  - split; [constructor|exact I].
  - rewrite Ht, code_step_eq.
    destruct (payload_of code) as [p|]; [|apply IH; assumption].
    destruct (selector_of code) as [sel|] eqn:Es.
    + destruct (@inner_loop p (targets listing sel (doc st)) st Ht)
        as (E1 & T1 & B1).
      { intros e. apply targets_bound. }
      set (st1 := for_each (step p) (targets listing sel (doc st)) st) in *.
      pose proof (ext_max_id E1) as M1.
      destruct (IH st1) as (E2 & D2); [lia|exact T1|].
      split; [eapply ext_trans; eassumption|]. split; [|exact D2].
      intros e.
      rewrite (targets_ext (selector_item Es) Hl (ext_trans E1 E2)).
      intros Hin. eapply blocked_ext; [exact E2| |apply B1; exact Hin].
      pose proof (targets_bound _ _ _ _ Hin). lia.
    + rewrite for_each_thrown by reflexivity. cbn [doc throw].
      split; [constructor|exact I].
Qed.

(** A pass over a document in which every target is blocked changes nothing. *)
Lemma outer_loop_done codes : forall st,
  done (doc st) codes ->
  doc (for_each body codes st) = doc st /\
  injected (for_each body codes st) = injected st.
Proof.
  induction codes as [|code codes IH]; intros st Hd; cbn [for_each]; [auto|].
  destruct (thrown st) eqn:Ht; [auto|].
  cbn [Done] in Hd. rewrite code_step_eq.
  destruct (payload_of code) as [p|]; [|apply IH; exact Hd].
  destruct (selector_of code) as [sel|] eqn:Es.
  - destruct Hd as [Hb Hd]. rewrite inner_loop_blocked by exact Hb.
    apply IH. exact Hd.
  - rewrite for_each_thrown by reflexivity. auto.
Qed.

End Loop.

(** *** The request sees the same listing after a pass *)

Lemma harvest_place pl p d l :
  harvest (place pl (create d (overlay p)) l) = harvest l.
Proof.
  unfold harvest.
  rewrite querySelectorAll_place by (apply overlay_inert_code; left; reflexivity).
  generalize (@nil string).
  induction (querySelectorAll [[Attr "data-item-code"]] l) as [|x xs IH];
    intros acc; [reflexivity|].
  cbn [map fold_left]. rewrite getAttribute_place. apply IH.
Qed.

Lemma request_place pl p d :
  request (place pl (create d (overlay p)) d) = request d.
Proof.
  unfold request, getElementById.
  rewrite filter_elements_place by apply overlay_inert_id.
  rewrite hd_error_map.
  destruct (hd_error (filter _ (elements d))) as [l|]; cbn [option_map];
    [|reflexivity].
  rewrite harvest_place, nid_place. reflexivity.
Qed.

Lemma request_ext d d' : ext d d' -> request d' = request d.
Proof.
  induction 1 as [|d d' pl p _ IH]; [reflexivity|].
  rewrite request_place. exact IH.
Qed.

Lemma request_bound d listing codes :
  request d = Some (listing, codes) -> listing <= max_id d.
Proof.
  unfold request, getElementById.
  destruct (hd_error _) as [l|] eqn:E; [|discriminate].
  destruct (harvest l); [discriminate|]. intros [= <- _].
  apply nid_le_max_id.
  assert (In l (filter (matches [[AttrIs "id" "product-listing"]]) (elements d))) as H.
  { destruct (filter _ _); [discriminate|]. injection E as ->. left. reflexivity. }
  apply filter_In in H. apply H.
Qed.

(** *** At most one injection per card *)

Lemma NoDup_map_eq {A B} (f : A -> B) l x y :
  NoDup (map f l) -> In x l -> In y l -> f x = f y -> x = y.
Proof.
  induction l as [|a l IH]; [intros _ []|].
  cbn [map]. intros H. apply NoDup_cons_iff in H as [Ha H].
  intros [<-|Hx] [<-|Hy] E; auto.
  - exfalso. apply Ha. rewrite E. apply in_map. exact Hy.
  - exfalso. apply Ha. rewrite <- E. apply in_map. exact Hx.
Qed.

Lemma cards_place pl p d :
  filter (matches S) (elements (place pl (create d (overlay p)) d))
  = map (place pl (create d (overlay p))) (filter (matches S) (elements d)).
Proof. apply filter_elements_place. apply create_inert. apply overlay_no_card. Qed.

Lemma marked_place pl p d c :
  Marked marker S d c -> Marked marker S (place pl (create d (overlay p)) d) c.
Proof.
  intros H n' Hin Hm Hid.
  assert (In n' (filter (matches S) (elements (place pl (create d (overlay p)) d))))
    as Hf by (apply filter_In; split; assumption).
  rewrite cards_place in Hf. apply in_map_iff in Hf as (n & <- & Hn).
  apply filter_In in Hn as [Hn Hs]. apply found_place.
  apply (H n Hn Hs). rewrite nid_place in Hid. exact Hid.
Qed.

Lemma wfS_place pl p d : wfS S d -> wfS S (place pl (create d (overlay p)) d).
Proof.
  unfold wfS. rewrite cards_place, map_map.
  erewrite map_ext; [intros H; exact H|]. intros x. cbv beta. symmetry. apply nid_place.
Qed.

Lemma marked_new pl p d c0 :
  wfS S d -> In c0 (elements d) -> matches S c0 = true -> anchored pl c0 ->
  Marked marker S (place pl (create d (overlay p)) d) (nid c0).
Proof.
  intros Hwf Hin0 Hs0 Ha n' Hin Hm Hid.
  assert (In n' (filter (matches S) (elements (place pl (create d (overlay p)) d))))
    as Hf by (apply filter_In; split; assumption).
  rewrite cards_place in Hf. apply in_map_iff in Hf as (n & <- & Hn).
  rewrite nid_place in Hid.
  assert (n = c0) as ->.
  { eapply NoDup_map_eq; [exact Hwf|exact Hn| |exact Hid].
    apply filter_In. split; assumption. }
  apply found_placed; [exact Ha|]. apply create_marks, overlay_marks.
Qed.

Lemma step_inv L p e st : inv L st -> inv L (step p e st).
Proof.
  intros (Hnd & Hm & Hwf).
  destruct (step_cases p e st) as [E|(c & pl & Hs & Hf & Ha & E)]; rewrite E.
  - repeat split; assumption.
  - destruct (scope_card Hs) as [Hin Hsc].
    unfold Inv, inject. cbn [doc injected]. repeat split.
    + rewrite List.app_assoc. apply NoDup_app; [exact Hnd|repeat constructor; intros []|].
      intros x Hx [<-|[]]. specialize (Hm _ Hx c Hin Hsc eq_refl). congruence.
    + intros x Hx. rewrite List.app_assoc in Hx.
      apply in_app_iff in Hx as [Hx|[<-|[]]].
      * apply marked_place. apply Hm. exact Hx.
      * apply marked_new; try assumption.
        apply anchor_inside; [|exact Ha]. eapply In_self. exact Hin.
    + apply wfS_place. exact Hwf.
Qed.

Lemma for_each_inv {A} (f : A -> run -> run) L :
  (forall a st, inv L st -> inv L (f a st)) ->
  forall l st, inv L st -> inv L (for_each f l st).
Proof.
  intros Hf l. induction l as [|a l IH]; intros st H; cbn [for_each]; [exact H|].
  destruct (thrown st); [exact H|]. apply IH, Hf, H.
Qed.

Lemma callback_inv L payload_of selector_of listing codes st :
  inv L st ->
  inv L (for_each (code_step payload_of selector_of step listing) codes st).
Proof.
  apply for_each_inv. clear st. intros code st H. unfold code_step.
  destruct (payload_of code) as [p|]; [|exact H].
  destruct (selector_of code) as [sel|]; [|exact H].
  apply for_each_inv; [|exact H]. intros e st'. apply step_inv.
Qed.

Lemma NoDup_filter_map {A} (f : A -> nat) (p : A -> bool) l :
  NoDup (map f l) -> NoDup (map f (filter p l)).
Proof.
  induction l as [|a l IH]; cbn [map filter]; [auto|].
  intros H. apply NoDup_cons_iff in H as [Ha H].
  destruct (p a); [|auto]. cbn [map]. constructor; [|auto].
  intros Hin. apply Ha. apply in_map_iff in Hin as (x & <- & Hx).
  apply in_map. apply filter_In in Hx. apply Hx.
Qed.

(** *** One pass, and a second one *)

Section Sync.
Variable selector_of : string -> option selector.
Hypothesis selector_item :
  forall code sel, selector_of code = Some sel -> item_selector sel.

Lemma sync_ext params d : ext d (doc (sync params selector_of d)).
Proof.
  unfold sync_with. destruct (request d) as [[listing codes]|] eqn:R; [|constructor].
  destruct params as [payload_of|]; [|constructor].
  unfold callback_loop.
  apply (@outer_loop payload_of selector_of listing selector_item codes (start d)).
  - cbn [doc start]. eapply request_bound. exact R.
  - reflexivity.
Qed.

(** A second pass with the same response injects nothing. *)
Lemma sync_idempotent params d :
  let s1 := sync params selector_of d in
  let s2 := sync params selector_of (doc s1) in
  doc s2 = doc s1 /\ injected s2 = [].
Proof.
  cbv zeta. pose proof (sync_ext params d) as E.
  remember (sync params selector_of d) as s1 eqn:Es1.
  unfold sync_with at 1 2. rewrite (request_ext E).
  unfold sync_with in Es1.
  destruct (request d) as [[listing codes]|] eqn:R; [|split; reflexivity].
  destruct params as [payload_of|]; [|split; reflexivity].
  unfold callback_loop in *.
  destruct (@outer_loop payload_of selector_of listing selector_item codes (start d))
    as (_ & D).
  { cbn [doc start]. eapply request_bound. exact R. }
  { reflexivity. }
  cbv zeta in D. rewrite <- Es1 in D.
  apply (@outer_loop_done payload_of selector_of listing codes (start (doc s1)) D).
Qed.

Lemma ids_nid d : ids d = map nid (elements d).
Proof.
  unfold ids.
  assert (H : forall e, In e (elements d) -> In e (elements e))
    by (intros e; apply elements_self).
  induction (elements d) as [|e l IH]; [reflexivity|].
  cbn [flat_map map]. rewrite IH by (intros x Hx; apply H; right; exact Hx).
  specialize (H e (or_introl eq_refl)). destruct e; [destruct H|reflexivity].
Qed.

Lemma start_inv d : wf d -> inv [] (start d).
Proof.
  intros H. unfold Inv. cbn [start doc injected Datatypes.app]. repeat split.
  - constructor.
  - intros c [].
  - unfold wfS. apply NoDup_filter_map. rewrite <- ids_nid. exact H.
Qed.

Lemma sync_inv L params d :
  inv L (start d) -> inv L (sync params selector_of d).
Proof.
  intros H. unfold sync_with. destruct (request d) as [[listing codes]|]; [|exact H].
  destruct params as [payload_of|]; [|exact H].
  apply callback_inv. exact H.
Qed.

(** Over two passes, whatever the responses, no card is injected into twice. *)
Lemma sync_twice params params' d :
  wf d ->
  let s1 := sync params selector_of d in
  let s2 := sync params' selector_of (doc s1) in
  NoDup (injected s1 ++ injected s2).
Proof.
  intros Hwf. cbv zeta.
  pose proof (sync_inv params (start_inv Hwf)) as (N1 & M1 & W1).
  cbn [Datatypes.app] in N1, M1.
  set (s1 := sync params selector_of d) in *.
  assert (inv (injected s1) (start (doc s1))) as I2.
  { unfold Inv. cbn [start doc injected]. rewrite List.app_nil_r.
    repeat split; assumption. }
  apply (sync_inv params') in I2. destruct I2 as (N2 & _). exact N2.
Qed.

End Sync.

End Steps.
End Engine.

(* ------------------------------------------------------------------ *)
(** ** The three scripts are instances *)
(* ------------------------------------------------------------------ *)

Module Kinds.
Import Dom Coordinator DomDefs DomFacts EngineDefs Engine KindDefs.

Lemma inert_Forall sel w :
  Forall (fun e => matches sel e = false) (elements w) -> inert sel w.
Proof.
  intros H. apply filter_nil_map. apply Forall_forall. intros b Hb.
  apply in_map_iff in Hb as (e & <- & He). rewrite Forall_forall in H. auto.
Qed.

Ltac each_element := repeat (constructor; [repeat split; reflexivity|]).

Section Offers.
Variable css_string : string -> option string.
Variable translate : string -> string.

Local Abbreviation overlay := (offers_overlay translate).
Local Abbreviation marker := [[Class "offer-container"]].
Local Abbreviation scope := (closest card_selector).

Ltac offers_elements :=
  unfold offers_overlay, el; cbn [elements flat_map Datatypes.app];
  each_element; rewrite List.app_nil_r;
  match goal with
  | |- Forall _ (flat_map elements (map _ ?offers)) =>
      induction offers as [|o offers IH]; [constructor|];
      cbn [map flat_map]; apply Forall_app; split; [|exact IH];
      unfold offer_line, el; cbn [elements flat_map Datatypes.app];
      each_element; constructor
  end.

Lemma offers_no_code offers :
  Forall (fun e => getAttribute "data-item-code" e = None
                   /\ getAttribute "id" e = None)
    (elements (overlay offers)).
Proof. offers_elements. Qed.

Lemma offers_inert_card offers : inert card_selector (overlay offers).
Proof. apply inert_Forall. offers_elements. Qed.

Lemma offers_inert_price offers : inert [[Class "product-price"]] (overlay offers).
Proof. apply inert_Forall. offers_elements. Qed.

Lemma offers_marks offers :
  filter (matches marker) (elements (overlay offers)) <> [].
Proof. unfold offers_overlay, el. cbn. discriminate. Qed.

Lemma price_scope_place (w : node) d e pl :
  absent e w ->
  scope (place pl w d) e = option_map (place pl w) (scope d e).
Proof. apply closest_place. Qed.

Lemma price_anchor_place w c pl :
  inert [[Class "product-price"]] w ->
  price_anchor (place pl w c) = price_anchor c.
Proof.
  intros H. unfold price_anchor. rewrite querySelector_place by exact H.
  destruct (querySelector _ c); cbn [option_map]; [|reflexivity].
  rewrite nid_place. reflexivity.
Qed.

Lemma price_anchor_inside c pl : price_anchor c = Some pl -> anchored pl c.
Proof.
  unfold price_anchor. destruct (querySelector _ c) as [p|] eqn:E; [|discriminate].
  intros [= <-]. cbn [anchored]. apply in_map.
  apply querySelector_Some in E. apply E.
Qed.

Lemma offers_target_gstep offers e st :
  offers_target translate offers e st
  = gstep overlay marker scope price_anchor offers e st.
Proof.
  unfold offers_target, gstep, found, price_anchor.
  destruct (closest card_selector (doc st) e) as [card|]; [|reflexivity].
  destruct (querySelector [[Class "offer-container"]] card); [reflexivity|].
  destruct (querySelector [[Class "product-price"]] card); reflexivity.
Qed.

Lemma for_each_ext {A} (f g : A -> run -> run) l :
  (forall a st, f a st = g a st) -> forall st, for_each f l st = for_each g l st.
Proof.
  intros H. induction l as [|a l IH]; intros st; cbn [for_each]; [reflexivity|].
  rewrite H, IH. reflexivity.
Qed.

Lemma callback_loop_ext {P} payload_of selector_of
  (f g : P -> nat -> run -> run) listing codes d :
  (forall p e st, f p e st = g p e st) ->
  callback_loop payload_of selector_of f listing codes d
  = callback_loop payload_of selector_of g listing codes d.
Proof.
  intros H. unfold callback_loop. apply for_each_ext. intros code st.
  unfold code_step. destruct (payload_of code); [|reflexivity].
  destruct (selector_of code); [|reflexivity].
  apply for_each_ext. intros e st'. apply H.
Qed.

Lemma concat_selector_item code sel :
  concat_selector css_string code = Some sel -> item_selector sel.
Proof.
  unfold concat_selector. destruct (css_string code) as [v|]; [|discriminate].
  intros [= <-]. exists v. reflexivity.
Qed.

Lemma injectProductOffers_sync response d :
  injectProductOffers css_string translate response d
  = sync_with overlay marker scope price_anchor (offers_params response)
      (concat_selector css_string) d.
Proof.
  unfold injectProductOffers, sync_with, injectProductOffers_callback, offers_params.
  destruct (request d) as [[listing codes]|]; [|reflexivity].
  destruct response as [[m|]|]; try reflexivity.
  apply callback_loop_ext. intros. apply offers_target_gstep.
Qed.

Lemma offers_idempotent response d :
  let s1 := injectProductOffers css_string translate response d in
  let s2 := injectProductOffers css_string translate response (doc s1) in
  doc s2 = doc s1 /\ injected s2 = [].
Proof.
  cbv zeta. rewrite !injectProductOffers_sync.
  eapply sync_idempotent with (S := card_selector).
  - intros p e He. pose proof (offers_no_code p) as H.
    rewrite Forall_forall in H. apply H. exact He.
  - apply offers_marks.
  - intros d0 e pl p He. apply price_scope_place. apply create_absent. exact He.
  - intros d0 e c. apply closest_Some.
  - intros d0 c pl p. apply price_anchor_place. apply create_inert, offers_inert_price.
  - intros c pl _. apply price_anchor_inside.
  - apply concat_selector_item.
Qed.

Lemma offers_twice response response' d :
  wf d ->
  let s1 := injectProductOffers css_string translate response d in
  let s2 := injectProductOffers css_string translate response' (doc s1) in
  NoDup (injected s1 ++ injected s2).
Proof.
  intros Hwf. cbv zeta. rewrite !injectProductOffers_sync.
  eapply sync_twice with (S := card_selector); [..|exact Hwf].
  - apply offers_marks.
  - apply offers_inert_card.
  - intros d0 e c. apply closest_Some.
  - intros c pl _. apply price_anchor_inside.
Qed.

(* ------------------------------------------------------------------ *)

Local Abbreviation overlayD := (discount_overlay translate).
Local Abbreviation markerD := [[Class "customer-discount-info"]].

Lemma discount_no_code discount :
  Forall (fun e => getAttribute "data-item-code" e = None
                   /\ getAttribute "id" e = None)
    (elements (overlayD discount)).
Proof. unfold discount_overlay, el. cbn [elements flat_map Datatypes.app]. each_element. constructor. Qed.

Lemma discount_inert_card discount : inert card_selector (overlayD discount).
Proof. reflexivity. Qed.

Lemma discount_inert_price discount :
  inert [[Class "product-price"]] (overlayD discount).
Proof. reflexivity. Qed.

Lemma discount_marks discount :
  filter (matches markerD) (elements (overlayD discount)) <> [].
Proof. cbn. discriminate. Qed.

Lemma discount_target_gstep discount e st :
  discount_target translate discount e st
  = gstep overlayD markerD scope price_anchor discount e st.
Proof.
  unfold discount_target, gstep, found, price_anchor.
  destruct (closest card_selector (doc st) e) as [card|]; [|reflexivity].
  destruct (querySelector [[Class "product-price"]] card);
    destruct (querySelector [[Class "customer-discount-info"]] card); reflexivity.
Qed.

Lemma injectConsumerDiscount_sync response d :
  injectConsumerDiscount css_string translate response d
  = sync_with overlayD markerD scope price_anchor (discount_params response)
      (concat_selector css_string) d.
Proof.
  unfold injectConsumerDiscount, sync_with, injectConsumerDiscount_callback,
    discount_params.
  destruct (request d) as [[listing codes]|]; [|reflexivity].
  destruct response as [[m|]|]; try reflexivity.
  apply callback_loop_ext. intros. apply discount_target_gstep.
Qed.

Lemma discount_idempotent response d :
  let s1 := injectConsumerDiscount css_string translate response d in
  let s2 := injectConsumerDiscount css_string translate response (doc s1) in
  doc s2 = doc s1 /\ injected s2 = [].
Proof.
  cbv zeta. rewrite !injectConsumerDiscount_sync.
  eapply sync_idempotent with (S := card_selector).
  - intros p e He. pose proof (discount_no_code p) as H.
    rewrite Forall_forall in H. apply H. exact He.
  - apply discount_marks.
  - intros d0 e pl p He. apply price_scope_place. apply create_absent. exact He.
  - intros d0 e c. apply closest_Some.
  - intros d0 c pl p. apply price_anchor_place.
    apply create_inert, discount_inert_price.
  - intros c pl _. apply price_anchor_inside.
  - apply concat_selector_item.
Qed.

Lemma discount_twice response response' d :
  wf d ->
  let s1 := injectConsumerDiscount css_string translate response d in
  let s2 := injectConsumerDiscount css_string translate response' (doc s1) in
  NoDup (injected s1 ++ injected s2).
Proof.
  intros Hwf. cbv zeta. rewrite !injectConsumerDiscount_sync.
  eapply sync_twice with (S := card_selector); [..|exact Hwf].
  - apply discount_marks.
  - apply discount_inert_card.
  - intros d0 e c. apply closest_Some.
  - intros c pl _. apply price_anchor_inside.
Qed.

End Offers.

(* ------------------------------------------------------------------ *)

Local Abbreviation markerB := [[Class "ce-badges"]].

Ltac badges_elements :=
  unfold badges_overlay, el; cbn [elements flat_map Datatypes.app];
  each_element;
  match goal with
  | |- Forall _ (flat_map elements (map _ ?badges)) =>
      induction badges as [|b badges IH]; [constructor|];
      cbn [map flat_map]; apply Forall_app; split; [|exact IH];
      unfold badge_span, el; cbn [elements flat_map Datatypes.app];
      each_element; constructor
  end.

Lemma badges_no_code badges :
  Forall (fun e => getAttribute "data-item-code" e = None
                   /\ getAttribute "id" e = None)
    (elements (badges_overlay badges)).
Proof. badges_elements. Qed.

Lemma badges_inert_body badges : inert body_selector (badges_overlay badges).
Proof. apply inert_Forall. badges_elements. Qed.

Lemma badges_inert_card_body badges :
  inert [[Class "card-body"]] (badges_overlay badges).
Proof. apply inert_Forall. badges_elements. Qed.

Lemma badges_inert_title badges :
  inert [[Class "product-title"]] (badges_overlay badges).
Proof. apply inert_Forall. badges_elements. Qed.

Lemma badges_inert_tags badges :
  inert [[Tag "a"]; [Tag "h4"]; [Tag "h5"]] (badges_overlay badges).
Proof. apply inert_Forall. badges_elements. Qed.

Lemma badges_marks badges :
  filter (matches markerB) (elements (badges_overlay badges)) <> [].
Proof. unfold badges_overlay, el. cbn. discriminate. Qed.

Lemma badges_scope_place (w : node) d e pl :
  absent e w -> inert [[Class "card-body"]] w ->
  badges_scope (place pl w d) e = option_map (place pl w) (badges_scope d e).
Proof.
  intros Ha Hi. unfold badges_scope. rewrite !closest_place by exact Ha.
  destruct (closest [[Class "card"]] d e) as [c1|];
    [|destruct (closest [[Class "item-card"]] d e) as [c2|];
      [|destruct (closest [[Class "list-row"]] d e) as [c3|]]];
    cbn [option_map or_else]; try reflexivity;
    rewrite querySelector_place by exact Hi;
    destruct (querySelector _ _); reflexivity.
Qed.

Lemma matches_class_in c (sel : selector) n :
  In [Class c] sel -> matches [[Class c]] n = true -> matches sel n = true.
Proof.
  intros Hin. destruct n as [s|i t cs a ks]; [discriminate|].
  unfold matches. cbn [existsb forallb]. rewrite orb_false_r, andb_true_r.
  intros H. apply existsb_exists. exists [Class c]. split; [exact Hin|].
  cbn [forallb]. rewrite andb_true_r. exact H.
Qed.

Lemma badges_scope_card d e c :
  badges_scope d e = Some c -> In c (elements d) /\ matches body_selector c = true.
Proof.
  unfold badges_scope.
  assert (K : forall x card,
            In [Class x] body_selector ->
            closest [[Class x]] d e = Some card ->
            In match querySelector [[Class "card-body"]] card with
               | Some b => b
               | None => card
               end (elements d)
            /\ matches body_selector
                 match querySelector [[Class "card-body"]] card with
                 | Some b => b
                 | None => card
                 end = true).
  { intros x card Hx Hc. apply closest_Some in Hc as [Hin Hm].
    destruct (querySelector [[Class "card-body"]] card) as [b|] eqn:Q.
    - apply querySelector_Some in Q as [Hb Hmb]. split.
      + eapply elements_trans; [exact Hin|]. apply descendants_elements. exact Hb.
      + eapply matches_class_in; [|exact Hmb]. cbn. tauto.
    - split; [exact Hin|]. eapply matches_class_in; eassumption. }
  destruct (closest [[Class "card"]] d e) as [c1|] eqn:E1.
  { cbn [or_else]. intros [= <-]. eapply K; [|exact E1]. cbn. tauto. }
  destruct (closest [[Class "item-card"]] d e) as [c2|] eqn:E2.
  { cbn [or_else]. intros [= <-]. eapply K; [|exact E2]. cbn. tauto. }
  destruct (closest [[Class "list-row"]] d e) as [c3|] eqn:E3; [|discriminate].
  cbn [or_else]. intros [= <-]. eapply K; [|exact E3]. cbn. tauto.
Qed.

Lemma title_anchor_place w c pl :
  inert [[Class "product-title"]] w -> inert [[Tag "a"]; [Tag "h4"]; [Tag "h5"]] w ->
  title_anchor (place pl w c) = title_anchor c.
Proof.
  intros H1 H2. unfold title_anchor.
  rewrite !querySelector_place by assumption.
  destruct (querySelector [[Class "product-title"]] c); cbn [option_map or_else].
  - rewrite nid_place. reflexivity.
  - destruct (querySelector _ c); cbn [option_map]; rewrite nid_place; reflexivity.
Qed.

Lemma title_anchor_inside c pl :
  In c (elements c) -> title_anchor c = Some pl -> anchored pl c.
Proof.
  intros Hc. unfold title_anchor, or_else.
  destruct (querySelector [[Class "product-title"]] c) as [t|] eqn:E1.
  - intros [= <-]. cbn [anchored]. apply in_map.
    apply querySelector_Some in E1. apply E1.
  - destruct (querySelector [[Tag "a"]; [Tag "h4"]; [Tag "h5"]] c) as [t|] eqn:E2;
      intros [= <-]; cbn [anchored]; apply in_map.
    + apply querySelector_Some in E2. apply E2.
    + exact Hc.
Qed.

Lemma badges_target_gstep badges e st :
  badges_target badges e st
  = gstep badges_overlay markerB badges_scope title_anchor badges e st.
Proof.
  unfold badges_target, gstep, found, badges_scope, title_anchor.
  destruct (or_else _ _) as [card|]; [|reflexivity].
  destruct (querySelector [[Class "ce-badges"]] _); [reflexivity|].
  destruct (or_else _ _); reflexivity.
Qed.

Lemma escaped_selector_item code sel :
  escaped_selector code = Some sel -> item_selector sel.
Proof. intros [= <-]. eexists. reflexivity. Qed.

Lemma injectBadges_sync response d :
  injectBadges response d
  = sync_with badges_overlay markerB badges_scope title_anchor
      (badges_params response) escaped_selector d.
Proof.
  unfold injectBadges, sync_with, injectBadges_callback, badges_params.
  destruct (request d) as [[listing codes]|]; [|reflexivity].
  destruct response as [message|]; [|reflexivity].
  apply callback_loop_ext. intros. apply badges_target_gstep.
Qed.

Lemma badges_idempotent response d :
  let s1 := injectBadges response d in
  let s2 := injectBadges response (doc s1) in
  doc s2 = doc s1 /\ injected s2 = [].
Proof.
  cbv zeta. rewrite !injectBadges_sync.
  eapply sync_idempotent with (S := body_selector).
  - intros p e He. pose proof (badges_no_code p) as H.
    rewrite Forall_forall in H. apply H. exact He.
  - apply badges_marks.
  - intros d0 e pl p He. apply badges_scope_place.
    + apply create_absent. exact He.
    + apply create_inert, badges_inert_card_body.
  - apply badges_scope_card.
  - intros d0 c pl p. apply title_anchor_place; apply create_inert.
    + apply badges_inert_title.
    + apply badges_inert_tags.
  - apply title_anchor_inside.
  - apply escaped_selector_item.
Qed.

Lemma badges_twice response response' d :
  wf d ->
  let s1 := injectBadges response d in
  let s2 := injectBadges response' (doc s1) in
  NoDup (injected s1 ++ injected s2).
Proof.
  intros Hwf. cbv zeta. rewrite !injectBadges_sync.
  eapply sync_twice with (S := body_selector); [..|exact Hwf].
  - apply badges_marks.
  - apply badges_inert_body.
  - apply badges_scope_card.
  - apply title_anchor_inside.
Qed.

End Kinds.

(* ------------------------------------------------------------------ *)
(** ** Where an overlay lands *)
(* ------------------------------------------------------------------ *)

Module PlaceFacts.
Import Dom Coordinator DomDefs DomFacts EngineDefs Engine PlaceDefs.

Lemma without_created_old b n : max_id n < b -> without_created b n = n.
Proof.
  induction n as [s|i t c a ks IH] using node_induction; [reflexivity|].
  intros H. cbn [without_created]. f_equal.
  assert (Hk : forall k, In k ks -> max_id k < b).
  { intros k Hk. cbn [max_id] in H.
    pose proof (max_id_ge_children i ks k Hk). lia. }
  clear H. induction IH as [|k ks Hk' _ IHks]; [reflexivity|].
  cbn [flat_map]. rewrite IHks by (intros x Hx; apply Hk; right; exact Hx).
  specialize (Hk k (or_introl eq_refl)).
  destruct k as [s|j t' c' a' ks']; [reflexivity|].
  assert (j < b).
  { cbn [max_id] in Hk. pose proof (max_id_ge_self j ks'). lia. }
  destruct (Nat.leb_spec b j); [lia|]. rewrite Hk' by exact Hk. reflexivity.
Qed.

Lemma without_created_place b pl w n :
  b <= nid w -> In w (elements w) ->
  without_created b (place pl w n) = without_created b n.
Proof.
  intros Hb Hw.
  assert (W : match w with
              | Text _ => [w]
              | Elem j _ _ _ _ => if (b <=? j)%nat then [] else [without_created b w]
              end = []).
  { destruct w as [s|j t c a ks]; [destruct Hw|]. cbn [nid] in Hb.
    destruct (Nat.leb_spec b j); [reflexivity|lia]. }
  induction n as [s|i t c a ks IH] using node_induction; [reflexivity|].
  cbn [place without_created]. f_equal.
  set (F := fun k => match k with
                     | Text _ => [k]
                     | Elem j _ _ _ _ =>
                         if (b <=? j)%nat then [] else [without_created b k]
                     end) in *.
  assert (E : flat_map F (flat_map (fun k => place pl w k
                                      :: (if goes_after pl k then [w] else [])) ks)
              = flat_map F ks).
  { induction IH as [|k ks Hk _ IHks]; [reflexivity|].
    cbn [flat_map]. rewrite flat_map_app, IHks. f_equal.
    assert (F (place pl w k) = F k) as FE.
    { destruct k as [s|j t' c' a' ks']; [reflexivity|].
      destruct (place_Elem pl w j t' c' a' ks') as [ks'' P].
      subst F. cbv beta. rewrite P.
      destruct (b <=? j)%nat; [reflexivity|]. rewrite <- P, Hk. reflexivity. }
    destruct (goes_after pl k); cbn [flat_map]; rewrite FE.
    - change (F w) with (match w with
              | Text _ => [w]
              | Elem j _ _ _ _ => if (b <=? j)%nat then [] else [without_created b w]
              end). rewrite W. rewrite !List.app_nil_r. reflexivity.
    - apply List.app_nil_r. }
  destruct pl as [p|p|p]; [exact E| |].
  - destruct (i =? p)%nat; [|exact E]. cbn [flat_map].
    change (F w) with (match w with
              | Text _ => [w]
              | Elem j _ _ _ _ => if (b <=? j)%nat then [] else [without_created b w]
              end). rewrite W. exact E.
  - destruct (i =? p)%nat; [|exact E]. rewrite flat_map_app, E.
    cbn [flat_map].
    change (F w) with (match w with
              | Text _ => [w]
              | Elem j _ _ _ _ => if (b <=? j)%nat then [] else [without_created b w]
              end). rewrite W. apply List.app_nil_r.
Qed.

Lemma place_After ref w i t c a ks :
  place (After ref) w (Elem i t c a ks)
  = Elem i t c a
      (flat_map (fun k => place (After ref) w k
                   :: (if goes_after (After ref) k then [w] else [])) ks).
Proof. reflexivity. Qed.

Lemma has_id_place ref pl w k : has_id ref (place pl w k) = has_id ref k.
Proof. destruct k; reflexivity. Qed.

Lemma after_None_place ref (w : node) ks :
  after ref ks = None ->
  flat_map (fun k => place (After ref) w k
               :: (if goes_after (After ref) k then [w] else [])) ks
  = map (place (After ref) w) ks.
Proof.
  induction ks as [|k ks IH]; [reflexivity|].
  cbn [after flat_map map].
  change (goes_after (After ref) k) with (has_id ref k).
  destruct (has_id ref k); [discriminate|]. intros H. rewrite IH by exact H.
  reflexivity.
Qed.

Lemma following_None_place ref w n :
  following ref n = None -> place (After ref) w n = n.
Proof.
  induction n as [s|i t c a ks IH] using node_induction; [reflexivity|].
  cbn [following]. destruct (after ref ks) eqn:A; [discriminate|].
  intros H. rewrite place_After. f_equal. rewrite after_None_place by exact A.
  clear A. induction IH as [|k ks Hk _ IHks]; [reflexivity|].
  cbn [map first_some] in *.
  destruct (following ref k) eqn:F; [discriminate|].
  rewrite Hk by reflexivity. rewrite IHks by exact H. reflexivity.
Qed.

Lemma after_place ref w ks r :
  after ref ks = Some r ->
  exists rest,
    after ref (flat_map (fun k => place (After ref) w k
                           :: (if goes_after (After ref) k then [w] else [])) ks)
    = Some (w :: rest).
Proof.
  revert r. induction ks as [|k ks IH]; [discriminate|].
  intros r. cbn [after flat_map Datatypes.app].
  change (goes_after (After ref) k) with (has_id ref k).
  rewrite has_id_place. destruct (has_id ref k) eqn:H.
  - intros _. cbn [Datatypes.app]. eexists. reflexivity.
  - cbn [Datatypes.app]. intros Hr. apply (IH r Hr).
Qed.

Lemma after_absent ref ks (w : node) :
  after ref ks = None -> after ref (map (place (After ref) w) ks) = None.
Proof.
  induction ks as [|k ks IH]; [reflexivity|].
  cbn [after map]. rewrite has_id_place. destruct (has_id ref k); [discriminate|].
  exact IH.
Qed.

(** The overlay placed after [ref] is the next sibling of [ref]. *)
Lemma following_place ref w n :
  following ref n <> None ->
  exists rest, following ref (place (After ref) w n) = Some (w :: rest).
Proof.
  induction n as [s|i t c a ks IH] using node_induction; [intros H; contradiction|].
  rewrite place_After. cbn [following]. destruct (after ref ks) as [r|] eqn:A.
  - intros _. destruct (@after_place ref w ks r A) as [rest ->]. eexists. reflexivity.
  - rewrite after_None_place by exact A. rewrite after_absent by exact A.
    clear A. induction IH as [|k ks Hk _ IHks]; [intros H; contradiction|].
    cbn [map]. rewrite !first_some_cons.
    destruct (following ref k) as [x|] eqn:F.
    + intros _. destruct Hk as [rest ->]; [discriminate|]. eexists. reflexivity.
    + rewrite (@following_None_place ref w k F), F. exact IHks.
Qed.

Lemma following_descendant n x :
  In x (descendants n) -> following (nid x) n <> None.
Proof.
  induction n as [s|i t c a ks IH] using node_induction; [intros []|].
  unfold descendants. cbn [node_children following].
  intros H. apply in_flat_map in H as (k & Hk & Hx).
  destruct (after (nid x) ks) eqn:A; [discriminate|].
  assert (Hf : following (nid x) k <> None).
  { rewrite Forall_forall in IH. apply IH; [exact Hk|].
    destruct k as [s|j t' c' a' ks']; [destruct Hx|].
    cbn [elements] in Hx. destruct Hx as [<-|Hx]; [|exact Hx].
    exfalso. clear IH. induction ks as [|k0 ks IHks]; [destruct Hk|].
    cbn [after] in A. destruct (has_id (nid (Elem j t' c' a' ks')) k0) eqn:Hid;
      [discriminate|].
    destruct Hk as [->|Hk]; [|apply IHks; assumption].
    cbn in Hid. rewrite Nat.eqb_refl in Hid. discriminate. }
  clear A IH. induction ks as [|k0 ks IHks]; [destruct Hk|].
  cbn [map]. rewrite first_some_cons.
  destruct (following (nid x) k0) eqn:F; [discriminate|].
  destruct Hk as [->|Hk]; [congruence|]. apply IHks. exact Hk.
Qed.

Lemma ancestors_present d x : In x (elements d) -> ancestors (nid x) d <> None.
Proof.
  induction d as [s|i t c a ks IH] using node_induction; [intros []|].
  cbn [elements ancestors]. intros [<-|H].
  - cbn [nid]. rewrite Nat.eqb_refl. discriminate.
  - destruct (i =? nid x)%nat; [discriminate|].
    apply in_flat_map in H as (k & Hk & Hx).
    assert (first_some (map (ancestors (nid x)) ks) <> None) as Hf.
    { rewrite Forall_forall in IH. specialize (IH k Hk Hx).
      clear Hx. induction ks as [|k0 ks IHks]; [destruct Hk|].
      cbn [map]. rewrite first_some_cons.
      destruct (ancestors (nid x) k0) eqn:F; [discriminate|].
      destruct Hk as [->|Hk]; [congruence|]. apply IHks. exact Hk. }
    destruct (first_some _); [discriminate|congruence].
Qed.

Lemma ancestors_head target d l :
  ancestors target d = Some l -> exists n r, l = n :: r /\ nid n = target /\ In n (elements n).
Proof.
  revert l. induction d as [s|i t c a ks IH] using node_induction; [discriminate|].
  intros l. cbn [ancestors]. destruct (Nat.eqb_spec i target) as [->|_].
  - intros [= <-]. eexists _, _. repeat split. left. reflexivity.
  - destruct (first_some (map (ancestors target) ks)) as [l'|] eqn:E; [|discriminate].
    intros [= <-]. apply first_some_In in E. apply in_map_iff in E as (k & Hk & Hin).
    rewrite Forall_forall in IH. destruct (IH k Hin l' Hk) as (n & r & -> & Hn & Hs).
    exists n, (r ++ [Elem i t c a ks]). repeat split; assumption.
Qed.

(** The overlay placed first under [parent] is its first child. *)
Lemma first_child_place parent w d :
  absent parent w -> deref d parent <> None ->
  exists n, deref (place (Prepend parent) w d) parent = Some n
            /\ hd_error (node_children n) = Some w.
Proof.
  intros Ha Hd. rewrite deref_place by exact Ha. unfold deref in *.
  destruct (ancestors parent d) as [l|] eqn:E; [|contradiction].
  destruct (@ancestors_head parent d l E) as (n & r & -> & Hn & Hs).
  cbn [option_map]. eexists. split; [reflexivity|].
  destruct n as [s|i t c a ks]; [destruct Hs|]. cbn [nid] in Hn. subst i.
  cbn [place]. rewrite Nat.eqb_refl. reflexivity.
Qed.

Lemma create_root d w :
  In w (elements w) ->
  nid (create d w) = fresh d /\ In (create d w) (elements (create d w)).
Proof.
  destruct w as [s|i t c a ks]; [intros []|]. intros _.
  unfold create. rewrite renumber_Elem. cbn [fst nid elements].
  split; [reflexivity|left; reflexivity].
Qed.

Section Untouched.
Variable P : Type.
Variable overlay : P -> node.
Hypothesis overlay_element : forall p, In (overlay p) (elements (overlay p)).

Lemma ext_without_created b d d' :
  Ext overlay d d' -> b <= fresh d ->
  without_created b d' = without_created b d.
Proof.
  induction 1 as [|d d' pl p H IH]; [reflexivity|]. intros Hb.
  destruct (@create_root d' (overlay p) (overlay_element p)) as [Hn Hin].
  rewrite without_created_place; [apply IH; exact Hb| |exact Hin].
  rewrite Hn. clear IH Hn Hin.
  assert (max_id d <= max_id d') as M.
  { clear Hb. induction H as [|d d' pl' p' _ IH]; [apply le_n|].
    etransitivity; [exact IH|apply max_id_place]. }
  unfold fresh in *. lia.
Qed.

(** Taking the injected subtrees out of the document after a pass gives the
    document before it. *)
Lemma ext_untouched d d' :
  Ext overlay d d' -> without_created (fresh d) d' = d.
Proof.
  intros H. rewrite (ext_without_created H (le_n _)).
  apply without_created_old. unfold fresh. lia.
Qed.

End Untouched.

End PlaceFacts.

(* ------------------------------------------------------------------ *)
(** ** A pass only adds *)
(* ------------------------------------------------------------------ *)

Module Placement.
Import Dom Coordinator DomDefs DomFacts EngineDefs Engine KindDefs Kinds PlaceDefs PlaceFacts PlacementDefs.

Lemma el_element tag classes children :
  In (el tag classes children) (elements (el tag classes children)).
Proof. left. reflexivity. Qed.

(** Where an injection after an anchor inside the card puts the overlay. *)
Lemma inject_after (w : node) card anchor_el c st :
  In card (elements (doc st)) ->
  In anchor_el (descendants card) ->
  exists rest,
    following (nid anchor_el) (doc (inject (After (nid anchor_el)) w c st))
    = Some (create (doc st) w :: rest).
Proof.
  intros Hc Ha. cbn [inject doc]. apply following_place.
  apply following_descendant. eapply descendants_trans; eassumption.
Qed.

Lemma inject_first (w : node) body c st :
  In body (elements (doc st)) ->
  exists n,
    deref (doc (inject (Prepend (nid body)) w c st)) (nid body) = Some n
    /\ hd_error (node_children n) = Some (create (doc st) w).
Proof.
  intros Hb. cbn [inject doc]. apply first_child_place.
  - apply create_absent, nid_le_max_id, Hb.
  - unfold deref. pose proof (ancestors_present _ _ Hb) as H.
    destruct (ancestors (nid body) (doc st)) as [l|] eqn:E; [|congruence].
    destruct (ancestors_head _ _ E) as (n & r & -> & _). discriminate.
Qed.

Section Scripts.
Variable css_string : string -> option string.
Variable translate : string -> string.

Lemma offers_ext response d :
  Ext (offers_overlay translate) d
    (doc (injectProductOffers css_string translate response d)).
Proof.
  rewrite injectProductOffers_sync.
  eapply sync_ext with (S := card_selector).
  - intros p e He. pose proof (offers_no_code translate p) as H.
    rewrite Forall_forall in H. apply H. exact He.
  - apply offers_marks.
  - intros d0 e pl p He. apply price_scope_place. apply create_absent. exact He.
  - intros d0 e c. apply closest_Some.
  - intros d0 c pl p. apply price_anchor_place. apply create_inert, offers_inert_price.
  - intros c pl _. apply price_anchor_inside.
  - apply concat_selector_item.
Qed.

Lemma discount_ext response d :
  Ext (discount_overlay translate) d
    (doc (injectConsumerDiscount css_string translate response d)).
Proof.
  rewrite injectConsumerDiscount_sync.
  eapply sync_ext with (S := card_selector).
  - intros p e He. pose proof (discount_no_code translate p) as H.
    rewrite Forall_forall in H. apply H. exact He.
  - apply discount_marks.
  - intros d0 e pl p He. apply price_scope_place. apply create_absent. exact He.
  - intros d0 e c. apply closest_Some.
  - intros d0 c pl p. apply price_anchor_place.
    apply create_inert, discount_inert_price.
  - intros c pl _. apply price_anchor_inside.
  - apply concat_selector_item.
Qed.

Lemma badges_ext response d :
  Ext badges_overlay d (doc (injectBadges response d)).
Proof.
  rewrite injectBadges_sync.
  eapply sync_ext with (S := body_selector).
  - intros p e He. pose proof (badges_no_code p) as H.
    rewrite Forall_forall in H. apply H. exact He.
  - apply badges_marks.
  - intros d0 e pl p He. apply badges_scope_place.
    + apply create_absent. exact He.
    + apply create_inert, badges_inert_card_body.
  - apply badges_scope_card.
  - intros d0 c pl p. apply title_anchor_place; apply create_inert.
    + apply badges_inert_title.
    + apply badges_inert_tags.
  - apply title_anchor_inside.
  - apply escaped_selector_item.
Qed.

End Scripts.
End Placement.

(* ------------------------------------------------------------------ *)
(** ** The coordinators *)
(* ------------------------------------------------------------------ *)

Module CoordinatorTheorems.
Import Dom Coordinator DomDefs DomFacts EngineDefs Engine KindDefs Kinds PlaceDefs PlaceFacts PlacementDefs Placement.

(** C6 does not hold as stated.  On the sample page the second card of
    ITEM-1 has neither a price nor a title: the offers pass and the discount
    pass inject into the first card only and leave the second without an
    overlay (nothing is appended), and the badge pass puts its container in
    front of the children of the card, not after them. *)
Lemma no_anchor_no_append :
  querySelector [[Class "product-price"]] (sample_card 7 "ITEM-1" false) = None
  /\ injected (injectProductOffers css_string_plain (fun s => s) sample_offers sample_page)
     = [3]
  /\ injected (injectConsumerDiscount css_string_plain (fun s => s) sample_discounts
                 sample_page) = [3]
  /\ titleEl (sample_card 7 "ITEM-1" false) = None
  /\ option_map (fun n => map nid (node_children n))
       (deref (doc (injectBadges sample_badges sample_page)) 7)
     = Some [17; 8; 10].
Proof. vm_compute. repeat split. Qed.

(** C6, amended.  An injection of the offers or of the discount script puts
    the overlay directly after the price element of the card, and a card
    without a price element gets nothing; an injection of the badge script
    puts the container directly after the title (the first [.product-title],
    else the first [a], [h4] or [h5]) of the card body, and as the first child
    of the card body when there is no title.  Whatever a pass injects, taking
    the created subtrees out again gives the document it started from: no
    other node is removed, moved or changed. *)
Theorem overlay_placement
  (css_string : string -> option string) (translate : string -> string) :
  (forall offers e st card,
     closest card_selector (doc st) e = Some card ->
     querySelector [[Class "offer-container"]] card = None ->
     match querySelector [[Class "product-price"]] card with
     | Some priceEl =>
         exists rest,
           following (nid priceEl) (doc (offers_target translate offers e st))
           = Some (create (doc st) (offers_overlay translate offers) :: rest)
     | None => offers_target translate offers e st = st
     end)
  /\ (forall discount e st card,
        closest card_selector (doc st) e = Some card ->
        querySelector [[Class "customer-discount-info"]] card = None ->
        match querySelector [[Class "product-price"]] card with
        | Some priceEl =>
            exists rest,
              following (nid priceEl) (doc (discount_target translate discount e st))
              = Some (create (doc st) (discount_overlay translate discount) :: rest)
        | None => discount_target translate discount e st = st
        end)
  /\ (forall badges e st cardBody,
        badges_scope (doc st) e = Some cardBody ->
        querySelector [[Class "ce-badges"]] cardBody = None ->
        match titleEl cardBody with
        | Some t =>
            exists rest,
              following (nid t) (doc (badges_target badges e st))
              = Some (create (doc st) (badges_overlay badges) :: rest)
        | None =>
            exists n,
              deref (doc (badges_target badges e st)) (nid cardBody) = Some n
              /\ hd_error (node_children n)
                 = Some (create (doc st) (badges_overlay badges))
        end)
  /\ (forall d offers discounts badges,
        without_created (fresh d)
          (doc (injectProductOffers css_string translate offers d)) = d
        /\ without_created (fresh d)
             (doc (injectConsumerDiscount css_string translate discounts d)) = d
        /\ without_created (fresh d) (doc (injectBadges badges d)) = d).
Proof.
  split; [|split; [|split]].
  - intros offers e st card Hc Hm. unfold offers_target. rewrite Hc, Hm.
    destruct (querySelector [[Class "product-price"]] card) as [priceEl|] eqn:Hp;
      [|reflexivity].
    apply closest_Some in Hc. apply querySelector_Some in Hp.
    eapply inject_after; [apply Hc|apply Hp].
  - intros discount e st card Hc Hm. unfold discount_target. rewrite Hc, Hm.
    destruct (querySelector [[Class "product-price"]] card) as [priceEl|] eqn:Hp;
      [|reflexivity].
    apply closest_Some in Hc. apply querySelector_Some in Hp.
    eapply inject_after; [apply Hc|apply Hp].
  - intros badges e st cardBody Hs Hm.
    assert (E : badges_target badges e st
                = match titleEl cardBody with
                  | Some t => inject (After (nid t)) (badges_overlay badges)
                                (nid cardBody) st
                  | None => inject (Prepend (nid cardBody)) (badges_overlay badges)
                              (nid cardBody) st
                  end).
    { unfold badges_target, badges_scope, titleEl in *.
      destruct (or_else (closest [[Class "card"]] (doc st) e) _) as [card|];
        [|discriminate].
      injection Hs as Hs. rewrite Hs, Hm. reflexivity. }
    rewrite E. apply badges_scope_card in Hs. destruct Hs as [Hin _].
    destruct (titleEl cardBody) as [t|] eqn:Ht.
    + assert (Hd : In t (descendants cardBody)).
      { unfold titleEl, or_else in Ht.
        destruct (querySelector [[Class "product-title"]] cardBody) as [x|] eqn:Q1.
        - injection Ht as <-. apply querySelector_Some in Q1. apply Q1.
        - apply querySelector_Some in Ht. apply Ht. }
      eapply inject_after; eassumption.
    + apply inject_first, Hin.
  - intros d offers discounts badges. split; [|split].
    + apply ext_untouched with (overlay := offers_overlay translate).
      * intros p. apply el_element.
      * apply offers_ext.
    + apply ext_untouched with (overlay := discount_overlay translate).
      * intros p. apply el_element.
      * apply discount_ext.
    + apply ext_untouched with (overlay := badges_overlay).
      * intros p. apply el_element.
      * apply badges_ext.
Qed.

(** The first card of the sample page: the overlay follows its price. *)
Lemma overlay_placement_witness :
  closest card_selector (doc (start sample_page)) 6
  = Some (sample_card 3 "ITEM-1" true)
  /\ querySelector [[Class "offer-container"]] (sample_card 3 "ITEM-1" true) = None
  /\ exists rest,
       following 5
         (doc (offers_target (fun s => s) [] 6 (start sample_page)))
       = Some (create sample_page (offers_overlay (fun s => s) []) :: rest).
Proof.
  assert (Hc : closest card_selector (doc (start sample_page)) 6
               = Some (sample_card 3 "ITEM-1" true)) by reflexivity.
  assert (Hm : querySelector [[Class "offer-container"]] (sample_card 3 "ITEM-1" true)
               = None) by reflexivity.
  split; [exact Hc|]. split; [exact Hm|].
  destruct (@overlay_placement css_string_plain (fun s => s)) as (H & _).
  exact (H [] 6 (start sample_page) (sample_card 3 "ITEM-1" true) Hc Hm).
Defined.


Lemma sample_page_wf : wf sample_page.
Proof.
  unfold wf. vm_compute. repeat constructor; simpl; intuition discriminate.
Qed.


End CoordinatorTheorems.

(* ------------------------------------------------------------------ *)
(** ** Class and value writes *)
(* ------------------------------------------------------------------ *)

Module UpdateFacts.
Import Dom Coordinator DomDefs DomFacts UpdateDefs.

Lemma update_Elem r f i t c a ks :
  update r f (Elem i t c a ks)
  = Elem i t (fst (if (i =? r)%nat then f (c, a) else (c, a)))
      (snd (if (i =? r)%nat then f (c, a) else (c, a)))
      (map (update r f) ks).
Proof. cbn [update]. destruct (if (i =? r)%nat then f (c, a) else (c, a)). reflexivity. Qed.

Lemma matches_update sel r f n : keeps sel f -> matches sel (update r f n) = matches sel n.
Proof.
  intros K. destruct n as [s|i t c a ks]; [reflexivity|].
  rewrite update_Elem. destruct (i =? r)%nat.
  - rewrite (matches_own sel i _ _ _ (map (update r f) ks) ks). apply K.
  - apply matches_own.
Qed.

Lemma nid_update r f n : nid (update r f n) = nid n.
Proof. destruct n as [s|i t c a ks]; [reflexivity|]. rewrite update_Elem. reflexivity. Qed.

Lemma elements_update r f n : elements (update r f n) = map (update r f) (elements n).
Proof.
  induction n as [s|i t c a ks IH] using node_induction; [reflexivity|].
  rewrite update_Elem at 1. cbn [elements map]. f_equal.
  - rewrite update_Elem. reflexivity.
  - rewrite map_flat_map, flat_map_concat_map, map_map, <- flat_map_concat_map.
    apply flat_map_ext_Forall. exact IH.
Qed.

Lemma descendants_update r f n :
  descendants (update r f n) = map (update r f) (descendants n).
Proof.
  destruct n as [s|i t c a ks]; [reflexivity|].
  pose proof (elements_update r f (Elem i t c a ks)) as E.
  rewrite update_Elem in *. cbn [elements map] in E. injection E as _ E.
  exact E.
Qed.

Lemma filter_map_keeps sel r f l :
  keeps sel f ->
  filter (matches sel) (map (update r f) l) = map (update r f) (filter (matches sel) l).
Proof.
  intros K. induction l as [|x l IH]; [reflexivity|].
  cbn [map filter]. rewrite matches_update by exact K.
  destruct (matches sel x); cbn [map]; rewrite IH; reflexivity.
Qed.

Lemma querySelector_update sel r f n :
  keeps sel f ->
  querySelector sel (update r f n) = option_map (update r f) (querySelector sel n).
Proof.
  intros K. unfold querySelector, querySelectorAll.
  rewrite descendants_update, filter_map_keeps by exact K. apply hd_error_map.
Qed.

Lemma ancestors_update target r f n :
  ancestors target (update r f n) = option_map (map (update r f)) (ancestors target n).
Proof.
  induction n as [s|i t c a ks IH] using node_induction; [reflexivity|].
  rewrite update_Elem at 1. cbn [ancestors].
  destruct (i =? target)%nat.
  - cbn [option_map map]. rewrite update_Elem. reflexivity.
  - assert (F : first_some (map (ancestors target) (map (update r f) ks))
                = option_map (map (update r f))
                    (first_some (map (ancestors target) ks))).
    { induction IH as [|k ks Hk _ IHks]; [reflexivity|].
      cbn [map]. rewrite !first_some_cons, Hk.
      destruct (ancestors target k); [reflexivity|exact IHks]. }
    rewrite F. destruct (first_some (map (ancestors target) ks)); cbn [option_map]; [|reflexivity].
    rewrite map_app. cbn [map]. rewrite update_Elem. reflexivity.
Qed.

Lemma deref_update target r f d :
  deref (update r f d) target = option_map (update r f) (deref d target).
Proof.
  unfold deref. rewrite ancestors_update.
  destruct (ancestors target d) as [[|n l]|]; reflexivity.
Qed.

Lemma has_class_add c cl cs :
  c <> cl ->
  existsb (String.eqb c) (if existsb (String.eqb cl) cs then cs else cs ++ [cl])
  = existsb (String.eqb c) cs.
Proof.
  intros H. destruct (existsb (String.eqb cl) cs); [reflexivity|].
  rewrite existsb_app. cbn [existsb].
  destruct (String.eqb_spec c cl); [contradiction|]. rewrite !orb_false_r. reflexivity.
Qed.

Lemma has_class_remove c cl cs :
  c <> cl ->
  existsb (String.eqb c) (filter (fun x => negb (String.eqb x cl)) cs)
  = existsb (String.eqb c) cs.
Proof.
  intros H. induction cs as [|x cs IH]; [reflexivity|].
  cbn [filter existsb]. destruct (String.eqb_spec x cl) as [->|N]; cbn [negb].
  - destruct (String.eqb_spec c cl); [contradiction|]. exact IH.
  - cbn [existsb]. rewrite IH. reflexivity.
Qed.

Lemma assoc_set_same l a v : assoc (assoc_set l a v) a = Some v.
Proof.
  induction l as [|[a' v'] l IH]; cbn [assoc_set assoc].
  - rewrite String.eqb_refl. reflexivity.
  - destruct (String.eqb a' a) eqn:E; cbn [assoc]; rewrite E; [reflexivity|exact IH].
Qed.

Lemma assoc_set_other l a v k : k <> a -> assoc (assoc_set l a v) k = assoc l k.
Proof.
  intros H. induction l as [|[a' v'] l IH]; cbn [assoc_set assoc].
  - destruct (String.eqb_spec a k); [congruence|reflexivity].
  - destruct (String.eqb_spec a' a) as [->|N]; cbn [assoc].
    + destruct (String.eqb_spec a k); [congruence|reflexivity].
    + rewrite IH. reflexivity.
Qed.

Lemma keeps_untouched sel f : Forall (Forall (untouched_by f)) sel -> keeps sel f.
Proof.
  intros H i t c a ks. unfold matches.
  induction H as [|cmp sel Hc _ IH]; [reflexivity|].
  cbn [existsb]. rewrite IH. f_equal.
  induction Hc as [|s cmp Hs _ IHc]; [reflexivity|].
  cbn [forallb]. rewrite IHc. f_equal.
  destruct s as [cl|k|k v|tg]; cbn [matches_simple has_class getAttribute untouched_by] in *;
    try rewrite Hs; reflexivity.
Qed.

Lemma add_untouched s : hidden_free s -> untouched_by (classList_add "hidden") s.
Proof.
  destruct s as [cl|k|k v|tg]; cbn [hidden_free untouched_by]; intros H.
  - intros cs a. unfold classList_add. cbn [fst snd]. apply has_class_add, H.
  - reflexivity.
  - reflexivity.
  - exact I.
Qed.

Lemma remove_untouched s : hidden_free s -> untouched_by (classList_remove "hidden") s.
Proof.
  destruct s as [cl|k|k v|tg]; cbn [hidden_free untouched_by]; intros H.
  - intros cs a. unfold classList_remove. cbn [fst snd]. apply has_class_remove, H.
  - reflexivity.
  - reflexivity.
  - exact I.
Qed.

Lemma set_value_untouched v s : hidden_free s -> untouched_by (set_value v) s.
Proof.
  destruct s as [cl|k|k w|tg]; cbn [hidden_free untouched_by]; intros H.
  - reflexivity.
  - intros cs a. unfold set_value. cbn [fst snd]. apply assoc_set_other, H.
  - intros cs a. unfold set_value. cbn [fst snd]. apply assoc_set_other, H.
  - exact I.
Qed.

Lemma gentle_keeps sel f :
  Forall (Forall hidden_free) sel -> gentle f -> keeps sel f.
Proof.
  intros H G. apply keeps_untouched.
  eapply Forall_impl; [|exact H]. intros cmp Hc.
  eapply Forall_impl; [|exact Hc]. exact G.
Qed.

Lemma gentle_add : gentle (classList_add "hidden").
Proof. exact add_untouched. Qed.

Lemma gentle_remove : gentle (classList_remove "hidden").
Proof. exact remove_untouched. Qed.

Lemma gentle_set_value v : gentle (set_value v).
Proof. exact (set_value_untouched v). Qed.

End UpdateFacts.

(* ------------------------------------------------------------------ *)
(** ** What a card shows after a write *)
(* ------------------------------------------------------------------ *)

Module QtyFacts.
Import Dom Coordinator Qty DomDefs DomFacts UpdateDefs UpdateFacts QtyDefs.

Section Controls.
Variable css_string : string -> option string.

Local Abbreviation stepper := (Qty.stepper css_string).
Local Abbreviation displayed := (Qty.displayed css_string).
Local Abbreviation box := (QtyDefs.box css_string).

Lemma displayed_box card itemCode d :
  displayed card itemCode d
  = match box card itemCode d with
    | Some i => getAttribute "value" i
    | None => None
    end.
Proof.
  unfold Qty.displayed, QtyDefs.box. destruct (stepper card itemCode d); reflexivity.
Qed.

Lemma wrapper_hidden_free v : Forall (Forall hidden_free) (wrapper_selector v).
Proof. repeat constructor; cbn; congruence. Qed.

Lemma box_hidden_free : Forall (Forall hidden_free) [[Class "cart-qty"]].
Proof. repeat constructor; cbn; congruence. Qed.

Lemma stepper_update card itemCode r f d :
  gentle f ->
  stepper card itemCode (update r f d) = option_map (update r f) (stepper card itemCode d).
Proof.
  intros G. unfold Qty.stepper. destruct (css_string itemCode) as [v|]; [|reflexivity].
  rewrite deref_update. destruct (deref d card) as [cardEl|]; [|reflexivity].
  cbn [option_map]. apply querySelector_update, gentle_keeps; [apply wrapper_hidden_free|exact G].
Qed.

Lemma box_update card itemCode r f d :
  gentle f ->
  box card itemCode (update r f d) = option_map (update r f) (box card itemCode d).
Proof.
  intros G. unfold QtyDefs.box. rewrite stepper_update by exact G.
  destruct (stepper card itemCode d) as [w|]; [|reflexivity].
  cbn [option_map]. apply querySelector_update, gentle_keeps; [apply box_hidden_free|exact G].
Qed.

Lemma getAttribute_class_only a r f n :
  class_only f -> getAttribute a (update r f n) = getAttribute a n.
Proof.
  intros C. destruct n as [s|i t c at_ ks]; [reflexivity|].
  rewrite update_Elem. cbn [getAttribute].
  destruct (i =? r)%nat; [rewrite C|]; reflexivity.
Qed.

Lemma has_class_set_value c r v n :
  has_class c (update r (set_value v) n) = has_class c n.
Proof.
  destruct n as [s|i t cs at_ ks]; [reflexivity|].
  rewrite update_Elem. cbn [has_class]. destruct (i =? r)%nat; reflexivity.
Qed.

Lemma value_set v n :
  matches [[Class "cart-qty"]] n = true ->
  getAttribute "value" (update (nid n) (set_value v) n) = Some v.
Proof.
  destruct n as [s|i t c at_ ks]; [discriminate|]. intros _.
  rewrite update_Elem. cbn [nid getAttribute]. rewrite Nat.eqb_refl.
  unfold set_value. cbn [snd]. apply assoc_set_same.
Qed.

Lemma box_matches card itemCode d i :
  box card itemCode d = Some i -> matches [[Class "cart-qty"]] i = true.
Proof.
  unfold QtyDefs.box. destruct (stepper card itemCode d) as [w|]; [|discriminate].
  intros H. apply querySelector_Some in H. apply H.
Qed.

(** Writing the box shows what was written. *)
Lemma displayed_set_value card itemCode d i v :
  box card itemCode d = Some i ->
  displayed card itemCode (update (nid i) (set_value v) d) = Some v.
Proof.
  intros H. rewrite displayed_box, box_update, H by apply gentle_set_value.
  cbn [option_map]. apply value_set. eapply box_matches, H.
Qed.

(** Showing or hiding something changes no displayed quantity. *)
Lemma displayed_class_only card itemCode r f d :
  gentle f -> class_only f ->
  displayed card itemCode (update r f d) = displayed card itemCode d.
Proof.
  intros G C. rewrite !displayed_box, box_update by exact G.
  destruct (box card itemCode d) as [i|]; [|reflexivity].
  cbn [option_map]. apply getAttribute_class_only, C.
Qed.

Lemma class_only_add cl : class_only (classList_add cl).
Proof. intros ca. reflexivity. Qed.

Lemma class_only_remove cl : class_only (classList_remove cl).
Proof. intros ca. reflexivity. Qed.

Lemma displayed_parts card itemCode d :
  displayed card itemCode d <> None ->
  exists v cardEl w i,
    css_string itemCode = Some v /\ deref d card = Some cardEl
    /\ querySelector (wrapper_selector v) cardEl = Some w
    /\ querySelector [[Class "cart-qty"]] w = Some i
    /\ box card itemCode d = Some i.
Proof.
  rewrite displayed_box. unfold QtyDefs.box, Qty.stepper.
  destruct (css_string itemCode) as [v|]; [|congruence].
  destruct (deref d card) as [cardEl|]; [|congruence].
  destruct (querySelector (wrapper_selector v) cardEl) as [w|] eqn:Ew; [|congruence].
  destruct (querySelector [[Class "cart-qty"]] w) as [i|] eqn:Ei; [|congruence].
  intros _. exists v, cardEl, w, i. repeat split; assumption || reflexivity.
Qed.

(** A cart update that returns without the error flag leaves the quantity
    it sent in the box. *)
Lemma updateQty_shows card itemCode newQty r d :
  succeeded r = true ->
  displayed card itemCode d <> None ->
  displayed card itemCode (updateQty_callback css_string card itemCode newQty r d)
  = Some (JS.String_of_Z (if (newQty <? 0)%Z then 0%Z else newQty)).
Proof.
  intros Hr Hd.
  destruct (@displayed_parts card itemCode d Hd) as (v & cardEl & w & i & Ev & Ec & Ew & Ei & Eb).
  assert (E : updateQty_callback css_string card itemCode newQty r d
              = let q := if (newQty <? 0)%Z then 0%Z else newQty in
                if (q =? 0)%Z then
                  let d2 := update (nid i) (set_value "0")
                              (update (nid w) (classList_add "hidden") d) in
                  match deref d2 card with
                  | Some cardEl2 =>
                      match querySelector (addBtn_selector v) cardEl2 with
                      | Some addBtn => update (nid addBtn) (classList_remove "hidden") d2
                      | None => d2
                      end
                  | None => d2
                  end
                else update (nid i) (set_value (JS.String_of_Z q)) d).
  { unfold updateQty_callback. rewrite Ev, Ec, Ew, Ei.
    destruct r as [[[|]]|]; [discriminate| |]; reflexivity. }
  rewrite E. clear E. cbv zeta.
  set (q := if (newQty <? 0)%Z then 0%Z else newQty).
  destruct (Z.eqb_spec q 0) as [->|N].
  - assert (D2 : displayed card itemCode
                   (update (nid i) (set_value "0")
                      (update (nid w) (classList_add "hidden") d)) = Some "0").
    { rewrite <- (nid_update (nid w) (classList_add "hidden") i).
      apply displayed_set_value.
      rewrite box_update, Eb by apply gentle_add. reflexivity. }
    change (JS.String_of_Z 0) with "0".
    destruct (deref (update _ _ _) card) as [cardEl2|]; [|exact D2].
    destruct (querySelector (addBtn_selector v) cardEl2) as [b|]; [|exact D2].
    rewrite displayed_class_only; [exact D2|apply gentle_remove|apply class_only_remove].
  - apply displayed_set_value, Eb.
Qed.

Lemma not_hidden_removed r n :
  has_id r n = true ->
  has_class "hidden" (update r (classList_remove "hidden") n) = false.
Proof.
  destruct n as [s|i t c at_ ks]; [discriminate|]. cbn [has_id]. intros E.
  rewrite update_Elem, E. unfold classList_remove. cbn [fst has_class].
  induction c as [|x c IH]; [reflexivity|].
  cbn [filter]. destruct (String.eqb_spec x "hidden") as [->|N]; cbn [negb]; [exact IH|].
  cbn [existsb]. rewrite IH. destruct (String.eqb_spec "hidden" x); [congruence|reflexivity].
Qed.

(** On a card that has a stepper with a box, [renderQtyControls] shows the
    stepper again and overwrites the box with the quantity it is handed. *)
Lemma renderQtyControls_existing card itemCode q d :
  itemCode <> "" ->
  displayed card itemCode d <> None ->
  exists d',
    renderQtyControls css_string card itemCode (Some q) d = Some d'
    /\ displayed card itemCode d' = Some (JS.String_of_Z q)
    /\ stepper_visible css_string card itemCode d' = true.
Proof.
  intros Hne Hd.
  destruct (@displayed_parts card itemCode d Hd) as (v & cardEl & w & i & Ev & Ec & Ew & Ei & Eb).
  unfold renderQtyControls.
  destruct (String.eqb_spec itemCode ""); [contradiction|].
  rewrite Ev, Ec, Ew, Ei. eexists. split; [reflexivity|].
  assert (Hw : has_id (nid w) w = true).
  { apply querySelector_Some in Ew. destruct Ew as [_ M].
    destruct w; [discriminate|]. cbn. apply Nat.eqb_refl. }
  split.
  - rewrite <- (nid_update (nid w) (classList_remove "hidden") i).
    apply displayed_set_value.
    rewrite box_update, Eb by apply gentle_remove. reflexivity.
  - unfold stepper_visible.
    rewrite !stepper_update by (apply gentle_set_value || apply gentle_remove).
    unfold Qty.stepper. rewrite Ev, Ec, Ew. cbn [option_map].
    rewrite has_class_set_value, not_hidden_removed; auto.
Qed.

End Controls.
End QtyFacts.

(* ------------------------------------------------------------------ *)
(** ** The stepper that renderQtyControls creates *)
(* ------------------------------------------------------------------ *)

Module NewStepper.
Import Dom Coordinator Qty DomDefs DomFacts UpdateDefs UpdateFacts QtyDefs QtyFacts.

(** What a placement adds to the elements of a subtree comes from the new
    subtree. *)
Lemma In_elements_place_inv pl w n x :
  In x (elements (place pl w n)) ->
  (exists e, In e (elements n) /\ x = place pl w e) \/ In x (elements w).
Proof.
  induction n as [s|i t c a ks IH] using node_induction; [intros []|].
  rewrite elements_place. rewrite Forall_forall in IH.
  intros [<-|H]; [left; eexists; split; [left; reflexivity|reflexivity]|].
  rewrite !in_app_iff in H. destruct H as [H|[H|H]].
  - destruct pl; try destruct H. destruct (i =? parent)%nat; [right; exact H|destruct H].
  - apply in_flat_map in H as (k & Hk & H). rewrite in_app_iff in H.
    destruct H as [H|H].
    + destruct (IH k Hk H) as [(e & He & ->)|Hw]; [left|right; exact Hw].
      exists e. split; [|reflexivity]. cbn [elements]. right.
      apply in_flat_map. exists k. auto.
    + destruct (goes_after pl k); [right; exact H|destruct H].
  - destruct pl; try destruct H. destruct (i =? parent)%nat; [right; exact H|destruct H].
Qed.

Lemma In_descendants_place_inv pl w n x :
  In x (descendants (place pl w n)) ->
  (exists e, In e (descendants n) /\ x = place pl w e) \/ In x (elements w).
Proof.
  destruct n as [s|i t c a ks]; [intros []|].
  pose proof (elements_place pl w i t c a ks) as E.
  destruct (place_Elem pl w i t c a ks) as [ks' P]. rewrite P in E at 1.
  rewrite P. cbn [elements] in E. injection E as _ E.
  change (descendants (Elem i t c a ks')) with (flat_map elements ks').
  rewrite E. clear E P ks'. rewrite !in_app_iff. intros [H|[H|H]].
  - destruct pl; try destruct H. destruct (i =? parent)%nat; [right; exact H|destruct H].
  - apply in_flat_map in H as (k & Hk & H). rewrite in_app_iff in H.
    destruct H as [H|H].
    + destruct (@In_elements_place_inv pl w k x H) as [(e & He & ->)|Hw]; [left|right; exact Hw].
      exists e. split; [|reflexivity]. unfold descendants. cbn [node_children].
      apply in_flat_map. exists k. auto.
    + destruct (goes_after pl k); [right; exact H|destruct H].
  - destruct pl; try destruct H. destruct (i =? parent)%nat; [right; exact H|destruct H].
Qed.

Lemma querySelector_None sel n e :
  querySelector sel n = None -> In e (descendants n) -> matches sel e = false.
Proof.
  unfold querySelector, querySelectorAll. intros H He.
  destruct (matches sel e) eqn:M; [|reflexivity].
  assert (In e (filter (matches sel) (descendants n))) as Hin
    by (apply filter_In; auto).
  destruct (filter (matches sel) (descendants n)); [destruct Hin|discriminate].
Qed.

(** The first match in a subtree that had none is the one the new subtree
    brings. *)
Lemma querySelector_placed sel pl w n w0 :
  querySelector sel n = None -> anchored pl n ->
  filter (matches sel) (elements w) = [w0] ->
  querySelector sel (place pl w n) = Some w0.
Proof.
  intros Hn Ha Hw.
  assert (F : found sel (place pl w n) = true).
  { apply found_placed; [exact Ha|]. rewrite Hw. discriminate. }
  unfold found in F. destruct (querySelector sel (place pl w n)) as [x|] eqn:Q;
    [|discriminate].
  apply querySelector_Some in Q. destruct Q as [Hx Mx]. f_equal.
  destruct (@In_descendants_place_inv pl w n x Hx) as [(e & He & ->)|Hin].
  - rewrite matches_place in Mx.
    rewrite (@querySelector_None sel n e Hn He) in Mx. discriminate.
  - assert (In x (filter (matches sel) (elements w))) as H by (apply filter_In; auto).
    rewrite Hw in H. destruct H as [<-|[]]. reflexivity.
Qed.

Lemma update_absent r f n : absent r n -> update r f n = n.
Proof.
  induction n as [s|i t c a ks IH] using node_induction; [reflexivity|].
  intros H. rewrite update_Elem.
  assert (Hi : (i =? r)%nat = false).
  { unfold absent in H. cbn [elements] in H. apply Forall_inv in H. cbn [nid] in H.
    apply Nat.eqb_neq. exact H. }
  rewrite Hi. cbn [fst snd]. f_equal.
  apply absent_children in H.
  induction IH as [|k ks Hk _ IHks]; [reflexivity|].
  cbn [map]. rewrite Hk by (apply Forall_inv in H; exact H).
  rewrite IHks by (apply Forall_inv_tail in H; exact H). reflexivity.
Qed.

Lemma deref_nid d r n : deref d r = Some n -> nid n = r.
Proof.
  unfold deref. destruct (ancestors r d) as [l|] eqn:E; [|discriminate].
  destruct (@PlaceFacts.ancestors_head r d l E) as (x & rest & -> & Hx & _).
  intros [= <-]. exact Hx.
Qed.

(** The stepper as [renderQtyControls] creates it. *)
Lemma wrapper_created d itemCode q :
  let W := create d (qty_wrapper itemCode (Some q)) in
  filter (matches (wrapper_selector itemCode)) (elements W) = [W]
  /\ (forall v, inert (addBtn_selector v) W)
  /\ has_class "hidden" W = false
  /\ exists input,
       querySelector [[Class "cart-qty"]] W = Some input
       /\ getAttribute "value" input = Some (JS.String_of_Z q).
Proof.
  cbv zeta. unfold create, qty_wrapper. generalize (fresh d) as b. intros b.
  cbn [renumber fst]. generalize (JS.String_of_Z q) as text. intros text.
  split; [|split; [|split]].
  - unfold wrapper_selector.
    cbn [elements flat_map Datatypes.app filter matches existsb forallb matches_simple
         has_class getAttribute assoc String.eqb Ascii.eqb Bool.eqb andb orb].
    rewrite String.eqb_refl. reflexivity.
  - intros v. unfold inert, addBtn_selector. reflexivity.
  - reflexivity.
  - eexists. split; reflexivity.
Qed.

Section Controls.
Variable css_string : string -> option string.

Local Abbreviation stepper := (Qty.stepper css_string).
Local Abbreviation displayed := (Qty.displayed css_string).

(** On a card without a stepper for the item, [renderQtyControls] creates
    one that is visible and shows the quantity it is handed (for an item code
    that the hand-built selector denotes as it is). *)
Lemma renderQtyControls_new card itemCode q d :
  itemCode <> "" ->
  css_string itemCode = Some itemCode ->
  deref d card <> None ->
  stepper card itemCode d = None ->
  exists d',
    renderQtyControls css_string card itemCode (Some q) d = Some d'
    /\ displayed card itemCode d' = Some (JS.String_of_Z q)
    /\ stepper_visible css_string card itemCode d' = true.
Proof.
  intros Hne Hcss Hcard Hnone.
  destruct (deref d card) as [cardEl|] eqn:Ec; [clear Hcard|congruence].
  unfold Qty.stepper in Hnone. rewrite Hcss, Ec in Hnone.
  pose proof (deref_nid _ _ Ec) as Hid. pose proof (deref_Some _ _ Ec) as Hin.
  assert (Hle : card <= max_id d) by (rewrite <- Hid; apply nid_le_max_id, Hin).
  set (W := create d (qty_wrapper itemCode (Some q))).
  destruct (wrapper_created d itemCode q) as (HW & Hbtn & Hvis & input & Hbox & Hval).
  fold W in HW, Hbtn, Hvis, Hbox.
  (* the container the stepper is appended to *)
  assert (Hc : exists c,
             anchored (Append c) cardEl
             /\ match or_else (querySelector [[Class "cart-action-container"]] cardEl)
                        (querySelector [[Class "card-body"]] cardEl) with
                | Some x => place (Append (nid x)) W d
                | None => place (Append card) W d
                end = place (Append c) W d).
  { assert (Hq : forall sel x, querySelector sel cardEl = Some x ->
                   anchored (Append (nid x)) cardEl).
    { intros sel x Hx. apply querySelector_Some in Hx. destruct Hx as [Hx _].
      cbn [anchored]. apply in_map. apply descendants_elements, Hx. }
    unfold or_else.
    destruct (querySelector [[Class "cart-action-container"]] cardEl) as [x|] eqn:Q1.
    - exists (nid x). split; [eapply Hq, Q1|reflexivity].
    - destruct (querySelector [[Class "card-body"]] cardEl) as [x|] eqn:Q2.
      + exists (nid x). split; [eapply Hq, Q2|reflexivity].
      + exists card. split; [|reflexivity]. cbn [anchored]. rewrite <- Hid.
        apply in_map. eapply elements_self, Hin. }
  destruct Hc as (c & Hanch & Hd1).
  set (d1 := place (Append c) W d) in *.
  assert (Habs : forall r, r <= max_id d -> absent r W)
    by (intros r Hr; apply create_absent, Hr).
  assert (Ec1 : deref d1 card = Some (place (Append c) W cardEl)).
  { unfold d1. rewrite deref_place by (apply Habs, Hle). rewrite Ec. reflexivity. }
  assert (Es1 : querySelector (wrapper_selector itemCode) (place (Append c) W cardEl)
                = Some W).
  { apply querySelector_placed; assumption. }
  (* the page after the Add to Cart button is hidden *)
  assert (Hd2 : exists d2,
             renderQtyControls css_string card itemCode (Some q) d = Some d2
             /\ (d2 = d1 \/ exists b, b <= max_id d
                                      /\ d2 = update b (classList_add "hidden") d1)).
  { unfold renderQtyControls. destruct (String.eqb_spec itemCode ""); [contradiction|].
    rewrite Hcss, Ec, Hnone. cbv zeta. fold W. rewrite Hd1, Ec1.
    rewrite querySelector_place by apply Hbtn.
    destruct (querySelector (addBtn_selector itemCode) cardEl) as [b|] eqn:Qb;
      cbn [option_map]; eexists; (split; [reflexivity|]); [right|left; reflexivity].
    exists (nid b). split; [|rewrite nid_place; reflexivity].
    apply querySelector_Some in Qb. destruct Qb as [Hb _].
    apply nid_le_max_id. eapply elements_trans; [exact Hin|].
    apply descendants_elements, Hb. }
  destruct Hd2 as (d2 & Er & Hd2). exists d2. split; [exact Er|].
  assert (S1 : stepper card itemCode d1 = Some W).
  { unfold Qty.stepper. rewrite Hcss, Ec1. exact Es1. }
  assert (S2 : stepper card itemCode d2 = Some W).
  { destruct Hd2 as [->|(b & Hb & ->)]; [exact S1|].
    rewrite stepper_update by apply gentle_add. rewrite S1. cbn [option_map].
    rewrite update_absent by (apply Habs, Hb). reflexivity. }
  split.
  - unfold Qty.displayed. rewrite S2, Hbox. exact Hval.
  - unfold stepper_visible. rewrite S2, Hvis. reflexivity.
Qed.

(** [renderQtyControls] with a quantity shows it, on a stepper it finds or on
    the one it creates. *)
Lemma renderQtyControls_shows card itemCode q d :
  itemCode <> "" ->
  shows_quantity css_string card itemCode d ->
  exists d',
    renderQtyControls css_string card itemCode (Some q) d = Some d'
    /\ displayed card itemCode d' = Some (JS.String_of_Z q)
    /\ stepper_visible css_string card itemCode d' = true.
Proof.
  intros Hne [H|(Hc & Hs & Hcss)].
  - apply renderQtyControls_existing; assumption.
  - apply renderQtyControls_new; assumption.
Qed.

End Controls.
End NewStepper.

(* ------------------------------------------------------------------ *)
(** ** The quantity controls *)
(* ------------------------------------------------------------------ *)

Module QtyTheorems.
Import Dom Coordinator Qty DomDefs DomFacts UpdateDefs UpdateFacts QtyDefs QtyFacts NewStepper QtyExamples.

(** C5.  When the cart-update call returns with the error flag set, the
    callback changes nothing: the page stays as it is, so every stepper shows
    the quantity it showed and is visible exactly when it was, whatever
    quantity was asked for (0 included), and nothing is recorded as
    confirmed. *)
Theorem errored_update_no_transition
  (css_string : string -> option string) (card : nat) (itemCode : string)
  (newQty : Z) (o : overlay) :
  let o' := step css_string
              (CartUpdateReturned card itemCode newQty (Some {| exc := true |})) o in
  page o' = page o
  /\ confirmed o' = confirmed o
  /\ forall c i,
       displayed css_string c i (page o') = displayed css_string c i (page o)
       /\ stepper_visible css_string c i (page o')
          = stepper_visible css_string c i (page o).
Proof. cbn. auto. Qed.

(** An errored update to 0 on the card that shows 3. *)
Lemma errored_zero_stays_visible :
  let o' := step css_string_plain
              (CartUpdateReturned 2 "ITEM-1" 0 (Some {| exc := true |}))
              confirmed_three in
  displayed css_string_plain 2 "ITEM-1" (page confirmed_three) = Some "3"
  /\ displayed css_string_plain 2 "ITEM-1" (page o') = Some "3"
  /\ stepper_visible css_string_plain 2 "ITEM-1" (page o') = true.
Proof. vm_compute. auto. Qed.

(** C3 does not hold of the reconciliation.  The catalog puts the image area
    of the card, with the visible in-cart indicator in it, into the listing,
    and [syncExistingInCartCards] runs on the added node.  On the card of an
    item that was put into the cart on another page, five of it, it creates
    the stepper with 1 in the box; on the card that shows 3, the quantity the
    backend confirmed last, it writes 1 into the box.  Either way the card
    shows 1, which is not the quantity the backend confirmed last. *)
Lemma reconciliation_shows_one :
  (displayed css_string_plain 2 "ITEM-1" (page in_cart_elsewhere) = None
   /\ displayed css_string_plain 2 "ITEM-1"
        (page (step css_string_plain (ListingMutated 3) in_cart_elsewhere)) = Some "1"
   /\ lookup (confirmed (step css_string_plain (ListingMutated 3) in_cart_elsewhere))
        "ITEM-1" = Some 5%Z
   /\ ~ shows_confirmed css_string_plain 2 "ITEM-1"
          (step css_string_plain (ListingMutated 3) in_cart_elsewhere))
  /\ (shows_confirmed css_string_plain 2 "ITEM-1" confirmed_three
      /\ displayed css_string_plain 2 "ITEM-1"
           (page (step css_string_plain (ListingMutated 3) confirmed_three)) = Some "1"
      /\ lookup (confirmed (step css_string_plain (ListingMutated 3) confirmed_three))
           "ITEM-1" = Some 3%Z
      /\ ~ shows_confirmed css_string_plain 2 "ITEM-1"
             (step css_string_plain (ListingMutated 3) confirmed_three)).
Proof.
  assert (N : forall o q,
            lookup (confirmed o) "ITEM-1" = Some q ->
            displayed css_string_plain 2 "ITEM-1" (page o) = Some "1" ->
            JS.String_of_Z q <> "1" ->
            ~ shows_confirmed css_string_plain 2 "ITEM-1" o).
  { intros o q Hq Hd Hne. unfold shows_confirmed. rewrite Hq, Hd. congruence. }
  split; repeat split; try (vm_compute; reflexivity).
  - apply (N _ 5%Z); vm_compute; [reflexivity|reflexivity|discriminate].
  - apply (N _ 3%Z); vm_compute; [reflexivity|reflexivity|discriminate].
Qed.

(** C3, amended.  A cart update that is lost, or that returns with the error
    flag, leaves the page as it is.  A cart update that returns without the
    error flag leaves, on a card with a stepper, the quantity that was sent
    (and is now confirmed) in the box.  The add-to-cart timer and the
    reconciliation with a visible in-cart indicator do not ask the backend:
    they show the stepper of the card, creating it when the card has none,
    and write 1 into its box, whatever was confirmed last. *)
Theorem quantity_display_after_transitions
  (css_string : string -> option string) (card : nat) (itemCode : string) :
  (forall newQty o, step css_string (CartUpdateLost card itemCode newQty) o = o)
  /\ (forall newQty o,
        page (step css_string
                (CartUpdateReturned card itemCode newQty (Some {| exc := true |})) o)
        = page o)
  /\ (forall newQty r o,
        succeeded r = true ->
        displayed css_string card itemCode (page o) <> None ->
        shows_confirmed css_string card itemCode
          (step css_string (CartUpdateReturned card itemCode newQty r) o))
  /\ (forall o,
        itemCode <> "" ->
        shows_quantity css_string card itemCode (page o) ->
        let o' := step css_string (AddToCartTimer card itemCode) o in
        displayed css_string card itemCode (page o') = Some "1"
        /\ stepper_visible css_string card itemCode (page o') = true
        /\ confirmed o' = confirmed o)
  /\ (forall indicator cardEl d,
        has_class "hidden" indicator = false ->
        getAttribute "data-item-code" indicator = Some itemCode ->
        itemCode <> "" ->
        closest card_selector d (nid indicator) = Some cardEl ->
        shows_quantity css_string (nid cardEl) itemCode d ->
        exists d',
          reflect_in_cart css_string indicator d = Some d'
          /\ displayed css_string (nid cardEl) itemCode d' = Some "1"
          /\ stepper_visible css_string (nid cardEl) itemCode d' = true).
Proof.
  split; [reflexivity|]. split; [reflexivity|]. split; [|split].
  - intros newQty r o Hr Hd. unfold shows_confirmed, step.
    cbn [page confirmed]. rewrite Hr. cbn [lookup]. rewrite String.eqb_refl.
    apply updateQty_shows; assumption.
  - intros o Hne Hd.
    destruct (@renderQtyControls_shows css_string card itemCode 1%Z (page o) Hne Hd)
      as (d' & E & D & V).
    cbn [step page confirmed]. unfold on_timer. cbn [fst snd]. rewrite E. auto.
  - intros indicator cardEl d Hh Ha Hne Hc Hd.
    destruct (@renderQtyControls_shows css_string (nid cardEl) itemCode 1%Z d Hne Hd)
      as (d' & E & D & V).
    exists d'. unfold reflect_in_cart. rewrite Hh, Ha, Hc.
    destruct (String.eqb_spec itemCode ""); [contradiction|]. auto.
Qed.

(** On the card that shows 3, a confirmed update to 4 shows 4. *)
Lemma quantity_display_after_transitions_witness :
  succeeded (Some {| exc := false |}) = true
  /\ displayed css_string_plain 2 "ITEM-1" (page confirmed_three) <> None
  /\ shows_confirmed css_string_plain 2 "ITEM-1"
       (step css_string_plain
          (CartUpdateReturned 2 "ITEM-1" 4 (Some {| exc := false |})) confirmed_three).
Proof.
  assert (Hd : displayed css_string_plain 2 "ITEM-1" (page confirmed_three) <> None)
    by (vm_compute; discriminate).
  split; [reflexivity|]. split; [exact Hd|].
  destruct (@quantity_display_after_transitions css_string_plain 2 "ITEM-1")
    as (_ & _ & H & _).
  apply H; [reflexivity|exact Hd].
Defined.

End QtyTheorems.

(* ------------------------------------------------------------------ *)
(** ** The debounced observer *)
(* ------------------------------------------------------------------ *)

Module TriggerFacts.
Import Triggers TriggerDefs.

Lemma debounce_pending delay due t rest :
  debounce delay (Some due) (t :: rest)
  = (if (due <=? t)%N then [due] else []) ++ debounce delay None (t :: rest).
Proof. cbn [debounce]. destruct (due <=? t)%N; reflexivity. Qed.

Lemma debounce_settled delay ms :
  debounce delay None ms = map (fun t => (t + delay)%N) (settled delay ms).
Proof.
  induction ms as [|t rest IH]; [reflexivity|].
  cbn [debounce settled]. destruct rest as [|m r]; [reflexivity|].
  rewrite debounce_pending, IH. destruct (t + delay <=? m)%N; reflexivity.
Qed.

Lemma settled_incl delay ms t : In t (settled delay ms) -> In t ms.
Proof.
  induction ms as [|a rest IH]; [intros []|].
  cbn [settled]. destruct rest as [|m r]; [auto|].
  destruct (a + delay <=? m)%N; [intros [<-|H]|intros H]; [left; reflexivity| |];
    right; apply IH, H.
Qed.

Lemma settled_quiet delay ms :
  StronglySorted N.le ms ->
  forall t, In t (settled delay ms) <-> In t ms /\ quiet_after delay t ms.
Proof.
  induction 1 as [|a rest Hs IH Ha]; [cbn; tauto|].
  rewrite Forall_forall in Ha. intros t.
  destruct rest as [|m r].
  - cbn [settled]. split.
    + intros [<-|[]]. split; [left; reflexivity|]. intros x [<-|[]]. lia.
    + intros [H _]. exact H.
  - change (settled delay (a :: m :: r))
      with (if (a + delay <=? m)%N then a :: settled delay (m :: r)
            else settled delay (m :: r)).
    assert (Hm : forall x, In x (m :: r) -> (m <= x)%N).
    { intros x [<-|Hx]; [lia|]. inversion Hs as [|? ? _ Hall]; subst.
      rewrite Forall_forall in Hall. apply Hall, Hx. }
    assert (Hrest : In t (settled delay (m :: r)) ->
                    In t (a :: m :: r) /\ quiet_after delay t (a :: m :: r)).
    { intros H. apply IH in H. destruct H as [Hin Hq]. split; [right; exact Hin|].
      intros x [<-|Hx]; [specialize (Ha _ Hin); lia|apply Hq, Hx]. }
    assert (Hback : In t (m :: r) -> quiet_after delay t (a :: m :: r) ->
                    In t (settled delay (m :: r))).
    { intros Hin Hq. apply IH. split; [exact Hin|].
      intros x Hx. apply Hq. right. exact Hx. }
    destruct (N.leb_spec (a + delay) m) as [L|L].
    + split.
      * intros [<-|H]; [|apply Hrest, H]. split; [left; reflexivity|].
        intros x [<-|Hx]; [lia|]. specialize (Hm _ Hx). lia.
      * intros [[<-|Hin] Hq]; [left; reflexivity|right; apply Hback; assumption].
    + split; [exact Hrest|].
      intros [[<-|Hin] Hq]; [|apply Hback; assumption].
      assert (a <= m)%N by (apply Ha; left; reflexivity).
      assert (m = a).
      { destruct (N.eq_dec m a) as [E|N]; [exact E|].
        exfalso. apply (Hq m); [right; left; reflexivity|lia]. }
      subst m. apply Hback; [left; reflexivity|exact Hq].
Qed.

Lemma burst_one_sync delay t rest :
  burst delay t rest ->
  debounce delay None (t :: rest) = [(last (t :: rest) 0 + delay)%N].
Proof.
  revert t. induction rest as [|m r IH]; intros t H; [reflexivity|].
  destruct H as [[L U] B].
  change (debounce delay None (t :: m :: r))
    with (debounce delay (Some (t + delay)%N) (m :: r)).
  rewrite debounce_pending, (IH m B).
  destruct (N.leb_spec (t + delay) m); [lia|]. reflexivity.
Qed.

End TriggerFacts.

(* ------------------------------------------------------------------ *)
(** ** When the coordinators run *)
(* ------------------------------------------------------------------ *)

Module TriggerTheorems.
Import Triggers TriggerDefs TriggerFacts.

(** C4 does not hold of the offers and of the discount script: with
    mutations reported at 1000, 1100 and 4000 ms each of them runs its sync
    once, at its single timer, while the badge script runs at its three
    timers and after each quiet period. *)
Lemma offers_and_discounts_run_once :
  ~ full_policy Offers
  /\ ~ full_policy Discounts
  /\ full_policy Badges
  /\ (syncs Offers [1000; 1100; 4000] = [600]
      /\ syncs Discounts [1000; 1100; 4000] = [500]
      /\ syncs Badges [1000; 1100; 4000] = [600; 1500; 3000; 1500; 4400])%N.
Proof.
  unfold full_policy. repeat split.
  - intros [_ H]. apply H. reflexivity.
  - intros [_ H]. apply H. reflexivity.
  - exists 600%N, [1500; 3000]%N. split; [reflexivity|discriminate].
  - discriminate.
Qed.

(** C4, amended.  The badge script runs its sync at 600, 1500 and 3000 ms
    and, for mutations reported in time order, 400 ms after every mutation
    that no other mutation follows within those 400 ms, and at no other
    time; a burst of mutations less than 400 ms apart gives one sync, 400 ms
    after the last.  The offers script runs its sync once, at 600 ms, and the
    discount script once, at 500 ms, whatever is mutated. *)
Theorem trigger_policy_per_kind (mutations : list N) :
  StronglySorted N.le mutations ->
  (timers Badges = [600; 1500; 3000]
   /\ (forall s, In s (observer_syncs Badges mutations)
         <-> exists t, In t mutations /\ s = t + 400 /\ quiet_after 400 t mutations)
   /\ (forall t rest, mutations = t :: rest -> burst 400 t rest ->
         observer_syncs Badges mutations = [last mutations 0 + 400])
   /\ syncs Offers mutations = [600]
   /\ syncs Discounts mutations = [500])%N.
Proof.
  intros Hs. split; [reflexivity|]. split; [|split; [|split; reflexivity]].
  - intros s. unfold observer_syncs. cbn [observer_delay].
    rewrite debounce_settled, in_map_iff. split.
    + intros (t & <- & H). exists t. apply (settled_quiet 400%N Hs) in H.
      destruct H. auto.
    + intros (t & Hin & -> & Hq). exists t. split; [reflexivity|].
      apply (settled_quiet 400%N Hs). auto.
  - intros t rest -> B. apply burst_one_sync, B.
Qed.

(** Mutations at 1000, 1100 and 4000 ms. *)
Lemma trigger_policy_per_kind_witness :
  (StronglySorted N.le [1000; 1100; 4000]
   /\ syncs Offers [1000; 1100; 4000] = [600])%N.
Proof.
  assert (Hs : StronglySorted N.le [1000; 1100; 4000]%N).
  { repeat constructor; lia. }
  split; [exact Hs|]. apply (trigger_policy_per_kind Hs).
Defined.

End TriggerTheorems.

(* ================================================================== *)
(** * Further properties

    What the scripts do beyond the statements above: the batch a coordinator
    sends, how the three coordinators get along, the filter URL from one page
    to the next, the slider on page load, the quantity buttons, and the
    smaller scripts of the page. *)
(* ================================================================== *)

(* ------------------------------------------------------------------ *)
(** ** The harvested item codes *)
(* ------------------------------------------------------------------ *)

Module HarvestFacts.
Import Dom Coordinator DomDefs DomFacts.

(** The body of the harvesting loop. *)
Local Abbreviation collect :=
  (fun (codesSet : list string) (e : node) =>
     match getAttribute "data-item-code" e with
     | Some code => if String.eqb code "" then codesSet else set_add codesSet code
     | None => codesSet
     end).

Lemma set_add_In s x y : In y (set_add s x) <-> In y s \/ y = x.
Proof.
  unfold set_add. destruct (existsb (String.eqb x) s) eqn:E.
  - split; [auto|]. intros [H| ->]; [exact H|].
    apply existsb_exists in E as (z & Hz & Ez). apply String.eqb_eq in Ez.
    subst z. exact Hz.
  - rewrite in_app_iff. cbn [In]. intuition congruence.
Qed.

Lemma set_add_NoDup s x : NoDup s -> NoDup (set_add s x).
Proof.
  intros H. unfold set_add. destruct (existsb (String.eqb x) s) eqn:E; [exact H|].
  apply NoDup_app; [exact H|repeat constructor; intros []|].
  intros y Hy [Exy|[]]. subst y.
  assert (existsb (String.eqb x) s = true) as C; [|congruence].
  apply existsb_exists. exists x. split; [exact Hy|apply String.eqb_refl].
Qed.

Lemma collect_In l : forall acc code,
  In code (fold_left collect l acc)
  <-> In code acc
      \/ (code <> "" /\ exists e, In e l /\ getAttribute "data-item-code" e = Some code).
Proof.
  induction l as [|x l IH]; intros acc code; cbn [fold_left].
  - split; [auto|]. intros [H|(_ & e & [] & _)]. exact H.
  - rewrite IH. clear IH.
    destruct (getAttribute "data-item-code" x) as [c|] eqn:A.
    + destruct (String.eqb c "") eqn:E.
      * apply String.eqb_eq in E. subst c. split.
        -- intros [H|(Hn & e & He & Ha)]; [left; exact H|].
           right. split; [exact Hn|]. exists e. split; [right; exact He|exact Ha].
        -- intros [H|(Hn & e & [<-|He] & Ha)]; [left; exact H|congruence|].
           right. split; [exact Hn|]. exists e. split; assumption.
      * apply String.eqb_neq in E. rewrite set_add_In. split.
        -- intros [[H| ->]|(Hn & e & He & Ha)].
           ++ left. exact H.
           ++ right. split; [exact E|]. exists x. split; [left; reflexivity|exact A].
           ++ right. split; [exact Hn|]. exists e. split; [right; exact He|exact Ha].
        -- intros [H|(Hn & e & [<-|He] & Ha)].
           ++ left. left. exact H.
           ++ left. right. congruence.
           ++ right. split; [exact Hn|]. exists e. split; assumption.
    + split.
      * intros [H|(Hn & e & He & Ha)]; [left; exact H|].
        right. split; [exact Hn|]. exists e. split; [right; exact He|exact Ha].
      * intros [H|(Hn & e & [<-|He] & Ha)]; [left; exact H|congruence|].
        right. split; [exact Hn|]. exists e. split; assumption.
Qed.

Lemma collect_NoDup l : forall acc, NoDup acc -> NoDup (fold_left collect l acc).
Proof.
  induction l as [|x l IH]; intros acc H; cbn [fold_left]; [exact H|].
  apply IH. destruct (getAttribute "data-item-code" x) as [c|]; [|exact H].
  destruct (String.eqb c ""); [exact H|]. apply set_add_NoDup. exact H.
Qed.

Lemma coded_In listing e code :
  In e (descendants listing) -> getAttribute "data-item-code" e = Some code ->
  In e (querySelectorAll [[Attr "data-item-code"]] listing).
Proof.
  intros He Ha. apply filter_In. split; [exact He|].
  destruct e as [s|i t c a ks]; [discriminate|].
  cbn [matches existsb forallb matches_simple]. rewrite Ha. reflexivity.
Qed.

Lemma harvest_In listing code :
  In code (harvest listing)
  <-> code <> ""
      /\ exists e, In e (descendants listing)
                   /\ getAttribute "data-item-code" e = Some code.
Proof.
  unfold harvest. rewrite collect_In. split.
  - intros [[]|(Hn & e & He & Ha)]. split; [exact Hn|]. exists e.
    split; [|exact Ha]. apply filter_In in He. apply He.
  - intros (Hn & e & He & Ha). right. split; [exact Hn|]. exists e.
    split; [|exact Ha]. eapply coded_In; eassumption.
Qed.

Lemma harvest_NoDup listing : NoDup (harvest listing).
Proof. apply collect_NoDup. constructor. Qed.

End HarvestFacts.

(* ------------------------------------------------------------------ *)
(** ** The request of a coordinator *)
(* ------------------------------------------------------------------ *)

Module RequestTheorems.
Import Dom Coordinator DomDefs DomFacts EngineDefs Engine KindDefs Kinds Placement HarvestFacts.

(** X1.  The batch a coordinator sends.  When a pass calls the backend, it
    does so for the element with the id [product-listing], with a batch of
    item codes that is not empty, has no code twice and no empty code, and
    holds exactly the non-empty [data-item-code] values of the elements below
    the listing.  When it does not call the backend, the page has no listing
    or no element below it carries a non-empty code. *)
Theorem request_batch (d : node) :
  match request d with
  | Some (l, codes) =>
      exists listing,
        getElementById "product-listing" d = Some listing
        /\ nid listing = l
        /\ codes <> []
        /\ NoDup codes
        /\ forall code,
             In code codes
             <-> code <> ""
                 /\ exists e, In e (descendants listing)
                              /\ getAttribute "data-item-code" e = Some code
  | None =>
      forall listing e code,
        getElementById "product-listing" d = Some listing ->
        In e (descendants listing) ->
        getAttribute "data-item-code" e = Some code -> code = ""
  end.
Proof.
  unfold request. destruct (getElementById "product-listing" d) as [listing|].
  - destruct (harvest listing) as [|c codes] eqn:H.
    + intros l e code [= <-] He Ha.
      destruct (String.eqb code "") eqn:E; [apply String.eqb_eq; exact E|].
      apply String.eqb_neq in E.
      assert (In code (harvest listing)) as C.
      { apply harvest_In. split; [exact E|]. exists e. split; assumption. }
      rewrite H in C. destruct C.
    + exists listing. repeat split; try discriminate.
      * rewrite <- H. apply harvest_NoDup.
      * rewrite <- H in H0. apply harvest_In in H0. apply H0.
      * rewrite <- H in H0. apply harvest_In in H0. apply H0.
      * intros C. rewrite <- H. apply harvest_In. exact C.
  - intros l e code [=].
Qed.


End RequestTheorems.

(* ------------------------------------------------------------------ *)
(** ** Placements and their anchors *)
(* ------------------------------------------------------------------ *)

Module AnchorFacts.
Import Dom Coordinator DomDefs DomFacts NewStepper IndependenceDefs.

Lemma anchored_dec pl n : {anchored pl n} + {~ anchored pl n}.
Proof. destruct pl; cbn [anchored]; apply in_dec, Nat.eq_dec. Qed.

Lemma flat_map_same {A} (f : A -> A) (g : A -> list A) l :
  (forall k, In k l -> f k = k /\ g k = []) ->
  flat_map (fun k => f k :: g k) l = l.
Proof.
  induction l as [|k l IH]; intros H; [reflexivity|]. cbn [flat_map].
  destruct (H k (or_introl eq_refl)) as [-> ->]. cbn [Datatypes.app].
  f_equal. apply IH. intros x Hx. apply H. right. exact Hx.
Qed.

(** A placement whose anchor is not in a subtree leaves the subtree as it
    is. *)
Lemma place_unanchored pl w n : ~ anchored pl n -> place pl w n = n.
Proof.
  induction n as [s|i t c a ks IH] using node_induction; [reflexivity|].
  intros Hn. rewrite Forall_forall in IH.
  assert (K : flat_map (fun k => place pl w k
                                 :: (if goes_after pl k then [w] else [])) ks = ks).
  { apply flat_map_same. intros k Hk. split.
    - apply IH; [exact Hk|]. intros Ha. apply Hn.
      destruct pl as [p|p|p]; cbn [anchored] in *.
      + apply in_map_iff in Ha as (x & Hx & Hin). apply in_map_iff. exists x.
        split; [exact Hx|]. unfold descendants. cbn [node_children].
        apply in_flat_map. exists k. split; [exact Hk|].
        apply descendants_elements. exact Hin.
      + apply in_map_iff in Ha as (x & Hx & Hin). apply in_map_iff. exists x.
        split; [exact Hx|]. cbn [elements]. right.
        apply in_flat_map. exists k. split; [exact Hk|exact Hin].
      + apply in_map_iff in Ha as (x & Hx & Hin). apply in_map_iff. exists x.
        split; [exact Hx|]. cbn [elements]. right.
        apply in_flat_map. exists k. split; [exact Hk|exact Hin].
    - destruct pl as [p|p|p]; cbn [goes_after]; try reflexivity.
      destruct k as [s|j t' c' a' ks']; [reflexivity|]. cbn [has_id].
      destruct (j =? p)%nat eqn:E; [|reflexivity]. exfalso. apply Hn.
      apply Nat.eqb_eq in E. subst j. cbn [anchored]. apply in_map_iff.
      exists (Elem p t' c' a' ks'). split; [reflexivity|].
      unfold descendants. cbn [node_children]. apply in_flat_map.
      exists (Elem p t' c' a' ks'). split; [exact Hk|left; reflexivity]. }
  cbn [place]. rewrite K.
  destruct pl as [p|p|p]; [reflexivity| |];
    (destruct (i =? p)%nat eqn:E; [|reflexivity]); exfalso; apply Hn;
    apply Nat.eqb_eq in E; subst i; cbn [anchored elements map nid]; left;
    reflexivity.
Qed.

(** A placed subtree that holds no element of a given identity does not
    change whether a subtree holds the anchor of another placement. *)
Lemma anchored_place pl pl' w n :
  absent (pl_ref pl) w -> (anchored pl (place pl' w n) <-> anchored pl n).
Proof.
  intros Hw. unfold absent in Hw. rewrite Forall_forall in Hw.
  assert (E : forall n, In (pl_ref pl) (map nid (elements (place pl' w n)))
                        <-> In (pl_ref pl) (map nid (elements n))).
  { intros m. rewrite !in_map_iff. split.
    - intros (x & Hx & Hin). apply In_elements_place_inv in Hin.
      destruct Hin as [(e & He & ->)|Hin].
      + exists e. rewrite nid_place in Hx. split; assumption.
      + apply Hw in Hin. congruence.
    - intros (x & Hx & Hin). exists (place pl' w x). rewrite nid_place.
      split; [exact Hx|]. apply In_elements_place. exact Hin. }
  assert (D : forall n, In (pl_ref pl) (map nid (descendants (place pl' w n)))
                        <-> In (pl_ref pl) (map nid (descendants n))).
  { intros m. rewrite !in_map_iff. split.
    - intros (x & Hx & Hin). apply In_descendants_place_inv in Hin.
      destruct Hin as [(e & He & ->)|Hin].
      + exists e. rewrite nid_place in Hx. split; assumption.
      + apply Hw in Hin. congruence.
    - intros (x & Hx & Hin). exists (place pl' w x). rewrite nid_place.
      split; [exact Hx|]. apply In_descendants_place. exact Hin. }
  destruct pl; cbn [anchored pl_ref] in *; [apply D|apply E|apply E].
Qed.

Lemma anchored_bound pl c d :
  In c (elements d) -> anchored pl c -> pl_ref pl <= max_id d.
Proof.
  intros Hc Ha.
  assert (In (pl_ref pl) (map nid (elements c))) as H.
  { destruct pl; cbn [anchored pl_ref] in *; try exact Ha.
    apply in_map_iff in Ha as (x & Hx & Hin). apply in_map_iff. exists x.
    split; [exact Hx|]. apply descendants_elements. exact Hin. }
  apply in_map_iff in H as (x & <- & Hin). apply nid_le_max_id.
  eapply elements_trans; eassumption.
Qed.

(** Whether the marker is found after a placement of a subtree that holds
    it. *)
Lemma found_place_marks sel pl w n :
  filter (matches sel) (elements w) <> [] ->
  found sel (place pl w n)
  = found sel n || (if anchored_dec pl n then true else false).
Proof.
  intros Hw. destruct (anchored_dec pl n) as [Ha|Hn].
  - rewrite orb_true_r. apply found_placed; assumption.
  - rewrite orb_false_r. rewrite place_unanchored by exact Hn. reflexivity.
Qed.

End AnchorFacts.

(* ------------------------------------------------------------------ *)
(** ** Two runs in step *)
(* ------------------------------------------------------------------ *)

Module Independence.
Import Dom Coordinator DomDefs DomFacts EngineDefs Engine IndependenceDefs AnchorFacts.

Lemma ext_map {P P'} (ov : P -> node) (ov' : P' -> node) (f : P -> P') d d' :
  (forall p, ov p = ov' (f p)) -> Ext ov d d' -> Ext ov' d d'.
Proof.
  intros H. induction 1 as [|d d' pl p _ IH]; [constructor|].
  rewrite H. constructor. exact IH.
Qed.

Section Families.
Variables P Q : Type.
Variable overlay : P -> node.
Variable foreign : Q -> node.
Variable marker : selector.
Variable scope : node -> nat -> option node.
Variable anchor : node -> option placement.

Local Abbreviation both := (both overlay foreign).

(** What the overlays of all the coordinators have to satisfy for the
    lookups of the one at hand, and the overlays of the others for its
    marker. *)
Hypothesis no_code :
  forall u e, In e (elements (both u)) ->
              getAttribute "data-item-code" e = None /\ getAttribute "id" e = None.
Hypothesis overlay_marks :
  forall p, filter (matches marker) (elements (overlay p)) <> [].
Hypothesis foreign_no_marker : forall q, inert marker (foreign q).
Hypothesis scope_place :
  forall d e pl u, e <= max_id d ->
    scope (place pl (create d (both u)) d) e
    = option_map (place pl (create d (both u))) (scope d e).
Hypothesis scope_in :
  forall d e c, scope d e = Some c -> In c (elements d).
Hypothesis anchor_place :
  forall d c pl u, anchor (place pl (create d (both u)) c) = anchor c.
Hypothesis anchor_inside :
  forall c pl, In c (elements c) -> anchor c = Some pl -> anchored pl c.

Local Abbreviation step := (gstep overlay marker scope anchor).
Local Abbreviation grown := (Grown overlay foreign).
Local Abbreviation sim := (Sim overlay foreign marker scope).

Lemma ext_own d d' : Ext overlay d d' -> Ext both d d'.
Proof. apply ext_map with (f := inl). reflexivity. Qed.

Lemma ext_foreign d d' : Ext foreign d d' -> Ext both d d'.
Proof. apply ext_map with (f := inr). reflexivity. Qed.

Lemma grown_nid b c c' : grown b c c' -> nid c' = nid c.
Proof. induction 1; [reflexivity|]. rewrite nid_place. assumption. Qed.

Lemma grown_anchor b c c' : grown b c c' -> anchor c' = anchor c.
Proof. induction 1; [reflexivity|]. rewrite anchor_place. assumption. Qed.

Lemma grown_anchored b c c' pl :
  grown b c c' -> pl_ref pl <= b -> (anchored pl c' <-> anchored pl c).
Proof.
  induction 1 as [|c' dd pl' u _ IH Hb]; intros Hp; [reflexivity|].
  rewrite anchored_place; [apply IH; exact Hp|].
  apply create_absent. lia.
Qed.

Lemma grown_found b c c' :
  grown b c c' -> found marker c = true -> found marker c' = true.
Proof. induction 1; [auto|]. intros F. apply found_place. auto. Qed.

(** The scope of a target in a grown document is the scope it has in the
    document itself, grown. *)
Lemma scope_grown d d' e :
  Ext both d d' -> e <= max_id d ->
  match scope d e, scope d' e with
  | Some c, Some c' => grown (max_id d) c c'
  | None, None => True
  | _, _ => False
  end.
Proof.
  induction 1 as [|d d' pl u E IH]; intros He.
  - destruct (scope d e); constructor.
  - specialize (IH He). pose proof (ext_max_id E) as M.
    rewrite scope_place by lia.
    destruct (scope d e) as [c|], (scope d' e) as [c'|]; cbn [option_map];
      try exact IH.
    constructor; assumption.
Qed.

Lemma scope_foreign d d' e :
  Ext foreign d d' -> e <= max_id d ->
  option_map (found marker) (scope d' e) = option_map (found marker) (scope d e).
Proof.
  induction 1 as [|d d' pl q E IH]; intros He; [reflexivity|].
  pose proof (ext_max_id E) as M.
  rewrite (scope_place d' pl (inr q)) by lia. cbn [IndependenceDefs.both].
  rewrite <- IH by exact He.
  destruct (scope d' e) as [c'|]; cbn [option_map]; [|reflexivity].
  rewrite found_place_inert; [reflexivity|]. apply create_inert, foreign_no_marker.
Qed.

(** *** The two runs stay in step *)

Lemma sim_step d p e st1 st2 :
  e <= max_id d -> sim d st1 st2 -> sim d (step p e st1) (step p e st2).
Proof.
  intros He (Hi & Ht & E1 & E2 & Hf).
  pose proof (@scope_grown _ _ e E1 He) as G1. pose proof (@scope_grown _ _ e E2 He) as G2.
  unfold gstep.
  destruct (scope d e) as [c0|] eqn:S0.
  2:{ destruct (scope (doc st1) e); [destruct G1|].
      destruct (scope (doc st2) e); [destruct G2|].
      repeat split; assumption. }
  destruct (scope (doc st1) e) as [c1|] eqn:S1; [|destruct G1].
  destruct (scope (doc st2) e) as [c2|] eqn:S2; [|destruct G2].
  rewrite <- (Hf e c1 c2 He S1 S2).
  destruct (found marker c1) eqn:F1; [repeat split; assumption|].
  rewrite (grown_anchor G1), (grown_anchor G2).
  destruct (anchor c0) as [pl|] eqn:A; [|repeat split; assumption].
  rewrite (grown_nid G1), (grown_nid G2).
  assert (Hpl : pl_ref pl <= max_id d).
  { apply anchored_bound with (c := c0); [eapply scope_in; exact S0|].
    apply anchor_inside; [|exact A].
    eapply elements_self, scope_in. exact S0. }
  pose proof (ext_max_id E1) as M1. pose proof (ext_max_id E2) as M2.
  unfold inject. cbn [doc injected thrown]. repeat split.
  - rewrite Hi. reflexivity.
  - exact Ht.
  - apply (Ext_step pl (inl p : P + Q) E1).
  - apply (Ext_step pl (inl p : P + Q) E2).
  - intros e' k1 k2 He'.
    rewrite (scope_place (doc st1) pl (inl p)) by lia.
    rewrite (scope_place (doc st2) pl (inl p)) by lia.
    cbn [IndependenceDefs.both].
    pose proof (@scope_grown _ _ e' E1 He') as G1'.
    pose proof (@scope_grown _ _ e' E2 He') as G2'.
    destruct (scope d e') as [k0|].
    2:{ destruct (scope (doc st1) e'); [destruct G1'|]. discriminate. }
    destruct (scope (doc st1) e') as [j1|] eqn:J1; [|discriminate].
    destruct (scope (doc st2) e') as [j2|] eqn:J2; [|discriminate].
    cbn [option_map]. intros [= <-] [= <-].
    rewrite !found_place_marks by (apply create_marks, overlay_marks).
    rewrite (Hf e' j1 j2 He' J1 J2). f_equal.
    destruct (anchored_dec pl j1) as [Y1|N1], (anchored_dec pl j2) as [Y2|N2];
      try reflexivity; exfalso.
    + apply N2. apply (@grown_anchored _ _ _ pl G2' Hpl).
      apply (@grown_anchored _ _ _ pl G1' Hpl). exact Y1.
    + apply N1. apply (@grown_anchored _ _ _ pl G1' Hpl).
      apply (@grown_anchored _ _ _ pl G2' Hpl). exact Y2.
Qed.

Lemma sim_for_each {A} (f : A -> run -> run) d l :
  (forall a st1 st2, In a l -> sim d st1 st2 -> sim d (f a st1) (f a st2)) ->
  forall st1 st2, sim d st1 st2 -> sim d (for_each f l st1) (for_each f l st2).
Proof.
  induction l as [|a l IH]; intros H st1 st2 R; [exact R|]. cbn [for_each].
  pose proof R as (_ & Ht & _). rewrite <- Ht.
  destruct (thrown st1); [exact R|]. apply IH.
  - intros b s1 s2 Hb. apply H. right. exact Hb.
  - apply H; [left; reflexivity|exact R].
Qed.

Lemma sim_throw d st1 st2 : sim d st1 st2 -> sim d (throw st1) (throw st2).
Proof. intros (Hi & Ht & E1 & E2 & Hf). repeat split; assumption. Qed.

Section Loop.
Variable payload_of : string -> option P.
Variable selector_of : string -> option selector.
Variable listing : nat.
Hypothesis selector_item :
  forall code sel, selector_of code = Some sel -> item_selector sel.

Lemma sim_code_step d code st1 st2 :
  listing <= max_id d -> sim d st1 st2 ->
  sim d (code_step payload_of selector_of step listing code st1)
        (code_step payload_of selector_of step listing code st2).
Proof.
  intros Hl R. unfold code_step. destruct (payload_of code) as [p|]; [|exact R].
  destruct (selector_of code) as [sel|] eqn:Sel; [|apply sim_throw; exact R].
  pose proof R as (_ & _ & E1 & E2 & _).
  rewrite (@targets_ext _ _ no_code listing sel _ _ (@selector_item code sel Sel) Hl E1).
  rewrite (@targets_ext _ _ no_code listing sel _ _ (@selector_item code sel Sel) Hl E2).
  apply sim_for_each; [|exact R].
  intros e s1 s2 He. apply sim_step. eapply targets_bound. exact He.
Qed.

Lemma sim_callback d codes st1 st2 :
  listing <= max_id d -> sim d st1 st2 ->
  sim d (for_each (code_step payload_of selector_of step listing) codes st1)
        (for_each (code_step payload_of selector_of step listing) codes st2).
Proof.
  intros Hl. apply sim_for_each. intros code s1 s2 _. apply sim_code_step. exact Hl.
Qed.

(** *** Only cards that are due get an overlay *)

Local Abbreviation due := (Due marker scope anchor payload_of selector_of listing).

Lemma due_step d codes code p sel e st :
  In code codes -> payload_of code = Some p -> selector_of code = Some sel ->
  In e (targets listing sel d) ->
  Ext both d (doc st) /\ Forall (due d codes) (injected st) ->
  Ext both d (doc (step p e st)) /\ Forall (due d codes) (injected (step p e st)).
Proof.
  intros Hc Hp Hs He (E & F).
  assert (Hb : e <= max_id d) by (eapply targets_bound; exact He).
  pose proof (@scope_grown _ _ e E Hb) as G. unfold gstep.
  destruct (scope d e) as [c0|] eqn:S0.
  2:{ destruct (scope (doc st) e); [destruct G|]. split; assumption. }
  destruct (scope (doc st) e) as [c1|]; [|destruct G].
  destruct (found marker c1) eqn:F1; [split; assumption|].
  rewrite (grown_anchor G).
  destruct (anchor c0) as [pl|] eqn:A; [|split; assumption].
  unfold inject. cbn [doc injected]. split.
  - apply (Ext_step pl (inl p : P + Q) E).
  - apply Forall_app. split; [exact F|]. constructor; [|constructor].
    exists code, p, sel, e, c0. repeat split; try assumption.
    + symmetry. apply (grown_nid G).
    + destruct (found marker c0) eqn:F0; [|reflexivity].
      rewrite (grown_found G F0) in F1. discriminate.
    + rewrite A. discriminate.
Qed.

Lemma for_each_keeps {A} (I : run -> Prop) (f : A -> run -> run) l :
  (forall a st, In a l -> I st -> I (f a st)) ->
  forall st, I st -> I (for_each f l st).
Proof.
  induction l as [|a l IH]; intros H st Hst; [exact Hst|]. cbn [for_each].
  destruct (thrown st); [exact Hst|]. apply IH.
  - intros b s Hb. apply H. right. exact Hb.
  - apply H; [left; reflexivity|exact Hst].
Qed.

Lemma due_callback d codes :
  listing <= max_id d ->
  Forall (due d codes)
    (injected (callback_loop payload_of selector_of step listing codes d)).
Proof.
  intros Hl. unfold callback_loop.
  apply (@for_each_keeps _
           (fun st => Ext both d (doc st) /\ Forall (due d codes) (injected st))).
  - intros code st Hc (E & F). unfold code_step.
    destruct (payload_of code) as [p|] eqn:Hp; [|split; assumption].
    destruct (selector_of code) as [sel|] eqn:Hs; [|split; assumption].
    rewrite (@targets_ext _ _ no_code listing sel _ _
               (@selector_item code sel Hs) Hl E).
    apply (@for_each_keeps _
             (fun st => Ext both d (doc st)
                        /\ Forall (due d codes) (injected st))).
    + intros e s He K. eapply due_step; eassumption.
    + split; assumption.
  - split; constructor.
Qed.

(** A response with no payload for any code of the batch changes nothing. *)
Lemma callback_nothing codes d :
  (forall code, In code codes -> payload_of code = None) ->
  callback_loop payload_of selector_of step listing codes d = start d.
Proof.
  intros H. unfold callback_loop. generalize (start d).
  induction codes as [|code codes IH]; intros st; [reflexivity|].
  cbn [for_each]. destruct (thrown st); [reflexivity|].
  unfold code_step at 2. rewrite (H code (or_introl eq_refl)).
  apply IH. intros c Hc. apply H. right. exact Hc.
Qed.

End Loop.

Lemma sim_start d d' : Ext foreign d d' -> sim d (start d) (start d').
Proof.
  intros E. repeat split; cbn [start doc injected thrown].
  - constructor.
  - apply ext_foreign. exact E.
  - intros e c1 c2 He S1 S2. pose proof (@scope_foreign _ _ e E He) as H.
    rewrite S1, S2 in H. cbn [option_map] in H. congruence.
Qed.

(** A pass on a document that passes of the other coordinators have grown
    injects into the cards it injects into without them. *)
Lemma sync_foreign params selector_of d d' :
  (forall code sel, selector_of code = Some sel -> item_selector sel) ->
  Ext foreign d d' ->
  injected (sync_with overlay marker scope anchor params selector_of d')
  = injected (sync_with overlay marker scope anchor params selector_of d).
Proof.
  intros Hsel E. unfold sync_with.
  rewrite (request_ext no_code (ext_foreign E)).
  destruct (request d) as [[listing codes]|] eqn:R; [|reflexivity].
  destruct params as [payload_of|]; [|reflexivity].
  unfold callback_loop. symmetry.
  eapply sim_callback with (d := d).
  - exact Hsel.
  - eapply request_bound. exact R.
  - apply sim_start. exact E.
Qed.

(** Every card a pass injects into is due an overlay on the document the
    pass starts from. *)
Lemma sync_due params selector_of d c :
  (forall code sel, selector_of code = Some sel -> item_selector sel) ->
  In c (injected (sync_with overlay marker scope anchor params selector_of d)) ->
  exists listing codes payload_of,
    request d = Some (listing, codes) /\ params = Some payload_of
    /\ Due marker scope anchor payload_of selector_of listing d codes c.
Proof.
  intros Hsel. unfold sync_with.
  destruct (request d) as [[listing codes]|] eqn:R; [|intros []].
  destruct params as [payload_of|]; [|intros []].
  intros Hc. exists listing, codes, payload_of. repeat split.
  pose proof (@due_callback payload_of selector_of listing Hsel d codes
                (request_bound _ R)) as F.
  rewrite Forall_forall in F. apply F. exact Hc.
Qed.

Lemma sync_nothing payload_of selector_of d listing codes :
  request d = Some (listing, codes) ->
  (forall code, In code codes -> payload_of code = None) ->
  sync_with overlay marker scope anchor (Some payload_of) selector_of d = start d.
Proof.
  intros R H. unfold sync_with. rewrite R. apply callback_nothing. exact H.
Qed.

End Families.
End Independence.

(* ------------------------------------------------------------------ *)
(** ** No overlay answers another script *)
(* ------------------------------------------------------------------ *)

Module KindsApart.
Import Dom Coordinator Triggers DomDefs DomFacts EngineDefs Engine KindDefs Kinds Placement.
Import IndependenceDefs AnchorFacts Independence PassDefs.

Lemma inert_incl (sel sel' : selector) w :
  incl sel sel' -> inert sel' w -> inert sel w.
Proof.
  unfold inert. rewrite !filter_nil_map, !Forall_forall. intros Hs H b Hb.
  apply in_map_iff in Hb as (e & <- & He).
  specialize (H (matches sel' e) (in_map _ _ _ He)).
  destruct e as [s|i t c a ks]; [reflexivity|]. cbn [matches] in *.
  destruct (existsb _ sel) eqn:E; [|reflexivity].
  apply existsb_exists in E as (x & Hx & Ex).
  rewrite <- H. symmetry. apply existsb_exists. exists x. split; [auto|exact Ex].
Qed.

Ltac in_lookups :=
  let x := fresh in let H := fresh in
  intros x H; cbn [In] in H; unfold lookups; cbn [Datatypes.app In];
  repeat (destruct H as [<-|H]; [tauto|]); destruct H.

Section Scripts.
Variable css_string : string -> option string.
Variable translate : string -> string.

Ltac offers_each :=
  unfold offers_overlay, el; cbn [elements flat_map Datatypes.app];
  each_element; rewrite List.app_nil_r;
  match goal with
  | |- Forall _ (flat_map elements (map _ ?offers)) =>
      induction offers as [|o offers IH]; [constructor|];
      cbn [map flat_map]; apply Forall_app; split; [|exact IH];
      unfold offer_line, el; cbn [elements flat_map Datatypes.app];
      each_element; constructor
  end.

(** No overlay answers a lookup of any script or the marker of another
    script. *)
Lemma offers_neutral offers :
  inert (lookups ++ [[Class "customer-discount-info"]; [Class "ce-badges"]])
    (offers_overlay translate offers).
Proof. apply inert_Forall. offers_each. Qed.

Lemma discount_neutral discount :
  inert (lookups ++ [[Class "offer-container"]; [Class "ce-badges"]])
    (discount_overlay translate discount).
Proof. reflexivity. Qed.

Lemma badges_neutral badges :
  inert (lookups ++ [[Class "offer-container"]; [Class "customer-discount-info"]])
    (badges_overlay badges).
Proof. apply inert_Forall. badges_elements. Qed.

Ltac sub_lookups H :=
  eapply inert_incl; [|apply H];
  let x := fresh in let Hx := fresh in
  intros x Hx; cbn [In] in Hx; unfold lookups; cbn [Datatypes.app In]; tauto.

Lemma offers_apart response d d' :
  Ext (not_offers translate) d d' ->
  injected (injectProductOffers css_string translate response d')
  = injected (injectProductOffers css_string translate response d).
Proof.
  intros E. rewrite !injectProductOffers_sync.
  apply sync_foreign with (foreign := not_offers translate).
  - intros [p|[z|b]] e He; cbn [both not_offers] in He.
    + pose proof (offers_no_code translate p) as H.
      rewrite Forall_forall in H. apply H. exact He.
    + pose proof (discount_no_code translate z) as H.
      rewrite Forall_forall in H. apply H. exact He.
    + pose proof (badges_no_code b) as H.
      rewrite Forall_forall in H. apply H. exact He.
  - apply offers_marks.
  - intros [z|b]; cbn [not_offers].
    + sub_lookups (discount_neutral z).
    + sub_lookups (badges_neutral b).
  - intros d0 e pl u He. apply price_scope_place. apply create_absent. exact He.
  - intros d0 e c H. apply closest_Some in H. apply H.
  - intros d0 c pl [p|[z|b]]; cbn [both not_offers];
      apply price_anchor_place; apply create_inert.
    + apply offers_inert_price.
    + apply discount_inert_price.
    + sub_lookups (badges_neutral b).
  - intros c pl _. apply price_anchor_inside.
  - apply concat_selector_item.
  - exact E.
Qed.

Lemma discount_apart response d d' :
  Ext (not_discounts translate) d d' ->
  injected (injectConsumerDiscount css_string translate response d')
  = injected (injectConsumerDiscount css_string translate response d).
Proof.
  intros E. rewrite !injectConsumerDiscount_sync.
  apply sync_foreign with (foreign := not_discounts translate).
  - intros [z|[p|b]] e He; cbn [both not_discounts] in He.
    + pose proof (discount_no_code translate z) as H.
      rewrite Forall_forall in H. apply H. exact He.
    + pose proof (offers_no_code translate p) as H.
      rewrite Forall_forall in H. apply H. exact He.
    + pose proof (badges_no_code b) as H.
      rewrite Forall_forall in H. apply H. exact He.
  - apply discount_marks.
  - intros [p|b]; cbn [not_discounts].
    + sub_lookups (offers_neutral p).
    + sub_lookups (badges_neutral b).
  - intros d0 e pl u He. apply price_scope_place. apply create_absent. exact He.
  - intros d0 e c H. apply closest_Some in H. apply H.
  - intros d0 c pl [z|[p|b]]; cbn [both not_discounts];
      apply price_anchor_place; apply create_inert.
    + apply discount_inert_price.
    + apply offers_inert_price.
    + sub_lookups (badges_neutral b).
  - intros c pl _. apply price_anchor_inside.
  - apply concat_selector_item.
  - exact E.
Qed.

Lemma badges_apart response d d' :
  Ext (not_badges translate) d d' ->
  injected (injectBadges response d') = injected (injectBadges response d).
Proof.
  intros E. rewrite !injectBadges_sync.
  apply sync_foreign with (foreign := not_badges translate).
  - intros [b|[p|z]] e He; cbn [both not_badges] in He.
    + pose proof (badges_no_code b) as H.
      rewrite Forall_forall in H. apply H. exact He.
    + pose proof (offers_no_code translate p) as H.
      rewrite Forall_forall in H. apply H. exact He.
    + pose proof (discount_no_code translate z) as H.
      rewrite Forall_forall in H. apply H. exact He.
  - apply badges_marks.
  - intros [p|z]; cbn [not_badges].
    + sub_lookups (offers_neutral p).
    + sub_lookups (discount_neutral z).
  - intros d0 e pl u He. apply badges_scope_place.
    + apply create_absent. exact He.
    + apply create_inert. destruct u as [b|[p|z]]; cbn [both not_badges].
      * apply badges_inert_card_body.
      * sub_lookups (offers_neutral p).
      * sub_lookups (discount_neutral z).
  - intros d0 e c H. apply badges_scope_card in H. apply H.
  - intros d0 c pl u. apply title_anchor_place; apply create_inert;
      destruct u as [b|[p|z]]; cbn [both not_badges].
    + apply badges_inert_title.
    + sub_lookups (offers_neutral p).
    + sub_lookups (discount_neutral z).
    + apply badges_inert_tags.
    + sub_lookups (offers_neutral p).
    + sub_lookups (discount_neutral z).
  - apply title_anchor_inside.
  - apply escaped_selector_item.
  - exact E.
Qed.

(** The cards each script injects into. *)
Lemma offers_due response d c :
  In c (injected (injectProductOffers css_string translate response d)) ->
  exists listing codes payload_of,
    request d = Some (listing, codes) /\ offers_params response = Some payload_of
    /\ Due [[Class "offer-container"]] (closest card_selector) price_anchor
         payload_of (concat_selector css_string) listing d codes c.
Proof.
  rewrite injectProductOffers_sync.
  apply sync_due with (foreign := not_offers translate).
  - intros [p|[z|b]] e He; cbn [both not_offers] in He.
    + pose proof (offers_no_code translate p) as H.
      rewrite Forall_forall in H. apply H. exact He.
    + pose proof (discount_no_code translate z) as H.
      rewrite Forall_forall in H. apply H. exact He.
    + pose proof (badges_no_code b) as H.
      rewrite Forall_forall in H. apply H. exact He.
  - intros d0 e pl u He. apply price_scope_place. apply create_absent. exact He.
  - intros d0 c0 pl [p|[z|b]]; cbn [both not_offers];
      apply price_anchor_place; apply create_inert.
    + apply offers_inert_price.
    + apply discount_inert_price.
    + sub_lookups (badges_neutral b).
  - apply concat_selector_item.
Qed.

Lemma discount_due response d c :
  In c (injected (injectConsumerDiscount css_string translate response d)) ->
  exists listing codes payload_of,
    request d = Some (listing, codes) /\ discount_params response = Some payload_of
    /\ Due [[Class "customer-discount-info"]] (closest card_selector) price_anchor
         payload_of (concat_selector css_string) listing d codes c.
Proof.
  rewrite injectConsumerDiscount_sync.
  apply sync_due with (foreign := not_discounts translate).
  - intros [z|[p|b]] e He; cbn [both not_discounts] in He.
    + pose proof (discount_no_code translate z) as H.
      rewrite Forall_forall in H. apply H. exact He.
    + pose proof (offers_no_code translate p) as H.
      rewrite Forall_forall in H. apply H. exact He.
    + pose proof (badges_no_code b) as H.
      rewrite Forall_forall in H. apply H. exact He.
  - intros d0 e pl u He. apply price_scope_place. apply create_absent. exact He.
  - intros d0 c0 pl [z|[p|b]]; cbn [both not_discounts];
      apply price_anchor_place; apply create_inert.
    + apply discount_inert_price.
    + apply offers_inert_price.
    + sub_lookups (badges_neutral b).
  - apply concat_selector_item.
Qed.

Lemma badges_due response d c :
  In c (injected (injectBadges response d)) ->
  exists listing codes payload_of,
    request d = Some (listing, codes) /\ badges_params response = Some payload_of
    /\ Due [[Class "ce-badges"]] badges_scope title_anchor
         payload_of escaped_selector listing d codes c.
Proof.
  rewrite injectBadges_sync.
  apply sync_due with (foreign := not_badges translate).
  - intros [b|[p|z]] e He; cbn [both not_badges] in He.
    + pose proof (badges_no_code b) as H.
      rewrite Forall_forall in H. apply H. exact He.
    + pose proof (offers_no_code translate p) as H.
      rewrite Forall_forall in H. apply H. exact He.
    + pose proof (discount_no_code translate z) as H.
      rewrite Forall_forall in H. apply H. exact He.
  - intros d0 e pl u He. apply badges_scope_place.
    + apply create_absent. exact He.
    + apply create_inert. destruct u as [b|[p|z]]; cbn [both not_badges].
      * apply badges_inert_card_body.
      * sub_lookups (offers_neutral p).
      * sub_lookups (discount_neutral z).
  - intros d0 c0 pl u. apply title_anchor_place; apply create_inert;
      destruct u as [b|[p|z]]; cbn [both not_badges].
    + apply badges_inert_title.
    + sub_lookups (offers_neutral p).
    + sub_lookups (discount_neutral z).
    + apply badges_inert_tags.
    + sub_lookups (offers_neutral p).
    + sub_lookups (discount_neutral z).
  - apply escaped_selector_item.
Qed.

(** A response with nothing for the batch. *)
Lemma offers_nothing offersByCode d listing codes :
  request d = Some (listing, codes) ->
  (forall code, In code codes ->
     lookup offersByCode code = None \/ lookup offersByCode code = Some []) ->
  injectProductOffers css_string translate (Some (Some offersByCode)) d = start d.
Proof.
  intros R H. rewrite injectProductOffers_sync. cbn [offers_params].
  eapply sync_nothing; [exact R|].
  intros code Hc. destruct (H code Hc) as [-> | ->]; reflexivity.
Qed.

Lemma discount_nothing discounts d listing codes :
  request d = Some (listing, codes) ->
  (forall code, In code codes ->
     lookup discounts code = None \/ lookup discounts code = Some 0%Z) ->
  injectConsumerDiscount css_string translate (Some (Some discounts)) d = start d.
Proof.
  intros R H. rewrite injectConsumerDiscount_sync. cbn [discount_params].
  eapply sync_nothing; [exact R|].
  intros code Hc. unfold discount_payload.
  destruct (H code Hc) as [-> | ->]; reflexivity.
Qed.

Lemma badges_nothing message d listing codes :
  request d = Some (listing, codes) ->
  (forall code, In code codes ->
     lookup match message with Some m => m | None => [] end code = None
     \/ lookup match message with Some m => m | None => [] end code = Some []) ->
  injectBadges (Some message) d = start d.
Proof.
  intros R H. rewrite injectBadges_sync. cbn [badges_params].
  eapply sync_nothing; [exact R|].
  intros code Hc. cbv beta. destruct (H code Hc) as [E | E]; rewrite E; reflexivity.
Qed.

(** What the passes of the other coordinators leave is the document with
    overlays of theirs. *)
Lemma after_ext {Q} (foreign : Q -> node) (k : kind) :
  (forall q d, kind_of q <> k ->
     Ext foreign d (doc (run_pass css_string translate q d))) ->
  forall ps d0 d,
    Forall (fun q => kind_of q <> k) ps ->
    Ext foreign d0 d -> Ext foreign d0 (after css_string translate ps d).
Proof.
  intros H ps. induction ps as [|q ps IH]; intros d0 d F E; [exact E|].
  unfold after. cbn [fold_left]. apply IH.
  - apply Forall_inv_tail in F. exact F.
  - eapply ext_trans; [exact E|]. apply H. apply Forall_inv in F. exact F.
Qed.

Lemma after_not_offers ps d :
  Forall (fun q => kind_of q <> Offers) ps ->
  Ext (not_offers translate) d (after css_string translate ps d).
Proof.
  intros F. apply after_ext with (k := Offers); [|exact F|constructor].
  intros [r|r|r] d0 K; cbn [kind_of run_pass] in *; [congruence| |].
  - apply ext_map with (ov := discount_overlay translate) (f := inl);
      [reflexivity|apply discount_ext].
  - apply ext_map with (ov := badges_overlay) (f := inr);
      [reflexivity|apply badges_ext].
Qed.

Lemma after_not_discounts ps d :
  Forall (fun q => kind_of q <> Discounts) ps ->
  Ext (not_discounts translate) d (after css_string translate ps d).
Proof.
  intros F. apply after_ext with (k := Discounts); [|exact F|constructor].
  intros [r|r|r] d0 K; cbn [kind_of run_pass] in *; [|congruence|].
  - apply ext_map with (ov := offers_overlay translate) (f := inl);
      [reflexivity|apply offers_ext].
  - apply ext_map with (ov := badges_overlay) (f := inr);
      [reflexivity|apply badges_ext].
Qed.

Lemma after_not_badges ps d :
  Forall (fun q => kind_of q <> Badges) ps ->
  Ext (not_badges translate) d (after css_string translate ps d).
Proof.
  intros F. apply after_ext with (k := Badges); [|exact F|constructor].
  intros [r|r|r] d0 K; cbn [kind_of run_pass] in *; [| |congruence].
  - apply ext_map with (ov := offers_overlay translate) (f := inl);
      [reflexivity|apply offers_ext].
  - apply ext_map with (ov := discount_overlay translate) (f := inr);
      [reflexivity|apply discount_ext].
Qed.

End Scripts.
End KindsApart.

(* ------------------------------------------------------------------ *)
(** ** The coordinators side by side *)
(* ------------------------------------------------------------------ *)

Module IndependenceTheorems.
Import Dom Coordinator Triggers DomDefs DomFacts EngineDefs KindDefs Kinds PlacementDefs IndependenceDefs PassDefs KindsApart.







End IndependenceTheorems.

(* ------------------------------------------------------------------ *)
(** ** The loop over the batch *)
(* ------------------------------------------------------------------ *)

Module Completeness.
Import Dom Coordinator DomDefs DomFacts EngineDefs Engine KindDefs Kinds.

Lemma for_each_app {A} (f : A -> run -> run) l1 l2 st :
  for_each f (l1 ++ l2) st = for_each f l2 (for_each f l1 st).
Proof.
  revert st. induction l1 as [|a l1 IH]; intros st; [reflexivity|].
  cbn [Datatypes.app for_each]. destruct (thrown st) eqn:T; [|apply IH].
  symmetry. apply for_each_thrown. exact T.
Qed.

Lemma for_each_not_thrown {A} (f : A -> run -> run) l :
  (forall a st, In a l -> thrown st = false -> thrown (f a st) = false) ->
  forall st, thrown st = false -> thrown (for_each f l st) = false.
Proof.
  induction l as [|a l IH]; intros H st T; [exact T|]. cbn [for_each]. rewrite T.
  apply IH.
  - intros b s Hb. apply H. right. exact Hb.
  - apply H; [left; reflexivity|exact T].
Qed.

Section Steps.
Variable P : Type.
Variable overlay : P -> node.
Variable marker : selector.
Variable scope : node -> nat -> option node.
Variable anchor : node -> option placement.
Variable payload_of : string -> option P.
Variable selector_of : string -> option selector.
Variable listing : nat.

Local Abbreviation step := (gstep overlay marker scope anchor).
Local Abbreviation body := (code_step payload_of selector_of step listing).

Lemma body_not_thrown code st :
  payload_of code = None \/ selector_of code <> None ->
  thrown st = false -> thrown (body code st) = false.
Proof.
  intros H T. unfold code_step.
  destruct (payload_of code) as [p|]; [|exact T].
  destruct (selector_of code) as [sel|]; [|destruct H; congruence].
  apply for_each_not_thrown; [|exact T].
  intros e s _ Ts. rewrite step_thrown. exact Ts.
Qed.

(** The loop ends at the first code with a payload whose selector cannot be
    built. *)
Lemma callback_stops l1 code l2 d p :
  (forall c, In c l1 -> payload_of c = None \/ selector_of c <> None) ->
  payload_of code = Some p -> selector_of code = None ->
  callback_loop payload_of selector_of step listing (l1 ++ code :: l2) d
  = throw (callback_loop payload_of selector_of step listing l1 d).
Proof.
  intros H1 Hp Hs. unfold callback_loop. rewrite for_each_app.
  set (st1 := for_each body l1 (start d)).
  assert (T : thrown st1 = false).
  { apply for_each_not_thrown; [|reflexivity].
    intros c s Hc. apply body_not_thrown. apply H1. exact Hc. }
  cbn [for_each]. rewrite T. unfold code_step at 2. rewrite Hp, Hs.
  apply for_each_thrown. reflexivity.
Qed.

Lemma callback_not_thrown codes d :
  (forall c, In c codes -> payload_of c = None \/ selector_of c <> None) ->
  thrown (callback_loop payload_of selector_of step listing codes d) = false.
Proof.
  intros H. unfold callback_loop. apply for_each_not_thrown; [|reflexivity].
  intros c s Hc. apply body_not_thrown. apply H. exact Hc.
Qed.

Lemma done_blocked d codes :
  (forall c, In c codes -> payload_of c = None \/ selector_of c <> None) ->
  Done marker scope anchor payload_of selector_of listing d codes ->
  forall code p sel e,
    In code codes -> payload_of code = Some p -> selector_of code = Some sel ->
    In e (targets listing sel d) -> Blocked marker scope anchor d e.
Proof.
  induction codes as [|c codes IH]; intros H D code p sel e Hin Hp Hs He;
    [destruct Hin|].
  cbn [Done] in D.
  assert (Hc : payload_of c = None \/ selector_of c <> None)
    by (apply H; left; reflexivity).
  assert (Hr : forall x, In x codes -> payload_of x = None \/ selector_of x <> None)
    by (intros x Hx; apply H; right; exact Hx).
  destruct Hin as [->|Hin].
  - rewrite Hp, Hs in D. destruct D as [B _]. apply B. exact He.
  - destruct (payload_of c) as [q|].
    + destruct (selector_of c) as [s|]; [|destruct Hc; congruence].
      destruct D as [_ D]. eapply IH; eassumption.
    + eapply IH; eassumption.
Qed.

End Steps.
End Completeness.

(* ------------------------------------------------------------------ *)
(** ** One pass of each script *)
(* ------------------------------------------------------------------ *)

Module KindsComplete.
Import Dom Coordinator DomDefs DomFacts EngineDefs Engine KindDefs Kinds Placement Completeness.

Section Scripts.
Variable css_string : string -> option string.
Variable translate : string -> string.

(** The engine's facts about one pass of each script. *)
Lemma offers_loop payload_of listing codes d :
  listing <= max_id d ->
  let s := callback_loop payload_of (concat_selector css_string)
             (gstep (offers_overlay translate) [[Class "offer-container"]]
                (closest card_selector) price_anchor) listing codes d in
  Ext (offers_overlay translate) d (doc s)
  /\ Done [[Class "offer-container"]] (closest card_selector) price_anchor
       payload_of (concat_selector css_string) listing (doc s) codes.
Proof.
  intros Hl. unfold callback_loop.
  eapply outer_loop with (S := card_selector) (st := start d).
  - intros p e He. pose proof (offers_no_code translate p) as H.
    rewrite Forall_forall in H. apply H. exact He.
  - apply offers_marks.
  - intros d0 e pl p He. apply price_scope_place. apply create_absent. exact He.
  - intros d0 e c. apply closest_Some.
  - intros d0 c pl p. apply price_anchor_place. apply create_inert, offers_inert_price.
  - intros c pl _. apply price_anchor_inside.
  - apply concat_selector_item.
  - exact Hl.
  - reflexivity.
Qed.

Lemma discount_loop payload_of listing codes d :
  listing <= max_id d ->
  let s := callback_loop payload_of (concat_selector css_string)
             (gstep (discount_overlay translate) [[Class "customer-discount-info"]]
                (closest card_selector) price_anchor) listing codes d in
  Ext (discount_overlay translate) d (doc s)
  /\ Done [[Class "customer-discount-info"]] (closest card_selector) price_anchor
       payload_of (concat_selector css_string) listing (doc s) codes.
Proof.
  intros Hl. unfold callback_loop.
  eapply outer_loop with (S := card_selector) (st := start d).
  - intros p e He. pose proof (discount_no_code translate p) as H.
    rewrite Forall_forall in H. apply H. exact He.
  - apply discount_marks.
  - intros d0 e pl p He. apply price_scope_place. apply create_absent. exact He.
  - intros d0 e c. apply closest_Some.
  - intros d0 c pl p. apply price_anchor_place. apply create_inert.
    apply discount_inert_price.
  - intros c pl _. apply price_anchor_inside.
  - apply concat_selector_item.
  - exact Hl.
  - reflexivity.
Qed.

End Scripts.

Lemma badges_loop payload_of listing codes d :
  listing <= max_id d ->
  let s := callback_loop payload_of escaped_selector
             (gstep badges_overlay [[Class "ce-badges"]] badges_scope title_anchor)
             listing codes d in
  Ext badges_overlay d (doc s)
  /\ Done [[Class "ce-badges"]] badges_scope title_anchor
       payload_of escaped_selector listing (doc s) codes.
Proof.
  intros Hl. unfold callback_loop.
  eapply outer_loop with (S := body_selector) (st := start d).
  - intros p e He. pose proof (badges_no_code p) as H.
    rewrite Forall_forall in H. apply H. exact He.
  - apply badges_marks.
  - intros d0 e pl p He. apply badges_scope_place.
    + apply create_absent. exact He.
    + apply create_inert, badges_inert_card_body.
  - apply badges_scope_card.
  - intros d0 c pl p. apply title_anchor_place; apply create_inert.
    + apply badges_inert_title.
    + apply badges_inert_tags.
  - apply title_anchor_inside.
  - apply escaped_selector_item.
  - exact Hl.
  - reflexivity.
Qed.

End KindsComplete.

(* ------------------------------------------------------------------ *)
(** ** What a pass achieves *)
(* ------------------------------------------------------------------ *)

Module PassTheorems.
Import Dom Coordinator DomDefs DomFacts EngineDefs Engine KindDefs Kinds PlacementDefs Placement Completeness KindsComplete.





End PassTheorems.

(* ------------------------------------------------------------------ *)
(** ** Parsed documents *)
(* ------------------------------------------------------------------ *)

Module ParseFacts.
Import JS Facets JsonDefs JSFacts FacetsFacts CodecDefs CodecFacts.

(** *** What the parser returns names no property twice *)

Lemma obj_set_keys (o : object) k v x :
  In x (map fst (obj_set o k v)) <-> In x (map fst o) \/ x = k.
Proof.
  induction o as [|[k' v'] o IH]; cbn [obj_set map fst In].
  - intuition congruence.
  - destruct (String.eqb_spec k' k); cbn [map fst In].
    + subst. intuition congruence.
    + rewrite IH. intuition congruence.
Qed.

Lemma obj_set_wf (o : object) k v :
  json_wf (JObj o) -> json_wf v -> json_wf (JObj (obj_set o k v)).
Proof.
  intros [N W] Hv. induction o as [|[k' v'] o IH]; cbn [obj_set].
  - split; [repeat constructor; intros []|]. split; [exact Hv|exact I].
  - cbn [map fst] in N. apply NoDup_cons_iff in N as [Nk N].
    destruct W as [Wv W].
    destruct (String.eqb_spec k' k).
    + split; [constructor; assumption|]. split; assumption.
    + destruct (IH N W) as [N' W']. split.
      * cbn [map fst]. constructor; [|exact N'].
        rewrite obj_set_keys. intros [H|H]; [auto|congruence].
      * split; assumption.
Qed.

Lemma obj_delete_keys (o : object) k x :
  In x (map fst (obj_delete o k)) -> In x (map fst o).
Proof.
  induction o as [|[k' v'] o IH]; cbn [obj_delete map fst In]; [auto|].
  destruct (String.eqb k' k); cbn [map fst In]; intuition.
Qed.

Lemma obj_delete_wf (o : object) k :
  json_wf (JObj o) -> json_wf (JObj (obj_delete o k)).
Proof.
  intros [N W]. induction o as [|[k' v'] o IH]; cbn [obj_delete].
  - split; [constructor|exact I].
  - cbn [map fst] in N. apply NoDup_cons_iff in N as [Nk N].
    destruct W as [Wv W]. destruct (IH N W) as [N' W'].
    destruct (String.eqb k' k); [split; assumption|]. split.
    + cbn [map fst]. constructor; [|exact N'].
      intros H. apply Nk. eapply obj_delete_keys. exact H.
    + split; assumption.
Qed.

Lemma obj_assign_wf (o : object) k v :
  json_wf (JObj o) -> json_wf v -> json_wf (JObj (obj_assign o k v)).
Proof.
  intros Ho Hv. unfold obj_assign.
  destruct (String.eqb k "__proto__" && negb (obj_has o k)); [exact Ho|].
  apply obj_set_wf; assumption.
Qed.

Lemma cons_fst_Some {A B} (a : A) (o : option (list A * B)) l r :
  cons_fst a o = Some (l, r) -> exists l', o = Some (l', r) /\ l = a :: l'.
Proof.
  destruct o as [[l' r']|]; cbn [cons_fst]; [|discriminate].
  intros [= <- <-]. eauto.
Qed.

Ltac crunch :=
  repeat match goal with
  | H : Some _ = Some _ |- _ => injection H as ? ?; subst
  | H : None = Some _ |- _ => discriminate H
  | H : context [match ?x with _ => _ end] |- _ => destruct x eqn:?
  end.

Lemma parse_wf fuel :
  (forall s v r, parse_value fuel s = Some (v, r) -> json_wf v)
  /\ (forall s l r, parse_elems fuel s = Some (l, r) -> all_wf l)
  /\ (forall acc s o r, json_wf (JObj acc) ->
        parse_members fuel acc s = Some (o, r) -> json_wf (JObj o)).
Proof.
  induction fuel as [|f (IHv & IHe & IHm)].
  - repeat split; discriminate.
  - split; [|split].
    + intros s v r H. cbn [parse_value] in H.
      crunch; try exact I; try (split; [constructor|exact I]);
        match goal with
        | E : parse_elems f _ = Some _ |- _ => apply IHe in E; exact E
        | E : parse_members f [] _ = Some _ |- _ =>
            apply IHm in E; [exact E|split; [constructor|exact I]]
        end.
    + intros s l r H. cbn [parse_elems] in H.
      destruct (parse_value f s) as [[v r0]|] eqn:V; [|discriminate].
      apply IHv in V.
      crunch;
        try match goal with
        | E : cons_fst _ _ = Some _ |- _ =>
            apply cons_fst_Some in E; destruct E as (l' & E & ->);
            apply IHe in E; split; assumption
        end.
      split; [exact V|exact I].
    + intros acc s o r A H. cbn [parse_members] in H.
      crunch;
        match goal with
        | V : parse_value f _ = Some (?v, _) |- _ =>
            apply IHv in V;
            try match goal with
            | E : parse_members f _ _ = Some _ |- _ => apply IHm in E; [exact E|]
            end;
            apply obj_set_wf; assumption
        end.
Qed.

Lemma JSON_parse_wf s v : JSON_parse s = Some v -> json_wf v.
Proof.
  unfold JSON_parse.
  destruct (parse_value _ _) as [[v' r]|] eqn:E; [|discriminate].
  destruct (skip_ws r); [|discriminate]. intros [= <-].
  eapply parse_wf. exact E.
Qed.

(** The document a handler reads is well formed, whatever the URL holds. *)
Lemma read_wf search : json_wf (read_field_filters search).
Proof.
  unfold read_field_filters.
  assert (E : json_wf (JObj [])) by (split; [constructor|exact I]).
  destruct (usp_get search "field_filters") as [raw|]; [|exact E].
  destruct (negb (String.eqb raw "")); [|exact E].
  destruct (JSON_parse raw) as [v|] eqn:P; [|exact E].
  destruct (truthy v); [|exact E]. eapply JSON_parse_wf. exact P.
Qed.

(** The pre-check read and the handler read see the same lists. *)
Lemma active_read search ff k :
  read_field_filters search = JObj ff ->
  active_values k search = existing_values ff k.
Proof.
  unfold read_field_filters, active_values, existing_values.
  destruct (usp_get search "field_filters") as [raw|]; [|intros [= <-]; reflexivity].
  destruct (negb (String.eqb raw "")); [|intros [= <-]; reflexivity].
  destruct (JSON_parse raw) as [v|]; [|intros [= <-]; reflexivity].
  destruct v as [|b|n|s|l|o]; cbn [truthy].
  - intros [= <-]. reflexivity.
  - destruct b; [discriminate|]. intros [= <-]. reflexivity.
  - destruct (negb (n =? 0)%Z); [discriminate|]. intros [= <-]. reflexivity.
  - destruct (negb (String.eqb s "")); [discriminate|]. intros [= <-]. reflexivity.
  - discriminate.
  - intros [= <-]. reflexivity.
Qed.

Lemma active_written ff search k :
  json_wf (JObj ff) ->
  active_values k (write_field_filters ff search) = existing_values ff k.
Proof.
  intros W. apply active_read. apply read_written. exact W.
Qed.

End ParseFacts.

(* ------------------------------------------------------------------ *)
(** ** From one URL to the next *)
(* ------------------------------------------------------------------ *)

Module NavigationFacts.
Import JS Facets JsonDefs JSFacts FacetsFacts CodecDefs CodecFacts NavigationDefs ParseFacts.

(** *** Writing the same parameters twice *)

Lemma usp_delete_idem p n : usp_delete (usp_delete p n) n = usp_delete p n.
Proof.
  induction p as [|[k x] p IH]; cbn [usp_delete]; [reflexivity|].
  destruct (String.eqb k n) eqn:E; [exact IH|]. cbn [usp_delete]. rewrite E, IH.
  reflexivity.
Qed.

Lemma usp_delete_comm p n m :
  usp_delete (usp_delete p n) m = usp_delete (usp_delete p m) n.
Proof.
  induction p as [|[k x] p IH]; cbn [usp_delete]; [reflexivity|].
  destruct (String.eqb k n) eqn:E, (String.eqb k m) eqn:F; cbn [usp_delete];
    rewrite ?E, ?F, IH; reflexivity.
Qed.

Lemma usp_set_delete p n m v :
  m <> n -> usp_set (usp_delete p m) n v = usp_delete (usp_set p n v) m.
Proof.
  intros H. induction p as [|[k x] p IH]; cbn [usp_delete usp_set].
  - destruct (String.eqb_spec n m); [congruence|reflexivity].
  - destruct (String.eqb k m) eqn:Em, (String.eqb k n) eqn:En;
      cbn [usp_delete usp_set]; rewrite ?Em, ?En.
    + apply String.eqb_eq in Em, En. congruence.
    + exact IH.
    + rewrite usp_delete_comm. reflexivity.
    + rewrite IH. reflexivity.
Qed.

Lemma usp_set_idem p n v : usp_set (usp_set p n v) n v = usp_set p n v.
Proof.
  induction p as [|[k x] p IH]; cbn [usp_set].
  - rewrite String.eqb_refl. reflexivity.
  - destruct (String.eqb k n) eqn:E; cbn [usp_set]; rewrite E.
    + rewrite usp_delete_idem. reflexivity.
    + rewrite IH. reflexivity.
Qed.

Lemma usp_set_comm p n m v w :
  usp_get p n <> None -> n <> m ->
  usp_set (usp_set p m w) n v = usp_set (usp_set p n v) m w.
Proof.
  intros Hp H. induction p as [|[k x] p IH]; [cbn in Hp; congruence|].
  cbn [usp_get] in Hp. cbn [usp_set].
  destruct (String.eqb k n) eqn:En, (String.eqb k m) eqn:Em;
    cbn [usp_set]; rewrite ?En, ?Em.
  - apply String.eqb_eq in Em, En. congruence.
  - rewrite usp_set_delete by congruence. reflexivity.
  - rewrite usp_set_delete by congruence. reflexivity.
  - rewrite IH by exact Hp. reflexivity.
Qed.

Lemma write_written ff search :
  write_field_filters ff (write_field_filters ff search)
  = write_field_filters ff search.
Proof.
  unfold write_field_filters.
  destruct (0 <? List.length (obj_keys ff))%nat.
  - set (t := JSON_stringify (JObj ff)). set (q := usp_set search "field_filters" t).
    assert (Q : usp_set (usp_set q "from_filters" "1") "field_filters" t
                = usp_set q "from_filters" "1").
    { rewrite usp_set_comm; [|unfold q; rewrite usp_get_set_same|]; try discriminate.
      unfold q. rewrite usp_set_idem. reflexivity. }
    rewrite (@usp_set_delete _ "field_filters" "start") by discriminate.
    rewrite Q.
    rewrite (@usp_set_delete _ "from_filters" "start") by discriminate.
    rewrite usp_set_idem. apply usp_delete_idem.
  - set (q := usp_delete search "field_filters").
    rewrite (usp_delete_comm _ "start" "field_filters").
    rewrite <- (@usp_set_delete _ "from_filters" "field_filters") by discriminate.
    unfold q at 1. rewrite usp_delete_idem. fold q.
    rewrite (@usp_set_delete _ "from_filters" "start") by discriminate.
    rewrite usp_set_idem. apply usp_delete_idem.
Qed.

(** What a navigation leaves of the other parameters. *)
Lemma write_params ff search :
  usp_get (write_field_filters ff search) "from_filters" = Some "1"
  /\ usp_get (write_field_filters ff search) "start" = None
  /\ forall k, k <> "field_filters" -> k <> "from_filters" -> k <> "start" ->
       usp_get (write_field_filters ff search) k = usp_get search k.
Proof.
  unfold write_field_filters. split; [|split].
  - rewrite usp_get_delete_other by discriminate. apply usp_get_set_same.
  - apply usp_get_delete_same.
  - intros k H1 H2 H3. rewrite usp_get_delete_other by exact H3.
    rewrite usp_get_set_other by exact H2.
    destruct (0 <? _)%nat.
    + apply usp_get_set_other. exact H1.
    + apply usp_get_delete_other. exact H1.
Qed.

(** *** The list of a check box *)

Lemma obj_set_idem (o : object) k v : obj_set (obj_set o k v) k v = obj_set o k v.
Proof.
  induction o as [|[k' v'] o IH]; cbn [obj_set].
  - rewrite String.eqb_refl. reflexivity.
  - destruct (String.eqb k' k) eqn:E; cbn [obj_set]; rewrite E; [reflexivity|].
    rewrite IH. reflexivity.
Qed.

Lemma obj_delete_idem (o : object) k : obj_delete (obj_delete o k) k = obj_delete o k.
Proof.
  induction o as [|[k' v'] o IH]; cbn [obj_delete]; [reflexivity|].
  destruct (String.eqb k' k) eqn:E; [exact IH|]. cbn [obj_delete]. rewrite E, IH.
  reflexivity.
Qed.

Lemma includes_In l v : includes l v = true <-> In v l.
Proof.
  unfold includes. rewrite existsb_exists. split.
  - intros (x & Hx & E). apply String.eqb_eq in E. subst x. exact Hx.
  - intros H. exists v. split; [exact H|apply String.eqb_refl].
Qed.

Lemma toggled_In existing v checked x :
  In x (toggled existing v checked)
  <-> if checked then In x existing \/ x = v else In x existing /\ x <> v.
Proof.
  unfold toggled. destruct checked.
  - destruct (includes existing v) eqn:E.
    + apply includes_In in E. intuition congruence.
    + rewrite in_app_iff. cbn [In]. intuition congruence.
  - rewrite filter_In. split; intros [H1 H2]; (split; [exact H1|]).
    + destruct (String.eqb_spec x v); [discriminate|assumption].
    + destruct (String.eqb_spec x v); [contradiction|reflexivity].
Qed.

Lemma toggled_idem existing v checked :
  toggled (toggled existing v checked) v checked = toggled existing v checked.
Proof.
  destruct checked.
  - unfold toggled at 1.
    assert (includes (toggled existing v true) v = true) as ->; [|reflexivity].
    apply includes_In, toggled_In. right. reflexivity.
  - unfold toggled. induction existing as [|x l IH]; [reflexivity|].
    cbn [filter]. destruct (negb (String.eqb x v)) eqn:E; [|exact IH].
    cbn [filter]. rewrite E, IH. reflexivity.
Qed.

Lemma strings_wf l : json_wf (JArr (map JStr l)).
Proof. induction l as [|x l IH]; [exact I|]. split; [exact I|exact IH]. Qed.

Lemma toggle_step f v checked search ff :
  read_field_filters search = JObj ff ->
  applyFieldFilterChange f v checked search
  = Navigate (write_field_filters (toggle_document ff f v checked) search).
Proof. intros R. unfold applyFieldFilterChange. rewrite R. reflexivity. Qed.

Lemma toggle_document_wf ff f v checked :
  json_wf (JObj ff) -> json_wf (JObj (toggle_document ff f v checked)).
Proof.
  intros W. unfold toggle_document. destruct (0 <? _)%nat.
  - apply obj_assign_wf; [exact W|apply strings_wf].
  - apply obj_delete_wf. exact W.
Qed.

Lemma read_object search ff : read_field_filters search = JObj ff -> json_wf (JObj ff).
Proof. intros R. rewrite <- R. apply read_wf. Qed.

(** The list of the filter in the document the handler writes. *)
Lemma toggle_document_values ff f v checked :
  f <> "__proto__" \/ obj_has ff f = true ->
  existing_values (toggle_document ff f v checked) f
  = toggled (existing_values ff f) match v with Some s => s | None => "" end checked.
Proof.
  intros H. unfold toggle_document.
  set (next := toggled _ _ _).
  destruct next as [|x next'] eqn:N; cbn [List.length Nat.ltb Nat.leb].
  - unfold existing_values at 1. rewrite obj_get_delete_same. reflexivity.
  - change (0 <? S (List.length next'))%nat with true. cbv iota.
    assert (E : obj_assign ff f (JArr (map JStr (x :: next')))
                = obj_set ff f (JArr (map JStr (x :: next')))).
    { unfold obj_assign. destruct H as [H|H].
      - destruct (String.eqb_spec f "__proto__"); [contradiction|reflexivity].
      - rewrite H. rewrite andb_false_r. reflexivity. }
    rewrite E. unfold existing_values at 1. rewrite obj_get_set_same.
    apply js_String_JStr.
Qed.

Lemma toggle_document_other ff f v checked k :
  k <> f ->
  existing_values (toggle_document ff f v checked) k = existing_values ff k.
Proof.
  intros H. unfold toggle_document, existing_values.
  destruct (0 <? _)%nat.
  - rewrite obj_get_assign_other by exact H. reflexivity.
  - rewrite obj_get_delete_other by exact H. reflexivity.
Qed.

Lemma toggle_document_idem ff f v checked :
  toggle_document (toggle_document ff f v checked) f v checked
  = toggle_document ff f v checked.
Proof.
  destruct (String.eqb f "__proto__" && negb (obj_has ff f)) eqn:Q.
  - (* the inherited accessor: the first step changed nothing it reads *)
    assert (E : forall l, obj_assign ff f l = ff)
      by (intros l; unfold obj_assign; rewrite Q; reflexivity).
    apply andb_prop in Q as [_ Hh]. apply negb_true_iff in Hh.
    assert (G : obj_get ff f = None).
    { unfold obj_has in Hh. destruct (obj_get ff f); [discriminate|reflexivity]. }
    assert (D : obj_delete ff f = ff).
    { clear -G. induction ff as [|[k x] ff IH]; [reflexivity|].
      cbn [obj_get] in G. cbn [obj_delete].
      destruct (String.eqb k f); [discriminate|]. rewrite IH by exact G.
      reflexivity. }
    assert (T : toggle_document ff f v checked = ff).
    { unfold toggle_document. destruct (0 <? _)%nat; [apply E|exact D]. }
    rewrite T. exact T.
  - assert (H : f <> "__proto__" \/ obj_has ff f = true).
    { apply andb_false_iff in Q as [Q|Q].
      - left. apply String.eqb_neq. exact Q.
      - right. apply negb_false_iff. exact Q. }
    pose proof (toggle_document_values ff v checked H) as V.
    unfold toggle_document at 1. fold (existing_values (toggle_document ff f v checked) f).
    rewrite V, toggled_idem.
    unfold toggle_document.
    set (next := toggled _ _ _).
    destruct next as [|x next'] eqn:N; cbn [List.length Nat.ltb Nat.leb].
    + apply obj_delete_idem.
    + change (0 <? S (List.length next'))%nat with true. cbv iota.
      assert (E : forall o, obj_has o f = true \/ f <> "__proto__" ->
                  obj_assign o f (JArr (map JStr (x :: next')))
                  = obj_set o f (JArr (map JStr (x :: next')))).
      { intros o [Ho|Ho]; unfold obj_assign.
        - rewrite Ho, andb_false_r. reflexivity.
        - destruct (String.eqb_spec f "__proto__"); [contradiction|reflexivity]. }
      rewrite (E ff) by (destruct H; auto).
      rewrite E; [apply obj_set_idem|].
      left. unfold obj_has. rewrite obj_get_set_same. reflexivity.
Qed.

End NavigationFacts.

(* ------------------------------------------------------------------ *)
(** ** The filter URL *)
(* ------------------------------------------------------------------ *)

Module NavigationTheorems.
Import JS Facets JsonDefs JSFacts FacetsFacts CodecDefs CodecFacts NavigationDefs ParseFacts NavigationFacts.







(** X9.  The same change twice is the change once.  A box that is set to
    the state it already has in the URL navigates to the URL the first change
    navigated to: the same document, the same parameters in the same
    order. *)
Theorem same_change_twice
  (f : string) (v : option string) (checked : bool) (search : URLSearchParams) :
  bind_nav (applyFieldFilterChange f v checked search)
    (applyFieldFilterChange f v checked)
  = applyFieldFilterChange f v checked search.
Proof.
  destruct (read_field_filters search) as [| | | | |ff] eqn:R;
    try (unfold applyFieldFilterChange; rewrite R; reflexivity).
  rewrite (@toggle_step f v checked search ff R). cbn [bind_nav].
  pose proof (@toggle_document_wf ff f v checked (@read_object search ff R)) as W.
  rewrite (@toggle_step f v checked _ _ (@read_written _ search W)).
  rewrite toggle_document_idem, write_written. reflexivity.
Qed.

End NavigationTheorems.

(* ------------------------------------------------------------------ *)
(** ** The price filter read back *)
(* ------------------------------------------------------------------ *)

Module PrefillFacts.
Import JS Facets Prefill JsonDefs JSFacts FacetsFacts CodecDefs CodecFacts SliderDefs SliderFacts.
Import NavigationDefs ParseFacts NavigationFacts PrefillDefs.

Lemma range_sanitize_bounds mx v :
  (0 <= mx)%Z -> (0 <= range_sanitize mx v <= mx)%Z.
Proof. intros H. unfold range_sanitize. destruct (Z.ltb_spec mx 0); lia. Qed.

Lemma price_document_wf ff a b : json_wf (JObj ff) -> json_wf (JObj (price_document ff a b)).
Proof.
  intros W. unfold price_document.
  apply obj_set_wf; [apply obj_set_wf; [exact W|]|]; repeat split.
Qed.

Lemma price_document_nonempty ff a b : price_document ff a b <> [].
Proof.
  unfold price_document. intros E.
  pose proof (obj_get_set_same (obj_set ff "price_from" (JArr [JNum a])) "price_to"
                (JArr [JNum b])) as G.
  rewrite E in G. discriminate G.
Qed.

Lemma active_range_written ff a b search :
  json_wf (JObj ff) ->
  active_range (write_field_filters (price_document ff a b) search)
  = Some (Some a, Some b).
Proof.
  intros W. unfold active_range. rewrite get_written.
  pose proof (price_document_nonempty ff a b) as N.
  destruct (price_document ff a b) as [|kv o] eqn:E; [congruence|]. rewrite <- E.
  destruct (String.eqb_spec (JSON_stringify (JObj (price_document ff a b))) "") as [Z|_].
  - exfalso. exact (stringify_nonempty _ Z).
  - cbn [negb]. rewrite JSON_roundtrip by (apply price_document_wf; exact W).
    unfold price_document.
    rewrite obj_get_set_other by discriminate.
    rewrite !obj_get_set_same. reflexivity.
Qed.

Lemma apply_step ui search ff :
  read_field_filters search = JObj ff ->
  on_apply_click ui search
  = Navigate (write_field_filters
                (price_document ff (minSlider ui) (maxSlider ui)) search).
Proof. intros R. unfold on_apply_click, applyPriceFilter. rewrite R. reflexivity. Qed.

Lemma enforce_in_range mx ui :
  (0 <= mx)%Z -> in_range mx ui -> in_range mx (enforceOrderContinuous mx ui).
Proof.
  intros Hm [H1 H2]. unfold enforceOrderContinuous, in_range.
  destruct (minSlider ui >? maxSlider ui)%Z;
    cbn [updateDisplayContinuous minSlider maxSlider].
  - split; apply range_sanitize_bounds; exact Hm.
  - split; assumption.
Qed.

Lemma apply_read_back ui search s' :
  on_apply_click ui search = Navigate s' ->
  active_range s' = Some (Some (minSlider ui), Some (maxSlider ui))
  /\ forall k, k <> "price_from" -> k <> "price_to" ->
       active_values k s' = active_values k search.
Proof.
  intros H.
  destruct (read_field_filters search) as [| | | | |ff] eqn:R;
    try (unfold on_apply_click, applyPriceFilter in H; rewrite R in H;
         discriminate H).
  rewrite (@apply_step ui search ff R) in H. injection H as <-.
  pose proof (@read_object search ff R) as W. split.
  - apply active_range_written. exact W.
  - intros k H1 H2.
    rewrite active_written by (apply price_document_wf; exact W).
    rewrite (@active_read search ff k R).
    unfold existing_values, price_document.
    rewrite !obj_get_set_other by congruence. reflexivity.
Qed.

End PrefillFacts.

(* ------------------------------------------------------------------ *)
(** ** The slider and the URL *)
(* ------------------------------------------------------------------ *)

Module PrefillTheorems.
Import JS Facets Prefill JsonDefs JSFacts FacetsFacts CodecDefs CodecFacts SliderDefs SliderFacts.
Import NavigationDefs ParseFacts NavigationFacts PrefillDefs PrefillFacts.



(** X11.  The slider of a freshly loaded page.  With a ceiling that is not
    negative, both handles are inside the range; the min handle is at the
    lower bound read from the URL when that is inside the range, and at 0
    when the URL has none; the max handle is at the upper bound read from the
    URL when that is above 0 and inside the range, and at the ceiling when
    the URL has none or has 0; the text under the track is "All" exactly
    when the handles are at 0 and at the ceiling. *)
Theorem slider_on_load (mx : Z) (activeFrom activeTo : option Z) :
  (0 <= mx)%Z ->
  let ui := initial_ui mx activeFrom activeTo in
  in_range mx ui
  /\ (forall lo, activeFrom = Some lo -> (0 <= lo <= mx)%Z -> minSlider ui = lo)
  /\ (activeFrom = None -> minSlider ui = 0%Z)
  /\ (forall hi, activeTo = Some hi -> (0 < hi <= mx)%Z -> maxSlider ui = hi)
  /\ (activeTo = None \/ activeTo = Some 0%Z -> maxSlider ui = mx)
  /\ (display ui = DisplayAll <-> minSlider ui = 0%Z /\ maxSlider ui = mx).
Proof.
  intros Hm ui. subst ui. unfold initial_ui.
  cbn [updateDisplayContinuous minSlider maxSlider display].
  split; [|split; [|split; [|split; [|split]]]].
  - split; apply range_sanitize_bounds; exact Hm.
  - intros lo -> H. destruct (Z.leb_spec 0 lo); [|lia].
    apply range_sanitize_Z. exact H.
  - intros ->. apply range_sanitize_Z. lia.
  - intros hi -> H. destruct (Z.ltb_spec 0 hi); [|lia].
    apply range_sanitize_Z. lia.
  - intros [-> | ->]; cbn [Z.ltb Z.compare]; apply range_sanitize_Z; lia.
  - set (a := range_sanitize mx _). set (b := range_sanitize mx _).
    destruct (Z.eqb_spec a 0), (Z.eqb_spec b mx); cbn [andb]; split;
      try discriminate; try tauto; intros [? ?]; contradiction.
Qed.

(** A ceiling of 3000 and the range 100 to 500 in the URL. *)
Lemma slider_on_load_witness :
  minSlider (initial_ui 3000 (Some 100%Z) (Some 500%Z)) = 100%Z
  /\ maxSlider (initial_ui 3000 (Some 100%Z) (Some 500%Z)) = 500%Z.
Proof.
  assert (H : (0 <= 3000)%Z) by lia.
  destruct (@slider_on_load 3000 (Some 100%Z) (Some 500%Z) H) as (_ & L & _ & U & _).
  split; [apply (L 100%Z eq_refl); lia|apply (U 500%Z eq_refl); lia].
Defined.





End PrefillTheorems.

(* ------------------------------------------------------------------ *)
(** ** parseInt reads what String writes *)
(* ------------------------------------------------------------------ *)

Module ParseIntFacts.
Import JS JsonDefs JSFacts.

Lemma body_lead d :
  lead d ->
  exists c r, uint_digits d = c :: r
              /\ is_digit c = true /\ is_space c = false
              /\ Ascii.eqb c "-"%char = false /\ Ascii.eqb c "+"%char = false.
Proof.
  destruct d; simpl; try contradiction; intros _; eexists _, _;
    repeat split; reflexivity.
Qed.

Lemma read_digits_all d : read_digits 0 (uint_digits d) = (Z.of_N (Pos.of_uint d), []).
Proof.
  rewrite <- (List.app_nil_r (uint_digits d)) at 1.
  apply read_digits_uint. exact I.
Qed.

(** [parseInt] reads back the numeral [String] writes. *)
Lemma parseInt_String_of_Z z : parseInt (String_of_Z z) = Some z.
Proof.
  unfold parseInt, String_of_Z. rewrite list_ascii_of_string_of_list_ascii.
  unfold Z_digits. destruct z as [|p|p]; cbn [Z.to_int].
  - reflexivity.
  - destruct (@body_lead _ (to_uint_lead p)) as (c & r & E & Hd & Hs & Hm & Hp).
    pose proof (read_digits_all (Pos.to_uint p)) as R.
    rewrite DecimalPos.Unsigned.of_to in R.
    rewrite E in *. cbn [trim_start]. rewrite Hs, Hm, Hp, Hd, R. reflexivity.
  - destruct (@body_lead _ (to_uint_lead p)) as (c & r & E & Hd & Hs & Hm & Hp).
    pose proof (read_digits_all (Pos.to_uint p)) as R.
    rewrite DecimalPos.Unsigned.of_to in R.
    rewrite E in *. cbn [trim_start].
    change (is_space "-") with false. change (Ascii.eqb "-" "-") with true.
    cbv iota. rewrite Hd, R. reflexivity.
Qed.

Lemma String_of_Z_nonempty z : String_of_Z z <> "".
Proof.
  unfold String_of_Z. destruct (Z_digits_head z) as (c & r & E & _). rewrite E.
  discriminate.
Qed.

End ParseIntFacts.

(* ------------------------------------------------------------------ *)
(** ** The callback of a cart update *)
(* ------------------------------------------------------------------ *)

Module StepperFacts.
Import Dom Coordinator Qty DomDefs DomFacts Engine UpdateDefs UpdateFacts QtyDefs QtyFacts NewStepper.

Lemma wf_same d a b :
  wf d -> In a (elements d) -> In b (elements d) -> nid a = nid b -> a = b.
Proof.
  unfold wf. rewrite ids_nid. intros N Ha Hb E.
  exact (NoDup_map_eq nid (elements d) a b N Ha Hb E).
Qed.

Lemma hidden_added r n :
  has_id r n = true ->
  has_class "hidden" (update r (classList_add "hidden") n) = true.
Proof.
  destruct n as [s|i t c at_ ks]; [discriminate|]. cbn [has_id]. intros E.
  rewrite update_Elem, E. unfold classList_add. cbn [fst has_class].
  destruct (existsb (String.eqb "hidden") c) eqn:H; [exact H|].
  rewrite existsb_app. cbn [existsb]. rewrite String.eqb_refl.
  rewrite orb_true_r. reflexivity.
Qed.

Lemma has_class_update_other c r f n :
  has_id r n = false -> has_class c (update r f n) = has_class c n.
Proof.
  destruct n as [s|i t cs at_ ks]; [reflexivity|]. cbn [has_id]. intros E.
  rewrite update_Elem, E. reflexivity.
Qed.

Lemma has_id_self n : In n (elements n) -> has_id (nid n) n = true.
Proof. destruct n; [intros []|]. intros _. cbn. apply Nat.eqb_refl. Qed.

Lemma has_id_update r f i n : has_id i (update r f n) = has_id i n.
Proof. destruct n; [reflexivity|]. rewrite update_Elem. reflexivity. Qed.

Lemma addBtn_hidden_free v : Forall (Forall hidden_free) (addBtn_selector v).
Proof. repeat constructor; cbn; congruence. Qed.

Section Controls.
Variable css_string : string -> option string.

(** What the callback of a cart update does on a card that has a stepper
    with a box. *)
Lemma updateQty_callback_parts card itemCode newQty r d v cardEl w i :
  succeeded r = true ->
  css_string itemCode = Some v -> deref d card = Some cardEl ->
  querySelector (wrapper_selector v) cardEl = Some w ->
  querySelector [[Class "cart-qty"]] w = Some i ->
  updateQty_callback css_string card itemCode newQty r d
  = if (newQty <=? 0)%Z then
      let d2 := update (nid i) (set_value "0")
                  (update (nid w) (classList_add "hidden") d) in
      match querySelector (addBtn_selector v) cardEl with
      | Some a => update (nid a) (classList_remove "hidden") d2
      | None => d2
      end
    else update (nid i) (set_value (JS.String_of_Z newQty)) d.
Proof.
  intros Hr Ev Ec Ew Ei. unfold updateQty_callback. rewrite Ev, Ec, Ew, Ei.
  assert (R : forall X Y : node,
            match r with Some {| exc := true |} => X | _ => Y end = Y).
  { intros X Y. destruct r as [[[|]]|]; [discriminate| |]; reflexivity. }
  rewrite R. clear R.
  destruct (Z.leb_spec newQty 0) as [L|L].
  - assert (Q : ((if (newQty <? 0)%Z then 0%Z else newQty) =? 0)%Z = true).
    { destruct (Z.ltb_spec newQty 0); [reflexivity|]. apply Z.eqb_eq. lia. }
    rewrite Q. cbv zeta. rewrite !deref_update, Ec. cbn [option_map].
    rewrite !querySelector_update
      by (apply gentle_keeps;
          [apply addBtn_hidden_free|apply gentle_set_value || apply gentle_add]).
    destruct (querySelector (addBtn_selector v) cardEl) as [a|]; cbn [option_map];
      [|reflexivity].
    rewrite !nid_update. reflexivity.
  - destruct (Z.ltb_spec newQty 0); [lia|].
    destruct (Z.eqb_spec newQty 0); [lia|]. reflexivity.
Qed.

End Controls.
End StepperFacts.

(* ------------------------------------------------------------------ *)
(** ** The quantity buttons *)
(* ------------------------------------------------------------------ *)

Module StepperTheorems.
Import Dom Coordinator Qty DomDefs DomFacts UpdateDefs UpdateFacts QtyDefs QtyFacts NewStepper QtyExamples ParseIntFacts StepperFacts.



(** X14.  A confirmed update to zero takes the stepper away and brings the
    Add to Cart button back; any other confirmed update leaves both as they
    are.  On a page whose elements are distinct and a card whose stepper (with
    its box) is not itself an Add to Cart button: after a cart update that
    returns without the error flag, the stepper is hidden when the quantity
    sent was 0 or less, and is visible exactly when it was before otherwise
    (a hidden stepper stays hidden); and when the quantity sent was 0 or
    less, the Add to Cart button of the item in the card, if there is one,
    is not hidden. *)
Theorem update_to_zero_hides_stepper
  (css_string : string -> option string) (card : nat) (itemCode : string)
  (newQty : Z) (r : option cart_response) (d : node) :
  succeeded r = true ->
  displayed css_string card itemCode d <> None ->
  wf d ->
  (forall w, stepper css_string card itemCode d = Some w ->
             has_class "btn-add-to-cart-list" w = false) ->
  let d' := updateQty_callback css_string card itemCode newQty r d in
  stepper_visible css_string card itemCode d'
  = (if (newQty <=? 0)%Z then false
     else stepper_visible css_string card itemCode d)
  /\ ((newQty <= 0)%Z ->
      forall v cardEl' addBtn,
        css_string itemCode = Some v ->
        deref d' card = Some cardEl' ->
        querySelector (addBtn_selector v) cardEl' = Some addBtn ->
        has_class "hidden" addBtn = false).
Proof.
  intros Hr Hd Hwf Hw d'.
  destruct (@displayed_parts css_string card itemCode d Hd)
    as (v & cardEl & w & i & Ev & Ec & Ew & Ei & Eb).
  assert (Es : stepper css_string card itemCode d = Some w).
  { unfold stepper. rewrite Ev, Ec. exact Ew. }
  pose proof (@updateQty_callback_parts css_string card itemCode newQty r d v
                cardEl w i Hr Ev Ec Ew Ei) as E.
  fold d' in E.
  assert (Win : In w (elements d)).
  { apply querySelector_Some in Ew as [Ew _].
    eapply elements_trans; [eapply deref_Some; exact Ec|].
    apply descendants_elements. exact Ew. }
  assert (Wid : has_id (nid w) w = true)
    by (apply has_id_self; eapply elements_self; exact Win).
  destruct (Z.leb_spec newQty 0) as [L|L].
  - cbv zeta in E.
    assert (V2 : forall x,
              stepper css_string card itemCode
                (update (nid i) (set_value x)
                   (update (nid w) (classList_add "hidden") d))
              = Some (update (nid i) (set_value x)
                        (update (nid w) (classList_add "hidden") w))).
    { intros x. rewrite !stepper_update by (apply gentle_set_value || apply gentle_add).
      rewrite Es. reflexivity. }
    assert (H2 : forall x,
              has_class "hidden"
                (update (nid i) (set_value x)
                   (update (nid w) (classList_add "hidden") w)) = true).
    { intros x. rewrite has_class_set_value. apply hidden_added. exact Wid. }
    destruct (querySelector (addBtn_selector v) cardEl) as [a|] eqn:Ea.
    + assert (Ain : In a (elements d) /\ matches (addBtn_selector v) a = true).
      { apply querySelector_Some in Ea as [Ea Ma]. split; [|exact Ma].
        eapply elements_trans; [eapply deref_Some; exact Ec|].
        apply descendants_elements. exact Ea. }
      destruct Ain as [Ain Ma].
      assert (Ne : nid a <> nid w).
      { intros Eq. assert (a = w) by (apply (@wf_same d a w Hwf Ain Win Eq)). subst a.
        specialize (Hw w Es).
        destruct w as [|j t c at_ ks]; [discriminate|].
        unfold addBtn_selector in Ma.
        cbn [matches existsb forallb matches_simple has_class] in Ma, Hw.
        rewrite Hw in Ma. discriminate. }
      split.
      * unfold stepper_visible. rewrite E.
        rewrite stepper_update by apply gentle_remove. rewrite V2. cbn [option_map].
        rewrite has_class_update_other.
        -- rewrite H2. reflexivity.
        -- rewrite !has_id_update.
           destruct w as [|j t c at_ ks]; [reflexivity|]. cbn [has_id nid] in *.
           apply Nat.eqb_neq. congruence.
      * intros _ v' cardEl' b' Ev' Ec' Eb'. rewrite Ev in Ev'. injection Ev' as <-.
        rewrite E in Ec'. rewrite !deref_update, Ec in Ec'. cbn [option_map] in Ec'.
        injection Ec' as <-.
        rewrite !querySelector_update in Eb'
          by (apply gentle_keeps;
              [apply addBtn_hidden_free
              |apply gentle_set_value || apply gentle_add || apply gentle_remove]).
        rewrite Ea in Eb'. cbn [option_map] in Eb'. injection Eb' as <-.
        apply not_hidden_removed. rewrite !has_id_update.
        apply has_id_self. eapply elements_self. exact Ain.
    + split.
      * unfold stepper_visible. rewrite E, V2, H2. reflexivity.
      * intros _ v' cardEl' b' Ev' Ec' Eb'. rewrite Ev in Ev'. injection Ev' as <-.
        rewrite E in Ec'. rewrite !deref_update, Ec in Ec'. cbn [option_map] in Ec'.
        injection Ec' as <-.
        rewrite !querySelector_update in Eb'
          by (apply gentle_keeps;
              [apply addBtn_hidden_free|apply gentle_set_value || apply gentle_add]).
        rewrite Ea in Eb'. discriminate Eb'.
  - split; [|lia]. unfold stepper_visible. rewrite E.
    rewrite stepper_update by apply gentle_set_value. rewrite Es. cbn [option_map].
    rewrite has_class_set_value. reflexivity.
Qed.

(** On the card that shows 3, a confirmed update to 0. *)
Lemma update_to_zero_hides_stepper_witness :
  stepper_visible css_string_plain 2 "ITEM-1" (page confirmed_three) = true
  /\ stepper_visible css_string_plain 2 "ITEM-1"
       (updateQty_callback css_string_plain 2 "ITEM-1" 0 (Some {| exc := false |})
          (page confirmed_three)) = false.
Proof.
  split; [vm_compute; reflexivity|].
  assert (Hd : displayed css_string_plain 2 "ITEM-1" (page confirmed_three) <> None)
    by (vm_compute; discriminate).
  assert (Hwf : wf (page confirmed_three)).
  { unfold wf. vm_compute. repeat constructor; cbn; intuition discriminate. }
  assert (Hw : forall w, stepper css_string_plain 2 "ITEM-1" (page confirmed_three)
                         = Some w ->
                         has_class "btn-add-to-cart-list" w = false).
  { intros w. vm_compute. intros [= <-]. reflexivity. }
  destruct (@update_to_zero_hides_stepper css_string_plain 2 "ITEM-1" 0
              (Some {| exc := false |}) (page confirmed_three) eq_refl Hd Hwf Hw)
    as (V & _).
  exact V.
Defined.

(** X15.  From a click on Add to Cart to the stepper.  A guest's click
    changes nothing and sets no timer, and so does every click that sets no
    timer.  A click that sets the timer was on (or inside) an Add to Cart
    button with a non-empty item code inside a card; it hides that button
    and nothing else; and when the timer fires on a card that has a quantity
    to show, the stepper of the item is visible and its box shows 1. *)
Theorem add_to_cart_click_flow
  (css_string : string -> option string) (target : nat) (d : node) :
  on_add_to_cart_click true target d = (d, None)
  /\ (forall guest d1, on_add_to_cart_click guest target d = (d1, None) -> d1 = d)
  /\ (forall guest d1 card itemCode,
        on_add_to_cart_click guest target d = (d1, Some (card, itemCode)) ->
        guest = false /\ itemCode <> ""
        /\ (exists btn cardEl,
              closest [[Class "btn-add-to-cart-list"; Attr "data-item-code"]] d target
              = Some btn
              /\ getAttribute "data-item-code" btn = Some itemCode
              /\ closest card_selector d (nid btn) = Some cardEl
              /\ nid cardEl = card
              /\ d1 = update (nid btn) (classList_add "hidden") d)
        /\ (shows_quantity css_string card itemCode d ->
            displayed css_string card itemCode
              (on_timer css_string (card, itemCode) d1) = Some "1"
            /\ stepper_visible css_string card itemCode
                 (on_timer css_string (card, itemCode) d1) = true)).
Proof.
  unfold on_add_to_cart_click.
  destruct (closest [[Class "btn-add-to-cart-list"; Attr "data-item-code"]] d target)
    as [btn|]; [|repeat split; intros; congruence].
  destruct (has_class "go-to-cart-grid" btn); [repeat split; intros; congruence|].
  split; [reflexivity|].
  split.
  - intros [|] d1; [congruence|].
    destruct (getAttribute "data-item-code" btn) as [code|]; [|congruence].
    destruct (String.eqb code ""); [congruence|].
    destruct (closest card_selector d (nid btn)); [discriminate|congruence].
  - intros [|] d1 card itemCode; [discriminate|].
    destruct (getAttribute "data-item-code" btn) as [code|] eqn:Ecode; [|discriminate].
    destruct (String.eqb_spec code ""); [discriminate|].
    destruct (closest card_selector d (nid btn)) as [cardEl|] eqn:Ecard;
      [|discriminate].
    intros [= <- <- <-]. split; [reflexivity|]. split; [assumption|]. split.
    + exists btn, cardEl. repeat split; assumption.
    + intros Hs.
      assert (Hs1 : shows_quantity css_string (nid cardEl) code
                      (update (nid btn) (classList_add "hidden") d)).
      { destruct Hs as [Hs|(H1 & H2 & H3)]; [left|right].
        - rewrite displayed_class_only;
            [exact Hs|apply gentle_add|apply class_only_add].
        - rewrite deref_update, stepper_update by apply gentle_add.
          rewrite H2. split; [|split; [reflexivity|exact H3]].
          destruct (deref d (nid cardEl)); [discriminate|congruence]. }
      destruct (@renderQtyControls_shows css_string (nid cardEl) code 1%Z _ n Hs1)
        as (d' & E & D & V).
      unfold on_timer. cbn [fst snd]. rewrite E. split; assumption.
Qed.

(** A click on the Add to Cart button of a card without a stepper. *)
Lemma add_to_cart_click_flow_witness :
  displayed css_string_plain 2 "ITEM-1"
    (on_timer css_string_plain (2, "ITEM-1")
       (fst (on_add_to_cart_click false 6 listing_page))) = Some "1".
Proof.
  destruct (@add_to_cart_click_flow css_string_plain 6 listing_page) as (_ & _ & H).
  destruct (H false (fst (on_add_to_cart_click false 6 listing_page)) 2 "ITEM-1")
    as (_ & _ & _ & S).
  - vm_compute. reflexivity.
  - apply S. right. vm_compute. repeat split; discriminate.
Defined.

(** X23.  The reconciliation leaves hidden indicators alone.  When every
    in-cart indicator and Go to Cart button with an item code below the
    scanned element is hidden, has an empty code or is in no card,
    [syncExistingInCartCards] changes nothing: no stepper appears for an item
    the page does not mark as in the cart. *)
Theorem reconciliation_skips_hidden
  (css_string : string -> option string) (scope : nat) (d s : node) :
  deref d scope = Some s ->
  (forall x,
     In x (descendants s) ->
     has_class "cart-indicator" x = true \/ has_class "go-to-cart-grid" x = true ->
     getAttribute "data-item-code" x <> None ->
     has_class "hidden" x = true
     \/ getAttribute "data-item-code" x = Some ""
     \/ closest card_selector d (nid x) = None) ->
  syncExistingInCartCards css_string scope d = d.
Proof.
  intros Hs H.
  assert (R : forall x,
            In x (descendants s) ->
            has_class "cart-indicator" x = true
            \/ has_class "go-to-cart-grid" x = true ->
            getAttribute "data-item-code" x <> None ->
            reflect_in_cart css_string x d = Some d).
  { intros x Hx Hc Ha. unfold reflect_in_cart.
    destruct (H x Hx Hc Ha) as [-> |[E|E]]; [reflexivity| |].
    - rewrite E. destruct (has_class "hidden" x); reflexivity.
    - rewrite E. destruct (has_class "hidden" x); [reflexivity|].
      destruct (getAttribute "data-item-code" x) as [c|]; [|reflexivity].
      destruct (String.eqb c ""); reflexivity. }
  assert (M : forall cl x,
            matches [[Class cl; Attr "data-item-code"]] x = true ->
            has_class cl x = true /\ getAttribute "data-item-code" x <> None).
  { intros cl x. destruct x as [|i t c a ks]; [discriminate|].
    cbn [matches existsb forallb matches_simple has_class getAttribute].
    destruct (existsb (String.eqb cl) c); [|discriminate].
    destruct (assoc a "data-item-code"); [|discriminate].
    intros _. split; [reflexivity|discriminate]. }
  assert (L : forall l,
            (forall x, In x l -> reflect_in_cart css_string x d = Some d) ->
            each (reflect_in_cart css_string) l d = (d, false)).
  { induction l as [|x l IH]; intros Hl; [reflexivity|]. cbn [each].
    rewrite (Hl x (or_introl eq_refl)). apply IH.
    intros y Hy. apply Hl. right. exact Hy. }
  unfold syncExistingInCartCards. rewrite Hs.
  rewrite L.
  - rewrite L; [reflexivity|].
    intros x Hx. apply filter_In in Hx as [Hx Hm]. apply M in Hm as [Hc Ha].
    apply R; [exact Hx|right; exact Hc|exact Ha].
  - intros x Hx. apply filter_In in Hx as [Hx Hm]. apply M in Hm as [Hc Ha].
    apply R; [exact Hx|left; exact Hc|exact Ha].
Qed.

(** The sample card with its indicator hidden. *)
Lemma reconciliation_skips_hidden_witness :
  let d := update 4 (classList_add "hidden") listing_page in
  syncExistingInCartCards css_string_plain 3 d = d.
Proof.
  cbv zeta.
  apply (@reconciliation_skips_hidden css_string_plain 3 _
           (Elem 3 "div" ["card-img-container"] []
              [ Elem 4 "span" ["cart-indicator"; "hidden"]
                  [("data-item-code", "ITEM-1")] [] ])).
  - reflexivity.
  - intros x [<-|[]] _ _. left. reflexivity.
Defined.

End StepperTheorems.

(* ------------------------------------------------------------------ *)
(** ** Looking up an id after a placement *)
(* ------------------------------------------------------------------ *)

Module SidebarFacts.
Import Dom Coordinator Sidebar DomDefs DomFacts EngineDefs Engine PlaceDefs PlaceFacts SidebarDefs.

Lemma block_inert d id i : i <> id -> inert [[AttrIs "id" i]] (create d (block id)).
Proof.
  intros H. apply create_inert. unfold inert, block.
  cbn [elements flat_map filter matches existsb forallb matches_simple getAttribute
       assoc].
  rewrite String.eqb_refl.
  destruct (String.eqb_spec id i); [congruence|reflexivity].
Qed.

Lemma block_marks d id :
  filter (matches [[AttrIs "id" id]]) (elements (create d (block id))) <> [].
Proof.
  apply create_marks. unfold block.
  cbn [elements flat_map filter matches existsb forallb matches_simple getAttribute
       assoc].
  rewrite !String.eqb_refl. discriminate.
Qed.

(** Looking an id up after a placement of a subtree that does not carry
    it. *)
Lemma getElementById_place i pl w d :
  inert [[AttrIs "id" i]] w ->
  getElementById i (place pl w d) = option_map (place pl w) (getElementById i d).
Proof.
  intros H. unfold getElementById. rewrite filter_elements_place by exact H.
  apply hd_error_map.
Qed.

Lemma getElementById_In i d e :
  getElementById i d = Some e -> In e (elements d).
Proof.
  unfold getElementById. intros H.
  assert (In e (filter (matches [[AttrIs "id" i]]) (elements d))) as F.
  { destruct (filter _ _); [discriminate|]. injection H as ->. left. reflexivity. }
  apply filter_In in F. apply F.
Qed.

Lemma getElementById_placed i pl w d :
  anchored pl d -> filter (matches [[AttrIs "id" i]]) (elements w) <> [] ->
  getElementById i (place pl w d) <> None.
Proof.
  intros Ha Hw. unfold getElementById.
  destruct (filter (matches [[AttrIs "id" i]]) (elements w)) as [|e l] eqn:E;
    [congruence|].
  assert (In e (filter (matches [[AttrIs "id" i]]) (elements w))) as F
    by (rewrite E; left; reflexivity).
  apply filter_In in F as [Hin Hm].
  assert (In e (filter (matches [[AttrIs "id" i]]) (elements (place pl w d)))) as G.
  { apply filter_In. split; [|exact Hm].
    apply descendants_elements. apply placed_in; assumption. }
  destruct (filter _ (elements (place pl w d))); [destruct G|discriminate].
Qed.

Lemma anchored_sidebar i d sidebar :
  getElementById i d = Some sidebar -> anchored (Append (nid sidebar)) d.
Proof. intros H. cbn [anchored]. apply in_map. eapply getElementById_In. exact H. Qed.

Lemma anchored_kept p pl w d :
  anchored (Append p) d -> anchored (Append p) (place pl w d).
Proof.
  cbn [anchored]. rewrite !in_map_iff. intros (x & Hx & Hin).
  exists (place pl w x). rewrite nid_place. split; [exact Hx|].
  apply In_elements_place. exact Hin.
Qed.

(** One block. *)
Lemma ensureBlock_ext sidebar id d : Ext block d (ensureBlock sidebar id d).
Proof.
  unfold ensureBlock. destruct (getElementById id d); [constructor|].
  fold (block id). apply Ext_step. constructor.
Qed.

Lemma ensureBlock_found sidebar id d :
  anchored (Append sidebar) d -> getElementById id (ensureBlock sidebar id d) <> None.
Proof.
  intros Ha. unfold ensureBlock. destruct (getElementById id d) eqn:E.
  - rewrite E. discriminate.
  - apply getElementById_placed; [exact Ha|apply block_marks].
Qed.

Lemma ensureBlock_other sidebar id i d :
  i <> id ->
  option_map nid (getElementById i (ensureBlock sidebar id d))
  = option_map nid (getElementById i d).
Proof.
  intros H. unfold ensureBlock. destruct (getElementById id d); [reflexivity|].
  rewrite getElementById_place by (apply block_inert; exact H).
  destruct (getElementById i d); cbn [option_map]; [|reflexivity].
  rewrite nid_place. reflexivity.
Qed.

Lemma ensureBlock_anchored sidebar id p d :
  anchored (Append p) d -> anchored (Append p) (ensureBlock sidebar id d).
Proof.
  intros H. unfold ensureBlock. destruct (getElementById id d); [exact H|].
  apply anchored_kept. exact H.
Qed.

Lemma ensureBlock_present sidebar id d :
  getElementById id d <> None -> ensureBlock sidebar id d = d.
Proof. unfold ensureBlock. destruct (getElementById id d); [reflexivity|congruence]. Qed.

Lemma ensureBlock_keeps sidebar id i d :
  getElementById i d <> None -> getElementById i (ensureBlock sidebar id d) <> None.
Proof.
  intros H. destruct (String.eqb_spec i id) as [->|N].
  - rewrite ensureBlock_present by exact H. exact H.
  - pose proof (@ensureBlock_other sidebar id i d N) as E.
    destruct (getElementById i d); [|congruence].
    destruct (getElementById i (ensureBlock sidebar id d)); discriminate.
Qed.

End SidebarFacts.

(* ------------------------------------------------------------------ *)
(** ** The containers of the sidebar *)
(* ------------------------------------------------------------------ *)

Module SidebarTheorems.
Import Dom Coordinator Sidebar DomDefs DomFacts EngineDefs Engine PlaceDefs PlaceFacts SidebarDefs SidebarFacts.

(** X16.  The facet containers.  On a page without the sidebar
    [product-filters], [initCatalogFacets] changes nothing.  On a page with
    it, afterwards each of the ids [facet-price-ranges], [facet-offers] and
    [facet-badges] is the id of an element; an id that was the id of an
    element before still finds that element (no second one is created);
    running it again changes nothing; and taking the created elements out
    gives the page as it was. *)
Theorem facet_containers_ensured (d : node) :
  match getElementById "product-filters" d with
  | None => initCatalogFacets d = d
  | Some sidebar =>
      let d' := initCatalogFacets d in
      (forall id, In id facet_ids -> getElementById id d' <> None)
      /\ (forall id e, getElementById id d = Some e ->
            option_map nid (getElementById id d') = Some (nid e))
      /\ initCatalogFacets d' = d'
      /\ without_created (fresh d) d' = d
  end.
Proof.
  unfold initCatalogFacets.
  destruct (getElementById "product-filters" d) as [sidebar|] eqn:S; [|reflexivity].
  cbv zeta. unfold ensureFacetContainers.
  set (s := nid sidebar).
  set (d1 := ensureBlock s "facet-price-ranges" d).
  set (d2 := ensureBlock s "facet-offers" d1).
  set (d3 := ensureBlock s "facet-badges" d2).
  assert (A0 : anchored (Append s) d) by (eapply anchored_sidebar; exact S).
  assert (A1 : anchored (Append s) d1) by (apply ensureBlock_anchored; exact A0).
  assert (A2 : anchored (Append s) d2) by (apply ensureBlock_anchored; exact A1).
  assert (F1 : getElementById "facet-price-ranges" d3 <> None).
  { apply ensureBlock_keeps, ensureBlock_keeps, ensureBlock_found. exact A0. }
  assert (F2 : getElementById "facet-offers" d3 <> None).
  { apply ensureBlock_keeps, ensureBlock_found. exact A1. }
  assert (F3 : getElementById "facet-badges" d3 <> None).
  { apply ensureBlock_found. exact A2. }
  assert (K : forall j x id,
            getElementById id x <> None ->
            option_map nid (getElementById id (ensureBlock s j x))
            = option_map nid (getElementById id x)).
  { intros j x id H. destruct (String.eqb_spec id j) as [->|N].
    - rewrite ensureBlock_present by exact H. reflexivity.
    - apply ensureBlock_other. exact N. }
  assert (E : forall id e, getElementById id d = Some e ->
                option_map nid (getElementById id d3) = Some (nid e)).
  { intros id e H.
    assert (H0 : getElementById id d <> None) by congruence.
    pose proof (@ensureBlock_keeps s "facet-price-ranges" id d H0) as H1. fold d1 in H1.
    pose proof (@ensureBlock_keeps s "facet-offers" id d1 H1) as H2. fold d2 in H2.
    unfold d3. rewrite (K _ _ _ H2). unfold d2. rewrite (K _ _ _ H1).
    unfold d1. rewrite (K _ _ _ H0). rewrite H. reflexivity. }
  split; [|split; [|split]].
  - intros id [<-|[<-|[<-|[]]]]; assumption.
  - exact E.
  - pose proof (E _ _ S) as S3.
    destruct (getElementById "product-filters" d3) as [sidebar'|]; [|discriminate].
    injection S3 as S3. rewrite S3. fold s.
    assert (P1 : ensureBlock s "facet-price-ranges" d3 = d3)
      by (apply ensureBlock_present; exact F1).
    assert (P2 : ensureBlock s "facet-offers" d3 = d3)
      by (apply ensureBlock_present; exact F2).
    rewrite P1, P2.
    apply ensureBlock_present. exact F3.
  - apply ext_untouched with (overlay := block).
    + intros p. left. reflexivity.
    + eapply ext_trans; [|apply ensureBlock_ext].
      eapply ext_trans; [|apply ensureBlock_ext]. apply ensureBlock_ext.
Qed.

End SidebarTheorems.

(* ------------------------------------------------------------------ *)
(** ** Classes of the sidebar and the body *)
(* ------------------------------------------------------------------ *)

Module ToggleFacts.
Import Dom Coordinator MobileFilters DomDefs DomFacts UpdateDefs UpdateFacts QtyDefs QtyFacts NewStepper SidebarFacts.

Lemma has_class_place c pl w n : has_class c (place pl w n) = has_class c n.
Proof. destruct n as [s|i t cs a ks]; [reflexivity|]. destruct pl; reflexivity. Qed.

Lemma keeps_id i f : class_only f -> keeps [[AttrIs "id" i]] f.
Proof.
  intros C j t c a ks.
  cbn [matches existsb forallb matches_simple getAttribute].
  rewrite (C (c, a)). reflexivity.
Qed.

Lemma getElementById_update i r f d :
  class_only f ->
  getElementById i (update r f d) = option_map (update r f) (getElementById i d).
Proof.
  intros C. unfold getElementById.
  rewrite elements_update, filter_map_keeps by (apply keeps_id; exact C).
  apply hd_error_map.
Qed.

Lemma class_only_offcanvas : class_only offcanvas.
Proof. intros ca. reflexivity. Qed.

Lemma has_class_removed c cl cs :
  c <> cl ->
  existsb (String.eqb c) (filter (fun x => negb (String.eqb x cl)) cs)
  = existsb (String.eqb c) cs.
Proof. apply has_class_remove. Qed.

Lemma class_removed cl cs :
  existsb (String.eqb cl) (filter (fun x => negb (String.eqb x cl)) cs) = false.
Proof.
  induction cs as [|x cs IH]; [reflexivity|]. cbn [filter].
  destruct (String.eqb_spec x cl) as [->|N]; cbn [negb]; [exact IH|].
  cbn [existsb]. rewrite IH.
  destruct (String.eqb_spec cl x); [congruence|reflexivity].
Qed.

Lemma class_added cl cs :
  existsb (String.eqb cl) (if existsb (String.eqb cl) cs then cs else cs ++ [cl])
  = true.
Proof.
  destruct (existsb (String.eqb cl) cs) eqn:E; [exact E|].
  rewrite existsb_app. cbn [existsb]. rewrite String.eqb_refl.
  rewrite orb_true_r. reflexivity.
Qed.

(** The classes of the sidebar after the three writes. *)
Lemma offcanvas_classes n :
  In n (elements n) ->
  let n' := update (nid n) offcanvas n in
  has_class "offcanvas-filters" n' = true
  /\ has_class "collapse" n' = false
  /\ has_class "show" n' = false.
Proof.
  destruct n as [s|i t c a ks]; [intros []|]. intros _. cbv zeta.
  rewrite update_Elem. cbn [nid]. rewrite Nat.eqb_refl.
  unfold offcanvas, classList_remove, classList_add. cbn [fst snd has_class].
  split; [|split].
  - rewrite !has_class_removed by discriminate. apply class_added.
  - rewrite has_class_removed by discriminate. apply class_removed.
  - apply class_removed.
Qed.

Lemma toggleBtn_inert translate d i :
  i <> "toggle-filters" -> inert [[AttrIs "id" i]] (create d (toggleBtn translate)).
Proof.
  intros H. apply create_inert. unfold inert, toggleBtn.
  cbn [elements flat_map Datatypes.app filter matches existsb forallb matches_simple
       getAttribute assoc].
  change (String.eqb "type" "id") with false. rewrite String.eqb_refl. cbv iota.
  destruct (String.eqb_spec "toggle-filters" i); [congruence|reflexivity].
Qed.

Lemma toggleBtn_marks translate d :
  filter (matches [[AttrIs "id" "toggle-filters"]])
    (elements (create d (toggleBtn translate))) <> [].
Proof. apply create_marks. unfold toggleBtn. cbn. discriminate. Qed.

Lemma backdrop_inert d i :
  i <> "filters-backdrop" -> inert [[AttrIs "id" i]] (create d backdrop).
Proof.
  intros H. apply create_inert. unfold inert, backdrop.
  cbn [elements flat_map Datatypes.app filter matches existsb forallb matches_simple
       getAttribute assoc].
  rewrite String.eqb_refl.
  destruct (String.eqb_spec "filters-backdrop" i); [congruence|reflexivity].
Qed.

Lemma backdrop_marks d :
  filter (matches [[AttrIs "id" "filters-backdrop"]]) (elements (create d backdrop))
  <> [].
Proof. apply create_marks. unfold backdrop. cbn. discriminate. Qed.

End ToggleFacts.

(* ------------------------------------------------------------------ *)
(** ** The filter toggle *)
(* ------------------------------------------------------------------ *)

Module ToggleTheorems.
Import Dom Coordinator MobileFilters DomDefs DomFacts UpdateDefs UpdateFacts QtyDefs QtyFacts NewStepper SidebarFacts ToggleFacts.

Section Toggle.
Variable translate : string -> string.
Variable body : nat.

Local Abbreviation init := (initMobileFilterToggle translate body).

(** What a run that gets past the guards leaves. *)
Lemma init_full d sidebar productListing col :
  getElementById "product-filters" d = Some sidebar ->
  has_class "offcanvas-filters" sidebar = false ->
  getElementById "product-listing" d = Some productListing ->
  closest [[Class "col-md-9"]; [Class "col-12"]] d (nid productListing) = Some col ->
  getElementById "toggle-filters" d = None ->
  (exists sidebar',
     getElementById "product-filters" (init d) = Some sidebar'
     /\ nid sidebar' = nid sidebar
     /\ has_class "offcanvas-filters" sidebar' = true
     /\ has_class "collapse" sidebar' = false
     /\ has_class "show" sidebar' = false)
  /\ getElementById "toggle-filters" (init d) <> None
  /\ (In body (map nid (elements d)) ->
      getElementById "filters-backdrop" (init d) <> None).
Proof.
  intros Hs Hc Hp Hcol Ht.
  set (d1 := update (nid sidebar) offcanvas d).
  set (w := create d1 (toggleBtn translate)).
  set (d2 := place (Prepend (nid productListing)) w d1).
  assert (E : init d
              = match getElementById "filters-backdrop" d2 with
                | Some _ => d2
                | None => place (Append body) (create d2 backdrop) d2
                end).
  { unfold initMobileFilterToggle. rewrite Hs, Hc, Hp, Hcol, Ht. reflexivity. }
  assert (Sin : In sidebar (elements sidebar)).
  { eapply elements_self, getElementById_In. exact Hs. }
  destruct (offcanvas_classes sidebar Sin) as (C1 & C2 & C3). cbv zeta in C1, C2, C3.
  assert (S1 : getElementById "product-filters" d1
               = Some (update (nid sidebar) offcanvas sidebar)).
  { unfold d1. rewrite getElementById_update by apply class_only_offcanvas.
    rewrite Hs. reflexivity. }
  assert (S2 : getElementById "product-filters" d2
               = Some (place (Prepend (nid productListing)) w
                         (update (nid sidebar) offcanvas sidebar))).
  { unfold d2. rewrite getElementById_place
      by (apply toggleBtn_inert; discriminate).
    rewrite S1. reflexivity. }
  assert (P1 : anchored (Prepend (nid productListing)) d1).
  { cbn [anchored]. unfold d1. rewrite elements_update, map_map.
    apply in_map_iff. exists productListing. split; [apply nid_update|].
    eapply getElementById_In. exact Hp. }
  assert (T2 : getElementById "toggle-filters" d2 <> None).
  { unfold d2. apply getElementById_placed; [exact P1|apply toggleBtn_marks]. }
  assert (B2 : In body (map nid (elements d)) -> anchored (Append body) d2).
  { intros Hb. cbn [anchored]. apply in_map_iff in Hb as (x & Hx & Hin).
    apply in_map_iff.
    exists (place (Prepend (nid productListing)) w (update (nid sidebar) offcanvas x)).
    rewrite nid_place, nid_update. split; [exact Hx|].
    unfold d2. apply In_elements_place. unfold d1. rewrite elements_update.
    apply in_map. exact Hin. }
  rewrite E. destruct (getElementById "filters-backdrop" d2) eqn:B.
  - split; [|split].
    + eexists. split; [exact S2|]. rewrite nid_place, nid_update, !has_class_place.
      repeat split; assumption.
    + exact T2.
    + intros _. rewrite B. discriminate.
  - split; [|split].
    + eexists. split.
      * rewrite getElementById_place by (apply backdrop_inert; discriminate).
        rewrite S2. reflexivity.
      * rewrite !nid_place, nid_update, !has_class_place. repeat split; assumption.
    + rewrite getElementById_place by (apply backdrop_inert; discriminate).
      destruct (getElementById "toggle-filters" d2); [discriminate|congruence].
    + intros Hb. apply getElementById_placed; [apply B2, Hb|apply backdrop_marks].
Qed.

Lemma init_cases d :
  init d = d
  \/ exists sidebar productListing col,
       getElementById "product-filters" d = Some sidebar
       /\ has_class "offcanvas-filters" sidebar = false
       /\ getElementById "product-listing" d = Some productListing
       /\ closest [[Class "col-md-9"]; [Class "col-12"]] d (nid productListing)
          = Some col
       /\ getElementById "toggle-filters" d = None.
Proof.
  unfold initMobileFilterToggle.
  destruct (getElementById "product-filters" d) as [sidebar|]; [|left; reflexivity].
  destruct (has_class "offcanvas-filters" sidebar) eqn:C; [left; reflexivity|].
  destruct (getElementById "product-listing" d) as [pl|]; [|left; reflexivity].
  destruct (closest _ d (nid pl)) as [col|] eqn:Col; [|left; reflexivity].
  destruct (getElementById "toggle-filters" d) eqn:T; [left; reflexivity|].
  right. exists sidebar, pl, col. repeat split; assumption.
Qed.

Lemma init_twice d : init (init d) = init d.
Proof.
  destruct (init_cases d) as [E|(sidebar & pl & col & Hs & Hc & Hp & Hcol & Ht)].
  - rewrite !E. reflexivity.
  - destruct (@init_full d sidebar pl col Hs Hc Hp Hcol Ht) as ((sb' & S' & _ & C' & _) & _).
    unfold initMobileFilterToggle at 1. rewrite S', C'. reflexivity.
Qed.

End Toggle.

(** X25.  The filter toggle of narrow screens.  Setting it up twice is
    setting it up once.  When the page has the sidebar [product-filters]
    without the class [offcanvas-filters], the listing inside a column and no
    element [toggle-filters] yet, then afterwards the sidebar has the class
    [offcanvas-filters] and neither [collapse] nor [show], the page has the
    toggle button, and (the body being in the page) the backdrop.  A click on
    the toggle button flips the class [filters-open] of the body, and a click
    on the backdrop takes it away. *)
Theorem filter_toggle_set_up (translate : string -> string) (body : nat) (d : node) :
  initMobileFilterToggle translate body (initMobileFilterToggle translate body d)
  = initMobileFilterToggle translate body d
  /\ (forall sidebar productListing col,
        getElementById "product-filters" d = Some sidebar ->
        has_class "offcanvas-filters" sidebar = false ->
        getElementById "product-listing" d = Some productListing ->
        closest [[Class "col-md-9"]; [Class "col-12"]] d (nid productListing)
        = Some col ->
        getElementById "toggle-filters" d = None ->
        In body (map nid (elements d)) ->
        let d' := initMobileFilterToggle translate body d in
        (exists sidebar',
           getElementById "product-filters" d' = Some sidebar'
           /\ nid sidebar' = nid sidebar
           /\ has_class "offcanvas-filters" sidebar' = true
           /\ has_class "collapse" sidebar' = false
           /\ has_class "show" sidebar' = false)
        /\ getElementById "toggle-filters" d' <> None
        /\ getElementById "filters-backdrop" d' <> None)
  /\ (forall b,
        deref d body = Some b ->
        (exists b',
           deref (on_toggle_click body d) body = Some b'
           /\ has_class "filters-open" b' = negb (has_class "filters-open" b))
        /\ (exists b',
              deref (on_backdrop_click body d) body = Some b'
              /\ has_class "filters-open" b' = false)).
Proof.
  split; [apply init_twice|]. split.
  - intros sidebar pl col Hs Hc Hp Hcol Ht Hb d'.
    destruct (@init_full translate body d sidebar pl col Hs Hc Hp Hcol Ht)
      as (S & T & B).
    split; [exact S|]. split; [exact T|apply B, Hb].
  - intros b Hd.
    assert (Hi : nid b = body) by (eapply deref_nid; exact Hd).
    assert (Hin : In b (elements b)).
    { eapply elements_self, deref_Some. exact Hd. }
    destruct b as [s|i t c a ks]; [destruct Hin|]. cbn [nid] in Hi. subst i.
    split.
    + unfold on_toggle_click. rewrite Hd.
      destruct (has_class "filters-open" (Elem body t c a ks)) eqn:F.
      * eexists. split; [rewrite deref_update, Hd; reflexivity|].
        rewrite update_Elem, Nat.eqb_refl. unfold classList_remove.
        cbn [fst has_class negb]. apply class_removed.
      * eexists. split; [rewrite deref_update, Hd; reflexivity|].
        rewrite update_Elem, Nat.eqb_refl. unfold classList_add.
        cbn [fst has_class negb]. apply class_added.
    + unfold on_backdrop_click. eexists.
      split; [rewrite deref_update, Hd; reflexivity|].
      rewrite update_Elem, Nat.eqb_refl. unfold classList_remove.
      cbn [fst has_class]. apply class_removed.
Qed.

End ToggleTheorems.

(* ------------------------------------------------------------------ *)
(** ** Children of a button *)
(* ------------------------------------------------------------------ *)

Module ButtonFacts.
Import Dom Coordinator Buttons DomDefs DomFacts UpdateFacts NewStepper.

Lemma set_children_Elem ref f i t c a ks :
  set_children ref f (Elem i t c a ks)
  = Elem i t c a (if (i =? ref)%nat then f ks else map (set_children ref f) ks).
Proof. cbn [set_children]. destruct (i =? ref)%nat; reflexivity. Qed.

Lemma set_children_comp ref g' g n :
  set_children ref g' (set_children ref g n)
  = set_children ref (fun ks => g' (g ks)) n.
Proof.
  induction n as [s|i t c a ks IH] using node_induction; [reflexivity|].
  rewrite !set_children_Elem. destruct (i =? ref)%nat eqn:E; [reflexivity|].
  f_equal. rewrite map_map. apply map_ext_in. rewrite Forall_forall in IH. exact IH.
Qed.

Lemma set_children_ext ref f g n :
  (forall ks, f ks = g ks) -> set_children ref f n = set_children ref g n.
Proof.
  intros H. induction n as [s|i t c a ks IH] using node_induction; [reflexivity|].
  rewrite !set_children_Elem. destruct (i =? ref)%nat; [rewrite H; reflexivity|].
  f_equal. apply map_ext_in. rewrite Forall_forall in IH. exact IH.
Qed.

Lemma ancestors_set_children ref f n :
  ancestors ref (set_children ref f n)
  = option_map (map (set_children ref f)) (ancestors ref n).
Proof.
  induction n as [s|i t c a ks IH] using node_induction; [reflexivity|].
  rewrite set_children_Elem at 1. cbn [ancestors].
  destruct (i =? ref)%nat eqn:E.
  - cbn [option_map map]. rewrite set_children_Elem, E. reflexivity.
  - assert (F : first_some (map (ancestors ref) (map (set_children ref f) ks))
                = option_map (map (set_children ref f))
                    (first_some (map (ancestors ref) ks))).
    { induction IH as [|k ks' Hk _ IHks]; [reflexivity|].
      cbn [map]. rewrite !first_some_cons, Hk.
      destruct (ancestors ref k); [reflexivity|exact IHks]. }
    rewrite F. destruct (first_some (map (ancestors ref) ks)); cbn [option_map];
      [|reflexivity].
    rewrite map_app. cbn [map]. rewrite set_children_Elem, E. reflexivity.
Qed.

Lemma deref_set_children ref f d :
  deref (set_children ref f d) ref = option_map (set_children ref f) (deref d ref).
Proof.
  unfold deref. rewrite ancestors_set_children.
  destruct (ancestors ref d) as [[|n l]|]; reflexivity.
Qed.

(** *** The loop over the children *)

Lemma blank_iff s : (0 <? String.length s)%nat = false <-> s = "".
Proof. destruct s; cbn; split; congruence. Qed.

Lemma wrap_children_length ks : forall base,
  List.length (wrap_children base ks) = List.length ks.
Proof.
  induction ks as [|k ks IH]; intros base; [reflexivity|].
  destruct k as [text|i t c a l]; cbn [wrap_children].
  - destruct (0 <? _)%nat; cbn [List.length]; rewrite IH; reflexivity.
  - cbn [List.length]. rewrite IH. reflexivity.
Qed.

Lemma wrap_children_texts ks : forall base text,
  In (Text text) (wrap_children base ks) -> trim text = "" /\ In (Text text) ks.
Proof.
  induction ks as [|k ks IH]; intros base text; [intros []|].
  destruct k as [s|i t c a l]; cbn [wrap_children].
  - destruct (0 <? String.length (trim s))%nat eqn:E.
    + intros [H|H]; [discriminate|]. apply IH in H. split; [apply H|right; apply H].
    + intros [H|H].
      * injection H as <-. split; [apply blank_iff; exact E|left; reflexivity].
      * apply IH in H. split; [apply H|right; apply H].
  - intros [H|H]; [discriminate|]. apply IH in H. split; [apply H|right; apply H].
Qed.

Lemma wrap_children_elements ks : forall base k,
  In k ks -> (forall text, k <> Text text) -> In k (wrap_children base ks).
Proof.
  induction ks as [|x ks IH]; intros base k; [intros []|].
  intros [->|H] Hk.
  - destruct k as [s|i t c a l]; [exfalso; apply (Hk s); reflexivity|].
    left. reflexivity.
  - destruct x as [s|i t c a l]; cbn [wrap_children].
    + destruct (0 <? _)%nat; right; apply IH; assumption.
    + right. apply IH; assumption.
Qed.

Lemma wrap_children_blank ks : forall base text,
  In (Text text) ks -> trim text = "" -> In (Text text) (wrap_children base ks).
Proof.
  induction ks as [|x ks IH]; intros base text; [intros []|].
  intros [->|H] Hb.
  - cbn [wrap_children]. rewrite Hb. left. reflexivity.
  - destruct x as [s|i t c a l]; cbn [wrap_children].
    + destruct (0 <? _)%nat; right; apply IH; assumption.
    + right. apply IH; assumption.
Qed.

Lemma wrap_children_labels ks : forall base text,
  In (Text text) ks -> trim text <> "" ->
  exists j, base <= j
            /\ In (Elem j "span" ["cart-label"] [] [Text (trim text)])
                 (wrap_children base ks).
Proof.
  induction ks as [|x ks IH]; intros base text; [intros []|].
  assert (Tail : forall b, In (Text text) ks -> trim text <> "" ->
                 exists j, b <= j
                           /\ In (Elem j "span" ["cart-label"] [] [Text (trim text)])
                                (wrap_children b ks))
    by (intros b; apply IH).
  intros [->|H] Hn.
  - cbn [wrap_children].
    destruct (0 <? String.length (trim text))%nat eqn:E.
    + exists base. split; [lia|left; reflexivity].
    + apply blank_iff in E. contradiction.
  - destruct x as [s|i t c a l]; cbn [wrap_children].
    + destruct (0 <? _)%nat.
      * destruct (Tail (S base) H Hn) as (j & Hj & Hin).
        exists j. split; [lia|right; exact Hin].
      * destruct (Tail base H Hn) as (j & Hj & Hin).
        exists j. split; [exact Hj|right; exact Hin].
    + destruct (Tail base H Hn) as (j & Hj & Hin).
      exists j. split; [exact Hj|right; exact Hin].
Qed.

(** Children without a text to wrap stay as they are. *)
Lemma wrap_children_none ks : forall base,
  (forall text, In (Text text) ks -> trim text = "") -> wrap_children base ks = ks.
Proof.
  induction ks as [|x ks IH]; intros base H; [reflexivity|].
  assert (Hr : forall text, In (Text text) ks -> trim text = "")
    by (intros text Ht; apply H; right; exact Ht).
  destruct x as [s|i t c a l]; cbn [wrap_children].
  - rewrite (H s (or_introl eq_refl)). cbn [String.length Nat.ltb Nat.leb].
    rewrite IH by exact Hr. reflexivity.
  - rewrite IH by exact Hr. reflexivity.
Qed.

Lemma wrap_children_again ks base base' :
  wrap_children base' (wrap_children base ks) = wrap_children base ks.
Proof.
  apply wrap_children_none. intros text H.
  apply wrap_children_texts in H. apply H.
Qed.

End ButtonFacts.

(* ------------------------------------------------------------------ *)
(** ** The label of a cart button *)
(* ------------------------------------------------------------------ *)

Module ButtonTheorems.
Import Dom Coordinator Buttons DomDefs DomFacts UpdateFacts NewStepper ButtonFacts.

(** X24.  Wrapping the label of a cart button.  Wrapping twice is wrapping
    once.  A button that holds a [.cart-label] anywhere is left as it is.
    Otherwise the button keeps its identity, tag, classes and attributes and
    the number of its children: every child element (an icon) and every text
    of white space only stays, every other text child gives way to a new
    [span.cart-label] holding the trimmed text, and no text other than white
    space is left among the children. *)
Theorem button_label_wrapped (btn : nat) (d : node) :
  wrapButtonLabel btn (wrapButtonLabel btn d) = wrapButtonLabel btn d
  /\ forall i t c a ks,
       deref d btn = Some (Elem i t c a ks) ->
       match querySelector [[Class "cart-label"]] (Elem i t c a ks) with
       | Some _ => wrapButtonLabel btn d = d
       | None =>
           exists ks',
             deref (wrapButtonLabel btn d) btn = Some (Elem i t c a ks')
             /\ List.length ks' = List.length ks
             /\ (forall text, In (Text text) ks' -> trim text = "")
             /\ (forall k, In k ks -> (forall text, k <> Text text) -> In k ks')
             /\ (forall text, In (Text text) ks -> trim text = "" ->
                   In (Text text) ks')
             /\ (forall text, In (Text text) ks -> trim text <> "" ->
                   exists j,
                     fresh d <= j
                     /\ In (Elem j "span" ["cart-label"] [] [Text (trim text)]) ks')
       end.
Proof.
  split.
  - destruct (deref d btn) as [b|] eqn:Hd.
    + destruct (querySelector [[Class "cart-label"]] b) eqn:Q.
      * assert (E : wrapButtonLabel btn d = d)
          by (unfold wrapButtonLabel; rewrite Hd, Q; reflexivity).
        rewrite !E. reflexivity.
      * assert (E : wrapButtonLabel btn d
                    = set_children btn (wrap_children (fresh d)) d)
          by (unfold wrapButtonLabel; rewrite Hd, Q; reflexivity).
        rewrite E. unfold wrapButtonLabel.
        destruct (deref (set_children btn (wrap_children (fresh d)) d) btn)
          as [b'|]; [|reflexivity].
        destruct (querySelector [[Class "cart-label"]] b'); [reflexivity|].
        rewrite set_children_comp. apply set_children_ext.
        intros ks. apply wrap_children_again.
    + assert (E : wrapButtonLabel btn d = d)
        by (unfold wrapButtonLabel; rewrite Hd; reflexivity).
      rewrite !E. reflexivity.
  - intros i t c a ks Hd. unfold wrapButtonLabel. rewrite Hd.
    destruct (querySelector [[Class "cart-label"]] (Elem i t c a ks)); [reflexivity|].
    exists (wrap_children (fresh d) ks).
    pose proof (deref_nid _ _ Hd) as Hi. cbn [nid] in Hi.
    split; [|split; [|split; [|split; [|split]]]].
    + rewrite deref_set_children, Hd. cbn [option_map].
      rewrite set_children_Elem. rewrite Hi, Nat.eqb_refl. reflexivity.
    + apply wrap_children_length.
    + intros text H. apply wrap_children_texts in H. apply H.
    + intros k. apply wrap_children_elements.
    + intros text. apply wrap_children_blank.
    + intros text. apply wrap_children_labels.
Qed.

End ButtonTheorems.

(* ------------------------------------------------------------------ *)
(** ** The zoom lens *)
(* ------------------------------------------------------------------ *)

Module ZoomTheorems.
Import Zoom.

Lemma Qle_bool_false a b : Qle_bool a b = false -> (b < a)%Q.
Proof.
  intros H. destruct (Qlt_le_dec b a) as [L|L]; [exact L|].
  apply Qle_bool_iff in L. congruence.
Qed.

(** X17.  The lens stays on the image.  On each axis the lens is never left
    of (above) the container; when the lens is not larger than the container
    it does not reach beyond its right (lower) edge either, and a lens that
    is larger sits at 0; while the pointer is at least half a lens away from
    both edges the lens is centred on it.  A touch moves the lens as the
    mouse does. *)
Theorem lens_stays_inside (client origin extent lens : Q) :
  let x := lens_offset client origin extent lens in
  (0 <= x)%Q
  /\ ((lens <= extent)%Q -> (x + lens <= extent)%Q)
  /\ ((extent < lens)%Q -> (x == 0)%Q)
  /\ ((origin + lens / 2 <= client)%Q ->
      (client <= origin + extent - lens / 2)%Q ->
      (x + lens / 2 == client - origin)%Q)
  /\ forall clientX clientY rect lensWidth lensHeight,
       on_touchmove clientX clientY rect lensWidth lensHeight
       = on_mousemove clientX clientY rect lensWidth lensHeight
       /\ fst (on_mousemove clientX clientY rect lensWidth lensHeight)
          = lens_offset clientX (left rect) (width rect) lensWidth
       /\ snd (on_mousemove clientX clientY rect lensWidth lensHeight)
          = lens_offset clientY (top rect) (height rect) lensHeight.
Proof.
  cbv zeta. unfold lens_offset.
  set (h := (lens / 2)%Q).
  assert (Hh : (lens == 2 * h)%Q) by (unfold h; field).
  clearbody h.
  set (x0 := (client - origin - h)%Q).
  assert (E0 : (x0 == client - origin - h)%Q) by reflexivity.
  clearbody x0.
  destruct (Qle_bool x0 (extent - lens)) eqn:U;
    [apply Qle_bool_iff in U|apply Qle_bool_false in U].
  - destruct (Qle_bool 0 x0) eqn:L;
      [apply Qle_bool_iff in L|apply Qle_bool_false in L];
      repeat split; intros; try reflexivity; try lra; exfalso; lra.
  - destruct (Qle_bool 0 (extent - lens)) eqn:L;
      [apply Qle_bool_iff in L|apply Qle_bool_false in L];
      repeat split; intros; try reflexivity; try lra; exfalso; lra.
Qed.

End ZoomTheorems.

(* ------------------------------------------------------------------ *)
(** ** The slug of a badge type *)
(* ------------------------------------------------------------------ *)

Module SlugFacts.
Import Coordinator SlugDefs.

Lemma slug_char_lower c : slug_char c = true -> lower c = c.
Proof.
  unfold slug_char, lower. set (n := nat_of_ascii c).
  destruct (Nat.leb_spec 65 n), (Nat.leb_spec n 90); cbn [andb]; try reflexivity.
  destruct (Nat.leb_spec 97 n), (Nat.leb_spec n 122), (Nat.leb_spec 48 n),
    (Nat.leb_spec n 57); cbn [andb orb]; try discriminate; lia.
Qed.

Lemma slug_chars_alphabet s : forall b,
  Forall (fun c => slug_char c = true \/ c = "-"%char) (slug_chars b s).
Proof.
  induction s as [|c r IH]; intros b; [constructor|]. cbn [slug_chars].
  destruct (slug_char (lower c)) eqn:E.
  - constructor; [left; exact E|apply IH].
  - destruct b; [apply IH|]. constructor; [right; reflexivity|apply IH].
Qed.

Lemma slug_chars_run s :
  match slug_chars true s with
  | c :: _ => slug_char c = true
  | [] => True
  end.
Proof.
  induction s as [|c r IH]; [exact I|]. cbn [slug_chars].
  destruct (slug_char (lower c)) eqn:E; [exact E|exact IH].
Qed.

Lemma slug_chars_apart s : forall b, dashes_apart (slug_chars b s) = true.
Proof.
  induction s as [|c r IH]; intros b; [reflexivity|]. cbn [slug_chars].
  destruct (slug_char (lower c)) eqn:E.
  - cbn [dashes_apart]. specialize (IH false).
    destruct (slug_chars false r) as [|x l]; [reflexivity|].
    rewrite IH, andb_true_r.
    destruct (Ascii.eqb_spec (lower c) "-"%char) as [D|_]; [|reflexivity].
    rewrite D in E. discriminate E.
  - destruct b; [apply IH|]. cbn [dashes_apart].
    pose proof (slug_chars_run r) as R. specialize (IH true).
    destruct (slug_chars true r) as [|x l]; [reflexivity|].
    rewrite IH, andb_true_r.
    destruct (Ascii.eqb_spec x "-"%char) as [D|_]; [|reflexivity].
    rewrite D in R. discriminate R.
Qed.

Lemma slug_chars_again s : forall b,
  slug_chars false (slug_chars b s) = slug_chars b s
  /\ (b = true -> slug_chars true (slug_chars b s) = slug_chars b s).
Proof.
  induction s as [|c r IH]; intros b; [split; reflexivity|]. cbn [slug_chars].
  destruct (slug_char (lower c)) eqn:E.
  - destruct (IH false) as [I1 _].
    split; [|intros _]; cbn [slug_chars]; rewrite (slug_char_lower _ E), E, I1;
      reflexivity.
  - destruct b.
    + destruct (IH true) as [I1 I2]. split; [exact I1|exact I2].
    + destruct (IH true) as [_ I2]. split; [|discriminate].
      cbn [slug_chars]. change (slug_char (lower "-")) with false. cbv iota.
      rewrite (I2 eq_refl). reflexivity.
Qed.

End SlugFacts.

(* ------------------------------------------------------------------ *)
(** ** The class of a badge *)
(* ------------------------------------------------------------------ *)

Module SlugTheorems.
Import Coordinator SlugDefs SlugFacts.

(** X18.  The class of a badge is made of lower-case letters, digits and
    single dashes.  Every character of the slug of a badge type is a
    lower-case letter, a digit or a dash, no dash follows a dash, and the
    slug of a slug is the slug itself; the badge element carries the classes
    [ce-badge] and [ce-badge-] followed by the slug. *)
Theorem slug_is_a_class_name (type : string) :
  Forall (fun c => slug_char c = true \/ c = "-"%char)
    (list_ascii_of_string (slug type))
  /\ dashes_apart (list_ascii_of_string (slug type)) = true
  /\ slug (slug type) = slug type
  /\ badge_span {| badge_type := type |}
     = Dom.el "span" ["ce-badge"; String.append "ce-badge-" (slug type)]
         [Dom.Text type].
Proof.
  unfold slug. rewrite !list_ascii_of_string_of_list_ascii.
  split; [apply slug_chars_alphabet|]. split; [apply slug_chars_apart|].
  split; [|reflexivity].
  destruct (slug_chars_again (list_ascii_of_string type) false) as [H _].
  rewrite H. reflexivity.
Qed.

End SlugTheorems.

(* ------------------------------------------------------------------ *)
(** ** The last report *)
(* ------------------------------------------------------------------ *)

Module LivenessFacts.
Import Triggers TriggerDefs TriggerFacts.

Lemma settled_last delay ms :
  ms <> [] -> In (last ms 0%N) (settled delay ms).
Proof.
  induction ms as [|t rest IH]; [congruence|]. intros _.
  destruct rest as [|m r]; [left; reflexivity|].
  change (last (t :: m :: r) 0%N) with (last (m :: r) 0%N).
  change (settled delay (t :: m :: r))
    with (if (t + delay <=? m)%N then t :: settled delay (m :: r)
          else settled delay (m :: r)).
  destruct (t + delay <=? m)%N; [right|]; apply IH; discriminate.
Qed.

Lemma settled_length delay ms : List.length (settled delay ms) <= List.length ms.
Proof.
  induction ms as [|t rest IH]; [constructor|].
  destruct rest as [|m r]; [constructor|].
  change (settled delay (t :: m :: r))
    with (if (t + delay <=? m)%N then t :: settled delay (m :: r)
          else settled delay (m :: r)).
  destruct (t + delay <=? m)%N; cbn [List.length] in *; lia.
Qed.

Lemma sorted_le_last ms :
  StronglySorted N.le ms -> forall t, In t ms -> (t <= last ms 0)%N.
Proof.
  induction 1 as [|a rest Hs IH Ha]; [intros t []|].
  rewrite Forall_forall in Ha. intros t [E|Hin].
  - subst t. destruct rest as [|m r]; [cbn; lia|].
    change (last (a :: m :: r) 0%N) with (last (m :: r) 0%N).
    specialize (Ha m (or_introl eq_refl)).
    specialize (IH m (or_introl eq_refl)). lia.
  - destruct rest as [|m r]; [destruct Hin|].
    change (last (a :: m :: r) 0%N) with (last (m :: r) 0%N). apply IH, Hin.
Qed.

End LivenessFacts.

(* ------------------------------------------------------------------ *)
(** ** The observer keeps up *)
(* ------------------------------------------------------------------ *)

Module LivenessTheorems.
Import Triggers TriggerDefs TriggerFacts LivenessFacts.

(** X19.  No mutation of the listing is left without a later badge sync.
    For mutations reported in time order, every mutation is followed, 400 ms
    later or more, by a sync of the badge observer; the last sync comes 400 ms
    after the last mutation; and the observer runs at most one sync per
    mutation. *)
Theorem every_mutation_gets_a_sync (mutations : list N) :
  StronglySorted N.le mutations ->
  (forall t, In t mutations ->
     exists s, In s (observer_syncs Badges mutations) /\ (t + 400 <= s)%N)
  /\ (mutations <> [] ->
      In (last mutations 0 + 400)%N (observer_syncs Badges mutations))
  /\ List.length (observer_syncs Badges mutations) <= List.length mutations.
Proof.
  intros Hs. unfold observer_syncs. cbn [observer_delay].
  rewrite debounce_settled.
  assert (L : mutations <> [] ->
              In (last mutations 0 + 400)%N
                (map (fun t => (t + 400)%N) (settled 400 mutations))).
  { intros Hne. apply in_map_iff. exists (last mutations 0%N).
    split; [reflexivity|]. apply settled_last. exact Hne. }
  split; [|split].
  - intros t Hin. exists (last mutations 0 + 400)%N. split.
    + apply L. intros E. rewrite E in Hin. destruct Hin.
    + pose proof (sorted_le_last Hs t Hin). lia.
  - exact L.
  - rewrite length_map. apply settled_length.
Qed.

(** Mutations at 1000, 1100 and 4000 ms. *)
Lemma every_mutation_gets_a_sync_witness :
  In 4400%N (observer_syncs Badges [1000; 1100; 4000]%N).
Proof.
  assert (Hs : StronglySorted N.le [1000; 1100; 4000]%N).
  { repeat constructor; lia. }
  destruct (@every_mutation_gets_a_sync [1000; 1100; 4000]%N Hs) as (_ & L & _).
  apply L. discriminate.
Defined.

End LivenessTheorems.
